(** * Programmable Matter Simulation: a shallow embedding of the planner,
      the assignment engine, the deadlock handler and the tick scheduler.

    Sources embedded (the final draft of the program):
    - topology.js            : [getDirections], [getNeighbors]
    - bfs.js                 : class BFS
    - astar.js (tail of unnamed/part_002) : class AStar
    - minimax.js (unnamed/part_007), expectimax.js
    - assignmentAlgorithm.js (unnamed/part_004) : class HungarianAlgorithm
    - deadlockHandler.js     : class DeadlockHandler
    - main.js (unnamed/part_002) : startSimulation, assignTargets,
      calculatePath, simulationStep and the escalation helpers, and the
      handlers of the page that rebind [grid] and [agents] or change a
      setting.
    - the earlier draft of main.js (unnamed/part_000) :
      moveAgentTemporarilyForced.

    Conventions.  A position [{x, y}] is a pair [(x, y)] of integers; the
    string key [`${x},${y}`] used by the JavaScript dictionaries is injective
    on integer pairs, so dictionaries keyed by it are maps keyed by the pair.
    A grid is the array of its rows.  Numbers that the program only ever
    builds from 1, 1.414 and integer distances are kept exactly, in
    thousandths. *)

From Stdlib Require Import ZArith QArith Lia.
From Stdlib Require Import String.
From stdpp Require Import gmap list sorting pretty.

Local Open Scope Z_scope.

(** ** Positions and grids *)

Abbreviation Pos := (Z * Z)%type.

Definition Grid := list (list Z).

Definition CELL_EMPTY : Z := 0.
Definition CELL_WALL : Z := 1.
Definition CELL_AGENT : Z := 2.
Definition CELL_TARGET : Z := 3.

(** [grid.length] and [grid[0].length].  For the empty array JavaScript
    raises a TypeError at [grid[0].length]; the model reads 0 columns there. *)
Definition rows (g : Grid) : Z := Z.of_nat (length g).
Definition cols (g : Grid) : Z := Z.of_nat (length (default [] (g !! 0%nat))).

(** [grid[y][x]]; [None] is JavaScript's [undefined]. *)
Definition cell (g : Grid) (x y : Z) : option Z :=
  if (0 <=? x) && (0 <=? y)
  then g !! Z.to_nat y ≫= fun row => row !! Z.to_nat x
  else None.

Definition in_bounds (g : Grid) (p : Pos) : bool :=
  (0 <=? p.1) && (p.1 <? cols g) && (0 <=? p.2) && (p.2 <? rows g).

(** [grid[y][x] === 1] *)
Definition is_wall_cell (g : Grid) (p : Pos) : bool :=
  bool_decide (cell g p.1 p.2 = Some CELL_WALL).

Definition pos_add (p d : Pos) : Pos := (p.1 + d.1, p.2 + d.2).

Definition manhattan (a b : Pos) : Z := Z.abs (a.1 - b.1) + Z.abs (a.2 - b.2).
Definition chebyshev (a b : Pos) : Z := Z.max (Z.abs (a.1 - b.1)) (Z.abs (a.2 - b.2)).

(** ** topology.js *)

Inductive Topology := VonNeumann | Moore.

Definition getDirections (topologyType : Topology) : list Pos :=
  match topologyType with
  | Moore =>
      [ (0, -1); (1, -1); (1, 0); (1, 1); (0, 1); (-1, 1); (-1, 0); (-1, -1) ]
  | VonNeumann =>
      [ (0, -1); (1, 0); (0, 1); (-1, 0) ]
  end.

Definition getNeighbors (x y : Z) (topologyType : Topology) (gridSize : Z) : list Pos :=
  filter (fun n : Pos => 0 <= n.1 ∧ n.1 < gridSize ∧ 0 <= n.2 ∧ n.2 < gridSize)
         (map (pos_add (x, y)) (getDirections topologyType)).

(** ** Parent links shared by the planners

    [reconstructPath(cameFrom, current)] walks the parent dictionary back
    from [current], prepending each parent.  The JavaScript loop has no
    bound; the model gives it as many rounds as the dictionary has entries
    and answers [None] if that is not enough (a cycle of parent links). *)

Fixpoint reconstruct (fuel : nat) (cameFrom : gmap Pos Pos) (current : Pos)
    (path : list Pos) : option (list Pos) :=
  match cameFrom !! current with
  | None => Some path
  | Some p =>
      match fuel with
      | O => None
      | S fuel' => reconstruct fuel' cameFrom p (p :: path)
      end
  end.

Definition reconstructPath (cameFrom : gmap Pos Pos) (current : Pos) : option (list Pos) :=
  reconstruct (size cameFrom) cameFrom current [current].

(** ** bfs.js *)

Module BFS.

Record t := { grid : Grid; directions : list Pos }.

(** [constructor(grid)] declares one parameter.  [createPathfinder] calls
    [new BFS(gridData, currentTopology)]; the second actual argument is
    dropped. *)
Definition new (grid : Grid) (_unused : Topology) : t :=
  {| grid := grid; directions := [ (0, -1); (1, 0); (0, 1); (-1, 0) ] |}.

Record state := { queue : list Pos; visited : gset Pos; parent : gmap Pos Pos }.

(** One pass of the [for (const dir of this.directions)] body. *)
Definition visit (g : Grid) (current : Pos) (st : state) (dir : Pos) : state :=
  let neighbor := pos_add current dir in
  if negb (in_bounds g neighbor) then st
  else if bool_decide (neighbor ∈ visited st) || is_wall_cell g neighbor then st
  else {| queue := queue st ++ [neighbor];
          visited := {[neighbor]} ∪ visited st;
          parent := <[neighbor := current]> (parent st) |}.

(** The [while (queue.length > 0)] loop; [None] when the rounds run out. *)
Fixpoint loop (fuel : nat) (b : t) (goal : Pos) (st : state) : option (list Pos) :=
  match fuel with
  | O => None
  | S fuel' =>
      match queue st with
      | [] => Some []
      | current :: rest =>
          if bool_decide (current = goal) then reconstructPath (parent st) goal
          else
            loop fuel' b goal
              (foldl (visit (grid b) current)
                     {| queue := rest; visited := visited st; parent := parent st |}
                     (directions b))
      end
  end.

Definition fuel (g : Grid) : nat := S (S (2 * (length g * length (default [] (g !! 0%nat))))).

Definition run (b : t) (start goal : Pos) : option (list Pos) :=
  loop (fuel (grid b)) b goal
    {| queue := [start]; visited := {[start]}; parent := ∅ |}.

Definition findPath (b : t) (start goal : Pos) : list Pos :=
  default [] (run b start goal).

End BFS.

(** ** astar.js *)

Module AStar.

Record t := { grid : Grid; topologyType : Topology; directions : list Pos }.

Definition new (grid : Grid) (topologyType : Topology) : t :=
  {| grid := grid; topologyType := topologyType;
     directions := getDirections topologyType |}.

(** [new AStar(grid)]: the default parameter value. *)
Definition new_default (grid : Grid) : t := new grid VonNeumann.

(** Costs in thousandths: an orthogonal step is 1, a diagonal one 1.414. *)
Definition moveCost (dir : Pos) : Z :=
  if Z.abs dir.1 + Z.abs dir.2 =? 2 then 1414 else 1000.

Definition heuristic (a : t) (p q : Pos) : Z :=
  match topologyType a with
  | Moore => 1000 * chebyshev p q
  | VonNeumann => 1000 * manhattan p q
  end.

(** [openSet] holds [{pos, f}] nodes.  [gScore] maps a key to its score;
    a key never scored ([Infinity] after the initialisation loop, or
    [undefined] outside the grid) is absent. *)
Record state := {
  openSet : list (Pos * Z);
  closedSet : gset Pos;
  cameFrom : gmap Pos Pos;
  gScore : gmap Pos Z
}.

(** [openSet.sort((a, b) => a.f - b.f)]: the stable sort on [f]. *)
Fixpoint insert_by_f (n : Pos * Z) (l : list (Pos * Z)) : list (Pos * Z) :=
  match l with
  | [] => [n]
  | m :: l' => if n.2 <=? m.2 then n :: l else m :: insert_by_f n l'
  end.

Definition sort_by_f (l : list (Pos * Z)) : list (Pos * Z) :=
  foldr insert_by_f [] l.

Definition in_open (p : Pos) (l : list (Pos * Z)) : bool :=
  existsb (fun n : Pos * Z => bool_decide (n.1 = p)) l.

(** The closing [for (const node of openSet)] loop: the first node at
    [p] gets the new [f]. *)
Fixpoint set_f (p : Pos) (f : Z) (l : list (Pos * Z)) : list (Pos * Z) :=
  match l with
  | [] => []
  | n :: l' => if bool_decide (n.1 = p) then (n.1, f) :: l' else n :: set_f p f l'
  end.

(** One pass of the [for (const dir of this.directions)] body.  A node
    pushed with [f: Infinity] has its [f] overwritten by the closing loop
    of the same pass, so it is pushed with its final [f] here. *)
Definition relax (a : t) (goal current : Pos) (st : state) (dir : Pos) : state :=
  let neighbor := pos_add current dir in
  if negb (in_bounds (grid a) neighbor) then st
  else if bool_decide (neighbor ∈ closedSet st) || is_wall_cell (grid a) neighbor then st
  else
    match gScore st !! current with
    | None => st
    | Some gcur =>
        let tentativeGScore := gcur + moveCost dir in
        let f := tentativeGScore + heuristic a neighbor goal in
        let record open' :=
          {| openSet := open';
             closedSet := closedSet st;
             cameFrom := <[neighbor := current]> (cameFrom st);
             gScore := <[neighbor := tentativeGScore]> (gScore st) |} in
        if negb (in_open neighbor (openSet st)) then
          record (openSet st ++ [(neighbor, f)])
        else
          match gScore st !! neighbor with
          | Some gn =>
              if gn <=? tentativeGScore then st
              else record (set_f neighbor f (openSet st))
          | None => record (set_f neighbor f (openSet st))
          end
    end.

(** The [while (openSet.length > 0)] loop; [None] when the rounds run out. *)
Fixpoint loop (fuel : nat) (a : t) (goal : Pos) (st : state) : option (list Pos) :=
  match fuel with
  | O => None
  | S fuel' =>
      match sort_by_f (openSet st) with
      | [] => Some []
      | (current, _) :: rest =>
          if bool_decide (current = goal) then reconstructPath (cameFrom st) goal
          else
            loop fuel' a goal
              (foldl (relax a goal current)
                     {| openSet := rest;
                        closedSet := {[current]} ∪ closedSet st;
                        cameFrom := cameFrom st;
                        gScore := gScore st |}
                     (directions a))
      end
  end.

Definition fuel (g : Grid) : nat := S (S (length g * length (default [] (g !! 0%nat)))).

Definition init (a : t) (start goal : Pos) : state :=
  {| openSet := [(start, heuristic a start goal)];
     closedSet := ∅;
     cameFrom := ∅;
     gScore := {[ start := 0 ]} |}.

Definition run (a : t) (start goal : Pos) : option (list Pos) :=
  loop (fuel (grid a)) a goal (init a start goal).

Definition findPath (a : t) (start goal : Pos) : list Pos :=
  default [] (run a start goal).

End AStar.

(** ** minimax.js *)

(** Utilities are integers, with the two infinities used as initial bounds. *)
Inductive ext := NegInf | Fin (z : Z) | PosInf.

Definition ext_leb (a b : ext) : bool :=
  match a, b with
  | NegInf, _ => true
  | _, PosInf => true
  | Fin x, Fin y => x <=? y
  | _, _ => false
  end.
Definition ext_ltb (a b : ext) : bool := negb (ext_leb b a).
Definition ext_max (a b : ext) : ext := if ext_leb a b then b else a.
Definition ext_min (a b : ext) : ext := if ext_leb a b then a else b.

Module Minimax.

Record t := { grid : Grid; topology : Topology; maxDepth : nat }.

Definition new (grid : Grid) (topology : Topology) : t :=
  {| grid := grid; topology := topology; maxDepth := 5 |}.

(** [this.visited] and [this.cameFrom]. *)
Record state := { visited : gset Pos; cameFrom : gmap Pos Pos }.

Definition isWall (m : t) (p : Pos) : bool :=
  if (p.1 <? 0) || (cols (grid m) <=? p.1) || (p.2 <? 0) || (rows (grid m) <=? p.2)
  then true
  else is_wall_cell (grid m) p.

Definition neighbors (m : t) (node : Pos) : list Pos :=
  filter (fun n => isWall m n = false)
         (getNeighbors node.1 node.2 (topology m) (rows (grid m))).

Definition isTerminal (goal state : Pos) : bool := bool_decide (state = goal).

Definition evaluate (goal state : Pos) : ext :=
  if bool_decide (state = goal) then Fin 1000 else Fin (100 - manhattan state goal).

Definition mark (p : Pos) (st : state) : state :=
  {| visited := {[p]} ∪ visited st; cameFrom := cameFrom st |}.
Definition unmark (p : Pos) (st : state) : state :=
  {| visited := visited st ∖ {[p]}; cameFrom := cameFrom st |}.
Definition remember (from to : Pos) (st : state) : state :=
  {| visited := visited st; cameFrom := <[from := to]> (cameFrom st) |}.

(** [maxValue] and [minValue]; [depth] counts down from [maxDepth]. *)
Fixpoint maxValue (depth : nat) (m : t) (goal : Pos) (s : Pos) (alpha beta : ext)
    (st : state) {struct depth} : ext * state :=
  match depth with
  | O => (evaluate goal s, st)
  | S d =>
      if isTerminal goal s then (evaluate goal s, st)
      else
        (fix each (moves : list Pos) (value alpha : ext) (st : state) : ext * state :=
           match moves with
           | [] => (value, st)
           | move :: moves' =>
               if bool_decide (move ∈ visited st) then each moves' value alpha st
               else
                 let '(v, st1) := minValue d m goal move alpha beta (mark move st) in
                 let value' := ext_max value v in
                 let st2 := unmark move st1 in
                 if ext_leb beta value' then (value', st2)
                 else
                   let alpha' := ext_max alpha value' in
                   let st3 := if ext_ltb alpha' value' then remember s move st2 else st2 in
                   each moves' value' alpha' st3
           end) (neighbors m s) NegInf alpha st
  end
with minValue (depth : nat) (m : t) (goal : Pos) (s : Pos) (alpha beta : ext)
    (st : state) {struct depth} : ext * state :=
  match depth with
  | O => (evaluate goal s, st)
  | S d =>
      if isTerminal goal s then (evaluate goal s, st)
      else
        (fix each (moves : list Pos) (value beta : ext) (st : state) : ext * state :=
           match moves with
           | [] => (value, st)
           | move :: moves' =>
               if bool_decide (move ∈ visited st) then each moves' value beta st
               else
                 let '(v, st1) := maxValue d m goal move alpha beta (mark move st) in
                 let value' := ext_min value v in
                 let st2 := unmark move st1 in
                 if ext_leb value' alpha then (value', st2)
                 else each moves' value' (ext_min beta value') st2
           end) (neighbors m s) PosInf beta st
  end.

(** [minimaxDecision(state, depth)] with [depth = S d]; the loop keeps
    [bestValue] and [bestMove]. *)
Fixpoint decide_moves (d : nat) (m : t) (goal s : Pos) (moves : list Pos)
    (bestValue : ext) (bestMove : option Pos) (st : state) : option Pos * state :=
  match moves with
  | [] => (bestMove, st)
  | move :: moves' =>
      if bool_decide (move ∈ visited st) then
        decide_moves d m goal s moves' bestValue bestMove st
      else
        let '(value, st1) := minValue d m goal move NegInf PosInf (mark move st) in
        let st2 := unmark move st1 in
        if ext_ltb bestValue value then
          decide_moves d m goal s moves' value (Some move) (remember s move st2)
        else
          decide_moves d m goal s moves' bestValue bestMove st2
  end.

Definition minimaxDecision (m : t) (goal s : Pos) (depth : nat) (st : state)
    : option Pos * state :=
  decide_moves (Nat.pred depth) m goal s (neighbors m s) NegInf None st.

(** The path-building [while] loop; it stops by itself once the path is
    longer than 1000, so 1000 rounds are exactly what it can run. *)
Fixpoint follow (rounds : nat) (cameFrom : gmap Pos Pos) (goal current : Pos)
    (path : list Pos) : list Pos :=
  match rounds with
  | O => path
  | S r =>
      if bool_decide (current = goal) then path
      else
        match cameFrom !! current with
        | None => path
        | Some next =>
            let path' := path ++ [next] in
            if 1000 <? Z.of_nat (length path') then path'
            else if bool_decide (next = goal) then path'
            else follow r cameFrom goal next path'
        end
  end.

(** The tail of [findPath] shared with Expectimax: complete with A*. *)
Definition complete (g : Grid) (topo : Topology) (goal : Pos) (path : list Pos) : list Pos :=
  match last path with
  | None => path
  | Some l =>
      if bool_decide (l = goal) then path
      else
        let restOfPath := AStar.findPath (AStar.new g topo) l goal in
        if 1 <? Z.of_nat (length restOfPath) then path ++ tail restOfPath
        else path
  end.

Definition findPath (m : t) (start goal : Pos) : list Pos :=
  if isWall m start || isWall m goal then []
  else if bool_decide (start.1 = goal.1) && bool_decide (start.2 = start.2) then [start]
  else
    let '(bestMove, st) :=
      minimaxDecision m goal start (maxDepth m) {| visited := ∅; cameFrom := ∅ |} in
    match bestMove with
    | None => [start]
    | Some _ =>
        complete (grid m) (topology m) goal
          (follow 1000 (cameFrom st) goal start [start])
    end.

End Minimax.

(** ** expectimax.js

    Expectimax computes with fractions (probabilities, open-space bonus).
    Its numbers are an interface: every statement proved about the planner
    below holds for each implementation of the arithmetic, binary64
    included; [QNum] further down is the exact one used to run examples. *)

Class JSNum (num : Type) := {
  n_of_Z : Z -> num;
  n_neg_inf : num;
  n_add : num -> num -> num;
  n_sub : num -> num -> num;
  n_mul : num -> num -> num;
  n_div : num -> num -> num;
  n_max : num -> num -> num;
  n_min : num -> num -> num;
  n_ltb : num -> num -> bool
}.

Module Expectimax.
Section WithNumbers.
Context {num : Type} {N : JSNum num}.

Record t := { grid : Grid; topology : Topology; maxDepth : nat }.

Definition new (grid : Grid) (topology : Topology) : t :=
  {| grid := grid; topology := topology; maxDepth := 4 |}.

Definition isWall (m : t) (p : Pos) : bool :=
  if (p.1 <? 0) || (cols (grid m) <=? p.1) || (p.2 <? 0) || (rows (grid m) <=? p.2)
  then true
  else is_wall_cell (grid m) p.

Definition neighbors (m : t) (node : Pos) : list Pos :=
  filter (fun n => isWall m n = false)
         (getNeighbors node.1 node.2 (topology m) (rows (grid m))).

Definition isTerminal (goal state : Pos) : bool := bool_decide (state = goal).

Definition evaluate (m : t) (goal state : Pos) : num :=
  if bool_decide (state = goal) then n_of_Z 1000
  else
    let distance := manhattan state goal in
    let nbs := getNeighbors state.1 state.2 (topology m) (rows (grid m)) in
    let openNeighbors := Z.of_nat (length (filter (fun n => isWall m n = false) nbs)) in
    let openBonus :=
      n_mul (n_div (n_of_Z openNeighbors)
                   (n_of_Z (match topology m with VonNeumann => 4 | Moore => 8 end)))
            (n_of_Z 10) in
    n_add (n_sub (n_of_Z 100) (n_of_Z distance)) openBonus.

Definition calculateProbability (m : t) (goal nextState currentState : Pos) : num :=
  let base := n_of_Z 1 in
  let base :=
    if manhattan nextState goal <? manhattan currentState goal
    then n_mul base (n_div (n_of_Z 3) (n_of_Z 2))
    else n_mul base (n_div (n_of_Z 1) (n_of_Z 2)) in
  let nbs := getNeighbors nextState.1 nextState.2 (topology m) (rows (grid m)) in
  let wallCount := Z.of_nat (length (filter (fun n => isWall m n = true) nbs)) in
  let base :=
    if 0 <? wallCount
    then n_mul base
           (n_sub (n_of_Z 1)
                  (n_div (n_of_Z wallCount) (n_of_Z (Z.of_nat (length nbs) * 2))))
    else base in
  n_max (n_of_Z 0) (n_min (n_of_Z 1) base).

Definition mark (p : Pos) (st : Minimax.state) : Minimax.state := Minimax.mark p st.
Definition unmark (p : Pos) (st : Minimax.state) : Minimax.state := Minimax.unmark p st.
Definition remember (from to : Pos) (st : Minimax.state) : Minimax.state :=
  Minimax.remember from to st.

Fixpoint maxValue (depth : nat) (m : t) (goal : Pos) (s : Pos)
    (st : Minimax.state) {struct depth} : num * Minimax.state :=
  match depth with
  | O => (evaluate m goal s, st)
  | S d =>
      if isTerminal goal s then (evaluate m goal s, st)
      else
        match neighbors m s with
        | [] => (evaluate m goal s, st)
        | moves =>
            (fix each (moves : list Pos) (value : num) (st : Minimax.state)
               : num * Minimax.state :=
               match moves with
               | [] => (value, st)
               | move :: moves' =>
                   if bool_decide (move ∈ Minimax.visited st) then each moves' value st
                   else
                     let '(v, st1) := expectValue d m goal move (mark move st) in
                     let value' := n_max value v in
                     let st2 := unmark move st1 in
                     let st3 := if n_ltb n_neg_inf value' then remember s move st2 else st2 in
                     each moves' value' st3
               end) moves n_neg_inf st
        end
  end
with expectValue (depth : nat) (m : t) (goal : Pos) (s : Pos)
    (st : Minimax.state) {struct depth} : num * Minimax.state :=
  match depth with
  | O => (evaluate m goal s, st)
  | S d =>
      if isTerminal goal s then (evaluate m goal s, st)
      else
        match neighbors m s with
        | [] => (evaluate m goal s, st)
        | moves =>
            let '(expectedValue, validMoves, st') :=
              (fix each (moves : list Pos) (expectedValue : num) (validMoves : nat)
                   (st : Minimax.state) : num * nat * Minimax.state :=
                 match moves with
                 | [] => (expectedValue, validMoves, st)
                 | move :: moves' =>
                     if bool_decide (move ∈ Minimax.visited st)
                     then each moves' expectedValue validMoves st
                     else
                       let '(v, st1) := maxValue d m goal move (mark move st) in
                       each moves'
                         (n_add expectedValue (n_mul (calculateProbability m goal move s) v))
                         (S validMoves) (unmark move st1)
                 end) moves (n_of_Z 0) O st in
            match validMoves with
            | O => (evaluate m goal s, st')
            | S _ => (expectedValue, st')
            end
        end
  end.

Fixpoint decide_moves (d : nat) (m : t) (goal s : Pos) (moves : list Pos)
    (bestValue : num) (bestMove : option Pos) (st : Minimax.state)
    : option Pos * Minimax.state :=
  match moves with
  | [] => (bestMove, st)
  | move :: moves' =>
      if bool_decide (move ∈ Minimax.visited st) then
        decide_moves d m goal s moves' bestValue bestMove st
      else
        let '(value, st1) := expectValue d m goal move (mark move st) in
        let st2 := unmark move st1 in
        if n_ltb bestValue value then
          decide_moves d m goal s moves' value (Some move) (remember s move st2)
        else
          decide_moves d m goal s moves' bestValue bestMove st2
  end.

Definition expectimaxDecision (m : t) (goal s : Pos) (depth : nat) (st : Minimax.state)
    : option Pos * Minimax.state :=
  decide_moves (Nat.pred depth) m goal s (neighbors m s) n_neg_inf None st.

Definition findPath (m : t) (start goal : Pos) : list Pos :=
  if isWall m start || isWall m goal then []
  else if bool_decide (start.1 = goal.1) && bool_decide (start.2 = start.2) then [start]
  else
    let '(bestMove, st) :=
      expectimaxDecision m goal start (maxDepth m)
        {| Minimax.visited := ∅; Minimax.cameFrom := ∅ |} in
    match bestMove with
    | None => [start]
    | Some _ =>
        Minimax.complete (grid m) (topology m) goal
          (Minimax.follow 1000 (Minimax.cameFrom st) goal start [start])
    end.

End WithNumbers.
End Expectimax.

(** ** assignmentAlgorithm.js *)

Module HungarianAlgorithm.

(** [{row, col}] and [{agent, target}] are pairs of array indices. *)
Abbreviation Assignment := (nat * nat)%type.

Definition manhattanDistance (a b : Pos) : Z := manhattan a b.

(** [createCostMatrix]: one row per agent, one entry per target. *)
Definition cost (grid : Grid) (agent target : Pos) : Z :=
  let path := AStar.findPath (AStar.new_default grid) agent target in
  if 0 <? Z.of_nat (length path)
  then Z.of_nat (length path) - 1
  else manhattanDistance agent target * 10.

Definition createCostMatrix (agents targets : list Pos) (grid : Grid) : list (list Z) :=
  map (fun a => map (fun t => cost grid a t) targets) agents.

(** Step 1, one row: [Math.min(...costs[i])] subtracted from the row. *)
Definition subtractRowMin (row : list Z) : list Z :=
  match row with
  | [] => []
  | c :: _ => let minVal := foldr Z.min c row in map (fun v => v - minVal) row
  end.

(** Step 2, one column; [None] is the initial [Infinity]. *)
Definition columnMin (costs : list (list Z)) (j : nat) : option Z :=
  foldl (fun minVal row =>
           match row !! j, minVal with
           | Some v, None => Some v
           | Some v, Some m => if v <? m then Some v else Some m
           | None, _ => minVal
           end) None costs.

Definition subtractColumnMin (costs : list (list Z)) (j : nat) : list (list Z) :=
  match columnMin costs j with
  | Some minVal => map (alter (fun v => v - minVal) j) costs
  | None => costs
  end.

(** The inner loop of the greedy pass: the uncovered column of least cost,
    the first such on ties; [minJ = None] is the initial [-1]. *)
Fixpoint pickColumn (row : list Z) (colCovered : list bool) (j : nat)
    (minVal : option Z) (minJ : option nat) : option nat :=
  match row with
  | [] => minJ
  | c :: row' =>
      let better :=
        negb (default true (colCovered !! j)) &&
        match minVal with None => true | Some m => c <? m end in
      if better then pickColumn row' colCovered (S j) (Some c) (Some j)
      else pickColumn row' colCovered (S j) minVal minJ
  end.

Record cover := {
  assignments : list Assignment;
  rowCovered : list bool;
  colCovered : list bool
}.

Definition greedyRow (w : nat) (cv : cover) (irow : nat * list Z) : cover :=
  match pickColumn (take w irow.2) (colCovered cv) 0 None None with
  | Some minJ =>
      {| assignments := assignments cv ++ [(irow.1, minJ)];
         rowCovered := <[irow.1 := true]> (rowCovered cv);
         colCovered := <[minJ := true]> (colCovered cv) |}
  | None => cv
  end.

(** The second pass: a row left uncovered takes the first uncovered
    column (and, as in the source, is not itself marked covered). *)
Definition firstUncovered (w : nat) (colCovered : list bool) : option nat :=
  list_find (fun b : bool => b = false) (take w colCovered) ≫= fun r => Some r.1.

Definition leftoverRow (w : nat) (cv : cover) (i : nat) : cover :=
  if default true (rowCovered cv !! i) then cv
  else
    match firstUncovered w (colCovered cv) with
    | Some j =>
        {| assignments := assignments cv ++ [(i, j)];
           rowCovered := rowCovered cv;
           colCovered := <[j := true]> (colCovered cv) |}
    | None => cv
    end.

Definition findAssignments (costs : list (list Z)) (h w : nat) : list Assignment :=
  let cv0 := {| assignments := []; rowCovered := replicate h false;
                colCovered := replicate w false |} in
  let cv1 := foldl (greedyRow w) cv0 (imap (fun i row => (i, row)) (take h costs)) in
  assignments (foldl (leftoverRow w) cv1 (seq 0 h)).

Definition hungarianAlgorithm (costMatrix : list (list Z)) : list Assignment :=
  match costMatrix with
  | [] => []
  | row0 :: _ =>
      let h := length costMatrix in
      let w := length row0 in
      let costs := map subtractRowMin costMatrix in
      let costs := foldl subtractColumnMin costs (seq 0 w) in
      findAssignments costs h w
  end.

(** The final [map] only renames the fields. *)
Definition findOptimalAssignment (agents targets : list Pos) (grid : Grid)
    : list Assignment :=
  hungarianAlgorithm (createCostMatrix agents targets grid).

End HungarianAlgorithm.

(** ** Agents

    An agent object of main.js.  [targetX]/[targetY] are [null] until an
    assignment runs ([None]); [visibilityRange] is a number or [Infinity]
    ([None]).  The fields [needsToReturnToTarget], [originalTarget],
    [targetCooldown] and [needsRecalculation] are written by the escalation
    helpers and never read back. *)

Record Agent := {
  id : Z;
  x : Z;
  y : Z;
  targetX : option Z;
  targetY : option Z;
  path : list Pos;
  isRetreating : bool;
  visibilityRange : option Z;
  needsToReturnToTarget : bool;
  originalTarget : option Pos;
  targetCooldown : Z;
  needsRecalculation : bool
}.

Definition pos (a : Agent) : Pos := (x a, y a).

(** [a.x === a.targetX && a.y === a.targetY] *)
Definition atTarget (a : Agent) : bool :=
  bool_decide (targetX a = Some (x a)) && bool_decide (targetY a = Some (y a)).

(** A [null] coordinate counts as 0 in arithmetic. *)
Definition num (o : option Z) : Z := default 0 o.

(** [Math.abs(a.x - a.targetX) + Math.abs(a.y - a.targetY)] and the like. *)
Definition distTo (p : Pos) (tx ty : option Z) : Z :=
  Z.abs (p.1 - num tx) + Z.abs (p.2 - num ty).

Definition set_path (p : list Pos) (a : Agent) : Agent :=
  {| id := id a; x := x a; y := y a; targetX := targetX a; targetY := targetY a;
     path := p; isRetreating := isRetreating a; visibilityRange := visibilityRange a;
     needsToReturnToTarget := needsToReturnToTarget a; originalTarget := originalTarget a;
     targetCooldown := targetCooldown a; needsRecalculation := needsRecalculation a |}.

Definition set_pos (p : Pos) (a : Agent) : Agent :=
  {| id := id a; x := p.1; y := p.2; targetX := targetX a; targetY := targetY a;
     path := path a; isRetreating := isRetreating a; visibilityRange := visibilityRange a;
     needsToReturnToTarget := needsToReturnToTarget a; originalTarget := originalTarget a;
     targetCooldown := targetCooldown a; needsRecalculation := needsRecalculation a |}.

Definition set_target (tx ty : option Z) (a : Agent) : Agent :=
  {| id := id a; x := x a; y := y a; targetX := tx; targetY := ty;
     path := path a; isRetreating := isRetreating a; visibilityRange := visibilityRange a;
     needsToReturnToTarget := needsToReturnToTarget a; originalTarget := originalTarget a;
     targetCooldown := targetCooldown a; needsRecalculation := needsRecalculation a |}.

Definition set_isRetreating (b : bool) (a : Agent) : Agent :=
  {| id := id a; x := x a; y := y a; targetX := targetX a; targetY := targetY a;
     path := path a; isRetreating := b; visibilityRange := visibilityRange a;
     needsToReturnToTarget := needsToReturnToTarget a; originalTarget := originalTarget a;
     targetCooldown := targetCooldown a; needsRecalculation := needsRecalculation a |}.

Definition set_visibilityRange (v : option Z) (a : Agent) : Agent :=
  {| id := id a; x := x a; y := y a; targetX := targetX a; targetY := targetY a;
     path := path a; isRetreating := isRetreating a; visibilityRange := v;
     needsToReturnToTarget := needsToReturnToTarget a; originalTarget := originalTarget a;
     targetCooldown := targetCooldown a; needsRecalculation := needsRecalculation a |}.

Definition set_return (orig : Pos) (cooldown : Z) (a : Agent) : Agent :=
  {| id := id a; x := x a; y := y a; targetX := targetX a; targetY := targetY a;
     path := path a; isRetreating := isRetreating a; visibilityRange := visibilityRange a;
     needsToReturnToTarget := true; originalTarget := Some orig;
     targetCooldown := cooldown; needsRecalculation := needsRecalculation a |}.

Definition set_needsRecalculation (b : bool) (a : Agent) : Agent :=
  {| id := id a; x := x a; y := y a; targetX := targetX a; targetY := targetY a;
     path := path a; isRetreating := isRetreating a; visibilityRange := visibilityRange a;
     needsToReturnToTarget := needsToReturnToTarget a; originalTarget := originalTarget a;
     targetCooldown := targetCooldown a; needsRecalculation := b |}.

(** Agent objects are shared by reference between the [agents] array, the
    sorted copies of it and the deadlock handler.  The model names an object
    by its index in [agents] (the array is not resized while ticks run) and
    writes a field by updating that slot. *)
Definition modify (i : nat) (f : Agent -> Agent) (agents : list Agent) : list Agent :=
  alter f i agents.

(** [agents.find(a => a.id === id)], as an index. *)
Definition find_by_id (agentId : Z) (agents : list Agent) : option nat :=
  fst <$> list_find (fun a => id a = agentId) agents.

(** [grid[y][x] = v] for a cell inside the grid. *)
Definition grid_set (g : Grid) (p : Pos) (v : Z) : Grid :=
  if (0 <=? p.1) && (0 <=? p.2)
  then alter (fun row => <[Z.to_nat p.1 := v]> row) (Z.to_nat p.2) g
  else g.

(** A planner call of the handler, whose goal is an agent's target.  The
    handler plans with A*: with a [null] target its goal test never
    succeeds and it returns [[]] once the frontier is exhausted. *)
Definition toGoal (findPath : Pos -> Pos -> list Pos) (start : Pos) (tx ty : option Z)
    : list Pos :=
  match tx, ty with
  | Some gx, Some gy => findPath start (gx, gy)
  | _, _ => []
  end.

(** A JavaScript [Map]: keys keep their insertion order. *)
Fixpoint jsmap_set {V} (k : Z) (v : V) (m : list (Z * V)) : list (Z * V) :=
  match m with
  | [] => [(k, v)]
  | (k', v') :: m' => if bool_decide (k' = k) then (k, v) :: m' else (k', v') :: jsmap_set k v m'
  end.

Definition jsmap_get {V} (k : Z) (m : list (Z * V)) : option V :=
  match list_find (fun kv : Z * V => kv.1 = k) m with
  | Some (_, kv) => Some kv.2
  | None => None
  end.

(** Stable insertion sort on a [<=] test: [Array.prototype.sort]. *)
Fixpoint insert_sorted {A} (leb : A -> A -> bool) (v : A) (l : list A) : list A :=
  match l with
  | [] => [v]
  | w :: l' => if leb v w then v :: l else w :: insert_sorted leb v l'
  end.

Definition stable_sort {A} (leb : A -> A -> bool) (l : list A) : list A :=
  foldr (insert_sorted leb) [] l.

(** ** deadlockHandler.js

    The handler keeps references to the grid and to the agent array it was
    built with; its methods take them as arguments here, and the caller
    passes what those references hold. *)

Module DeadlockHandler.

Record t := {
  deadlockCount : Z;
  waitingTime : list (Z * Z);
  previousPositions : list (Z * Pos);
  waitingThreshold : Z
}.

Definition new : t :=
  {| deadlockCount := 0; waitingTime := []; previousPositions := [];
     waitingThreshold := 3 |}.

Definition track (h : t) (a : Agent) : t :=
  let prev := jsmap_get (id a) (previousPositions h) in
  let wt :=
    if bool_decide (prev = Some (pos a))
    then jsmap_set (id a) (default 0 (jsmap_get (id a) (waitingTime h)) + 1) (waitingTime h)
    else jsmap_set (id a) 0 (waitingTime h) in
  {| deadlockCount := deadlockCount h;
     waitingTime := wt;
     previousPositions := jsmap_set (id a) (pos a) (previousPositions h);
     waitingThreshold := waitingThreshold h |}.

Definition updatePositionTracking (h : t) (agents : list Agent) : t :=
  foldl track h agents.

(** The wait-for map: the last other agent found on [path[1]] wins. *)
Definition waitsFor (agents : list Agent) (m : list (Z * Z)) (a : Agent) : list (Z * Z) :=
  match path a with
  | _ :: nextStep :: _ =>
      foldl (fun m other =>
               if bool_decide (id a ≠ id other) && bool_decide (pos other = nextStep)
               then jsmap_set (id a) (id other) m else m)
            m agents
  | _ => m
  end.

Definition push_new (deadlocked : list Z) (i : Z) : list Z :=
  if bool_decide (i ∈ deadlocked) then deadlocked else deadlocked ++ [i].

(** The [while (agentWaitingFor.has(current))] walk.  Each round adds a
    key to [visited], so one round per entry of the map is all it can do. *)
Fixpoint walk (rounds : nat) (m : list (Z * Z)) (current : Z) (visited : list Z)
    (deadlocked : list Z) : list Z :=
  match rounds with
  | O => deadlocked
  | S r =>
      match jsmap_get current m with
      | None => deadlocked
      | Some next =>
          if bool_decide (current ∈ visited) then foldl push_new deadlocked visited
          else walk r m next (visited ++ [current]) deadlocked
      end
  end.

Definition detectCircularDeadlocks (agents : list Agent) (deadlocked : list Z) : list Z :=
  let m := foldl (waitsFor agents) [] agents in
  foldl (fun dl kv => walk (S (length m)) m kv.2 [kv.1] dl) deadlocked m.

Definition detectDeadlocks (h : t) (agents : list Agent) : list Z :=
  let timedOut :=
    map fst (filter (fun kv : Z * Z => waitingThreshold h <= kv.2) (waitingTime h)) in
  detectCircularDeadlocks agents timedOut.

(** Every agent's cell, the asking agent's included, becomes 1. *)
Definition createModifiedGrid (grid : Grid) (agents : list Agent) : Grid :=
  foldl (fun g a =>
           let g1 := grid_set g (pos a) 1 in
           if atTarget a then grid_set g1 (pos a) 1 else g1)
        grid agents.

Definition findAlternativePath (grid : Grid) (agents : list Agent) (i : nat)
    : list Agent * bool :=
  match agents !! i with
  | None => (agents, false)
  | Some agent =>
      let modifiedGrid := createModifiedGrid grid agents in
      let astar := AStar.new_default modifiedGrid in
      let newPath := toGoal (AStar.findPath astar) (pos agent) (targetX agent) (targetY agent) in
      if 1 <? Z.of_nat (length newPath)
      then (modify i (set_path newPath) agents, true)
      else (agents, false)
  end.

Definition retreatOptions (grid : Grid) (agents : list Agent) (agent : Agent)
    : list (Pos * Z) :=
  omap (fun dir : Pos =>
          let n := pos_add (pos agent) dir in
          if in_bounds grid n && negb (is_wall_cell grid n) &&
             negb (existsb (fun a => bool_decide (id a ≠ id agent) && bool_decide (pos a = n))
                           agents)
          then Some (n, distTo n (targetX agent) (targetY agent))
          else None)
       [ (0, -1); (1, 0); (0, 1); (-1, 0) ].

Definition temporaryRetreat (grid : Grid) (agents : list Agent) (i : nat)
    : list Agent * bool :=
  match agents !! i with
  | None => (agents, false)
  | Some agent =>
      match stable_sort (fun a b : Pos * Z => a.2 <=? b.2) (retreatOptions grid agents agent) with
      | retreat :: _ =>
          (modify i (fun a => set_isRetreating true (set_path [pos agent; retreat.1] a)) agents,
           true)
      | [] => (agents, false)
      end
  end.

Definition clearedGrid (grid : Grid) : Grid :=
  map (map (fun c => if bool_decide (c = 1) then 1 else 0)) grid.

Definition createClearedPathForAgent (grid : Grid) (agents : list Agent) (i : nat)
    : list Agent * bool :=
  match agents !! i with
  | None => (agents, false)
  | Some agent =>
      let astar := AStar.new_default (clearedGrid grid) in
      let path := toGoal (AStar.findPath astar) (pos agent) (targetX agent) (targetY agent) in
      if 1 <? Z.of_nat (length path)
      then (modify i (set_path path) agents, true)
      else (agents, false)
  end.

Definition resolveOne (grid : Grid) (agents : list Agent) (agentId : Z) : list Agent :=
  match find_by_id agentId agents with
  | None => agents
  | Some i =>
      let '(agents1, found) := findAlternativePath grid agents i in
      if found then agents1
      else
        let '(agents2, retreated) := temporaryRetreat grid agents1 i in
        if retreated then agents2
        else (createClearedPathForAgent grid agents2 i).1
  end.

(** [deadlockedAgentIds.sort()]: the default sort compares the decimal
    strings of the ids. *)
Definition sortIds (ids : list Z) : list Z :=
  stable_sort (fun a b : Z => String.leb (pretty a) (pretty b)) ids.

Definition resolveDeadlocks (h : t) (grid : Grid) (agents : list Agent)
    (deadlockedAgentIds : list Z) : t * list Agent :=
  match deadlockedAgentIds with
  | [] => (h, agents)
  | _ =>
      ({| deadlockCount := deadlockCount h + 1;
          waitingTime := waitingTime h;
          previousPositions := previousPositions h;
          waitingThreshold := waitingThreshold h |},
       foldl (resolveOne grid) agents (sortIds deadlockedAgentIds))
  end.

Definition getDeadlockCount (h : t) : Z := deadlockCount h.

End DeadlockHandler.

(** ** Exceptions

    A call returns a value or raises.  The exception followed is the
    TypeError of [this.grid[y][x]] in [isWall] of Minimax and Expectimax
    when the goal handed to [findPath] is an agent's [null] target. *)

Inductive throws (A : Type) : Type :=
| Ok (a : A)
| TypeError.
Arguments Ok {A} a.
Arguments TypeError {A}.

(** [array.some(f)] *)
Fixpoint some_throws {A} (f : A -> throws bool) (l : list A) : throws bool :=
  match l with
  | [] => Ok false
  | a :: l' =>
      match f a with
      | Ok true => Ok true
      | Ok false => some_throws f l'
      | TypeError => TypeError
      end
  end.

(** [array.filter(f)] *)
Fixpoint filter_throws {A} (f : A -> throws bool) (l : list A) : throws (list A) :=
  match l with
  | [] => Ok []
  | a :: l' =>
      match f a with
      | Ok keep =>
          match filter_throws f l' with
          | Ok kept => Ok (if keep then a :: kept else kept)
          | TypeError => TypeError
          end
      | TypeError => TypeError
      end
  end.

(** A loop that returns at its first success, unless a round raises. *)
Fixpoint find_first_throws {A B} (f : A -> throws (option B)) (l : list A)
    : throws (option B) :=
  match l with
  | [] => Ok None
  | a :: l' =>
      match f a with
      | Ok (Some b) => Ok (Some b)
      | Ok None => find_first_throws f l'
      | TypeError => TypeError
      end
  end.

(** ** main.js: the simulation state

    [Math.random] is an interface: [draw] yields the next value in
    thousandths, [shuffle] the outcome of
    [neighbors.sort(() => Math.random() - 0.5)], which is some rearrangement
    of the array.  Callbacks handed to [setTimeout] are kept as pending
    [Timeout]s; when they fire is outside the model. *)

Class Random (E : Type) := {
  draw : E -> Z * E;
  shuffle : E -> list Pos -> list Pos * E;
  shuffle_perm : forall e l, (shuffle e l).1 ≡ₚ l
}.

Inductive DecisionMode := Centralized | Distributed.
Inductive Algorithm := Astar | Bfs | MinimaxAlg | ExpectimaxAlg.

Inductive Timeout :=
| RestoreVisibility (ranges : list (nat * option Z))
| Restart (forceSequential : bool).

(** A deadlock signature, one entry per id: [`${id}:unknown`] or
    [`${id}:(${x},${y})->(${targetX},${targetY})`]; the strings are equal
    exactly when the entries are.  The empty list is the empty string. *)
Abbreviation Signature := (list (Z * option (Pos * (option Z * option Z)))).


Module Sim.
Section WithInterfaces.
Context {num : Type} {N : JSNum num} {E : Type} {R : Random E}.

(** The global variables of main.js.  The handler built by [initializeGrid]
    holds the arrays that [grid] and [agents] named at that moment.
    [handlerGrid] and [handlerAgents] are [None] while the globals still
    name those arrays, so that the handler sees every write; once Reset,
    Clear agents or Clear walls has bound a global to a new array they
    hold the array the handler is left with, which only the handler
    writes from then on. *)
Record t := {
  grid : Grid;
  agents : list Agent;
  targetPositions : list Pos;
  gridSize : Z;
  isSimulationRunning : bool;
  simulationInterval : bool;
  totalMoves : Z;
  deadlockHandler : DeadlockHandler.t;
  handlerGrid : option Grid;
  handlerAgents : option (list Agent);
  failedDeadlockResolutionAttempts : Z;
  sequentialMovementMode : bool;
  sequentialMovesRemaining : Z;
  currentDecisionMode : DecisionMode;
  currentAlgorithm : Algorithm;
  currentTopology : Topology;
  simulationSpeed : Z;
  lastDeadlockSignature : Signature;
  repeatedDeadlockCount : Z;
  timeouts : list Timeout;
  entropy : E
}.

Definition with_grid (v : Grid) (s : t) : t :=
  {| grid := v; agents := agents s; targetPositions := targetPositions s;
     gridSize := gridSize s; isSimulationRunning := isSimulationRunning s;
     simulationInterval := simulationInterval s; totalMoves := totalMoves s;
     deadlockHandler := deadlockHandler s; handlerGrid := handlerGrid s;
     handlerAgents := handlerAgents s;
     failedDeadlockResolutionAttempts := failedDeadlockResolutionAttempts s;
     sequentialMovementMode := sequentialMovementMode s;
     sequentialMovesRemaining := sequentialMovesRemaining s;
     currentDecisionMode := currentDecisionMode s;
     currentAlgorithm := currentAlgorithm s; currentTopology := currentTopology s;
     simulationSpeed := simulationSpeed s;
     lastDeadlockSignature := lastDeadlockSignature s;
     repeatedDeadlockCount := repeatedDeadlockCount s; timeouts := timeouts s;
     entropy := entropy s |}.

Definition with_agents (v : list Agent) (s : t) : t :=
  {| grid := grid s; agents := v; targetPositions := targetPositions s;
     gridSize := gridSize s; isSimulationRunning := isSimulationRunning s;
     simulationInterval := simulationInterval s; totalMoves := totalMoves s;
     deadlockHandler := deadlockHandler s; handlerGrid := handlerGrid s;
     handlerAgents := handlerAgents s;
     failedDeadlockResolutionAttempts := failedDeadlockResolutionAttempts s;
     sequentialMovementMode := sequentialMovementMode s;
     sequentialMovesRemaining := sequentialMovesRemaining s;
     currentDecisionMode := currentDecisionMode s;
     currentAlgorithm := currentAlgorithm s; currentTopology := currentTopology s;
     simulationSpeed := simulationSpeed s;
     lastDeadlockSignature := lastDeadlockSignature s;
     repeatedDeadlockCount := repeatedDeadlockCount s; timeouts := timeouts s;
     entropy := entropy s |}.

Definition with_targetPositions (v : list Pos) (s : t) : t :=
  {| grid := grid s; agents := agents s; targetPositions := v; gridSize := gridSize s;
     isSimulationRunning := isSimulationRunning s;
     simulationInterval := simulationInterval s; totalMoves := totalMoves s;
     deadlockHandler := deadlockHandler s; handlerGrid := handlerGrid s;
     handlerAgents := handlerAgents s;
     failedDeadlockResolutionAttempts := failedDeadlockResolutionAttempts s;
     sequentialMovementMode := sequentialMovementMode s;
     sequentialMovesRemaining := sequentialMovesRemaining s;
     currentDecisionMode := currentDecisionMode s;
     currentAlgorithm := currentAlgorithm s; currentTopology := currentTopology s;
     simulationSpeed := simulationSpeed s;
     lastDeadlockSignature := lastDeadlockSignature s;
     repeatedDeadlockCount := repeatedDeadlockCount s; timeouts := timeouts s;
     entropy := entropy s |}.

Definition with_gridSize (v : Z) (s : t) : t :=
  {| grid := grid s; agents := agents s; targetPositions := targetPositions s;
     gridSize := v; isSimulationRunning := isSimulationRunning s;
     simulationInterval := simulationInterval s; totalMoves := totalMoves s;
     deadlockHandler := deadlockHandler s; handlerGrid := handlerGrid s;
     handlerAgents := handlerAgents s;
     failedDeadlockResolutionAttempts := failedDeadlockResolutionAttempts s;
     sequentialMovementMode := sequentialMovementMode s;
     sequentialMovesRemaining := sequentialMovesRemaining s;
     currentDecisionMode := currentDecisionMode s;
     currentAlgorithm := currentAlgorithm s; currentTopology := currentTopology s;
     simulationSpeed := simulationSpeed s;
     lastDeadlockSignature := lastDeadlockSignature s;
     repeatedDeadlockCount := repeatedDeadlockCount s; timeouts := timeouts s;
     entropy := entropy s |}.

Definition with_isSimulationRunning (v : bool) (s : t) : t :=
  {| grid := grid s; agents := agents s; targetPositions := targetPositions s;
     gridSize := gridSize s; isSimulationRunning := v;
     simulationInterval := simulationInterval s; totalMoves := totalMoves s;
     deadlockHandler := deadlockHandler s; handlerGrid := handlerGrid s;
     handlerAgents := handlerAgents s;
     failedDeadlockResolutionAttempts := failedDeadlockResolutionAttempts s;
     sequentialMovementMode := sequentialMovementMode s;
     sequentialMovesRemaining := sequentialMovesRemaining s;
     currentDecisionMode := currentDecisionMode s;
     currentAlgorithm := currentAlgorithm s; currentTopology := currentTopology s;
     simulationSpeed := simulationSpeed s;
     lastDeadlockSignature := lastDeadlockSignature s;
     repeatedDeadlockCount := repeatedDeadlockCount s; timeouts := timeouts s;
     entropy := entropy s |}.

Definition with_simulationInterval (v : bool) (s : t) : t :=
  {| grid := grid s; agents := agents s; targetPositions := targetPositions s;
     gridSize := gridSize s; isSimulationRunning := isSimulationRunning s;
     simulationInterval := v; totalMoves := totalMoves s;
     deadlockHandler := deadlockHandler s; handlerGrid := handlerGrid s;
     handlerAgents := handlerAgents s;
     failedDeadlockResolutionAttempts := failedDeadlockResolutionAttempts s;
     sequentialMovementMode := sequentialMovementMode s;
     sequentialMovesRemaining := sequentialMovesRemaining s;
     currentDecisionMode := currentDecisionMode s;
     currentAlgorithm := currentAlgorithm s; currentTopology := currentTopology s;
     simulationSpeed := simulationSpeed s;
     lastDeadlockSignature := lastDeadlockSignature s;
     repeatedDeadlockCount := repeatedDeadlockCount s; timeouts := timeouts s;
     entropy := entropy s |}.

Definition with_totalMoves (v : Z) (s : t) : t :=
  {| grid := grid s; agents := agents s; targetPositions := targetPositions s;
     gridSize := gridSize s; isSimulationRunning := isSimulationRunning s;
     simulationInterval := simulationInterval s; totalMoves := v;
     deadlockHandler := deadlockHandler s; handlerGrid := handlerGrid s;
     handlerAgents := handlerAgents s;
     failedDeadlockResolutionAttempts := failedDeadlockResolutionAttempts s;
     sequentialMovementMode := sequentialMovementMode s;
     sequentialMovesRemaining := sequentialMovesRemaining s;
     currentDecisionMode := currentDecisionMode s;
     currentAlgorithm := currentAlgorithm s; currentTopology := currentTopology s;
     simulationSpeed := simulationSpeed s;
     lastDeadlockSignature := lastDeadlockSignature s;
     repeatedDeadlockCount := repeatedDeadlockCount s; timeouts := timeouts s;
     entropy := entropy s |}.

Definition with_deadlockHandler (v : DeadlockHandler.t) (s : t) : t :=
  {| grid := grid s; agents := agents s; targetPositions := targetPositions s;
     gridSize := gridSize s; isSimulationRunning := isSimulationRunning s;
     simulationInterval := simulationInterval s; totalMoves := totalMoves s;
     deadlockHandler := v; handlerGrid := handlerGrid s;
     handlerAgents := handlerAgents s;
     failedDeadlockResolutionAttempts := failedDeadlockResolutionAttempts s;
     sequentialMovementMode := sequentialMovementMode s;
     sequentialMovesRemaining := sequentialMovesRemaining s;
     currentDecisionMode := currentDecisionMode s;
     currentAlgorithm := currentAlgorithm s; currentTopology := currentTopology s;
     simulationSpeed := simulationSpeed s;
     lastDeadlockSignature := lastDeadlockSignature s;
     repeatedDeadlockCount := repeatedDeadlockCount s; timeouts := timeouts s;
     entropy := entropy s |}.

Definition with_handlerGrid (v : option Grid) (s : t) : t :=
  {| grid := grid s; agents := agents s; targetPositions := targetPositions s;
     gridSize := gridSize s; isSimulationRunning := isSimulationRunning s;
     simulationInterval := simulationInterval s; totalMoves := totalMoves s;
     deadlockHandler := deadlockHandler s; handlerGrid := v;
     handlerAgents := handlerAgents s;
     failedDeadlockResolutionAttempts := failedDeadlockResolutionAttempts s;
     sequentialMovementMode := sequentialMovementMode s;
     sequentialMovesRemaining := sequentialMovesRemaining s;
     currentDecisionMode := currentDecisionMode s;
     currentAlgorithm := currentAlgorithm s; currentTopology := currentTopology s;
     simulationSpeed := simulationSpeed s;
     lastDeadlockSignature := lastDeadlockSignature s;
     repeatedDeadlockCount := repeatedDeadlockCount s; timeouts := timeouts s;
     entropy := entropy s |}.

Definition with_handlerAgents (v : option (list Agent)) (s : t) : t :=
  {| grid := grid s; agents := agents s; targetPositions := targetPositions s;
     gridSize := gridSize s; isSimulationRunning := isSimulationRunning s;
     simulationInterval := simulationInterval s; totalMoves := totalMoves s;
     deadlockHandler := deadlockHandler s; handlerGrid := handlerGrid s;
     handlerAgents := v;
     failedDeadlockResolutionAttempts := failedDeadlockResolutionAttempts s;
     sequentialMovementMode := sequentialMovementMode s;
     sequentialMovesRemaining := sequentialMovesRemaining s;
     currentDecisionMode := currentDecisionMode s;
     currentAlgorithm := currentAlgorithm s; currentTopology := currentTopology s;
     simulationSpeed := simulationSpeed s;
     lastDeadlockSignature := lastDeadlockSignature s;
     repeatedDeadlockCount := repeatedDeadlockCount s; timeouts := timeouts s;
     entropy := entropy s |}.

Definition with_failedDeadlockResolutionAttempts (v : Z) (s : t) : t :=
  {| grid := grid s; agents := agents s; targetPositions := targetPositions s;
     gridSize := gridSize s; isSimulationRunning := isSimulationRunning s;
     simulationInterval := simulationInterval s; totalMoves := totalMoves s;
     deadlockHandler := deadlockHandler s; handlerGrid := handlerGrid s;
     handlerAgents := handlerAgents s; failedDeadlockResolutionAttempts := v;
     sequentialMovementMode := sequentialMovementMode s;
     sequentialMovesRemaining := sequentialMovesRemaining s;
     currentDecisionMode := currentDecisionMode s;
     currentAlgorithm := currentAlgorithm s; currentTopology := currentTopology s;
     simulationSpeed := simulationSpeed s;
     lastDeadlockSignature := lastDeadlockSignature s;
     repeatedDeadlockCount := repeatedDeadlockCount s; timeouts := timeouts s;
     entropy := entropy s |}.

Definition with_sequentialMovementMode (v : bool) (s : t) : t :=
  {| grid := grid s; agents := agents s; targetPositions := targetPositions s;
     gridSize := gridSize s; isSimulationRunning := isSimulationRunning s;
     simulationInterval := simulationInterval s; totalMoves := totalMoves s;
     deadlockHandler := deadlockHandler s; handlerGrid := handlerGrid s;
     handlerAgents := handlerAgents s;
     failedDeadlockResolutionAttempts := failedDeadlockResolutionAttempts s;
     sequentialMovementMode := v;
     sequentialMovesRemaining := sequentialMovesRemaining s;
     currentDecisionMode := currentDecisionMode s;
     currentAlgorithm := currentAlgorithm s; currentTopology := currentTopology s;
     simulationSpeed := simulationSpeed s;
     lastDeadlockSignature := lastDeadlockSignature s;
     repeatedDeadlockCount := repeatedDeadlockCount s; timeouts := timeouts s;
     entropy := entropy s |}.

Definition with_sequentialMovesRemaining (v : Z) (s : t) : t :=
  {| grid := grid s; agents := agents s; targetPositions := targetPositions s;
     gridSize := gridSize s; isSimulationRunning := isSimulationRunning s;
     simulationInterval := simulationInterval s; totalMoves := totalMoves s;
     deadlockHandler := deadlockHandler s; handlerGrid := handlerGrid s;
     handlerAgents := handlerAgents s;
     failedDeadlockResolutionAttempts := failedDeadlockResolutionAttempts s;
     sequentialMovementMode := sequentialMovementMode s; sequentialMovesRemaining := v;
     currentDecisionMode := currentDecisionMode s;
     currentAlgorithm := currentAlgorithm s; currentTopology := currentTopology s;
     simulationSpeed := simulationSpeed s;
     lastDeadlockSignature := lastDeadlockSignature s;
     repeatedDeadlockCount := repeatedDeadlockCount s; timeouts := timeouts s;
     entropy := entropy s |}.

Definition with_currentDecisionMode (v : DecisionMode) (s : t) : t :=
  {| grid := grid s; agents := agents s; targetPositions := targetPositions s;
     gridSize := gridSize s; isSimulationRunning := isSimulationRunning s;
     simulationInterval := simulationInterval s; totalMoves := totalMoves s;
     deadlockHandler := deadlockHandler s; handlerGrid := handlerGrid s;
     handlerAgents := handlerAgents s;
     failedDeadlockResolutionAttempts := failedDeadlockResolutionAttempts s;
     sequentialMovementMode := sequentialMovementMode s;
     sequentialMovesRemaining := sequentialMovesRemaining s; currentDecisionMode := v;
     currentAlgorithm := currentAlgorithm s; currentTopology := currentTopology s;
     simulationSpeed := simulationSpeed s;
     lastDeadlockSignature := lastDeadlockSignature s;
     repeatedDeadlockCount := repeatedDeadlockCount s; timeouts := timeouts s;
     entropy := entropy s |}.

Definition with_currentAlgorithm (v : Algorithm) (s : t) : t :=
  {| grid := grid s; agents := agents s; targetPositions := targetPositions s;
     gridSize := gridSize s; isSimulationRunning := isSimulationRunning s;
     simulationInterval := simulationInterval s; totalMoves := totalMoves s;
     deadlockHandler := deadlockHandler s; handlerGrid := handlerGrid s;
     handlerAgents := handlerAgents s;
     failedDeadlockResolutionAttempts := failedDeadlockResolutionAttempts s;
     sequentialMovementMode := sequentialMovementMode s;
     sequentialMovesRemaining := sequentialMovesRemaining s;
     currentDecisionMode := currentDecisionMode s; currentAlgorithm := v;
     currentTopology := currentTopology s; simulationSpeed := simulationSpeed s;
     lastDeadlockSignature := lastDeadlockSignature s;
     repeatedDeadlockCount := repeatedDeadlockCount s; timeouts := timeouts s;
     entropy := entropy s |}.

Definition with_currentTopology (v : Topology) (s : t) : t :=
  {| grid := grid s; agents := agents s; targetPositions := targetPositions s;
     gridSize := gridSize s; isSimulationRunning := isSimulationRunning s;
     simulationInterval := simulationInterval s; totalMoves := totalMoves s;
     deadlockHandler := deadlockHandler s; handlerGrid := handlerGrid s;
     handlerAgents := handlerAgents s;
     failedDeadlockResolutionAttempts := failedDeadlockResolutionAttempts s;
     sequentialMovementMode := sequentialMovementMode s;
     sequentialMovesRemaining := sequentialMovesRemaining s;
     currentDecisionMode := currentDecisionMode s;
     currentAlgorithm := currentAlgorithm s; currentTopology := v;
     simulationSpeed := simulationSpeed s;
     lastDeadlockSignature := lastDeadlockSignature s;
     repeatedDeadlockCount := repeatedDeadlockCount s; timeouts := timeouts s;
     entropy := entropy s |}.

Definition with_simulationSpeed (v : Z) (s : t) : t :=
  {| grid := grid s; agents := agents s; targetPositions := targetPositions s;
     gridSize := gridSize s; isSimulationRunning := isSimulationRunning s;
     simulationInterval := simulationInterval s; totalMoves := totalMoves s;
     deadlockHandler := deadlockHandler s; handlerGrid := handlerGrid s;
     handlerAgents := handlerAgents s;
     failedDeadlockResolutionAttempts := failedDeadlockResolutionAttempts s;
     sequentialMovementMode := sequentialMovementMode s;
     sequentialMovesRemaining := sequentialMovesRemaining s;
     currentDecisionMode := currentDecisionMode s;
     currentAlgorithm := currentAlgorithm s; currentTopology := currentTopology s;
     simulationSpeed := v; lastDeadlockSignature := lastDeadlockSignature s;
     repeatedDeadlockCount := repeatedDeadlockCount s; timeouts := timeouts s;
     entropy := entropy s |}.

Definition with_lastDeadlockSignature (v : Signature) (s : t) : t :=
  {| grid := grid s; agents := agents s; targetPositions := targetPositions s;
     gridSize := gridSize s; isSimulationRunning := isSimulationRunning s;
     simulationInterval := simulationInterval s; totalMoves := totalMoves s;
     deadlockHandler := deadlockHandler s; handlerGrid := handlerGrid s;
     handlerAgents := handlerAgents s;
     failedDeadlockResolutionAttempts := failedDeadlockResolutionAttempts s;
     sequentialMovementMode := sequentialMovementMode s;
     sequentialMovesRemaining := sequentialMovesRemaining s;
     currentDecisionMode := currentDecisionMode s;
     currentAlgorithm := currentAlgorithm s; currentTopology := currentTopology s;
     simulationSpeed := simulationSpeed s; lastDeadlockSignature := v;
     repeatedDeadlockCount := repeatedDeadlockCount s; timeouts := timeouts s;
     entropy := entropy s |}.

Definition with_repeatedDeadlockCount (v : Z) (s : t) : t :=
  {| grid := grid s; agents := agents s; targetPositions := targetPositions s;
     gridSize := gridSize s; isSimulationRunning := isSimulationRunning s;
     simulationInterval := simulationInterval s; totalMoves := totalMoves s;
     deadlockHandler := deadlockHandler s; handlerGrid := handlerGrid s;
     handlerAgents := handlerAgents s;
     failedDeadlockResolutionAttempts := failedDeadlockResolutionAttempts s;
     sequentialMovementMode := sequentialMovementMode s;
     sequentialMovesRemaining := sequentialMovesRemaining s;
     currentDecisionMode := currentDecisionMode s;
     currentAlgorithm := currentAlgorithm s; currentTopology := currentTopology s;
     simulationSpeed := simulationSpeed s;
     lastDeadlockSignature := lastDeadlockSignature s; repeatedDeadlockCount := v;
     timeouts := timeouts s; entropy := entropy s |}.

Definition with_timeouts (v : list Timeout) (s : t) : t :=
  {| grid := grid s; agents := agents s; targetPositions := targetPositions s;
     gridSize := gridSize s; isSimulationRunning := isSimulationRunning s;
     simulationInterval := simulationInterval s; totalMoves := totalMoves s;
     deadlockHandler := deadlockHandler s; handlerGrid := handlerGrid s;
     handlerAgents := handlerAgents s;
     failedDeadlockResolutionAttempts := failedDeadlockResolutionAttempts s;
     sequentialMovementMode := sequentialMovementMode s;
     sequentialMovesRemaining := sequentialMovesRemaining s;
     currentDecisionMode := currentDecisionMode s;
     currentAlgorithm := currentAlgorithm s; currentTopology := currentTopology s;
     simulationSpeed := simulationSpeed s;
     lastDeadlockSignature := lastDeadlockSignature s;
     repeatedDeadlockCount := repeatedDeadlockCount s; timeouts := v;
     entropy := entropy s |}.

Definition with_entropy (v : E) (s : t) : t :=
  {| grid := grid s; agents := agents s; targetPositions := targetPositions s;
     gridSize := gridSize s; isSimulationRunning := isSimulationRunning s;
     simulationInterval := simulationInterval s; totalMoves := totalMoves s;
     deadlockHandler := deadlockHandler s; handlerGrid := handlerGrid s;
     handlerAgents := handlerAgents s;
     failedDeadlockResolutionAttempts := failedDeadlockResolutionAttempts s;
     sequentialMovementMode := sequentialMovementMode s;
     sequentialMovesRemaining := sequentialMovesRemaining s;
     currentDecisionMode := currentDecisionMode s;
     currentAlgorithm := currentAlgorithm s; currentTopology := currentTopology s;
     simulationSpeed := simulationSpeed s;
     lastDeadlockSignature := lastDeadlockSignature s;
     repeatedDeadlockCount := repeatedDeadlockCount s; timeouts := timeouts s;
     entropy := v |}.
Definition createPathfinder (s : t) (gridData : Grid) : Pos -> Pos -> list Pos :=
  match currentAlgorithm s with
  | Bfs => BFS.findPath (BFS.new gridData (currentTopology s))
  | MinimaxAlg => Minimax.findPath (Minimax.new gridData (currentTopology s))
  | ExpectimaxAlg => Expectimax.findPath (Expectimax.new gridData (currentTopology s))
  | Astar => AStar.findPath (AStar.new gridData (currentTopology s))
  end.

(** [createPathfinder(gridData).findPath(start, {x: targetX, y: targetY})]
    with the target of an agent.  The two coordinates are written together
    and are [null] until the first assignment.  With a [null] target A* and
    BFS meet no cell equal to it and return [[]] when the search is
    exhausted; Minimax and Expectimax evaluate
    [isWall(start.x, start.y) || isWall(goal.x, goal.y)] first, and the
    second call reads [this.grid[null][null]]: a TypeError. *)
Definition findPathToTarget (s : t) (gridData : Grid) (start : Pos) (tx ty : option Z)
    : throws (list Pos) :=
  match tx, ty with
  | Some gx, Some gy => Ok (createPathfinder s gridData start (gx, gy))
  | _, _ =>
      match currentAlgorithm s with
      | Astar | Bfs => Ok []
      | MinimaxAlg =>
          if Minimax.isWall (Minimax.new gridData (currentTopology s)) start
          then Ok [] else TypeError
      | ExpectimaxAlg =>
          if Expectimax.isWall (Expectimax.new gridData (currentTopology s)) start
          then Ok [] else TypeError
      end
  end.

(** What the handler's references hold. *)
Definition handlerGridOf (s : t) : Grid := default (grid s) (handlerGrid s).
Definition handlerAgentsOf (s : t) : list Agent := default (agents s) (handlerAgents s).

(** A write of the handler to its agent objects. *)
Definition with_handlerAgentsOf (v : list Agent) (s : t) : t :=
  match handlerAgents s with
  | None => with_agents v s
  | Some _ => with_handlerAgents (Some v) s
  end.

(** Grid copies and masks built by the helpers. *)

(** "Only keep walls, clear everything else." *)
Definition wallsOnly (g : Grid) : Grid :=
  map (map (fun c => if bool_decide (c = CELL_WALL) then CELL_WALL else CELL_EMPTY)) g.

(** [distance > range] and [distance <= range]; [None] is [Infinity]. *)
Definition beyond (distance : Z) (range : option Z) : bool :=
  match range with Some r => r <? distance | None => false end.
Definition within (distance : Z) (range : option Z) : bool :=
  match range with Some r => distance <=? r | None => true end.

Definition isTargetOf (a : Agent) (p : Pos) : bool :=
  bool_decide (targetX a = Some p.1) && bool_decide (targetY a = Some p.2).

(** Cells the test [hidden] selects, other than [keep], become walls. *)
Definition mask (hidden keep : Pos -> bool) (g : Grid) : Grid :=
  imap (fun yy row =>
          imap (fun xx c =>
                  let p := (Z.of_nat xx, Z.of_nat yy) in
                  if hidden p && negb (keep p) then CELL_WALL else c) row) g.

Definition outOfSight (a : Agent) (p : Pos) : bool :=
  beyond (manhattan p (pos a)) (visibilityRange a).

(** Walls stay; a cell holding an agent at its target, other than the
    agents with ids in [except], becomes a wall; the rest is empty. *)
Definition settledAsWalls (except : list Z) (ags : list Agent) (g : Grid) : Grid :=
  imap (fun yy row =>
          imap (fun xx c =>
                  let p := (Z.of_nat xx, Z.of_nat yy) in
                  if bool_decide (c = CELL_WALL) then CELL_WALL
                  else if existsb (fun a => bool_decide (id a ∉ except) &&
                                            bool_decide (pos a = p) && atTarget a) ags
                       then CELL_WALL else CELL_EMPTY) row) g.

Definition occupiedByOther (ags : list Agent) (agent : Agent) (p : Pos) : bool :=
  existsb (fun a => bool_decide (id a ≠ id agent) && bool_decide (pos a = p)) ags.

Definition longer_than_1 (p : list Pos) : bool :=
  match p with _ :: _ :: _ => true | _ => false end.

(** *** findTemporaryTarget *)

Definition retreatCandidates (s : t) (agent : Agent) : list (Pos * Z) :=
  let searchRadius :=
    match currentDecisionMode s with
    | Distributed => match visibilityRange agent with Some v => Z.min 3 v | None => 3 end
    | Centralized => 3
    end in
  let span := seqZ (- searchRadius) (2 * searchRadius + 1) in
  omap (fun d : Pos =>
          if bool_decide (d = (0, 0)) then None
          else
            let n := pos_add (pos agent) d in
            if (0 <=? n.1) && (n.1 <? gridSize s) && (0 <=? n.2) && (n.2 <? gridSize s) then
              let isEmpty := negb (is_wall_cell (grid s) n) in
              let isOccupied :=
                match currentDecisionMode s with
                | Distributed =>
                    existsb (fun a =>
                               within (manhattan (pos a) (pos agent)) (visibilityRange agent) &&
                               bool_decide (id a ≠ id agent) && bool_decide (pos a = n))
                            (agents s)
                | Centralized => occupiedByOther (agents s) agent n
                end in
              if isEmpty && negb isOccupied then
                Some (n, distTo n (targetX agent) (targetY agent) * 2 + manhattan n (pos agent))
              else None
            else None)
       (dy ← span; dx ← span; [(dx, dy)]).

Definition findTemporaryTarget (i : nat) (s : t) : t * bool :=
  match agents s !! i with
  | None => (s, false)
  | Some agent =>
      match stable_sort (fun a b : Pos * Z => a.2 <=? b.2) (retreatCandidates s agent) with
      | [] => (s, false)
      | retreat :: _ =>
          let clearedGrid := wallsOnly (grid s) in
          let clearedGrid :=
            match currentDecisionMode s with
            | Distributed => mask (outOfSight agent) (fun _ => false) clearedGrid
            | Centralized => clearedGrid
            end in
          let retreatPath := createPathfinder s clearedGrid (pos agent) retreat.1 in
          if longer_than_1 retreatPath
          then (with_agents
                  (modify i (fun a => set_isRetreating true (set_path retreatPath a)) (agents s))
                  s, true)
          else (s, false)
      end
  end.

(** *** findPathIgnoringAgents

    The [catch] block logs and returns [false]. *)

Definition findPathIgnoringAgents (i : nat) (s : t) : t * bool :=
  match agents s !! i with
  | None => (s, false)
  | Some agent =>
      let clearedGrid := wallsOnly (grid s) in
      let clearedGrid :=
        match currentDecisionMode s with
        | Distributed => mask (outOfSight agent) (isTargetOf agent) clearedGrid
        | Centralized => clearedGrid
        end in
      match findPathToTarget s clearedGrid (pos agent) (targetX agent) (targetY agent) with
      | Ok path =>
          if longer_than_1 path
          then (with_agents (modify i (set_path path) (agents s)) s, true)
          else ((findTemporaryTarget i s).1, false)
      | TypeError => (s, false)
      end
  end.

(** *** calculatePath

    The [catch] block only logs: an exception leaves the agent as it was. *)

Definition planningGrid (s : t) (agent : Agent) : Grid :=
  match currentDecisionMode s with
  | Centralized =>
      foldl (fun g a =>
               if bool_decide (id a ≠ id agent) then
                 if atTarget a || negb (longer_than_1 (path a))
                 then grid_set g (pos a) CELL_WALL
                 else grid_set g (pos a) CELL_EMPTY
               else g)
            (grid s) (agents s)
  | Distributed =>
      foldl (fun g a =>
               if bool_decide (id a ≠ id agent) &&
                  within (manhattan (pos a) (pos agent)) (visibilityRange agent)
               then grid_set g (pos a) CELL_WALL
               else g)
            (mask (outOfSight agent) (isTargetOf agent) (grid s)) (agents s)
  end.

Definition calculatePath (i : nat) (s : t) : t :=
  match agents s !! i with
  | None => s
  | Some agent =>
      if atTarget agent then with_agents (modify i (set_path [pos agent]) (agents s)) s
      else
        match findPathToTarget s (planningGrid s agent) (pos agent)
                               (targetX agent) (targetY agent) with
        | Ok path =>
            match path with
            | [] => (findPathIgnoringAgents i s).1
            | [_] => (findPathIgnoringAgents i s).1
            | _ => with_agents (modify i (set_path path) (agents s)) s
            end
        | TypeError => s
        end
  end.

(** Indices of the agents a [filter] keeps. *)
Definition indices (P : Agent -> bool) (ags : list Agent) : list nat :=
  omap (fun ia : nat * Agent => if P ia.2 then Some ia.1 else None)
       (imap (fun i a => (i, a)) ags).

Definition notAtTarget (a : Agent) : bool := negb (atTarget a).

Definition stuck (a : Agent) : bool := negb (atTarget a) && negb (longer_than_1 (path a)).

(** A loop that returns at its first success. *)
Fixpoint find_first {A B} (f : A -> option B) (l : list A) : option B :=
  match l with
  | [] => None
  | a :: l' => match f a with Some b => Some b | None => find_first f l' end
  end.

Definition retarget (i : nat) (target : Pos) (p : list Pos) (s : t) : t :=
  with_agents
    (modify i (fun a => set_path p (set_target (Some target.1) (Some target.2) a)) (agents s)) s.

(** *** tryTargetReassignment *)

Definition emptyTargetsOf (s : t) : list Pos :=
  List.filter (fun p => negb (existsb (fun a => bool_decide (pos a = p)) (agents s)))
              (targetPositions s).

(** The distributed prelude: visibility widened by 2 for the agents not
    at their targets, and the restoring callback scheduled. *)
Definition widenVisibility (notAtT : list nat) (s : t) : t :=
  let originals :=
    foldl (fun m i => match agents s !! i with
                      | Some a => jsmap_set (id a) (visibilityRange a) m
                      | None => m
                      end) [] notAtT in
  let ags :=
    foldl (fun ags i =>
             modify i (fun a => set_visibilityRange (Z.add 2 <$> visibilityRange a) a) ags)
          (agents s) notAtT in
  let restore :=
    omap (fun i => a ← agents s !! i; v ← jsmap_get (id a) originals; Some (i, v)) notAtT in
  with_timeouts (timeouts s ++ [RestoreVisibility restore]) (with_agents ags s).

Record blocker := { b_agent : nat; b_blocking : list nat }.

Definition blockersOf (s : t) (atT notAtT : list nat) : list blocker :=
  let found :=
    omap (fun i =>
            agent ← agents s !! i;
            let blocked :=
              List.filter
                (fun j =>
                   match agents s !! j with
                   | None => false
                   | Some b =>
                       match currentDecisionMode s with
                       | Distributed =>
                           within (manhattan (pos agent) (pos b)) (visibilityRange b)
                       | Centralized => true
                       end &&
                       existsb (fun p => bool_decide (p = pos agent)) (path b)
                   end) notAtT in
            match blocked with
            | [] => None
            | _ => Some {| b_agent := i; b_blocking := blocked |}
            end) atT in
  stable_sort (fun a b => (length (b_blocking b) <=? length (b_blocking a))%nat) found.

Definition byDistanceFrom (p : Pos) (targets : list Pos) : list Pos :=
  stable_sort (fun a b => manhattan a p <=? manhattan b p) targets.

Definition reassignVisible (emptyTargets : list Pos) (notAtT : list nat) (s : t) : option t :=
  let attempts :=
    omap (fun i =>
            agent ← agents s !! i;
            let visible :=
              List.filter (fun tg => within (manhattan tg (pos agent)) (visibilityRange agent))
                          emptyTargets in
            match visible with [] => None | _ => Some (i, visible) end) notAtT in
  let attempts :=
    stable_sort (fun a b : nat * list Pos => (length a.2 <=? length b.2)%nat) attempts in
  find_first
    (fun attempt : nat * list Pos =>
       agent ← agents s !! attempt.1;
       find_first
         (fun target : Pos =>
            if negb (existsb (fun tg => bool_decide (tg = target)) emptyTargets) then None
            else
              let clearedGrid :=
                mask (outOfSight agent) (fun p => bool_decide (p = target))
                     (wallsOnly (grid s)) in
              let clearedGrid :=
                foldl (fun g a =>
                         if bool_decide (id a ≠ id agent) &&
                            within (manhattan (pos a) (pos agent)) (visibilityRange agent)
                         then grid_set g (pos a) CELL_WALL else g)
                      clearedGrid (agents s) in
              let p := createPathfinder s clearedGrid (pos agent) target in
              if longer_than_1 p then Some (retarget attempt.1 target p s) else None)
         (byDistanceFrom (pos agent) attempt.2))
    attempts.

(** Can one of the agents [blocked] reach its target on [testGrid]? *)
Definition anyReaches (s : t) (testGrid : Grid) (blocked : list nat) : throws bool :=
  some_throws
    (fun j =>
       match agents s !! j with
       | None => Ok false
       | Some blockedAgent =>
           match findPathToTarget s testGrid (pos blockedAgent)
                                  (targetX blockedAgent) (targetY blockedAgent) with
           | Ok blockedPath => Ok (longer_than_1 blockedPath)
           | TypeError => TypeError
           end
       end) blocked.

(** The chain test.  [testGrid] is shared by the rounds of the loop over
    the blockers: a cell cleared in one round stays cleared. *)
Fixpoint chainHelps (s : t) (agent : Agent) (testGrid : Grid) (blockers : list blocker)
    : throws (bool * Grid) :=
  match blockers with
  | [] => Ok (false, testGrid)
  | info :: rest =>
      match agents s !! b_agent info with
      | None => chainHelps s agent testGrid rest
      | Some blockingAgent =>
          if bool_decide (id blockingAgent = id agent) then chainHelps s agent testGrid rest
          else
            match findPathToTarget s testGrid (pos blockingAgent)
                                   (targetX agent) (targetY agent) with
            | Ok blockingPath =>
                if longer_than_1 blockingPath then
                  let testGrid' := grid_set testGrid (pos blockingAgent) CELL_EMPTY in
                  match anyReaches s testGrid' (b_blocking info) with
                  | Ok true => Ok (true, testGrid')
                  | Ok false => chainHelps s agent testGrid' rest
                  | TypeError => TypeError
                  end
                else chainHelps s agent testGrid rest
            | TypeError => TypeError
            end
      end
  end.

Definition recalculateOthers (agentId : Z) (s : t) : t :=
  foldl (fun s j =>
           match agents s !! j with
           | Some a => if bool_decide (id a ≠ agentId) then calculatePath j s else s
           | None => s
           end) s (seq 0 (length (agents s))).

Definition chainMove (emptyTargets : list Pos) (blockers : list blocker)
    (atT notAtT : list nat) (s : t) : throws (option t) :=
  let agentsToTry :=
    map b_agent blockers ++
    List.filter
      (fun i =>
         match agents s !! i with
         | None => false
         | Some a =>
             negb (existsb (fun info =>
                              match agents s !! b_agent info with
                              | Some b => bool_decide (id b = id a)
                              | None => false
                              end) blockers)
         end) atT in
  find_first_throws
    (fun i =>
       match agents s !! i with
       | None => Ok None
       | Some agent =>
           find_first_throws
             (fun target : Pos =>
                if isTargetOf agent target then Ok None
                else
                  let clearedGrid := settledAsWalls [id agent] (agents s) (grid s) in
                  let p := createPathfinder s clearedGrid (pos agent) target in
                  if longer_than_1 p then
                    let testGrid := grid_set (grid s) (pos agent) CELL_EMPTY in
                    let executed := recalculateOthers (id agent) (retarget i target p s) in
                    match chainHelps s agent testGrid blockers with
                    | Ok (true, _) => Ok (Some executed)
                    | Ok (false, testGrid) =>
                        match anyReaches s testGrid notAtT with
                        | Ok true => Ok (Some executed)
                        | Ok false => Ok None
                        | TypeError => TypeError
                        end
                    | TypeError => TypeError
                    end
                  else Ok None)
             emptyTargets
       end)
    agentsToTry.

Definition directMove (emptyTargets : list Pos) (blockers : list blocker) (s : t) : option t :=
  find_first
    (fun info =>
       agent ← agents s !! b_agent info;
       find_first
         (fun target : Pos =>
            if isTargetOf agent target then None
            else
              let clearedGrid := settledAsWalls [id agent] (agents s) (grid s) in
              let p := createPathfinder s clearedGrid (pos agent) target in
              if longer_than_1 p then
                Some (foldl (fun s j => calculatePath j s)
                            (retarget (b_agent info) target p s) (b_blocking info))
              else None)
         (byDistanceFrom (pos agent) emptyTargets))
    blockers.

Definition reassignBlocked (emptyTargets : list Pos) (notAtT : list nat) (s : t) : option t :=
  find_first
    (fun i =>
       blockedAgent ← agents s !! i;
       find_first
         (fun target : Pos =>
            if isTargetOf blockedAgent target then None
            else
              let clearedGrid := settledAsWalls [id blockedAgent] (agents s) (grid s) in
              let p := createPathfinder s clearedGrid (pos blockedAgent) target in
              if longer_than_1 p then Some (retarget i target p s) else None)
         emptyTargets)
    notAtT.

(** Exchange of the targets of two agents that can reach each other's. *)
Definition swapTargets (i j : nat) (s : t) : throws (option t) :=
  match agents s !! i, agents s !! j with
  | Some a1, Some a2 =>
      let clearedGrid := settledAsWalls [id a1; id a2] (agents s) (grid s) in
      match findPathToTarget s clearedGrid (pos a1) (targetX a2) (targetY a2),
            findPathToTarget s clearedGrid (pos a2) (targetX a1) (targetY a1) with
      | Ok path1, Ok path2 =>
          if longer_than_1 path1 && longer_than_1 path2 then
            let ags :=
              modify i (fun a => set_path path1 (set_target (targetX a2) (targetY a2) a))
                     (agents s) in
            let ags :=
              modify j (fun a => set_path path2 (set_target (targetX a1) (targetY a1) a)) ags in
            Ok (Some (with_agents ags s))
          else Ok None
      | _, _ => TypeError
      end
  | _, _ => Ok None
  end.

(** The pairs [(l[i], l[j])] with [i < j], in loop order. *)
Fixpoint pairs {A} (l : list A) : list (A * A) :=
  match l with
  | [] => []
  | a :: l' => map (fun b => (a, b)) l' ++ pairs l'
  end.

Definition swapAssignments (atT notAtT : list nat) (s : t) : throws (option t) :=
  match find_first_throws (fun ij : nat * nat => swapTargets ij.1 ij.2 s)
                          (i ← notAtT; j ← atT; [(i, j)]) with
  | Ok (Some s') => Ok (Some s')
  | Ok None => find_first_throws (fun ij : nat * nat => swapTargets ij.1 ij.2 s) (pairs notAtT)
  | TypeError => TypeError
  end.

(** The state the call leaves, and what it returns or that it raised. *)
Definition tryTargetReassignment (s : t) : t * throws bool :=
  let notAtT := indices notAtTarget (agents s) in
  let atT := indices atTarget (agents s) in
  let emptyTargets := emptyTargetsOf s in
  let s :=
    match currentDecisionMode s with
    | Distributed => widenVisibility notAtT s
    | Centralized => s
    end in
  let blockers := blockersOf s atT notAtT in
  let or_else (r : throws (option t)) (k : unit -> t * throws bool) : t * throws bool :=
    match r with
    | Ok (Some s') => (s', Ok true)
    | Ok None => k tt
    | TypeError => (s, TypeError)
    end in
  or_else
    match currentDecisionMode s with
    | Distributed => Ok (reassignVisible emptyTargets notAtT s)
    | Centralized => Ok None
    end
    (fun _ =>
  or_else
    match atT, emptyTargets with
    | _ :: _, _ :: _ => chainMove emptyTargets blockers atT notAtT s
    | _, _ => Ok None
    end
    (fun _ =>
  or_else
    match blockers, emptyTargets with
    | _ :: _, _ :: _ => Ok (directMove emptyTargets blockers s)
    | _, _ => Ok None
    end
    (fun _ =>
  or_else (Ok (reassignBlocked emptyTargets notAtT s))
    (fun _ =>
  or_else
    match emptyTargets with
    | [] => swapAssignments atT notAtT s
    | _ => Ok None
    end
    (fun _ => (s, Ok false)))))).

(** *** tryAgentSwapping *)

Definition swapPositions (i j : nat) (s : t) : option t :=
  agent1 ← agents s !! i;
  agent2 ← agents s !! j;
  if bool_decide (manhattan (pos agent1) (pos agent2) = 1) then
    let distA1 := distTo (pos agent1) (targetX agent1) (targetY agent1) in
    let distB1 := distTo (pos agent2) (targetX agent2) (targetY agent2) in
    let distA2 := distTo (pos agent2) (targetX agent1) (targetY agent1) in
    let distB2 := distTo (pos agent1) (targetX agent2) (targetY agent2) in
    if distA2 + distB2 <? distA1 + distB1 then
      let g := grid_set (grid_set (grid s) (pos agent1) CELL_EMPTY) (pos agent2) CELL_EMPTY in
      let ags := modify j (set_pos (pos agent1)) (modify i (set_pos (pos agent2)) (agents s)) in
      let g := grid_set (grid_set g (pos agent2) CELL_AGENT) (pos agent1) CELL_AGENT in
      Some (calculatePath j (calculatePath i (with_grid g (with_agents ags s))))
    else None
  else None.

Definition tryAgentSwapping (stuckAgents : list nat) (s : t) : t * bool :=
  match find_first (fun ij : nat * nat => swapPositions ij.1 ij.2 s) (pairs stuckAgents) with
  | Some s' => (s', true)
  | None => (s, false)
  end.

(** *** tryRandomMoves *)

Definition moveTo (i : nat) (agent : Agent) (n : Pos) (s : t) : t :=
  let g := grid_set (grid s) (pos agent) CELL_EMPTY in
  let ags := modify i (set_pos n) (agents s) in
  with_grid (grid_set g n CELL_AGENT) (with_agents ags s).

Definition freeFor (s : t) (agent : Agent) (n : Pos) : bool :=
  (0 <=? n.1) && (n.1 <? gridSize s) && (0 <=? n.2) && (n.2 <? gridSize s) &&
  negb (is_wall_cell (grid s) n) && negb (occupiedByOther (agents s) agent n).

Fixpoint tryRandomMoves (stuckAgents : list nat) (s : t) : t * bool :=
  match stuckAgents with
  | [] => (s, false)
  | i :: rest =>
      match agents s !! i with
      | None => tryRandomMoves rest s
      | Some agent =>
          let '(neighbors, e) :=
            shuffle (entropy s)
                    (getNeighbors (x agent) (y agent) (currentTopology s) (gridSize s)) in
          let s := with_entropy e s in
          match List.find (freeFor s agent) neighbors with
          | Some n =>
              let s := moveTo i agent n s in
              let s := with_agents (modify i (set_path []) (agents s)) s in
              (calculatePath i s, true)
          | None => tryRandomMoves rest s
          end
      end
  end.

(** *** moveAgentTemporarilyForced *)

Definition moveAgentTemporarilyForced (i : nat) (s : t) : t * bool :=
  match agents s !! i with
  | None => (s, false)
  | Some agent =>
      if negb (atTarget agent) then (s, false)
      else
        let neighbors := getNeighbors (x agent) (y agent) (currentTopology s) (gridSize s) in
        let availablePositions :=
          map (fun n => (n, distTo n (targetX agent) (targetY agent)))
              (List.filter (freeFor s agent) neighbors) in
        match stable_sort (fun a b : Pos * Z => b.2 <=? a.2) availablePositions with
        | [] => (s, false)
        | tempPos :: _ =>
            let s := with_agents (modify i (set_return (pos agent) 5) (agents s)) s in
            let s := moveTo i agent tempPos.1 s in
            (with_agents (modify i (set_path [tempPos.1; pos agent]) (agents s)) s, true)
        end
  end.

(** *** tryMoveBlockingAgents *)

(** Try the candidates in turn, marking each as tried. *)
Fixpoint forceFirst (s : t) (tried : list Z) (candidates : list nat) : option t * list Z :=
  match candidates with
  | [] => (None, tried)
  | i :: rest =>
      match agents s !! i with
      | None => forceFirst s tried rest
      | Some a =>
          let tried := id a :: tried in
          match moveAgentTemporarilyForced i s with
          | (s', true) => (Some s', tried)
          | (_, false) => forceFirst s tried rest
          end
      end
  end.

Definition blocksPathOf (s : t) (tried : list Z) (blocked : Agent) (nextStep : Pos)
    (targetAgent : Agent) : bool :=
  if bool_decide (id targetAgent ∈ tried) then false
  else if bool_decide (pos targetAgent = nextStep) then true
  else if existsb (fun p => bool_decide (p = pos targetAgent)) (path blocked) then true
  else
    match currentTopology s with
    | Moore =>
        existsb (fun p : Pos =>
                   let dx := Z.abs (p.1 - x targetAgent) in
                   let dy := Z.abs (p.2 - y targetAgent) in
                   (dx <=? 1) && (dy <=? 1) && negb ((dx =? 0) && (dy =? 0)))
                (path blocked)
    | VonNeumann => false
    end.

Fixpoint unblockFirst (s : t) (atT : list nat) (tried : list Z) (blockedAgents : list nat)
    : option t * list Z :=
  match blockedAgents with
  | [] => (None, tried)
  | j :: rest =>
      match agents s !! j with
      | Some blocked =>
          match path blocked with
          | _ :: nextStep :: _ =>
              let blockingAgents :=
                List.filter
                  (fun i => match agents s !! i with
                            | Some ta => blocksPathOf s tried blocked nextStep ta
                            | None => false
                            end) atT in
              match forceFirst s tried blockingAgents with
              | (Some s', tried) => (Some s', tried)
              | (None, tried) => unblockFirst s atT tried rest
              end
          | _ => unblockFirst s atT tried rest
          end
      | None => unblockFirst s atT tried rest
      end
  end.

(** The second pass: any agent at its target not tried yet. *)
Fixpoint forceUntried (s : t) (tried : list Z) (candidates : list nat) : option t :=
  match candidates with
  | [] => None
  | i :: rest =>
      match agents s !! i with
      | None => forceUntried s tried rest
      | Some a =>
          if bool_decide (id a ∈ tried) then forceUntried s tried rest
          else
            match moveAgentTemporarilyForced i s with
            | (s', true) => Some s'
            | (_, false) => forceUntried s (id a :: tried) rest
            end
      end
  end.

Definition tryMoveBlockingAgents (s : t) : t * bool :=
  let atT := indices atTarget (agents s) in
  let notAtT := indices notAtTarget (agents s) in
  let replan (s' : t) : t := foldl (fun s j => calculatePath j s) s' notAtT in
  match unblockFirst s atT [] notAtT with
  | (Some s', _) => (replan s', true)
  | (None, tried) =>
      let sorted :=
        stable_sort
          (fun i j => match agents s !! i, agents s !! j with
                      | Some a, Some b => id b <=? id a
                      | _, _ => true
                      end) atT in
      match forceUntried s tried sorted with
      | Some s' => (replan s', true)
      | None => (s, false)
      end
  end.

(** *** findTwoPhasePathThroughAgents

    The score [distToAgent + distToTarget * 1.5] is kept doubled. *)
Definition potentialIntermediates (s : t) (agent : Agent) : list (Pos * Z) :=
  let span := seqZ 0 (gridSize s) in
  omap (fun p : Pos =>
          if negb (bool_decide (cell (grid s) p.1 p.2 = Some CELL_EMPTY)) then None
          else if existsb (fun a => bool_decide (id a ≠ id agent) && atTarget a &&
                                    (manhattan p (pos a) <=? 2)) (agents s)
          then None
          else Some (p, 2 * manhattan p (pos agent)
                        + 3 * distTo p (targetX agent) (targetY agent)))
       (yy ← span; xx ← span; [(xx, yy)]).

Definition findTwoPhasePathThroughAgents (i : nat) (s : t) : t * throws bool :=
  match agents s !! i with
  | None => (s, Ok false)
  | Some agent =>
      let candidates :=
        take 5 (stable_sort (fun a b : Pos * Z => a.2 <=? b.2) (potentialIntermediates s agent)) in
      match
        find_first_throws
          (fun intermediate : Pos * Z =>
             let phaseOneGrid := settledAsWalls [id agent] (agents s) (grid s) in
             let pathToIntermediate :=
               createPathfinder s phaseOneGrid (pos agent) intermediate.1 in
             if longer_than_1 pathToIntermediate then
               match findPathToTarget s (wallsOnly (grid s)) intermediate.1
                                      (targetX agent) (targetY agent) with
               | Ok pathToTarget =>
                   if longer_than_1 pathToTarget then Ok (Some pathToIntermediate) else Ok None
               | TypeError => TypeError
               end
             else Ok None) candidates
      with
      | Ok (Some p) =>
          (with_agents
             (modify i (fun a => set_needsRecalculation true (set_path p a)) (agents s)) s,
           Ok true)
      | Ok None => (s, Ok false)
      | TypeError => (s, TypeError)
      end
  end.

(** *** pauseSimulation, assignTargets, startSimulation *)

Definition pauseSimulation (s : t) : t :=
  with_simulationInterval false (with_isSimulationRunning false s).

Definition assignTargets (s : t) : t :=
  if (length (targetPositions s) <? length (agents s))%nat then s
  else
    let agentPositions := map pos (agents s) in
    let assignments :=
      HungarianAlgorithm.findOptimalAssignment agentPositions (targetPositions s) (grid s) in
    foldl (fun s (assignment : nat * nat) =>
             match agents s !! assignment.1, targetPositions s !! assignment.2 with
             | Some _, Some target =>
                 calculatePath assignment.1
                   (with_agents
                      (modify assignment.1 (set_target (Some target.1) (Some target.2))
                              (agents s)) s)
             | _, _ => s
             end) s assignments.

(** [None]: the call returns before doing anything. *)
Definition startSimulation (s : t) : option t :=
  if isSimulationRunning s then None
  else if bool_decide (agents s = []) then None
  else if bool_decide (targetPositions s = []) then None
  else
    let s := with_failedDeadlockResolutionAttempts 0 s in
    let s := with_repeatedDeadlockCount 0 (with_lastDeadlockSignature [] s) in
    let s :=
      if sequentialMovementMode s
      then with_sequentialMovesRemaining (Z.of_nat (length (agents s))) s
      else s in
    let s := with_isSimulationRunning true s in
    let s := assignTargets s in
    Some (with_simulationInterval true s).

(** A pending callback fires. *)
Definition fire (tm : Timeout) (s : t) : t :=
  match tm with
  | RestoreVisibility ranges =>
      with_agents
        (foldl (fun ags (iv : nat * option Z) => modify iv.1 (set_visibilityRange iv.2) ags)
               (agents s) ranges) s
  | Restart forceSequential =>
      let s :=
        if forceSequential
        then with_sequentialMovesRemaining (Z.of_nat (length (agents s)))
               (with_sequentialMovementMode true s)
        else s in
      default s (startSimulation s)
  end.

(** *** simulationStep *)

Definition generateDeadlockSignature (s : t) (deadlockedAgentIds : list Z) : Signature :=
  map (fun i =>
         match find_by_id i (agents s) with
         | None => (i, None)
         | Some k =>
             match agents s !! k with
             | Some a => (i, Some (pos a, (targetX a, targetY a)))
             | None => (i, None)
             end
         end)
      (stable_sort Z.leb deadlockedAgentIds).

(** The sequential-mode filter on the detected ids. *)
Definition trulyDeadlocked (s : t) (agentId : Z) : throws bool :=
  match find_by_id agentId (agents s) ≫= fun k => agents s !! k with
  | None => Ok false
  | Some agent =>
      let waiting :=
        match path agent with
        | _ :: nextStep :: _ => occupiedByOther (agents s) agent nextStep
        | _ => false
        end in
      if waiting then Ok false
      else
        let clearedGrid := wallsOnly (grid s) in
        let clearedGrid :=
          match currentDecisionMode s with
          | Distributed =>
              mask (fun p => match visibilityRange agent with
                             | Some v => 3 * v <? 2 * manhattan p (pos agent)
                             | None => false
                             end)
                   (isTargetOf agent) clearedGrid
          | Centralized => clearedGrid
          end in
        match findPathToTarget s clearedGrid (pos agent) (targetX agent) (targetY agent) with
        | Ok path => Ok (negb (longer_than_1 path))
        | TypeError => TypeError
        end
  end.

Definition priorityLeb (a b : Agent) : bool :=
  if atTarget a && negb (atTarget b) then false
  else if negb (atTarget a) && atTarget b then true
  else distTo (pos a) (targetX a) (targetY a) <=? distTo (pos b) (targetX b) (targetY b).

Definition prioritizedAgents (s : t) : list nat :=
  map fst (stable_sort (fun a b : nat * Agent => priorityLeb a.2 b.2)
                       (imap (fun i a => (i, a)) (agents s))).

Definition occupant (s : t) (agent : Agent) (nextStep : Pos) : option Agent :=
  match currentDecisionMode s with
  | Distributed =>
      List.find (fun a =>
                   if bool_decide (id a = id agent) then false
                   else if bool_decide (pos a = nextStep)
                        then within (manhattan (pos a) (pos agent)) (visibilityRange agent)
                        else false) (agents s)
  | Centralized =>
      List.find (fun a => bool_decide (id a ≠ id agent) && bool_decide (pos a = nextStep))
                (agents s)
  end.

Record progress := { now : t; agentsMoved : bool; agentsMovedCount : Z; stopped : bool }.

Definition continue_with (s : t) (pr : progress) : progress :=
  {| now := s; agentsMoved := agentsMoved pr; agentsMovedCount := agentsMovedCount pr;
     stopped := stopped pr |}.

(** The commit of one move along the path. *)
Definition commitStep (i : nat) (agent : Agent) (nextStep : Pos) (s : t) : t :=
  let s :=
    if sequentialMovementMode s then
      let remaining := sequentialMovesRemaining s - 1 in
      with_sequentialMovesRemaining
        (if remaining <=? 0 then Z.of_nat (length (agents s)) else remaining) s
    else s in
  let s := moveTo i agent nextStep s in
  let s := with_agents (modify i (fun a => set_path (tail (path a)) a) (agents s)) s in
  let s := with_totalMoves (totalMoves s + 1) s in
  match agents s !! i with
  | None => s
  | Some moved =>
      let s :=
        if atTarget moved then with_agents (modify i (set_path [pos moved]) (agents s)) s
        else s in
      match currentDecisionMode s with
      | Distributed =>
          if bool_decide (targetX moved ≠ Some (x moved)) &&
             bool_decide (targetY moved ≠ Some (y moved))
          then
            if negb (sequentialMovementMode s) then calculatePath i s
            else
              let '(r, e) := draw (entropy s) in
              let s := with_entropy e s in
              if r <? 500 then calculatePath i s else s
          else s
      | Centralized => s
      end
  end.

(** One round of [for (const agent of prioritizedAgents)]. *)
Definition moveAgent (pr : progress) (i : nat) : progress :=
  if stopped pr then pr
  else
    let s := now pr in
    match agents s !! i with
    | None => pr
    | Some agent =>
        if atTarget agent then
          continue_with (with_agents (modify i (set_path [pos agent]) (agents s)) s) pr
        else if sequentialMovementMode s && (0 <? agentsMovedCount pr) then
          {| now := s; agentsMoved := agentsMoved pr;
             agentsMovedCount := agentsMovedCount pr; stopped := true |}
        else
          let s :=
            if isRetreating agent && negb (longer_than_1 (path agent))
            then with_agents (modify i (set_isRetreating false) (agents s)) s
            else s in
          match path agent with
          | _ :: nextStep :: _ =>
              match occupant s agent nextStep with
              | None =>
                  {| now := commitStep i agent nextStep s; agentsMoved := true;
                     agentsMovedCount := agentsMovedCount pr + 1; stopped := false |}
              | Some occupyingAgent =>
                  if atTarget occupyingAgent then continue_with (calculatePath i s) pr
                  else if 2 <? default 0 (jsmap_get (id agent)
                                            (DeadlockHandler.waitingTime (deadlockHandler s)))
                  then continue_with (calculatePath i s) pr
                  else continue_with s pr
              end
          | _ =>
              match targetX agent, targetY agent with
              | Some _, Some _ => continue_with (calculatePath i s) pr
              | _, _ => continue_with s pr
              end
          end
    end.

(** The ladder run when no agent moved and fewer than 5 attempts failed. *)
Definition forceNearGoal (stuckAgents : list nat) (s : t) : option t :=
  find_first
    (fun k =>
       stuckAgent ← agents s !! k;
       let blockingAgents :=
         indices (fun a => atTarget a &&
                           (distTo (pos a) (targetX stuckAgent) (targetY stuckAgent) <=? 2))
                 (agents s) in
       find_first
         (fun b => match moveAgentTemporarilyForced b s with
                   | (s', true) => Some (calculatePath k s')
                   | (_, false) => None
                   end) blockingAgents)
    stuckAgents.

Definition clearedPaths (stuckAgents : list nat) (s : t) : t * throws bool :=
  foldl (fun (acc : t * throws bool) k =>
           match acc with
           | (s0, Ok successful) =>
               match findTwoPhasePathThroughAgents k s0 with
               | (s1, Ok true) => (s1, Ok true)
               | (s1, Ok false) =>
                   let '(s2, found) := findPathIgnoringAgents k s1 in
                   (s2, Ok (successful || found))
               | (s1, TypeError) => (s1, TypeError)
               end
           | (_, TypeError) => acc
           end)
        (s, Ok false) stuckAgents.

(** [if (attempt) return;] and the statements after it. *)
Definition unless (attempt : t * throws bool) (rest : t -> t * throws unit)
    : t * throws unit :=
  match attempt with
  | (s, Ok true) => (s, Ok tt)
  | (s, Ok false) => rest s
  | (s, TypeError) => (s, TypeError)
  end.

(** A helper that cannot raise. *)
Definition returns (r : t * bool) : t * throws bool := (r.1, Ok r.2).

Definition escalate (agentsWithNoMoves : nat) (s : t) : t * throws unit :=
  unless (tryTargetReassignment s) (fun s =>
  unless (returns (tryMoveBlockingAgents s)) (fun s =>
  match agentsWithNoMoves with
  | S _ =>
      let stuckAgents := indices stuck (agents s) in
      match forceNearGoal stuckAgents s with
      | Some s' => (s', Ok tt)
      | None =>
          unless (returns (if (2 <=? length stuckAgents)%nat
                           then tryAgentSwapping stuckAgents s
                           else (s, false))) (fun s =>
          unless (clearedPaths stuckAgents s) (fun s =>
          unless (returns (tryRandomMoves stuckAgents s)) (fun s =>
          unless (tryTargetReassignment s) (fun s =>
          (pauseSimulation s, Ok tt)))))
      end
  | O =>
      unless (tryTargetReassignment s) (fun s =>
      (pauseSimulation s, Ok tt))
  end)).

(** The last-resort widening of the distributed sequential mode. *)
Definition widenAll (s : t) : t :=
  foldl (fun s k =>
           match agents s !! k with
           | Some agent =>
               if atTarget agent then s
               else
                 let originalVisibility := visibilityRange agent in
                 let s :=
                   with_agents
                     (modify k (set_visibilityRange (Z.add 2 <$> originalVisibility))
                             (agents s)) s in
                 let s := calculatePath k s in
                 with_timeouts (timeouts s ++ [RestoreVisibility [(k, originalVisibility)]]) s
           | None => s
           end) s (seq 0 (length (agents s))).

Definition noMovement (agentsWithNoMoves : nat) (s : t) : t * throws unit :=
  let s :=
    with_failedDeadlockResolutionAttempts (failedDeadlockResolutionAttempts s + 1) s in
  match currentDecisionMode s, sequentialMovementMode s with
  | Distributed, true => (widenAll s, Ok tt)
  | _, _ =>
      if 5 <=? failedDeadlockResolutionAttempts s then
        let s := pauseSimulation s in
        let s := with_failedDeadlockResolutionAttempts 0 s in
        (with_timeouts (timeouts s ++ [Restart true]) s, Ok tt)
      else escalate agentsWithNoMoves s
  end.

(** The distributed sequential mode replans before moving. *)
Definition replanSequential (order : list nat) (s : t) : t :=
  foldl (fun s k =>
           match agents s !! k with
           | Some agent =>
               if atTarget agent then s
               else if negb (longer_than_1 (path agent)) then calculatePath k s
               else
                 let '(r, e) := draw (entropy s) in
                 let s := with_entropy e s in
                 if r <? 200 then calculatePath k s else s
           | None => s
           end) s order.

(** From the priority sort to the end of the movement loop. *)
Definition mainLoop (s : t) : progress :=
  let order := prioritizedAgents s in
  let s :=
    match currentDecisionMode s, sequentialMovementMode s with
    | Distributed, true => replanSequential order s
    | _, _ => s
    end in
  foldl moveAgent {| now := s; agentsMoved := false; agentsMovedCount := 0;
                     stopped := false |} order.

(** The checks after the loop. *)
Definition afterLoop (pr : progress) : t * throws unit :=
  let s := now pr in
  if (length (indices atTarget (agents s)) =? length (agents s))%nat
  then (pauseSimulation s, Ok tt)
  else
    let agentsWithNoMoves := length (indices stuck (agents s)) in
    if agentsMoved pr then (s, Ok tt) else noMovement agentsWithNoMoves s.

Definition moveAll (s : t) : t * throws unit := afterLoop (mainLoop s).

(** [deadlockHandler.resolveDeadlocks(deadlockedAgents)] *)
Definition resolve (deadlockedAgents : list Z) (s : t) : t :=
  let '(h, ags) :=
    DeadlockHandler.resolveDeadlocks (deadlockHandler s) (handlerGridOf s)
                                     (handlerAgentsOf s) deadlockedAgents in
  with_handlerAgentsOf ags (with_deadlockHandler h s).

(** From the start of the tick to the priority sort.  [Ok false]: the tick
    returns before its movement loop. *)
Definition beforeLoop (s : t) : t * throws bool :=
  let s :=
    with_deadlockHandler
      (DeadlockHandler.updatePositionTracking (deadlockHandler s) (handlerAgentsOf s)) s in
  match indices notAtTarget (agents s) with
  | [] => (pauseSimulation s, Ok false)
  | _ =>
      let detected :=
        DeadlockHandler.detectDeadlocks (deadlockHandler s) (handlerAgentsOf s) in
      match
        match sequentialMovementMode s, detected with
        | true, _ :: _ => filter_throws (trulyDeadlocked s) detected
        | _, _ => Ok detected
        end
      with
      | TypeError => (s, TypeError)
      | Ok [] => (with_repeatedDeadlockCount 0 (with_lastDeadlockSignature [] s), Ok true)
      | Ok deadlockedAgents =>
          let tracked :=
            sequentialMovementMode s &&
            match currentAlgorithm s with Astar | Bfs => true | _ => false end in
          if tracked then
            let deadlockSignature := generateDeadlockSignature s deadlockedAgents in
            if bool_decide (deadlockSignature = lastDeadlockSignature s) then
              let s := with_repeatedDeadlockCount (repeatedDeadlockCount s + 1) s in
              if 3 <=? repeatedDeadlockCount s then
                let s := pauseSimulation s in
                let s := with_repeatedDeadlockCount 0 (with_lastDeadlockSignature [] s) in
                (with_timeouts (timeouts s ++ [Restart false]) s, Ok false)
              else (resolve deadlockedAgents s, Ok true)
            else
              (resolve deadlockedAgents
                 (with_repeatedDeadlockCount 1
                    (with_lastDeadlockSignature deadlockSignature s)), Ok true)
          else (resolve deadlockedAgents s, Ok true)
      end
  end.

(** The body of the [try] block: the state it leaves, and whether it
    raised. *)
Definition tryStep (s : t) : t * throws unit :=
  match beforeLoop s with
  | (s, Ok true) => moveAll s
  | (s, Ok false) => (s, Ok tt)
  | (s, TypeError) => (s, TypeError)
  end.

(** The [catch] block logs the error and calls [pauseSimulation]. *)
Definition simulationStep (s : t) : t :=
  match tryStep s with
  | (s, Ok _) => s
  | (s, TypeError) => pauseSimulation s
  end.

End WithInterfaces.
End Sim.

(** ** Instances used to run the model

    Exact rationals extended with [-Infinity] ([None]), and a source of
    randomness that always draws 0 and leaves arrays in place. *)

Definition qnum_lift (f : Q -> Q -> Q) (a b : option Q) : option Q :=
  match a, b with
  | Some p, Some q => Some (Qred (f p q))
  | _, _ => None
  end.

#[export] Instance QNum : JSNum (option Q) := {|
  n_of_Z := fun z => Some (inject_Z z);
  n_neg_inf := None;
  n_add := qnum_lift Qplus;
  n_sub := qnum_lift Qminus;
  n_mul := qnum_lift Qmult;
  n_div := qnum_lift Qdiv;
  n_max := fun a b =>
    match a, b with
    | None, _ => b
    | _, None => a
    | Some p, Some q => if Qle_bool p q then b else a
    end;
  n_min := fun a b =>
    match a, b with
    | None, _ => None
    | _, None => None
    | Some p, Some q => if Qle_bool p q then a else b
    end;
  n_ltb := fun a b =>
    match a, b with
    | _, None => false
    | None, Some _ => true
    | Some p, Some q => negb (Qle_bool q p)
    end
|}.

#[export] Instance NoRandom : Random unit := {|
  draw := fun e => (0, e);
  shuffle := fun e l => (l, e);
  shuffle_perm := fun e l => reflexivity l
|}.

Definition empty_grid (n : nat) : Grid := replicate n (replicate n CELL_EMPTY).

Definition mkAgent (i : Z) (p : Pos) (target : option Pos) (route : list Pos) : Agent :=
  {| id := i; x := p.1; y := p.2;
     targetX := fst <$> target; targetY := snd <$> target;
     path := route; isRetreating := false; visibilityRange := None;
     needsToReturnToTarget := false; originalTarget := None;
     targetCooldown := 0; needsRecalculation := false |}.

(** The state [initializeGrid] leaves, with the given placement. *)
Definition initial (n : nat) (walls : list Pos) (ags : list Agent) (targets : list Pos)
    : Sim.t (E := unit) :=
  {| Sim.grid :=
       foldl (fun g a => grid_set g (pos a) CELL_AGENT)
             (foldl (fun g w => grid_set g w CELL_WALL) (empty_grid n) walls) ags;
     Sim.agents := ags;
     Sim.targetPositions := targets;
     Sim.gridSize := Z.of_nat n;
     Sim.isSimulationRunning := false;
     Sim.simulationInterval := false;
     Sim.totalMoves := 0;
     Sim.deadlockHandler := DeadlockHandler.new;
     Sim.handlerGrid := None;
     Sim.handlerAgents := None;
     Sim.failedDeadlockResolutionAttempts := 0;
     Sim.sequentialMovementMode := false;
     Sim.sequentialMovesRemaining := 0;
     Sim.currentDecisionMode := Centralized;
     Sim.currentAlgorithm := Astar;
     Sim.currentTopology := VonNeumann;
     Sim.simulationSpeed := 300;
     Sim.lastDeadlockSignature := [];
     Sim.repeatedDeadlockCount := 0;
     Sim.timeouts := [];
     Sim.entropy := tt |}.

(** ** The draft of main.js (unnamed/part_000)

    The earlier [moveAgentTemporarilyForced]: the cell is searched among
    all cells up to 3 columns and 3 rows away, the one closest to the
    target first, and no cooldown is set. *)

Module Draft.
Section WithInterfaces.
Context {num : Type} {N : JSNum num} {E : Type} {R : Random E}.

Definition availablePositions (s : Sim.t (E := E)) (agent : Agent) : list (Pos * Z) :=
  let span := seqZ (-3) 7 in
  omap (fun d : Pos =>
          if bool_decide (d = (0, 0)) then None
          else
            let n := pos_add (pos agent) d in
            if Sim.freeFor s agent n
            then Some (n, distTo n (targetX agent) (targetY agent))
            else None)
       (dy ← span; dx ← span; [(dx, dy)]).

Definition moveAgentTemporarilyForced (i : nat) (s : Sim.t (E := E))
    : Sim.t (E := E) * bool :=
  match Sim.agents s !! i with
  | None => (s, false)
  | Some agent =>
      if negb (atTarget agent) then (s, false)
      else
        match stable_sort (fun a b : Pos * Z => a.2 <=? b.2) (availablePositions s agent) with
        | [] => (s, false)
        | tempPos :: _ =>
            let s :=
              Sim.with_agents
                (modify i (set_return (pos agent) (targetCooldown agent)) (Sim.agents s)) s in
            let s := Sim.moveTo i agent tempPos.1 s in
            (Sim.with_agents (modify i (set_path [tempPos.1; pos agent]) (Sim.agents s)) s,
             true)
        end
  end.

End WithInterfaces.
End Draft.

(** ** main.js: the controls of the page

    The handlers that bind [grid] or [agents] to a new array, and those of
    the select boxes, whose value is an argument.  The select boxes of the
    algorithm, the topology, the decision mode and the movement mode stay
    enabled while the simulation runs.  Drawing and logging are left
    out. *)

Definition createEmptyGrid (size : Z) : Grid :=
  replicate (Z.to_nat size) (replicate (Z.to_nat size) CELL_EMPTY).

Module Editor.
Section WithInterfaces.
Context {num : Type} {N : JSNum num} {E : Type} {R : Random E}.

(** [grid = v] and [agents = v]: the handler keeps the array it holds. *)
Definition rebind_grid (v : Grid) (s : Sim.t (E := E)) : Sim.t (E := E) :=
  Sim.with_grid v (Sim.with_handlerGrid (Some (Sim.handlerGridOf s)) s).
Definition rebind_agents (v : list Agent) (s : Sim.t (E := E)) : Sim.t (E := E) :=
  Sim.with_agents v (Sim.with_handlerAgents (Some (Sim.handlerAgentsOf s)) s).

Definition clearAgents (s : Sim.t (E := E)) : Sim.t (E := E) :=
  if Sim.isSimulationRunning s then s
  else
    let s :=
      Sim.with_grid
        (foldl (fun g a => grid_set g (pos a) CELL_EMPTY) (Sim.grid s) (Sim.agents s)) s in
    rebind_agents [] s.

Definition clearTargets (s : Sim.t (E := E)) : Sim.t (E := E) :=
  if Sim.isSimulationRunning s then s else Sim.with_targetPositions [] s.

Definition clearWalls (s : Sim.t (E := E)) : Sim.t (E := E) :=
  if Sim.isSimulationRunning s then s
  else
    let newGrid :=
      foldl (fun g a => grid_set g (pos a) CELL_AGENT)
            (createEmptyGrid (Sim.gridSize s)) (Sim.agents s) in
    rebind_grid newGrid s.

Definition resetSimulation (s : Sim.t (E := E)) : Sim.t (E := E) :=
  let s := Sim.pauseSimulation s in
  let s := rebind_agents [] s in
  let s := Sim.with_totalMoves 0 (Sim.with_targetPositions [] s) in
  if (0 <? length (Sim.grid s))%nat
  then rebind_grid (createEmptyGrid (Sim.gridSize s)) s
  else s.

Definition changeAlgorithm (value : Algorithm) (s : Sim.t (E := E)) : Sim.t (E := E) :=
  Sim.with_currentAlgorithm value s.

Definition changeTopology (value : Topology) (s : Sim.t (E := E)) : Sim.t (E := E) :=
  Sim.with_currentTopology value s.

(** [sequential] is [mode === 'sequential']. *)
Definition changeMovementMode (sequential : bool) (s : Sim.t (E := E)) : Sim.t (E := E) :=
  let s := Sim.with_sequentialMovementMode sequential s in
  if Sim.sequentialMovementMode s
  then Sim.with_sequentialMovesRemaining (Z.of_nat (length (Sim.agents s))) s
  else s.

(** Every agent is created with a [visibilityRange], so the loop that
    fills in a missing one changes nothing. *)
Definition changeDecisionMode (mode : DecisionMode) (s : Sim.t (E := E)) : Sim.t (E := E) :=
  Sim.with_currentDecisionMode mode s.

End WithInterfaces.
End Editor.

(** * A-star: the frontier *)

Lemma insert_by_f_perm n l : AStar.insert_by_f n l ≡ₚ n :: l.
Proof.
  induction l as [|m l IH]; simpl; [done|].
  destruct (n.2 <=? m.2); [done|]. rewrite IH. apply Permutation_swap.
Qed.

Lemma sort_by_f_perm l : AStar.sort_by_f l ≡ₚ l.
Proof.
  induction l as [|n l IH]; simpl; [done|].
  rewrite insert_by_f_perm. by rewrite IH.
Qed.

Definition f_sorted (l : list (Pos * Z)) : Prop :=
  match l with
  | [] => True
  | n :: l' => Forall (fun m => n.2 <= m.2) l'
  end.

Lemma insert_by_f_head n l :
  StronglySorted (fun a b : Pos * Z => a.2 <= b.2) l ->
  StronglySorted (fun a b : Pos * Z => a.2 <= b.2) (AStar.insert_by_f n l).
Proof.
  induction 1 as [|m l Hs IH Hm]; simpl.
  - repeat constructor.
  - destruct (Z.leb_spec n.2 m.2).
    + constructor; [by constructor|]. constructor; [done|].
      eapply Forall_impl; [exact Hm|]. simpl. intros; lia.
    + constructor; [done|]. rewrite insert_by_f_perm. constructor; [lia|done].
Qed.

Lemma sort_by_f_sorted l : StronglySorted (fun a b : Pos * Z => a.2 <= b.2) (AStar.sort_by_f l).
Proof.
  induction l as [|n l IH]; simpl; [constructor|]. by apply insert_by_f_head.
Qed.

Lemma sort_by_f_min l n rest m :
  AStar.sort_by_f l = n :: rest -> m ∈ l -> n.2 <= m.2.
Proof.
  intros Hs Hm. pose proof (sort_by_f_sorted l) as Hsorted. rewrite Hs in Hsorted.
  assert (m ∈ n :: rest) as Hin by (rewrite <- Hs, sort_by_f_perm; done).
  inversion Hsorted as [|? ? ? Hall]; subst.
  apply elem_of_cons in Hin as [->|Hin]; [lia|].
  rewrite Forall_forall in Hall. by apply Hall.
Qed.

Lemma in_open_spec p l : AStar.in_open p l = true <-> p ∈ map fst l.
Proof.
  unfold AStar.in_open. rewrite existsb_exists, list_elem_of_fmap.
  split.
  - intros (n & Hin & Hp). apply bool_decide_eq_true in Hp.
    exists n. split; [done|]. by apply list_elem_of_In.
  - intros (n & -> & Hin). exists n. split; [by apply list_elem_of_In|].
    by apply bool_decide_eq_true.
Qed.

Lemma set_f_fst p f l : map fst (AStar.set_f p f l) = map fst l.
Proof.
  induction l as [|n l IH]; simpl; [done|].
  case_bool_decide; simpl; [done|]. by rewrite IH.
Qed.

Lemma elem_of_set_f p f l n fn :
  NoDup (map fst l) ->
  (n, fn) ∈ AStar.set_f p f l ->
  (n = p /\ fn = f /\ p ∈ map fst l) \/ (n <> p /\ (n, fn) ∈ l).
Proof.
  induction l as [|m l IH]; simpl; [by intros _ ?%elem_of_nil|].
  intros Hnd Hin. apply NoDup_cons in Hnd as [Hm Hnd].
  case_bool_decide as Hp.
  - apply elem_of_cons in Hin as [[= -> ->]|Hin].
    + left. split; [done|]. split; [done|]. rewrite <- Hp. left.
    + right. split; [|by right].
      intros ->. apply Hm. rewrite Hp. apply list_elem_of_fmap. by exists (p, fn).
  - apply elem_of_cons in Hin as [Heq|Hin].
    + subst m. right. split; [exact Hp|left].
    + destruct (IH Hnd Hin) as [(-> & -> & ?)|[? ?]].
      * left. repeat split; try done. by right.
      * right. split; [done|by right].
Qed.

Lemma elem_of_set_f_hit p f l :
  p ∈ map fst l -> (p, f) ∈ AStar.set_f p f l.
Proof.
  induction l as [|m l IH]; simpl; [by intros ?%elem_of_nil|].
  intros Hin. case_bool_decide as Hp.
  - rewrite Hp. left.
  - apply elem_of_cons in Hin as [->|Hin]; [done|]. right. by apply IH.
Qed.

Lemma elem_of_set_f_other p f l n fn :
  n <> p -> (n, fn) ∈ l -> (n, fn) ∈ AStar.set_f p f l.
Proof.
  induction l as [|m l IH]; simpl; [done|].
  intros Hne Hin. case_bool_decide as Hp.
  - apply elem_of_cons in Hin as [<-|Hin]; [done|by right].
  - apply elem_of_cons in Hin as [<-|Hin]; [left|right; by apply IH].
Qed.

(** ** Routes: what a planner is asked to return *)

Definition passable (g : Grid) (p : Pos) : Prop :=
  in_bounds g p = true /\ is_wall_cell g p = false.

(** [q] is one step of the topology away from [p]. *)
Definition adjacent (topo : Topology) (p q : Pos) : Prop :=
  exists d, d ∈ getDirections topo /\ q = pos_add p d.

(** A route: every position after the first is a free cell of the grid one
    step away from its predecessor. *)
Inductive route (g : Grid) (topo : Topology) : list Pos -> Prop :=
| route_one p : route g topo [p]
| route_cons p q l :
    adjacent topo p q -> passable g q -> route g topo (q :: l) -> route g topo (p :: q :: l).

(** Cost of a route in thousandths: 1000 per orthogonal step, 1414 per
    diagonal step. *)
Fixpoint route_cost (l : list Pos) : Z :=
  match l with
  | p :: (q :: _) as l' => AStar.moveCost (q.1 - p.1, q.2 - p.2) + route_cost l'
  | _ => 0
  end.

Definition route_between (g : Grid) (topo : Topology) (start goal : Pos) (l : list Pos) : Prop :=
  route g topo l /\ head l = Some start /\ last l = Some goal.

Lemma step_diff (q d : Pos) :
  ((pos_add q d).1 - q.1, (pos_add q d).2 - q.2) = d.
Proof. destruct q, d. unfold pos_add. simpl. f_equal; lia. Qed.

(** Following parent links ends when the links descend along a rank. *)
Lemma reconstruct_total (cf : gmap Pos Pos) (rank : Pos -> Z) :
  (forall n p, cf !! n = Some p -> rank p < rank n) ->
  forall fuel cur path (K : gset Pos),
    (forall n, is_Some (cf !! n) -> rank n <= rank cur -> n ∈ K) ->
    (size K <= fuel)%nat ->
    is_Some (reconstruct fuel cf cur path).
Proof.
  intros Hrank. induction fuel as [|fuel IH]; intros cur path K HK Hsize.
  - simpl. destruct (cf !! cur) as [p|] eqn:Hp; [|by eexists].
    assert (cur ∈ K) as Hin by (apply HK; [by eexists|lia]).
    assert (size K ≠ 0%nat) by (apply size_non_empty_iff; set_solver).
    lia.
  - simpl. destruct (cf !! cur) as [p|] eqn:Hp; [|by eexists].
    assert (cur ∈ K) as Hin by (apply HK; [by eexists|lia]).
    apply (IH p (p :: path) (K ∖ {[cur]})).
    + intros n Hn Hle. pose proof (Hrank _ _ Hp).
      apply elem_of_difference. split; [apply HK; [done|lia]|].
      intros ->%elem_of_singleton. lia.
    + assert (size K = size ({[cur]} : gset Pos) + size (K ∖ {[cur]}))%nat as Heq.
      { rewrite <- size_union by set_solver.
        f_equal. apply set_eq. intros z. rewrite elem_of_union, elem_of_difference, elem_of_singleton.
        destruct (decide (z = cur)); naive_solver. }
      rewrite size_singleton in Heq. lia.
Qed.

(** The cells of a grid, as the search can see them. *)
Definition cells (g : Grid) : list Pos :=
  map (fun yx : nat * nat => (Z.of_nat yx.2, Z.of_nat yx.1))
      (list_prod (seq 0 (length g)) (seq 0 (length (default [] (g !! 0%nat))))).

Lemma length_cells g : length (cells g) = (length g * length (default [] (g !! 0%nat)))%nat.
Proof. unfold cells. by rewrite length_map, length_prod, !length_seq. Qed.

Lemma in_bounds_cells g p : in_bounds g p = true -> p ∈ cells g.
Proof.
  unfold in_bounds, cols, rows, cells. intros H.
  repeat (apply andb_prop in H as [H ?]).
  apply list_elem_of_fmap. exists (Z.to_nat p.2, Z.to_nat p.1). simpl. split.
  - destruct p. simpl in *. f_equal; lia.
  - apply list_elem_of_In, in_prod_iff. split; apply in_seq; lia.
Qed.

Lemma size_list_to_set_le (l : list Pos) : (size (list_to_set l : gset Pos) <= length l)%nat.
Proof.
  induction l as [|x l IH].
  - change (list_to_set [] : gset Pos) with (∅ : gset Pos). by rewrite size_empty.
  - change (list_to_set (x :: l) : gset Pos) with ({[x]} ∪ list_to_set l : gset Pos).
    rewrite size_union_alt, size_singleton. simpl length.
    assert (size (list_to_set l ∖ {[x]} : gset Pos) <= size (list_to_set l : gset Pos))%nat.
    { apply subseteq_size. apply subseteq_difference_l. done. }
    lia.
Qed.

Section AStarCorrect.
Variables (g : Grid) (topo : Topology) (start goal : Pos).
Local Abbreviation a := (AStar.new g topo).
Local Abbreviation h p := (AStar.heuristic a p goal).

Local Abbreviation passable := (passable g).

(** [walk p c]: some sequence of admissible steps leads from [start] to
    [p] at total cost [c]. *)
Inductive walk : Pos -> Z -> Prop :=
| walk_start : walk start 0
| walk_step q c d :
    walk q c -> d ∈ getDirections topo -> passable (pos_add q d) ->
    walk (pos_add q d) (c + AStar.moveCost d).

Lemma heuristic_consistent p d :
  d ∈ getDirections topo -> h p <= AStar.moveCost d + h (pos_add p d).
Proof.
  unfold AStar.heuristic, AStar.moveCost, manhattan, chebyshev, pos_add. simpl.
  destruct p as [px py], goal as [gx gy]. simpl.
  destruct topo; simpl; intros Hd;
    repeat (apply elem_of_cons in Hd as [->|Hd]); try (by apply elem_of_nil in Hd);
    simpl; lia.
Qed.

Lemma moveCost_pos d : 0 < AStar.moveCost d.
Proof. unfold AStar.moveCost. case_match; lia. Qed.

Lemma walk_nonneg p c : walk p c -> 0 <= c.
Proof. induction 1; [lia|]. pose proof (moveCost_pos d). lia. Qed.

Definition relaxed_to (st : AStar.state) (u v : Pos) (gv : Z) (open' : list (Pos * Z))
    : AStar.state :=
  {| AStar.openSet := open';
     AStar.closedSet := AStar.closedSet st;
     AStar.cameFrom := <[v := u]> (AStar.cameFrom st);
     AStar.gScore := <[v := gv]> (AStar.gScore st) |}.

Lemma relax_cases u st d gcur :
  AStar.gScore st !! u = Some gcur ->
  let v := pos_add u d in
  let gv := gcur + AStar.moveCost d in
  (AStar.relax a goal u st d = st /\
   ((~ passable v) \/ v ∈ AStar.closedSet st \/
    (v ∈ map fst (AStar.openSet st) /\
     (exists gn, AStar.gScore st !! v = Some gn /\ gn <= gv))))
  \/
  (passable v /\ (v ∉ AStar.closedSet st) /\
   (exists open', AStar.relax a goal u st d = relaxed_to st u v gv open' /\
     (((v ∉ map fst (AStar.openSet st)) /\ open' = AStar.openSet st ++ [(v, gv + h v)]) \/
      (v ∈ map fst (AStar.openSet st) /\ open' = AStar.set_f v (gv + h v) (AStar.openSet st) /\
       (forall gn, AStar.gScore st !! v = Some gn -> gv < gn))))).
Proof.
  intros Hg v gv. unfold AStar.relax. fold v. simpl AStar.grid.
  destruct (in_bounds g v) eqn:Hb; simpl.
  2:{ left. split; [done|]. left. intros [? ?]; congruence. }
  case_bool_decide as Hc; simpl.
  { left. split; [done|]. right; by left. }
  destruct (is_wall_cell g v) eqn:Hw; simpl.
  { left. split; [done|]. left. intros [? ?]; congruence. }
  rewrite Hg. fold gv.
  destruct (AStar.in_open v (AStar.openSet st)) eqn:Ho; simpl.
  - apply in_open_spec in Ho.
    destruct (AStar.gScore st !! v) as [gn|] eqn:Hgn.
    + destruct (Z.leb_spec gn gv).
      * left. split; [done|]. right; right. split; [done|]. by exists gn.
      * right. split; [done|]. split; [done|]. eexists. split; [reflexivity|].
        right. split; [done|]. split; [done|]. intros ? [= <-]. lia.
    + right. split; [done|]. split; [done|]. eexists. split; [reflexivity|].
      right. split; [done|]. split; [done|]. intros ? [=].
  - right. split; [done|]. split; [done|]. eexists. split; [reflexivity|].
    left. split; [|done]. intros Hin%in_open_spec. congruence.
Qed.

(** The invariant of the search; [R u d] selects the closed nodes and
    directions already relaxed. *)
Record inv (R : Pos -> Pos -> Prop) (st : AStar.state) : Prop := {
  inv_nodup : NoDup (map fst (AStar.openSet st));
  inv_open_not_closed : forall n, n ∈ map fst (AStar.openSet st) -> n ∉ AStar.closedSet st;
  inv_scored : forall n, is_Some (AStar.gScore st !! n) <->
                         n ∈ map fst (AStar.openSet st) \/ n ∈ AStar.closedSet st;
  inv_start_seen : start ∈ AStar.closedSet st \/ start ∈ map fst (AStar.openSet st);
  inv_start : AStar.gScore st !! start = Some 0;
  inv_f : forall n f, (n, f) ∈ AStar.openSet st ->
                      exists gn, AStar.gScore st !! n = Some gn /\ f = gn + h n;
  inv_walk : forall n gn, AStar.gScore st !! n = Some gn -> walk n gn;
  inv_closed_opt : forall n gn c, n ∈ AStar.closedSet st ->
                                  AStar.gScore st !! n = Some gn -> walk n c -> gn <= c;
  inv_relaxed : forall u gu d, u ∈ AStar.closedSet st -> AStar.gScore st !! u = Some gu ->
                               d ∈ getDirections topo -> passable (pos_add u d) -> R u d ->
                               exists gv, AStar.gScore st !! pos_add u d = Some gv /\
                                          gv <= gu + AStar.moveCost d;
  inv_goal : goal ∉ AStar.closedSet st;
  inv_parent : forall n p, AStar.cameFrom st !! n = Some p ->
                           p ∈ AStar.closedSet st /\
                           exists d gp, d ∈ getDirections topo /\ n = pos_add p d /\ passable n /\
                                        AStar.gScore st !! p = Some gp /\
                                        AStar.gScore st !! n = Some (gp + AStar.moveCost d);
  inv_orphan : forall n, is_Some (AStar.gScore st !! n) -> AStar.cameFrom st !! n = None ->
                         n = start
}.

Lemma inv_init : inv (fun _ _ => True) (AStar.init a start goal).
Proof.
  unfold AStar.init. constructor; simpl.
  - repeat constructor. by intros ?%elem_of_nil.
  - intros n _. set_solver.
  - intros n. rewrite lookup_singleton_is_Some. split.
    + intros <-. left. left.
    + intros [Hn|Hn]; [|set_solver]. by apply list_elem_of_singleton in Hn.
  - right. left.
  - apply lookup_singleton_eq.
  - intros n f Hn. apply list_elem_of_singleton in Hn as [= -> ->].
    exists 0. split; [apply lookup_singleton_eq|lia].
  - intros n gn Hn. apply lookup_singleton_Some in Hn as [<- <-]. constructor.
  - intros n gn c Hn. set_solver.
  - intros u gu d Hu. set_solver.
  - set_solver.
  - intros n p Hn. by rewrite lookup_empty in Hn.
  - intros n Hn _. by apply lookup_singleton_is_Some in Hn.
Qed.


Definition relaxing (u : Pos) (seen : list Pos) (u' d' : Pos) : Prop :=
  u' <> u \/ d' ∈ seen.

Lemma relax_inv u seen st d :
  inv (relaxing u seen) st -> u ∈ AStar.closedSet st -> d ∈ getDirections topo ->
  inv (relaxing u (d :: seen)) (AStar.relax a goal u st d).
Proof.
  intros I Hu Hd.
  assert (exists gcur, AStar.gScore st !! u = Some gcur) as [gcur Hgu].
  { apply (inv_scored _ _ I). by right. }
  pose proof (inv_walk _ _ I _ _ Hgu) as Hwu.
  destruct (relax_cases u st d gcur Hgu) as [[-> Hwhy]|(Hpass & Hnc & open' & -> & Hopen)].
  - (* nothing changes *)
    destruct I. constructor; try done.
    intros u' gu d' Hu' Hgu' Hd' Hp' [Hne|Hin]; [by apply inv_relaxed0; [..|left]|].
    apply elem_of_cons in Hin as [->|Hin]; [|by apply inv_relaxed0; [..|right]].
    destruct (decide (u' = u)) as [->|Hne]; [|by apply inv_relaxed0; [..|left]].
    assert (gu = gcur) as -> by congruence.
    destruct Hwhy as [Hnp|[Hc|(Ho & gn & Hgn & Hle)]]; [done|..].
    + assert (is_Some (AStar.gScore st !! pos_add u d)) as [gv Hgv].
      { apply inv_scored0. by right. }
      exists gv. split; [done|].
      apply (inv_closed_opt0 (pos_add u d) gv _ Hc Hgv). by apply walk_step.
    + by exists gn.
  - (* the neighbour gets a better score *)
    set (v := pos_add u d) in *. set (gv := gcur + AStar.moveCost d) in *.
    assert (v <> u) as Hvu by (intros Heq; rewrite Heq in Hnc; done).
    assert (map fst open' = map fst (AStar.openSet st) ++ [v] /\ v ∉ map fst (AStar.openSet st)
            \/ map fst open' = map fst (AStar.openSet st) /\ v ∈ map fst (AStar.openSet st))
      as Hfst.
    { destruct Hopen as [[Hnin ->]|(Hin & -> & _)].
      - left. by rewrite map_app.
      - right. by rewrite set_f_fst. }
    assert (forall n, n ∈ map fst open' <-> n = v \/ n ∈ map fst (AStar.openSet st)) as Hmem.
    { intros n. destruct Hfst as [[-> ?]|[-> ?]].
      - rewrite elem_of_app, list_elem_of_singleton. tauto.
      - split; [tauto|]. intros [->|?]; done. }
    destruct I. unfold relaxed_to. constructor; simpl.
    + destruct Hfst as [[-> Hnin]|[-> _]]; [|done].
      apply NoDup_app. split; [done|]. split; [|apply NoDup_singleton].
      intros n Hn ->%list_elem_of_singleton. done.
    + intros n [->|Hn]%Hmem; [done|by apply inv_open_not_closed0].
    + intros n. rewrite lookup_insert_is_Some, Hmem, inv_scored0.
      destruct (decide (v = n)); [subst; tauto|]. intuition congruence.
    + destruct inv_start_seen0 as [?|?]; [by left|right]. apply Hmem. by right.
    + rewrite lookup_insert_ne; [done|]. intros Hvs.
      destruct inv_start_seen0 as [Hs|Hs]; [by rewrite <- Hvs in Hs|].
      destruct Hopen as [[Hnin _]|(_ & _ & Hlt)]; [by rewrite <- Hvs in Hs|].
      rewrite <- Hvs in inv_start0. specialize (Hlt _ inv_start0).
      pose proof (walk_nonneg _ _ Hwu). pose proof (moveCost_pos d). lia.
    + intros n f Hn.
      destruct (decide (n = v)) as [->|Hne].
      * exists gv. split; [apply lookup_insert_eq|].
        destruct Hopen as [[Hnin ->]|(Hin & -> & _)].
        -- apply elem_of_app in Hn as [Hn|Hn].
           ++ exfalso. apply Hnin. apply list_elem_of_fmap. by exists (v, f).
           ++ by apply list_elem_of_singleton in Hn as [= ->].
        -- apply elem_of_set_f in Hn as [(_ & -> & _)|[? _]]; done.
      * rewrite lookup_insert_ne by done. apply inv_f0.
        destruct Hopen as [[Hnin ->]|(Hin & -> & _)].
        -- apply elem_of_app in Hn as [Hn|Hn]; [done|].
           apply list_elem_of_singleton in Hn as [= -> ->]. done.
        -- apply elem_of_set_f in Hn as [(-> & _)|[_ ?]]; done.
    + intros n gn Hn. apply lookup_insert_Some in Hn as [[<- <-]|[_ Hn]].
      * by constructor.
      * by apply inv_walk0.
    + intros n gn c Hn Hgn. rewrite lookup_insert_ne in Hgn by (intros <-; done).
      by apply inv_closed_opt0.
    + intros u' gu d' Hu' Hgu' Hd' Hp' HR.
      rewrite lookup_insert_ne in Hgu' by (intros <-; done).
      destruct (decide (pos_add u' d' = v)) as [Heq|Hne].
      * rewrite Heq. exists gv. split; [apply lookup_insert_eq|].
        destruct (decide (u' = u)) as [->|Hneu].
        -- assert (gu = gcur) as -> by congruence.
           assert (d' = d) as ->; [|subst gv; lia].
           unfold v, pos_add in Heq. destruct d, d'. simpl in *.
           injection Heq as ? ?. f_equal; lia.
        -- destruct (inv_relaxed0 u' gu d' Hu' Hgu' Hd' Hp') as (gv0 & Hgv0 & Hle).
           { by left. }
           rewrite Heq in Hgv0.
           destruct Hopen as [[Hnin _]|(_ & _ & Hlt)].
           ++ exfalso. assert (is_Some (AStar.gScore st !! v)) as Hs by by eexists.
              apply inv_scored0 in Hs as [?|?]; done.
           ++ specialize (Hlt _ Hgv0). lia.
      * rewrite lookup_insert_ne by done.
        destruct HR as [Hneu|Hin].
        -- apply inv_relaxed0; try done. by left.
        -- apply elem_of_cons in Hin as [->|Hin].
           ++ destruct (decide (u' = u)) as [->|Hneu]; [done|].
              apply inv_relaxed0; try done. by left.
           ++ apply inv_relaxed0; try done. by right.
    + done.
    + intros n p Hn. apply lookup_insert_Some in Hn as [[<- <-]|[Hne Hn]].
      * split; [done|]. exists d, gcur. split; [done|]. split; [done|]. split; [done|].
        rewrite lookup_insert_ne by done. split; [done|]. apply lookup_insert_eq.
      * destruct (inv_parent0 n p Hn) as (Hp & d' & gp & ? & ? & ? & Hgp & Hgn).
        split; [done|]. exists d', gp. split; [done|]. split; [done|]. split; [done|].
        rewrite lookup_insert_ne by (intros <-; done).
        rewrite lookup_insert_ne by done. done.
    + intros n Hn Hcf. apply lookup_insert_None in Hcf as [Hcf Hne].
      apply lookup_insert_is_Some in Hn as [?|[_ Hn]]; [done|]. by apply inv_orphan0.
Qed.


Lemma inv_weaken (R1 R2 : Pos -> Pos -> Prop) st :
  (forall u d, d ∈ getDirections topo -> R2 u d -> R1 u d) -> inv R1 st -> inv R2 st.
Proof. intros HR []. constructor; eauto. Qed.

Lemma relax_closed u st d : AStar.closedSet (AStar.relax a goal u st d) = AStar.closedSet st.
Proof.
  unfold AStar.relax. repeat case_match; done.
Qed.

Lemma relax_all u dirs : forall seen st,
  inv (relaxing u seen) st -> u ∈ AStar.closedSet st ->
  (forall d, d ∈ dirs -> d ∈ getDirections topo) ->
  inv (relaxing u (reverse dirs ++ seen)) (foldl (AStar.relax a goal u) st dirs) /\
  AStar.closedSet (foldl (AStar.relax a goal u) st dirs) = AStar.closedSet st.
Proof.
  induction dirs as [|d dirs IH]; intros seen st I Hu Hd; simpl; [done|].
  destruct (IH (d :: seen) (AStar.relax a goal u st d)) as [I' Hc].
  - apply relax_inv; [done..|]. apply Hd. left.
  - by rewrite relax_closed.
  - intros d' ?. apply Hd. by right.
  - split; [|by rewrite Hc, relax_closed].
    by rewrite reverse_cons, <- app_assoc.
Qed.

(** Every walk either ends in a closed node scored no worse, or is
    matched by an open node whose [f] does not exceed the walk's. *)
Lemma frontier_bound st w c :
  inv (fun _ _ => True) st -> walk w c ->
  (w ∈ AStar.closedSet st /\ exists gw, AStar.gScore st !! w = Some gw /\ gw <= c) \/
  (exists n f, (n, f) ∈ AStar.openSet st /\ f <= c + h w).
Proof.
  intros I. induction 1 as [|q c d Hw IH Hd Hp].
  - destruct (inv_start_seen _ _ I) as [Hs|Hs].
    + left. split; [done|]. exists 0. split; [apply (inv_start _ _ I)|lia].
    + right. apply list_elem_of_fmap in Hs as ([n f] & Hn & Hin). simpl in Hn. subst n.
      exists start, f. split; [done|].
      destruct (inv_f _ _ I _ _ Hin) as (gn & Hgn & ->).
      rewrite (inv_start _ _ I) in Hgn. injection Hgn as <-. lia.
  - destruct IH as [(Hq & gq & Hgq & Hle)|(n & f & Hin & Hle)].
    + destruct (inv_relaxed _ _ I q gq d Hq Hgq Hd Hp Logic.I) as (gv & Hgv & Hle').
      assert (is_Some (AStar.gScore st !! pos_add q d)) as Hs by by eexists.
      apply (inv_scored _ _ I) in Hs as [Ho|Hc].
      * right. apply list_elem_of_fmap in Ho as ([n f] & Hn & Hin). simpl in Hn. subst n.
        exists (pos_add q d), f. split; [done|].
        destruct (inv_f _ _ I _ _ Hin) as (gn & Hgn & ->).
        rewrite Hgv in Hgn. injection Hgn as <-. lia.
      * left. split; [done|]. exists gv. split; [done|lia].
    + right. exists n, f. split; [done|].
      pose proof (heuristic_consistent q d Hd). lia.
Qed.

(** The node taken from the sorted frontier is scored optimally. *)
Lemma popped_opt st u fu rest gu c :
  inv (fun _ _ => True) st -> AStar.sort_by_f (AStar.openSet st) = (u, fu) :: rest ->
  AStar.gScore st !! u = Some gu -> walk u c -> gu <= c.
Proof.
  intros I Hs Hgu Hw.
  assert ((u, fu) ∈ AStar.openSet st) as Hin.
  { rewrite <- sort_by_f_perm, Hs. left. }
  destruct (inv_f _ _ I _ _ Hin) as (gu' & Hgu' & ->).
  assert (gu' = gu) as -> by congruence.
  destruct (frontier_bound st u c I Hw) as [(Hc & _)|(n & f & Hn & Hle)].
  - exfalso. eapply (inv_open_not_closed _ _ I); [|done].
    apply list_elem_of_fmap. by exists (u, gu + h u).
  - pose proof (sort_by_f_min _ _ _ _ Hs Hn) as Hmin. simpl in Hmin. lia.
Qed.

Definition popped (st : AStar.state) (u : Pos) (rest : list (Pos * Z)) : AStar.state :=
  {| AStar.openSet := rest;
     AStar.closedSet := {[u]} ∪ AStar.closedSet st;
     AStar.cameFrom := AStar.cameFrom st;
     AStar.gScore := AStar.gScore st |}.

Lemma pop_inv st u fu rest :
  inv (fun _ _ => True) st -> AStar.sort_by_f (AStar.openSet st) = (u, fu) :: rest ->
  u <> goal -> inv (relaxing u []) (popped st u rest).
Proof.
  intros I Hs Hne.
  assert (AStar.openSet st ≡ₚ (u, fu) :: rest) as Hperm by by rewrite <- Hs, sort_by_f_perm.
  assert (map fst (AStar.openSet st) ≡ₚ u :: map fst rest) as Hperm'.
  { by rewrite Hperm. }
  pose proof (inv_nodup _ _ I) as Hnd. rewrite Hperm' in Hnd.
  apply NoDup_cons in Hnd as [Hu Hnd].
  assert (forall n, n ∈ map fst (AStar.openSet st) <-> n = u \/ n ∈ map fst rest) as Hmem.
  { intros n. rewrite Hperm'. apply elem_of_cons. }
  assert (exists gu, AStar.gScore st !! u = Some gu) as [gu Hgu].
  { apply (inv_scored _ _ I). left. apply Hmem. by left. }
  unfold popped. constructor; simpl.
  - done.
  - intros n Hn. apply not_elem_of_union. split.
    + intros ->%elem_of_singleton. done.
    + apply (inv_open_not_closed _ _ I). apply Hmem. by right.
  - intros n. rewrite (inv_scored _ _ I), Hmem, elem_of_union, elem_of_singleton. tauto.
  - destruct (inv_start_seen _ _ I) as [?|[->|?]%Hmem].
    + left. apply elem_of_union. by right.
    + left. apply elem_of_union. left. by apply elem_of_singleton.
    + by right.
  - apply (inv_start _ _ I).
  - intros n f Hn. apply (inv_f _ _ I). rewrite Hperm. by right.
  - apply (inv_walk _ _ I).
  - intros n gn c [->%elem_of_singleton|Hn]%elem_of_union Hgn Hw.
    + eapply popped_opt; eauto.
    + eapply (inv_closed_opt _ _ I); eauto.
  - intros u' gu' d Hu' Hgu' Hd Hp [Hneu|Hin]; [|by apply elem_of_nil in Hin].
    apply elem_of_union in Hu' as [->%elem_of_singleton|Hu']; [done|].
    by apply (inv_relaxed _ _ I u' gu' d).
  - apply not_elem_of_union. split; [|apply (inv_goal _ _ I)].
    intros ->%elem_of_singleton. done.
  - intros n p Hn. destruct (inv_parent _ _ I n p Hn) as [Hp Hrest].
    split; [apply elem_of_union; by right|done].
  - apply (inv_orphan _ _ I).
Qed.

(** One round of the loop keeps the invariant. *)
Lemma round_inv st u fu rest :
  inv (fun _ _ => True) st -> AStar.sort_by_f (AStar.openSet st) = (u, fu) :: rest ->
  u <> goal ->
  inv (fun _ _ => True) (foldl (AStar.relax a goal u) (popped st u rest) (getDirections topo)) /\
  AStar.closedSet (foldl (AStar.relax a goal u) (popped st u rest) (getDirections topo))
  = {[u]} ∪ AStar.closedSet st.
Proof.
  intros I Hs Hne.
  destruct (relax_all u (getDirections topo) [] (popped st u rest)) as [I' Hc].
  - by eapply pop_inv.
  - simpl. apply elem_of_union. left. by apply elem_of_singleton.
  - done.
  - split; [|done]. eapply inv_weaken; [|exact I'].
    intros u' d Hd _. right. rewrite app_nil_r. by apply elem_of_reverse.
Qed.


Lemma walk_route l : forall q c w,
  walk q c -> route g topo (q :: l) -> last (q :: l) = Some w ->
  walk w (c + route_cost (q :: l)).
Proof.
  induction l as [|r l IH]; intros q c w Hw Hr Hl.
  - simpl in *. injection Hl as <-. by rewrite Z.add_0_r.
  - inversion Hr as [|? ? ? (d & Hd & ->) Hp Hr']; subst.
    rewrite last_cons_cons in Hl.
    change (route_cost (q :: pos_add q d :: l))
      with (AStar.moveCost ((pos_add q d).1 - q.1, (pos_add q d).2 - q.2)
            + route_cost (pos_add q d :: l)).
    rewrite step_diff, Z.add_assoc.
    apply IH; [|done..]. by apply walk_step.
Qed.

Lemma reconstruct_route R st fuel :
  inv R st ->
  forall cur tl gc r,
    AStar.gScore st !! cur = Some gc -> route g topo (cur :: tl) ->
    reconstruct fuel (AStar.cameFrom st) cur (cur :: tl) = Some r ->
    route g topo r /\ head r = Some start /\ last r = last (cur :: tl) /\
    route_cost r = gc + route_cost (cur :: tl).
Proof.
  intros I. induction fuel as [|fuel IH]; intros cur tl gc r Hg Hr Hrec; simpl in Hrec.
  - destruct (AStar.cameFrom st !! cur) eqn:Hcf; [done|]. injection Hrec as <-.
    assert (cur = start) as -> by (apply (inv_orphan _ _ I); [by eexists|done]).
    rewrite (inv_start _ _ I) in Hg. injection Hg as <-. done.
  - destruct (AStar.cameFrom st !! cur) as [p|] eqn:Hcf.
    + destruct (inv_parent _ _ I _ _ Hcf) as (Hp & d & gp & Hd & -> & Hpass & Hgp & Hgn).
      assert (gc = gp + AStar.moveCost d) as -> by congruence.
      destruct (IH p (pos_add p d :: tl) gp r Hgp) as (Hr1 & Hr2 & Hr3 & Hr4); [|done|].
      { constructor; [by exists d|done..]. }
      split; [done|]. split; [done|]. split; [by rewrite Hr3, last_cons_cons|].
      rewrite Hr4.
      change (route_cost (p :: pos_add p d :: tl))
        with (AStar.moveCost ((pos_add p d).1 - p.1, (pos_add p d).2 - p.2)
              + route_cost (pos_add p d :: tl)).
      rewrite step_diff. lia.
    + injection Hrec as <-.
      assert (cur = start) as -> by (apply (inv_orphan _ _ I); [by eexists|done]).
      rewrite (inv_start _ _ I) in Hg. injection Hg as <-. done.
Qed.

Lemma loop_sound fuel : forall st r,
  inv (fun _ _ => True) st -> AStar.loop fuel a goal st = Some r ->
  (r = [] /\ forall c, ~ walk goal c) \/
  (route_between g topo start goal r /\ forall c, walk goal c -> route_cost r <= c).
Proof.
  induction fuel as [|fuel IH]; intros st r I Hloop; [done|].
  simpl in Hloop.
  destruct (AStar.sort_by_f (AStar.openSet st)) as [|[u fu] rest] eqn:Hs.
  - injection Hloop as <-. left. split; [done|]. intros c Hw.
    assert (AStar.openSet st = []) as Hnil.
    { apply Permutation_nil_r. by rewrite <- Hs, sort_by_f_perm. }
    destruct (frontier_bound st goal c I Hw) as [[Hc _]|(n & f & Hin & _)].
    + by apply (inv_goal _ _ I).
    + rewrite Hnil in Hin. by apply elem_of_nil in Hin.
  - case_bool_decide as Hgoal.
    + subst u. right.
      assert ((goal, fu) ∈ AStar.openSet st) as Hin.
      { rewrite <- sort_by_f_perm, Hs. left. }
      destruct (inv_f _ _ I _ _ Hin) as (gg & Hgg & _).
      unfold reconstructPath in Hloop.
      destruct (reconstruct_route _ st _ I goal [] gg r Hgg (route_one _ _ _) Hloop)
        as (Hr1 & Hr2 & Hr3 & Hr4).
      split; [done|].
      intros c Hw. rewrite Hr4. simpl. rewrite Z.add_0_r.
      eapply popped_opt; eauto.
    + destruct (round_inv st u fu rest I Hs Hgoal) as [I' _].
      by apply (IH _ r I').
Qed.


Lemma walk_in_universe n c : walk n c -> n ∈ (list_to_set (start :: cells g) : gset Pos).
Proof.
  intros Hw. apply elem_of_list_to_set.
  destruct Hw as [|q c d _ _ [Hb _]]; [left|right]. by apply in_bounds_cells.
Qed.

Lemma loop_total fuel : forall st,
  inv (fun _ _ => True) st ->
  (size ((list_to_set (start :: cells g) : gset Pos) ∖ AStar.closedSet st) < fuel)%nat ->
  is_Some (AStar.loop fuel a goal st).
Proof.
  induction fuel as [|fuel IH]; intros st I Hsize; [lia|].
  simpl. destruct (AStar.sort_by_f (AStar.openSet st)) as [|[u fu] rest] eqn:Hs; [by eexists|].
  assert ((u, fu) ∈ AStar.openSet st) as Hin.
  { rewrite <- sort_by_f_perm, Hs. left. }
  case_bool_decide as Hgoal.
  - unfold reconstructPath.
    assert (forall n p, AStar.cameFrom st !! n = Some p ->
              default 0 (AStar.gScore st !! p) < default 0 (AStar.gScore st !! n)) as Hrank.
    { intros n p Hn.
      destruct (inv_parent _ _ I _ _ Hn) as (_ & d & gp & _ & _ & _ & -> & ->). simpl.
      pose proof (moveCost_pos d). lia. }
    refine (reconstruct_total _ (fun n => default 0 (AStar.gScore st !! n)) Hrank _ _ _
             (dom (AStar.cameFrom st)) _ _).
    + intros n Hn _. by apply elem_of_dom.
    + by rewrite size_dom.
  - destruct (round_inv st u fu rest I Hs Hgoal) as [I' Hc].
    apply IH; [done|].
    change (size ((list_to_set (start :: cells g) : gset Pos)
                    ∖ AStar.closedSet (foldl (AStar.relax a goal u) (popped st u rest)
                                              (getDirections topo))) < fuel)%nat.
    rewrite Hc.
    assert (u ∉ AStar.closedSet st) as Hnc.
    { apply (inv_open_not_closed _ _ I). apply list_elem_of_fmap. by exists (u, fu). }
    assert (u ∈ (list_to_set (start :: cells g) : gset Pos)) as Hu.
    { destruct (inv_f _ _ I _ _ Hin) as (gu & Hgu & _).
      eapply walk_in_universe, (inv_walk _ _ I), Hgu. }
    assert ((list_to_set (start :: cells g) : gset Pos) ∖ ({[u]} ∪ AStar.closedSet st)
            ⊂ (list_to_set (start :: cells g) : gset Pos) ∖ AStar.closedSet st) as Hsub.
    { split.
      - intros z. rewrite !elem_of_difference, elem_of_union. tauto.
      - intros Hsub. specialize (Hsub u). rewrite !elem_of_difference, elem_of_union in Hsub.
        destruct Hsub as [_ Hu']; [done|]. apply Hu'. left. by apply elem_of_singleton. }
    apply subset_size in Hsub. lia.
Qed.

(** The rounds given to the loop are never used up. *)
Lemma run_total : is_Some (AStar.run a start goal).
Proof.
  unfold AStar.run. apply loop_total; [apply inv_init|].
  simpl AStar.grid. unfold AStar.fuel.
  assert (size ((list_to_set (start :: cells g) : gset Pos) ∖ AStar.closedSet (AStar.init a start goal))
          <= size (list_to_set (start :: cells g) : gset Pos))%nat as H1.
  { apply subseteq_size. apply subseteq_difference_l. done. }
  pose proof (size_list_to_set_le (start :: cells g)) as H2.
  simpl length in H2. rewrite length_cells in H2. lia.
Qed.

(** Whenever some route leads from [start] to [goal], [findPath] returns
    a route between them and no route is cheaper. *)
Lemma findPath_optimal p :
  route_between g topo start goal p ->
  route_between g topo start goal (AStar.findPath a start goal) /\
  route_cost (AStar.findPath a start goal) <= route_cost p.
Proof.
  intros (Hr & Hh & Hl).
  assert (walk goal (route_cost p)) as Hw.
  { destruct p as [|q l]; [done|]. simpl in Hh. injection Hh as ->.
    replace (route_cost (start :: l)) with (0 + route_cost (start :: l)) by lia.
    apply walk_route; [constructor|done..]. }
  unfold AStar.findPath. destruct run_total as [r Hrun]. rewrite Hrun. simpl.
  destruct (loop_sound _ _ r inv_init Hrun) as [[_ Hno]|[Hb Hopt]].
  - by destruct (Hno _ Hw).
  - split; [done|]. by apply Hopt.
Qed.

(** What [findPath] returns is empty or a route from [start] to [goal]. *)
Lemma findPath_route :
  AStar.findPath a start goal = [] \/
  route_between g topo start goal (AStar.findPath a start goal).
Proof.
  unfold AStar.findPath. destruct run_total as [r Hrun]. rewrite Hrun. simpl.
  destruct (loop_sound _ _ r inv_init Hrun) as [[-> _]|[Hb _]]; [by left|by right].
Qed.

End AStarCorrect.

(** * Breadth-first search *)

Lemma reconstruct_links (cf : gmap Pos Pos) (P : Pos -> Pos -> Prop) (Q : list Pos -> Prop) :
  (forall n p, cf !! n = Some p -> P p n) ->
  (forall p n l, P p n -> Q (n :: l) -> Q (p :: n :: l)) ->
  forall fuel cur tl r,
    Q (cur :: tl) -> reconstruct fuel cf cur (cur :: tl) = Some r ->
    Q r /\ last r = last (cur :: tl) /\
    exists first rest, r = first :: rest /\ cf !! first = None /\
                       (first = cur \/ exists n, P first n).
Proof.
  intros HP HQ. induction fuel as [|fuel IH]; intros cur tl r Hq Hrec; simpl in Hrec.
  - destruct (cf !! cur) eqn:Hcf; [done|]. injection Hrec as <-.
    split; [done|]. split; [done|]. exists cur, tl. eauto.
  - destruct (cf !! cur) as [p|] eqn:Hcf.
    + destruct (IH p (cur :: tl) r) as (Hr & Hl & first & rest & -> & Hnone & Hfirst);
        [by eapply HQ; eauto|done|].
      split; [done|]. split; [by rewrite Hl, last_cons_cons|].
      exists first, rest. split; [done|]. split; [done|]. right.
      destruct Hfirst as [->|?]; [|done]. exists cur. by apply HP.
    + injection Hrec as <-. split; [done|]. split; [done|]. exists cur, tl. eauto.
Qed.

Section BFSCorrect.
Variables (g : Grid) (extra : Topology) (start goal : Pos).
Local Abbreviation b := (BFS.new g extra).

Record binv (st : BFS.state) : Prop := {
  binv_queue : forall n, n ∈ BFS.queue st -> n ∈ BFS.visited st;
  binv_parent : forall n p, BFS.parent st !! n = Some p ->
                            adjacent VonNeumann p n /\ passable g n /\
                            p ∈ BFS.visited st /\ n ∈ BFS.visited st;
  binv_orphan : forall n, n ∈ BFS.visited st -> BFS.parent st !! n = None -> n = start
}.

Lemma visit_inv u st d :
  binv st -> u ∈ BFS.visited st -> d ∈ getDirections VonNeumann ->
  binv (BFS.visit g u st d) /\ BFS.visited st ⊆ BFS.visited (BFS.visit g u st d).
Proof.
  intros I Hu Hd. unfold BFS.visit.
  destruct (in_bounds g (pos_add u d)) eqn:Hb; simpl; [|done].
  case_bool_decide as Hv; simpl; [done|].
  destruct (is_wall_cell g (pos_add u d)) eqn:Hw; simpl; [done|].
  split; [|apply union_subseteq_r].
  destruct I. constructor; simpl.
  - intros n [Hn|Hn]%elem_of_app.
    + apply elem_of_union. right. by apply binv_queue0.
    + apply list_elem_of_singleton in Hn as ->. apply elem_of_union. left.
      by apply elem_of_singleton.
  - intros n p [[<- <-]|[Hne Hn]]%lookup_insert_Some.
    + split; [by exists d|]. split; [done|].
      split; apply elem_of_union; [by right|left; by apply elem_of_singleton].
    + destruct (binv_parent0 n p Hn) as (? & ? & ? & ?).
      split; [done|]. split; [done|]. split; apply elem_of_union; by right.
  - intros n Hn [Hnone Hne]%lookup_insert_None.
    apply binv_orphan0; [|done].
    apply elem_of_union in Hn as [Hn%elem_of_singleton|Hn]; done.
Qed.

Lemma visit_all u dirs : forall st,
  binv st -> u ∈ BFS.visited st -> (forall d, d ∈ dirs -> d ∈ getDirections VonNeumann) ->
  binv (foldl (BFS.visit g u) st dirs).
Proof.
  induction dirs as [|d dirs IH]; intros st I Hu Hd; simpl; [done|].
  destruct (visit_inv u st d I Hu) as [I' Hsub]; [apply Hd; left|].
  apply IH; [done|by apply Hsub|]. intros d' ?. apply Hd. by right.
Qed.

Definition dequeued (st : BFS.state) (rest : list Pos) : BFS.state :=
  {| BFS.queue := rest; BFS.visited := BFS.visited st; BFS.parent := BFS.parent st |}.

Lemma bfs_loop_S fuel st :
  BFS.loop (S fuel) b goal st =
  match BFS.queue st with
  | [] => Some []
  | current :: rest =>
      if bool_decide (current = goal) then reconstructPath (BFS.parent st) goal
      else BFS.loop fuel b goal
             (foldl (BFS.visit g current) (dequeued st rest) (getDirections VonNeumann))
  end.
Proof. reflexivity. Qed.

Lemma bfs_loop_route fuel : forall st r,
  binv st -> BFS.loop fuel b goal st = Some r ->
  r = [] \/ route_between g VonNeumann start goal r.
Proof.
  induction fuel as [|fuel IH]; intros st r I Hloop; [done|].
  rewrite bfs_loop_S in Hloop. destruct (BFS.queue st) as [|u rest] eqn:Hq.
  - injection Hloop as <-. by left.
  - case_bool_decide as Hgoal.
    + subst u. right. unfold reconstructPath in Hloop.
      assert (goal ∈ BFS.visited st) as Hgv.
      { apply (binv_queue _ I). rewrite Hq. left. }
      destruct (reconstruct_links (BFS.parent st)
                  (fun p n => adjacent VonNeumann p n /\ passable g n /\ p ∈ BFS.visited st)
                  (route g VonNeumann)) with (4 := Hloop)
        as (Hr & Hl & first & tl & -> & Hnone & Hfirst).
      * intros n p Hn. destruct (binv_parent _ I n p Hn) as (? & ? & ? & ?). done.
      * intros p n l (? & ? & _) ?. by constructor.
      * constructor.
      * split; [done|]. split; [|done]. simpl. f_equal.
        apply (binv_orphan _ I); [|done].
        destruct Hfirst as [->|(n & _ & _ & ?)]; done.
    + eapply IH; [|exact Hloop].
      apply visit_all.
      * destruct I. unfold dequeued. constructor; simpl; try done.
        intros n Hn. apply binv_queue0. rewrite Hq. by right.
      * simpl. apply (binv_queue _ I). rewrite Hq. left.
      * done.
Qed.

(** What BFS returns is empty or a route of orthogonal steps from
    [start] to [goal], whatever topology it was constructed with. *)
Lemma bfs_findPath_route :
  BFS.findPath b start goal = [] \/
  route_between g VonNeumann start goal (BFS.findPath b start goal).
Proof.
  unfold BFS.findPath. destruct (BFS.run b start goal) as [r|] eqn:Hrun; [|by left].
  simpl. eapply bfs_loop_route; [|exact Hrun].
  constructor; simpl.
  - intros n ->%list_elem_of_singleton. by apply elem_of_singleton.
  - intros n p Hn. by rewrite lookup_empty in Hn.
  - intros n Hn%elem_of_singleton _. done.
Qed.

End BFSCorrect.

(** * Trails: sequences of single steps *)

Inductive trail (topo : Topology) : list Pos -> Prop :=
| trail_nil : trail topo []
| trail_one p : trail topo [p]
| trail_cons p q l : adjacent topo p q -> trail topo (q :: l) -> trail topo (p :: q :: l).

Lemma route_trail g topo l : route g topo l -> trail topo l.
Proof. induction 1; by constructor. Qed.

Lemma trail_tail topo l : trail topo l -> trail topo (tail l).
Proof. destruct 1; simpl; try done; constructor. Qed.

Lemma trail_snoc topo l p q :
  trail topo (l ++ [p]) -> adjacent topo p q -> trail topo (l ++ [p; q]).
Proof.
  induction l as [|a l IH]; simpl; intros Ht Ha.
  - constructor; [done|constructor].
  - destruct l as [|b l]; simpl in *.
    + inversion Ht; subst. constructor; [done|]. constructor; [done|constructor].
    + inversion Ht; subst. constructor; [done|]. by apply IH.
Qed.

Lemma trail_app topo l1 p l2 :
  trail topo (l1 ++ [p]) -> trail topo (p :: l2) -> trail topo (l1 ++ p :: l2).
Proof.
  revert l1 p. induction l2 as [|q l2 IH]; intros l1 p H1 H2; [done|].
  inversion H2; subst.
  replace (l1 ++ p :: q :: l2) with ((l1 ++ [p]) ++ q :: l2) by by rewrite <- app_assoc.
  apply IH; [|done]. rewrite <- app_assoc. by apply trail_snoc.
Qed.

Lemma adjacent_mono p q : adjacent VonNeumann p q -> forall topo, adjacent topo p q.
Proof.
  intros (d & Hd & ->) topo. exists d. split; [|done].
  destruct topo; [done|]. simpl in *. set_solver.
Qed.

Lemma trail_mono l : trail VonNeumann l -> forall topo, trail topo l.
Proof. induction 1; intros topo; constructor; auto using adjacent_mono. Qed.

(** * Minimax *)

Lemma getNeighbors_adjacent x y topo n size :
  n ∈ getNeighbors x y topo size -> adjacent topo (x, y) n.
Proof.
  unfold getNeighbors. intros [_ Hn]%list_elem_of_filter.
  apply list_elem_of_fmap in Hn as (d & -> & Hd). by exists d.
Qed.

(** Every remembered move leads to a neighbour. *)
Definition steps_only (topo : Topology) (st : Minimax.state) : Prop :=
  forall k v, Minimax.cameFrom st !! k = Some v -> adjacent topo k v.

(** [st'] remembers a move for every position [st] does. *)
Definition keeps_keys (st st' : Minimax.state) : Prop :=
  forall k, is_Some (Minimax.cameFrom st !! k) -> is_Some (Minimax.cameFrom st' !! k).

Definition grows (topo : Topology) (st st' : Minimax.state) : Prop :=
  (steps_only topo st -> steps_only topo st') /\ keeps_keys st st'.

Lemma grows_refl topo st : grows topo st st.
Proof. split; [done|by intros k ?]. Qed.

Lemma grows_trans topo st1 st2 st3 :
  grows topo st1 st2 -> grows topo st2 st3 -> grows topo st1 st3.
Proof. intros [A B] [C D]. split; [tauto|]. intros k ?. by apply D, B. Qed.

Lemma grows_mark topo p st : grows topo st (Minimax.mark p st).
Proof. split; [done|by intros k ?]. Qed.

Lemma grows_unmark topo p st : grows topo st (Minimax.unmark p st).
Proof. split; [done|by intros k ?]. Qed.

Lemma grows_remember_adjacent topo s move st :
  adjacent topo s move -> grows topo st (Minimax.remember s move st).
Proof.
  intros Hm. split.
  - intros I k v Hk. simpl in Hk.
    apply lookup_insert_Some in Hk as [[<- <-]|[_ ?]]; [done|by apply I].
  - intros k Hk. simpl. apply lookup_insert_is_Some. destruct (decide (s = k)); auto.
Qed.

Section MinimaxCorrect.
Variables (g : Grid) (topo : Topology) (goal : Pos).
Local Abbreviation m := (Minimax.new g topo).
Local Abbreviation grows := (grows topo).

Lemma neighbors_adjacent s n : n ∈ Minimax.neighbors m s -> adjacent topo s n.
Proof.
  unfold Minimax.neighbors. intros [_ Hn]%list_elem_of_filter.
  destruct s. eapply getNeighbors_adjacent, Hn.
Qed.

Lemma grows_remember s move st :
  move ∈ Minimax.neighbors m s -> grows st (Minimax.remember s move st).
Proof. intros Hm. by apply grows_remember_adjacent, neighbors_adjacent. Qed.

Lemma values_grow d :
  (forall s alpha beta st, grows st (Minimax.maxValue d m goal s alpha beta st).2) /\
  (forall s alpha beta st, grows st (Minimax.minValue d m goal s alpha beta st).2).
Proof.
  induction d as [|d [IHmax IHmin]]; [split; intros; apply grows_refl|].
  split; intros s alpha beta st; simpl.
  - destruct (Minimax.isTerminal goal s); [apply grows_refl|].
    assert (forall x, x ∈ Minimax.neighbors m s -> x ∈ Minimax.neighbors m s) as Hsub by done.
    revert Hsub. generalize (Minimax.neighbors m s) at 1 3 as moves.
    generalize NegInf as value. revert alpha st.
    intros alpha st value moves. revert alpha st value.
    induction moves as [|move moves IH]; intros alpha st value Hsub; [apply grows_refl|].
    case_bool_decide; [apply IH; intros; apply Hsub; by right|].
    destruct (Minimax.minValue d m goal move alpha beta (Minimax.mark move st))
      as [v st1] eqn:Hmin.
    assert (grows st (Minimax.unmark move st1)) as Hg.
    { eapply grows_trans; [apply grows_mark|]. eapply grows_trans; [|apply grows_unmark].
      specialize (IHmin move alpha beta (Minimax.mark move st)). by rewrite Hmin in IHmin. }
    destruct (ext_leb beta (ext_max value v)); [done|].
    eapply grows_trans; [|apply IH; intros; apply Hsub; by right].
    case_match; [|done].
    eapply grows_trans; [exact Hg|]. apply grows_remember, Hsub. left.
  - destruct (Minimax.isTerminal goal s); [apply grows_refl|].
    generalize (Minimax.neighbors m s) as moves. generalize PosInf as value.
    revert beta st. intros beta st value moves. revert beta st value.
    induction moves as [|move moves IH]; intros beta st value; [apply grows_refl|].
    case_bool_decide; [apply IH|].
    destruct (Minimax.maxValue d m goal move alpha beta (Minimax.mark move st))
      as [v st1] eqn:Hmax.
    assert (grows st (Minimax.unmark move st1)) as Hg.
    { eapply grows_trans; [apply grows_mark|]. eapply grows_trans; [|apply grows_unmark].
      specialize (IHmax move alpha beta (Minimax.mark move st)). by rewrite Hmax in IHmax. }
    destruct (ext_leb (ext_min value v) alpha); [done|].
    eapply grows_trans; [exact Hg|apply IH].
Qed.

Lemma decide_moves_grows d s moves : forall bestValue bestMove st,
  (forall x, x ∈ moves -> x ∈ Minimax.neighbors m s) ->
  grows st (Minimax.decide_moves d m goal s moves bestValue bestMove st).2 /\
  ((is_Some bestMove -> is_Some (Minimax.cameFrom st !! s)) ->
   is_Some (Minimax.decide_moves d m goal s moves bestValue bestMove st).1 ->
   is_Some (Minimax.cameFrom (Minimax.decide_moves d m goal s moves bestValue bestMove st).2 !! s)).
Proof.
  induction moves as [|move moves IH]; intros bestValue bestMove st Hsub; simpl.
  - split; [apply grows_refl|auto].
  - assert (forall x, x ∈ moves -> x ∈ Minimax.neighbors m s) as Hsub'
        by (intros; apply Hsub; by right).
    case_bool_decide; [by apply IH|].
    destruct (Minimax.minValue d m goal move NegInf PosInf (Minimax.mark move st))
      as [v st1] eqn:Hmin.
    assert (grows st (Minimax.unmark move st1)) as Hg.
    { eapply grows_trans; [apply grows_mark|]. eapply grows_trans; [|apply grows_unmark].
      pose proof (proj2 (values_grow d) move NegInf PosInf (Minimax.mark move st)) as Hv.
      by rewrite Hmin in Hv. }
    destruct (ext_ltb bestValue v).
    + destruct (IH v (Some move) (Minimax.remember s move (Minimax.unmark move st1)) Hsub')
        as [IH1 IH2].
      split.
      * eapply grows_trans; [exact Hg|]. eapply grows_trans; [|exact IH1].
        apply grows_remember, Hsub. left.
      * intros _ Hsome. apply IH2; [|done]. intros _. simpl. rewrite lookup_insert_eq. by eexists.
    + destruct (IH bestValue bestMove (Minimax.unmark move st1) Hsub') as [IH1 IH2].
      split; [by eapply grows_trans|].
      intros Hbest Hsome. apply IH2; [|done]. intros Hb. apply Hg. auto.
Qed.

Lemma follow_spec_len cf r : forall current path,
  (length path <= length (Minimax.follow r cf goal current path))%nat.
Proof.
  induction r as [|r IH]; intros current path; simpl; [done|].
  case_bool_decide; [done|]. destruct (cf !! current) as [next|]; [|done].
  assert (length path <= length (path ++ [next]))%nat as Hlen
      by (rewrite length_app; simpl; lia).
  destruct (1000 <? _); [done|]. case_bool_decide; [done|].
  specialize (IH next (path ++ [next])). lia.
Qed.

Lemma follow_spec cf r : forall current path,
  (forall k v, cf !! k = Some v -> adjacent topo k v) ->
  trail topo path -> last path = Some current ->
  let out := Minimax.follow r cf goal current path in
  trail topo out /\ head out = head path /\ (length path <= length out)%nat.
Proof.
  induction r as [|r IH]; intros current path Hcf Ht Hl; simpl; [done|].
  case_bool_decide; [done|].
  destruct (cf !! current) as [next|] eqn:Hnext; [|done].
  assert (trail topo (path ++ [next])) as Ht'.
  { destruct (exists_last (l := path)) as (l & c & ->); [by intros ->|].
    rewrite last_snoc in Hl. injection Hl as ->.
    rewrite <- app_assoc. apply trail_snoc; [done|]. by apply Hcf. }
  assert (head (path ++ [next]) = head path) as Hh by (by destruct path).
  assert (length path <= length (path ++ [next]))%nat as Hlen
      by (rewrite length_app; simpl; lia).
  destruct (1000 <? _); [done|]. case_bool_decide; [done|].
  destruct (IH next (path ++ [next]) Hcf Ht') as (A & B & C); [by rewrite last_snoc|].
  split; [done|]. split; [congruence|lia].
Qed.

Lemma follow_moves r cf next start :
  start <> goal -> cf !! start = Some next ->
  (2 <= length (Minimax.follow (S r) cf goal start [start]))%nat.
Proof.
  intros Hne Hnext.
  change (Minimax.follow (S r) cf goal start [start]) with
    (if bool_decide (start = goal) then [start]
     else match cf !! start with
          | None => [start]
          | Some next =>
              let path' := [start] ++ [next] in
              if 1000 <? Z.of_nat (length path') then path'
              else if bool_decide (next = goal) then path'
              else Minimax.follow r cf goal next path'
          end).
  rewrite bool_decide_eq_false_2 by done. rewrite Hnext.
  cbv zeta. change ([start] ++ [next]) with [start; next].
  destruct (1000 <? _); [done|]. case_bool_decide; [done|].
  apply (follow_spec_len cf r next [start; next]).
Qed.

End MinimaxCorrect.

Lemma complete_spec g topo goal path :
  path <> [] -> trail topo path ->
  let out := Minimax.complete g topo goal path in
  trail topo out /\ head out = head path /\ (length path <= length out)%nat.
Proof.
  intros Hne Ht. unfold Minimax.complete.
  destruct (last path) as [l|] eqn:Hl; [|done].
  case_bool_decide; [done|].
  destruct (1 <? _) eqn:Hlen; [|done].
  destruct (findPath_route g topo l goal) as [Hnil|(Hr & Hh & _)].
  { rewrite Hnil in Hlen. done. }
  destruct (AStar.findPath (AStar.new g topo) l goal) as [|l' rest]; [done|].
  injection Hh as ->. simpl.
  destruct (exists_last Hne) as (front & c & ->).
  rewrite last_snoc in Hl. injection Hl as ->.
  split; [|split].
  - rewrite <- app_assoc. simpl. apply trail_app; [done|]. by eapply route_trail.
  - by destruct front.
  - rewrite !length_app. lia.
Qed.

Definition departs (topo : Topology) (start : Pos) (l : list Pos) : Prop :=
  l = [] \/ (head l = Some start /\ trail topo l).

Lemma route_between_departs g topo start goal l :
  route_between g topo start goal l -> departs topo start l.
Proof. intros (Hr & Hh & _). right. split; [done|]. by eapply route_trail. Qed.

Lemma departs_mono start l : departs VonNeumann start l -> forall topo, departs topo start l.
Proof. intros [->|[? ?]] topo; [by left|right]. split; [done|]. by apply trail_mono. Qed.

Lemma minimax_departs g topo start goal :
  departs topo start (Minimax.findPath (Minimax.new g topo) start goal).
Proof.
  unfold Minimax.findPath. destruct (_ || _); [by left|].
  destruct (_ && _); [right; split; [done|constructor]|].
  destruct (Minimax.minimaxDecision _ _ _ _ _) as [best st] eqn:Hdec.
  destruct best as [b|]; [|right; split; [done|constructor]].
  right. cbn [Minimax.grid Minimax.topology Minimax.new].
  unfold Minimax.minimaxDecision in Hdec.
  destruct (decide_moves_grows g topo goal (Nat.pred (Minimax.maxDepth (Minimax.new g topo)))
              start (Minimax.neighbors (Minimax.new g topo) start) NegInf None
              {| Minimax.visited := ∅; Minimax.cameFrom := ∅ |}) as [[Hsteps _] _]; [done|].
  rewrite Hdec in Hsteps. simpl in Hsteps.
  destruct (follow_spec topo goal (Minimax.cameFrom st) 1000 start [start]) as (A & B & C).
  { apply Hsteps. intros k v Hk. simpl in Hk. by rewrite lookup_empty in Hk. }
  { constructor. } { done. }
  destruct (complete_spec g topo goal
              (Minimax.follow 1000 (Minimax.cameFrom st) goal start [start])) as (D & E & F).
  { intros Hnil. by rewrite Hnil in B. } { done. }
  split; [by rewrite E, B|done].
Qed.

(** A one-element result of Minimax is the start, returned because the
    decision found no move. *)
Lemma minimax_single g topo start goal p :
  start.1 <> goal.1 ->
  Minimax.findPath (Minimax.new g topo) start goal = [p] ->
  p = start /\
  (Minimax.minimaxDecision (Minimax.new g topo) goal start 5
     {| Minimax.visited := ∅; Minimax.cameFrom := ∅ |}).1 = None.
Proof.
  intros Hx. unfold Minimax.findPath. destruct (_ || _); [done|].
  rewrite (bool_decide_eq_false_2 (start.1 = goal.1)) by done. cbn [andb].
  change (Minimax.maxDepth (Minimax.new g topo)) with 5%nat.
  destruct (Minimax.minimaxDecision _ _ _ _ _) as [best st] eqn:Hdec.
  destruct best as [b|]; [|by intros [= <-]].
  intros Hone. exfalso.
  unfold Minimax.minimaxDecision in Hdec.
  destruct (decide_moves_grows g topo goal (Nat.pred 5)
              start (Minimax.neighbors (Minimax.new g topo) start) NegInf None
              {| Minimax.visited := ∅; Minimax.cameFrom := ∅ |}) as [[Hsteps _] Hkey]; [done|].
  rewrite Hdec in Hkey, Hsteps. cbn [fst snd] in Hkey, Hsteps.
  destruct Hkey as [next Hnext]; [by intros []|by eexists|].
  assert (start <> goal) as Hne by (intros ->; done).
  pose proof (follow_moves goal 999 (Minimax.cameFrom st) next start Hne Hnext) as H2.
  destruct (complete_spec g topo goal
              (Minimax.follow 1000 (Minimax.cameFrom st) goal start [start])) as (_ & _ & F).
  { intros Hnil. rewrite Hnil in H2. cbn [length] in H2. lia. }
  { eapply follow_spec; [|constructor|done].
    apply Hsteps. intros k v Hk. cbn in Hk. by rewrite lookup_empty in Hk. }
  cbn [Minimax.grid Minimax.topology Minimax.new] in Hone.
  rewrite Hone in F. cbn [length] in F. lia.
Qed.

(** * Expectimax *)

Section ExpectimaxCorrect.
Context {num : Type} {N : JSNum num}.
Variables (g : Grid) (topo : Topology) (goal : Pos).
Local Abbreviation e := (Expectimax.new g topo).

Lemma expectimax_neighbors_adjacent s n :
  n ∈ Expectimax.neighbors e s -> adjacent topo s n.
Proof.
  unfold Expectimax.neighbors. intros [_ Hn]%list_elem_of_filter.
  destruct s. eapply getNeighbors_adjacent, Hn.
Qed.

(** The two inner loops of [maxValue] and [expectValue], named. *)
Definition max_each (d : nat) (s : Pos) :=
  fix each (moves : list Pos) (value : num) (st : Minimax.state) : num * Minimax.state :=
    match moves with
    | [] => (value, st)
    | move :: moves' =>
        if bool_decide (move ∈ Minimax.visited st) then each moves' value st
        else
          let '(v, st1) := Expectimax.expectValue d e goal move (Expectimax.mark move st) in
          let value' := n_max value v in
          let st2 := Expectimax.unmark move st1 in
          let st3 := if n_ltb n_neg_inf value' then Expectimax.remember s move st2 else st2 in
          each moves' value' st3
    end.

Definition expect_each (d : nat) (s : Pos) :=
  fix each (moves : list Pos) (expectedValue : num) (validMoves : nat)
      (st : Minimax.state) : num * nat * Minimax.state :=
    match moves with
    | [] => (expectedValue, validMoves, st)
    | move :: moves' =>
        if bool_decide (move ∈ Minimax.visited st)
        then each moves' expectedValue validMoves st
        else
          let '(v, st1) := Expectimax.maxValue d e goal move (Expectimax.mark move st) in
          each moves'
            (n_add expectedValue (n_mul (Expectimax.calculateProbability e goal move s) v))
            (S validMoves) (Expectimax.unmark move st1)
    end.

Lemma maxValue_S d s st :
  Expectimax.maxValue (S d) e goal s st =
  if Expectimax.isTerminal goal s then (Expectimax.evaluate e goal s, st)
  else match Expectimax.neighbors e s with
       | [] => (Expectimax.evaluate e goal s, st)
       | moves => max_each d s moves n_neg_inf st
       end.
Proof. reflexivity. Qed.

Lemma expectValue_S d s st :
  Expectimax.expectValue (S d) e goal s st =
  if Expectimax.isTerminal goal s then (Expectimax.evaluate e goal s, st)
  else match Expectimax.neighbors e s with
       | [] => (Expectimax.evaluate e goal s, st)
       | moves =>
           let '(expectedValue, validMoves, st') := expect_each d s moves (n_of_Z 0) O st in
           match validMoves with
           | O => (Expectimax.evaluate e goal s, st')
           | S _ => (expectedValue, st')
           end
       end.
Proof. reflexivity. Qed.

Lemma max_each_grows d s :
  (forall s st, grows topo st (Expectimax.expectValue d e goal s st).2) ->
  forall moves value st,
    (forall x, x ∈ moves -> x ∈ Expectimax.neighbors e s) ->
    grows topo st (max_each d s moves value st).2.
Proof.
  intros IHexp. induction moves as [|move moves IH]; intros value st Hsub;
    [apply grows_refl|].
  cbn [max_each]. fold (max_each d s).
  case_bool_decide; [apply IH; intros; apply Hsub; by right|].
  destruct (Expectimax.expectValue d e goal move (Expectimax.mark move st))
    as [v st1] eqn:Hexp.
  assert (grows topo st (Expectimax.unmark move st1)) as Hg.
  { eapply grows_trans; [apply grows_mark|]. eapply grows_trans; [|apply grows_unmark].
    specialize (IHexp move (Expectimax.mark move st)). rewrite Hexp in IHexp.
    exact IHexp. }
  cbv zeta. eapply grows_trans; [|apply IH; intros; apply Hsub; by right].
  case_match; [|done].
  eapply grows_trans; [exact Hg|].
  apply grows_remember_adjacent, expectimax_neighbors_adjacent, Hsub. left.
Qed.

Lemma expect_each_grows d s :
  (forall s st, grows topo st (Expectimax.maxValue d e goal s st).2) ->
  forall moves ev vm st, grows topo st (expect_each d s moves ev vm st).2.
Proof.
  intros IHmax. induction moves as [|move moves IH]; intros ev vm st;
    [apply grows_refl|].
  cbn [expect_each]. fold (expect_each d s).
  case_bool_decide; [apply IH|].
  destruct (Expectimax.maxValue d e goal move (Expectimax.mark move st))
    as [v st1] eqn:Hmax.
  eapply grows_trans; [|apply IH].
  eapply grows_trans; [apply grows_mark|]. eapply grows_trans; [|apply grows_unmark].
  specialize (IHmax move (Expectimax.mark move st)). rewrite Hmax in IHmax.
  exact IHmax.
Qed.

Lemma expect_values_grow d :
  (forall s st, grows topo st (Expectimax.maxValue d e goal s st).2) /\
  (forall s st, grows topo st (Expectimax.expectValue d e goal s st).2).
Proof.
  induction d as [|d [IHmax IHexp]]; [split; intros; apply grows_refl|].
  split; intros s st.
  - rewrite maxValue_S.
    destruct (Expectimax.isTerminal goal s); [apply grows_refl|].
    pose proof (max_each_grows d s IHexp (Expectimax.neighbors e s) n_neg_inf st
                  (fun x Hx => Hx)) as Hloop.
    destruct (Expectimax.neighbors e s); [apply grows_refl|exact Hloop].
  - rewrite expectValue_S.
    destruct (Expectimax.isTerminal goal s); [apply grows_refl|].
    pose proof (expect_each_grows d s IHmax (Expectimax.neighbors e s) (n_of_Z 0) O st)
      as Hloop.
    destruct (Expectimax.neighbors e s); [apply grows_refl|].
    destruct (expect_each d s (p :: l) (n_of_Z 0) 0 st) as [[ev vm] st'].
    by destruct vm.
Qed.

Lemma expect_decide_moves_grows d s moves : forall bestValue bestMove st,
  (forall x, x ∈ moves -> x ∈ Expectimax.neighbors e s) ->
  grows topo st (Expectimax.decide_moves d e goal s moves bestValue bestMove st).2 /\
  ((is_Some bestMove -> is_Some (Minimax.cameFrom st !! s)) ->
   is_Some (Expectimax.decide_moves d e goal s moves bestValue bestMove st).1 ->
   is_Some (Minimax.cameFrom
              (Expectimax.decide_moves d e goal s moves bestValue bestMove st).2 !! s)).
Proof.
  induction moves as [|move moves IH]; intros bestValue bestMove st Hsub; simpl.
  - split; [apply grows_refl|auto].
  - assert (forall x, x ∈ moves -> x ∈ Expectimax.neighbors e s) as Hsub'
        by (intros; apply Hsub; by right).
    case_bool_decide; [by apply IH|].
    destruct (Expectimax.expectValue d e goal move (Expectimax.mark move st))
      as [v st1] eqn:Hexp.
    assert (grows topo st (Expectimax.unmark move st1)) as Hg.
    { eapply grows_trans; [apply grows_mark|]. eapply grows_trans; [|apply grows_unmark].
      pose proof (proj2 (expect_values_grow d) move (Expectimax.mark move st)) as Hv.
      rewrite Hexp in Hv. exact Hv. }
    destruct (n_ltb bestValue v).
    + destruct (IH v (Some move)
                  (Expectimax.remember s move (Expectimax.unmark move st1)) Hsub')
        as [IH1 IH2].
      split.
      * eapply grows_trans; [exact Hg|]. eapply grows_trans; [|exact IH1].
        apply grows_remember_adjacent, expectimax_neighbors_adjacent, Hsub. left.
      * intros _ Hsome. apply IH2; [|done]. intros _. simpl. rewrite lookup_insert_eq.
        by eexists.
    + destruct (IH bestValue bestMove (Expectimax.unmark move st1) Hsub') as [IH1 IH2].
      split; [by eapply grows_trans|].
      intros Hbest Hsome. apply IH2; [|done]. intros Hb. apply Hg. auto.
Qed.

End ExpectimaxCorrect.

Lemma expectimax_departs {num : Type} {N : JSNum num} g topo start goal :
  departs topo start (Expectimax.findPath (Expectimax.new g topo) start goal).
Proof.
  unfold Expectimax.findPath. destruct (_ || _); [by left|].
  destruct (_ && _); [right; split; [done|constructor]|].
  destruct (Expectimax.expectimaxDecision _ _ _ _ _) as [best st] eqn:Hdec.
  destruct best as [b|]; [|right; split; [done|constructor]].
  right. cbn [Expectimax.grid Expectimax.topology Expectimax.new].
  unfold Expectimax.expectimaxDecision in Hdec.
  destruct (expect_decide_moves_grows g topo goal
              (Nat.pred (Expectimax.maxDepth (Expectimax.new g topo)))
              start (Expectimax.neighbors (Expectimax.new g topo) start) n_neg_inf None
              {| Minimax.visited := ∅; Minimax.cameFrom := ∅ |}) as [[Hsteps _] _]; [done|].
  rewrite Hdec in Hsteps. simpl in Hsteps.
  destruct (follow_spec topo goal (Minimax.cameFrom st) 1000 start [start]) as (A & B & C).
  { apply Hsteps. intros k v Hk. simpl in Hk. by rewrite lookup_empty in Hk. }
  { constructor. } { done. }
  destruct (complete_spec g topo goal
              (Minimax.follow 1000 (Minimax.cameFrom st) goal start [start])) as (D & E & F).
  { intros Hnil. by rewrite Hnil in B. } { done. }
  split; [by rewrite E, B|done].
Qed.

Lemma expectimax_single {num : Type} {N : JSNum num} g topo start goal p :
  start.1 <> goal.1 ->
  Expectimax.findPath (Expectimax.new g topo) start goal = [p] ->
  p = start /\
  (Expectimax.expectimaxDecision (Expectimax.new g topo) goal start 4
     {| Minimax.visited := ∅; Minimax.cameFrom := ∅ |}).1 = None.
Proof.
  intros Hx. unfold Expectimax.findPath. destruct (_ || _); [done|].
  rewrite (bool_decide_eq_false_2 (start.1 = goal.1)) by done. cbn [andb].
  change (Expectimax.maxDepth (Expectimax.new g topo)) with 4%nat.
  destruct (Expectimax.expectimaxDecision _ _ _ _ _) as [best st] eqn:Hdec.
  destruct best as [b|]; [|by intros [= <-]].
  intros Hone. exfalso.
  unfold Expectimax.expectimaxDecision in Hdec.
  destruct (expect_decide_moves_grows g topo goal (Nat.pred 4)
              start (Expectimax.neighbors (Expectimax.new g topo) start) n_neg_inf None
              {| Minimax.visited := ∅; Minimax.cameFrom := ∅ |}) as [[Hsteps _] Hkey]; [done|].
  rewrite Hdec in Hkey, Hsteps. cbn [fst snd] in Hkey, Hsteps.
  destruct Hkey as [next Hnext]; [by intros []|by eexists|].
  assert (start <> goal) as Hne by (intros ->; done).
  pose proof (follow_moves goal 999 (Minimax.cameFrom st) next start Hne Hnext) as H2.
  destruct (complete_spec g topo goal
              (Minimax.follow 1000 (Minimax.cameFrom st) goal start [start])) as (_ & _ & F).
  { intros Hnil. rewrite Hnil in H2. cbn [length] in H2. lia. }
  { eapply follow_spec; [|constructor|done].
    apply Hsteps. intros k v Hk. cbn in Hk. by rewrite lookup_empty in Hk. }
  cbn [Expectimax.grid Expectimax.topology Expectimax.new] in Hone.
  rewrite Hone in F. cbn [length] in F. lia.
Qed.

Module HungarianFacts.
Import HungarianAlgorithm.

Lemma pickColumn_range row cc : forall j minVal minJ r,
  pickColumn row cc j minVal minJ = Some r ->
  minJ = Some r \/ ((j <= r < j + length row)%nat /\ cc !! r = Some false).
Proof.
  induction row as [|c row IH]; intros j minVal minJ r; simpl; [auto|].
  destruct (negb _ && _) eqn:Hb; intros Hr; apply IH in Hr as [Hr|[? ?]].
  - injection Hr as <-. right. split; [lia|].
    apply andb_true_iff in Hb as [Hb _].
    destruct (cc !! j) as [[]|]; done.
  - right. split; [lia|done].
  - by left.
  - right. split; [lia|done].
Qed.

Lemma pickColumn_found row cc : forall j minVal minJ,
  (is_Some minJ \/
   (minVal = None /\ exists k, (k < length row)%nat /\ cc !! (j + k)%nat = Some false)) ->
  is_Some (pickColumn row cc j minVal minJ).
Proof.
  induction row as [|c row IH]; intros j minVal minJ; simpl.
  - intros [?|(_ & k & ? & _)]; [done|lia].
  - intros Hcase. destruct (negb _ && _) eqn:Hb; apply IH.
    + left. by eexists.
    + destruct Hcase as [?|(-> & k & Hk & Hfree)]; [by left|right].
      split; [done|]. destruct k as [|k].
      * rewrite Nat.add_0_r in Hfree. rewrite Hfree in Hb. done.
      * exists k. split; [lia|]. by replace (S j + k)%nat with (j + S k)%nat by lia.
Qed.

(** A short duplicate-free list of column numbers leaves a column out. *)
Lemma free_column (w : nat) (used : list nat) :
  NoDup used -> (length used < w)%nat -> exists j, (j < w)%nat /\ j ∉ used.
Proof.
  intros Hnd Hlen.
  destruct (decide (Exists (fun j => j ∉ used) (seq 0 w))) as [Hex|Hno].
  - apply Exists_exists in Hex as (j & Hj & Hfree). exists j. split; [|done].
    apply elem_of_seq in Hj. lia.
  - exfalso. apply not_Exists_Forall in Hno; [|intros j; apply _].
    assert (seq 0 w ⊆+ used) as Hsub.
    { apply NoDup_submseteq; [apply NoDup_seq|].
      intros j Hj. rewrite Forall_forall in Hno. specialize (Hno j Hj).
      simpl in Hno. by destruct (decide (j ∈ used)). }
    apply submseteq_length in Hsub. rewrite length_seq in Hsub. lia.
Qed.

(** The state of the greedy pass after [k] rows. *)
Record greedy_inv (h w k : nat) (cv : cover) : Prop := {
  gi_rows : (assignments cv).*1 = seq 0 k;
  gi_nodup : NoDup (assignments cv).*2;
  gi_width : length (colCovered cv) = w;
  gi_height : length (rowCovered cv) = h;
  gi_cols : forall j, colCovered cv !! j = Some true <-> j ∈ (assignments cv).*2;
  gi_covered : forall i, (i < k)%nat -> rowCovered cv !! i = Some true
}.

Lemma greedy_start h w :
  greedy_inv h w 0 {| assignments := []; rowCovered := replicate h false;
                      colCovered := replicate w false |}.
Proof.
  split; simpl; try done.
  - constructor.
  - apply length_replicate.
  - apply length_replicate.
  - intros j. split; [|by intros ?%elem_of_nil].
    intros [? _]%lookup_replicate. done.
  - lia.
Qed.

Lemma greedyRow_inv h w k cv row :
  (k < h)%nat -> (k < w)%nat -> (w <= length row)%nat ->
  greedy_inv h w k cv -> greedy_inv h w (S k) (greedyRow w cv (k, row)).
Proof.
  intros Hh Hw Hrow [Hrows Hnd Hwidth Hheight Hcols Hcov].
  assert (length (assignments cv) = k) as Hlen.
  { rewrite <- (length_fmap fst), Hrows. apply length_seq. }
  destruct (free_column w (assignments cv).*2) as (j & Hj & Hfree);
    [done|by rewrite length_fmap, Hlen|].
  assert (colCovered cv !! j = Some false) as Hjfree.
  { destruct (lookup_lt_is_Some_2 (colCovered cv) j) as [b Hb]; [lia|].
    destruct b; [|done]. by apply Hcols in Hb. }
  unfold greedyRow. simpl.
  destruct (pickColumn_found (take w row) (colCovered cv) 0 None None) as [minJ Hpick].
  { right. split; [done|]. exists j. rewrite length_take. split; [lia|done]. }
  rewrite Hpick.
  apply pickColumn_range in Hpick as [?|[Hrange Hun]]; [done|].
  rewrite length_take in Hrange.
  split; cbn [assignments rowCovered colCovered fst snd].
  - by rewrite fmap_app, Hrows, seq_S.
  - rewrite fmap_app. simpl. apply NoDup_app. split; [done|].
    split; [|apply NoDup_singleton].
    intros x Hx ->%list_elem_of_singleton. apply Hcols in Hx. congruence.
  - by rewrite length_insert.
  - by rewrite length_insert.
  - intros c. rewrite fmap_app, elem_of_app. simpl. rewrite list_elem_of_singleton.
    destruct (decide (c = minJ)) as [->|Hne].
    + rewrite list_lookup_insert_eq by lia. tauto.
    + rewrite list_lookup_insert_ne by done. rewrite Hcols. tauto.
  - intros i Hi. destruct (decide (i = k)) as [->|Hne].
    + apply list_lookup_insert_eq. lia.
    + rewrite list_lookup_insert_ne by done. apply Hcov. lia.
Qed.

Lemma greedy_pass h w cv0 (rows : list (list Z)) :
  (length rows <= h)%nat -> (length rows <= w)%nat ->
  Forall (fun row => (w <= length row)%nat) rows ->
  greedy_inv h w 0 cv0 ->
  greedy_inv h w (length rows) (foldl (greedyRow w) cv0 (imap (fun i row => (i, row)) rows)).
Proof.
  induction rows as [|row rows IH] using rev_ind; intros Hh Hw Hall Hinv; [done|].
  rewrite length_app in *. simpl in *.
  apply Forall_app in Hall as [Hall Hrow]. apply Forall_inv in Hrow.
  rewrite imap_app, foldl_app. simpl. rewrite Nat.add_0_r.
  replace (length rows + 1)%nat with (S (length rows)) by lia.
  apply greedyRow_inv; [lia|lia|done|]. apply IH; [lia|lia|done|done].
Qed.

Lemma leftover_pass h w cv (ks : list nat) :
  greedy_inv h w h cv -> Forall (fun i => (i < h)%nat) ks ->
  foldl (leftoverRow w) cv ks = cv.
Proof.
  intros Hinv. induction 1 as [|i ks Hi _ IH]; [done|]. simpl.
  unfold leftoverRow at 2. by rewrite (gi_covered _ _ _ _ Hinv i Hi).
Qed.

Lemma findAssignments_spec costs h w :
  length costs = h -> (h <= w)%nat ->
  Forall (fun row => (w <= length row)%nat) costs ->
  let r := findAssignments costs h w in
  r.*1 = seq 0 h /\ NoDup r.*2 /\ forall j, j ∈ r.*2 -> (j < w)%nat.
Proof.
  intros Hlen Hhw Hall. unfold findAssignments.
  rewrite firstn_all2 by lia.
  pose proof (greedy_pass h w _ costs ltac:(lia) ltac:(lia) Hall (greedy_start h w)) as Hg.
  rewrite Hlen in Hg.
  rewrite (leftover_pass h w); [|done|].
  - split; [apply Hg|]. split; [apply Hg|].
    intros j Hj. apply (gi_cols _ _ _ _ Hg) in Hj.
    apply lookup_lt_Some in Hj. by rewrite (gi_width _ _ _ _ Hg) in Hj.
  - apply Forall_forall. intros i Hi%elem_of_seq. lia.
Qed.

Lemma length_subtractRowMin row : length (subtractRowMin row) = length row.
Proof. destruct row; [done|]. unfold subtractRowMin. by rewrite length_map. Qed.

Lemma subtractColumnMin_shape costs j :
  length (subtractColumnMin costs j) = length costs /\
  forall w, Forall (fun row => (w <= length row)%nat) costs ->
            Forall (fun row => (w <= length row)%nat) (subtractColumnMin costs j).
Proof.
  unfold subtractColumnMin. destruct (columnMin costs j); [|done].
  split; [by rewrite length_map|].
  intros w Hall. apply Forall_forall. intros row Hrow.
  apply list_elem_of_In, in_map_iff in Hrow as (row' & <- & Hrow').
  rewrite length_alter. rewrite Forall_forall in Hall.
  apply Hall. by apply list_elem_of_In.
Qed.

Lemma columns_shape js : forall costs,
  length (foldl subtractColumnMin costs js) = length costs /\
  forall w, Forall (fun row => (w <= length row)%nat) costs ->
            Forall (fun row => (w <= length row)%nat) (foldl subtractColumnMin costs js).
Proof.
  induction js as [|j js IH]; intros costs; [done|]. simpl.
  destruct (IH (subtractColumnMin costs j)) as [A B].
  destruct (subtractColumnMin_shape costs j) as [C D].
  split; [congruence|]. intros w Hall. by apply B, D.
Qed.

Lemma hungarianAlgorithm_spec costMatrix w :
  Forall (fun row => length row = w) costMatrix -> (length costMatrix <= w)%nat ->
  let r := hungarianAlgorithm costMatrix in
  r.*1 = seq 0 (length costMatrix) /\ NoDup r.*2 /\ forall j, j ∈ r.*2 -> (j < w)%nat.
Proof.
  intros Hall Hle. unfold hungarianAlgorithm.
  destruct costMatrix as [|row0 rest] eqn:Hcm.
  { cbn. split; [done|]. split; [apply NoDup_nil_2|]. intros j Hj. by apply elem_of_nil in Hj. }
  assert (length row0 = w) as -> by (by apply Forall_inv in Hall).
  rewrite <- Hcm in *. clear Hcm.
  set (m := map subtractRowMin costMatrix).
  destruct (columns_shape (seq 0 w) m) as [Hlen Hshape].
  apply findAssignments_spec.
  - rewrite Hlen. unfold m. by rewrite length_map.
  - done.
  - apply Hshape. unfold m. apply Forall_forall. intros row Hrow.
    apply list_elem_of_In, in_map_iff in Hrow as (row' & <- & Hrow').
    rewrite length_subtractRowMin. rewrite Forall_forall in Hall.
    apply list_elem_of_In, Hall in Hrow'. lia.
Qed.

Lemma findOptimalAssignment_spec agents targets grid :
  (length agents <= length targets)%nat ->
  let r := findOptimalAssignment agents targets grid in
  r.*1 = seq 0 (length agents) /\ NoDup r.*2 /\
  forall j, j ∈ r.*2 -> (j < length targets)%nat.
Proof.
  intros Hle. unfold findOptimalAssignment.
  pose proof (hungarianAlgorithm_spec (createCostMatrix agents targets grid)
                (length targets)) as Hspec.
  unfold createCostMatrix in *. rewrite length_map in Hspec. apply Hspec; [|done].
  apply Forall_forall. intros row Hrow.
  apply list_elem_of_In, in_map_iff in Hrow as (a & <- & _). by rewrite length_map.
Qed.

End HungarianFacts.

(** * The simulation: what a tick may change *)

(** At most one step of the topology apart. *)
Definition near (topo : Topology) (p q : Pos) : Prop := p = q \/ adjacent topo p q.

(** A stored path that the movement loop would follow starts where the
    agent stands and proceeds by single steps. *)
Definition path_ok (topo : Topology) (p : Pos) (l : list Pos) : Prop :=
  Sim.longer_than_1 l = true -> head l = Some p /\ trail topo l.

(** An agent sees at least as far as one step of either topology reaches. *)
Definition vis_ok (v : option Z) : Prop :=
  match v with Some r => 2 <= r | None => True end.

Definition agent_ok (topo : Topology) (a : Agent) : Prop :=
  path_ok topo (pos a) (path a) /\ vis_ok (visibilityRange a).

Lemma departs_path_ok topo p l : departs topo p l -> path_ok topo p l.
Proof. intros [->|?] Hl; [done|done]. Qed.

Lemma short_path_ok topo p l : Sim.longer_than_1 l = false -> path_ok topo p l.
Proof. intros Hs Hl. congruence. Qed.

Lemma adjacent_sym topo p q : adjacent topo p q -> adjacent topo q p.
Proof.
  intros (d & Hd & ->). exists (- d.1, - d.2). split.
  - destruct topo; simpl in *; set_unfold; destruct d as [dx dy]; simpl;
      naive_solver.
  - destruct p, d. unfold pos_add. simpl. f_equal; lia.
Qed.

Lemma manhattan_adjacent topo p q : adjacent topo p q -> manhattan q p <= 2.
Proof.
  intros (d & Hd & ->). destruct p as [px py], d as [dx dy].
  unfold manhattan, pos_add. simpl.
  destruct topo; simpl in Hd; set_unfold;
    repeat destruct Hd as [Hd|Hd]; try done; injection Hd as -> ->; lia.
Qed.

Lemma manhattan_1_adjacent topo p q : manhattan p q = 1 -> adjacent topo p q.
Proof.
  destruct p as [px py], q as [qx qy]. unfold manhattan. simpl. intros Hm.
  apply adjacent_mono.
  exists (qx - px, qy - py). split.
  - assert ((qx - px = 0 /\ qy - py = -1) \/ (qx - px = 1 /\ qy - py = 0) \/
            (qx - px = 0 /\ qy - py = 1) \/ (qx - px = -1 /\ qy - py = 0)) as Hc by lia.
    simpl. set_unfold. destruct Hc as [[-> ->]|[[-> ->]|[[-> ->]|[-> ->]]]]; auto.
  - unfold pos_add. simpl. f_equal; lia.
Qed.

(** The topology in which the stored paths are read.  The topology box
    stays enabled while the simulation runs and changing it re-plans
    nothing, so a stored path may have been planned under the other
    topology; the steps of Moore contain those of Von Neumann. *)
Class Frame := frame : Topology.

(** Every step of [topo] is a step of [F]. *)
Definition covers (topo F : Topology) : Prop := topo = F \/ F = Moore.

Lemma covers_refl topo : covers topo topo.
Proof. by left. Qed.

Lemma covers_Moore topo : covers topo Moore.
Proof. by right. Qed.

Lemma adjacent_Moore topo p q : adjacent topo p q -> adjacent Moore p q.
Proof. destruct topo; [|done]. intros H. by apply adjacent_mono. Qed.

Lemma adjacent_covers topo F p q : covers topo F -> adjacent topo p q -> adjacent F p q.
Proof. intros [->| ->]; [done|apply adjacent_Moore]. Qed.

Lemma trail_covers topo F l : covers topo F -> trail topo l -> trail F l.
Proof. intros Hc. induction 1; constructor; eauto using adjacent_covers. Qed.

Lemma departs_covers topo F p l : covers topo F -> departs topo p l -> departs F p l.
Proof. intros Hc [->|[? ?]]; [by left|right]. split; [done|by eapply trail_covers]. Qed.

Section SimFacts.
Context {num : Type} {N : JSNum num} {E : Type} {R : Random E} {FR : Frame}.
Implicit Types s : Sim.t (E := E).

Definition agents_ok s : Prop := Forall (agent_ok frame) (Sim.agents s).

(** The invariant of a running simulation: the frame contains the steps
    of the active topology, ids and positions are pairwise distinct, and
    every agent is well formed in the frame. *)
Definition wf s : Prop :=
  covers (Sim.currentTopology s) frame /\
  NoDup (id <$> Sim.agents s) /\ NoDup (pos <$> Sim.agents s) /\ agents_ok s.

Definition settings s :=
  (Sim.targetPositions s, Sim.gridSize s, Sim.currentDecisionMode s,
   Sim.currentAlgorithm s, Sim.currentTopology s, Sim.simulationSpeed s).

Definition kept s :=
  (Sim.failedDeadlockResolutionAttempts s, Sim.sequentialMovementMode s).

(** [s'] comes from [s] by planning and by moving agents with indices in
    [M], each at most one step, [k] of the moves along stored paths. *)
Record evolves (M : gset nat) (k : Z) s s' : Prop := {
  ev_settings : settings s' = settings s;
  ev_kept : kept s' = kept s;
  ev_moves : Sim.totalMoves s' = Sim.totalMoves s + k;
  ev_ids : id <$> Sim.agents s' = id <$> Sim.agents s;
  ev_far : forall i, i ∉ M -> pos <$> Sim.agents s' !! i = pos <$> Sim.agents s !! i;
  ev_near : wf s -> forall i a a', Sim.agents s !! i = Some a -> Sim.agents s' !! i = Some a' ->
            near frame (pos a) (pos a');
  ev_wf : wf s -> wf s';
  ev_restart : Restart true ∈ Sim.timeouts s' -> Restart true ∈ Sim.timeouts s
}.

Definition quiet s s' : Prop := evolves ∅ 0 s s'.

Lemma evolves_refl s : quiet s s.
Proof.
  split; try done.
  - lia.
  - intros _ i a a' Ha Ha'. left. congruence.
Qed.

Lemma evolves_length M k s s' : evolves M k s s' -> length (Sim.agents s') = length (Sim.agents s).
Proof. intros H. rewrite <- (length_fmap id), (ev_ids _ _ _ _ H). apply length_fmap. Qed.

Lemma evolves_topology M k s s' :
  evolves M k s s' -> Sim.currentTopology s' = Sim.currentTopology s.
Proof. intros H. pose proof (ev_settings _ _ _ _ H) as Hs. unfold settings in Hs. congruence. Qed.

Lemma evolves_trans M1 M2 k1 k2 s1 s2 s3 :
  M1 ## M2 -> evolves M1 k1 s1 s2 -> evolves M2 k2 s2 s3 ->
  evolves (M1 ∪ M2) (k1 + k2) s1 s3.
Proof.
  intros Hdisj H1 H2. split.
  - rewrite (ev_settings _ _ _ _ H2). apply H1.
  - rewrite (ev_kept _ _ _ _ H2). apply H1.
  - rewrite (ev_moves _ _ _ _ H2), (ev_moves _ _ _ _ H1). lia.
  - rewrite (ev_ids _ _ _ _ H2). apply H1.
  - intros i Hi. rewrite (ev_far _ _ _ _ H2 i), (ev_far _ _ _ _ H1 i); set_solver.
  - intros Hwf i a a'' Ha Ha''.
    destruct (lookup_lt_is_Some_2 (Sim.agents s2) i) as [a' Ha'].
    { rewrite (evolves_length _ _ _ _ H1). by eapply lookup_lt_Some. }
    pose proof (ev_near _ _ _ _ H1 Hwf i a a' Ha Ha') as Hn1.
    pose proof (ev_near _ _ _ _ H2 (ev_wf _ _ _ _ H1 Hwf) i a' a'' Ha' Ha'') as Hn2.
    destruct (decide (i ∈ M1)) as [Hin|Hout].
    + pose proof (ev_far _ _ _ _ H2 i ltac:(set_solver)) as Hf.
      rewrite Ha', Ha'' in Hf. apply (inj Some) in Hf. by rewrite Hf.
    + pose proof (ev_far _ _ _ _ H1 i Hout) as Hf.
      rewrite Ha, Ha' in Hf. apply (inj Some) in Hf. by rewrite <- Hf.
  - intros Hwf. by apply H2, H1.
  - intros Hr. by apply H1, H2.
Qed.

Lemma evolves_quiet M k s1 s2 s3 : evolves M k s1 s2 -> quiet s2 s3 -> evolves M k s1 s3.
Proof.
  intros H1 H2. replace M with (M ∪ ∅) by set_solver. replace k with (k + 0) by lia.
  eapply evolves_trans; [set_solver|done..].
Qed.

Lemma quiet_evolves M k s1 s2 s3 : quiet s1 s2 -> evolves M k s2 s3 -> evolves M k s1 s3.
Proof.
  intros H1 H2. replace M with (∅ ∪ M) by set_solver. replace k with (0 + k) by lia.
  eapply evolves_trans; [set_solver|done..].
Qed.

Lemma evolves_weaken M M' k s s' : M ⊆ M' -> evolves M k s s' -> evolves M' k s s'.
Proof. intros Hsub H. split; try apply H. intros i Hi. apply H. set_solver. Qed.

(** ** Writes that leave every agent in place *)

Lemma quiet_fields s s' :
  settings s' = settings s -> kept s' = kept s -> Sim.totalMoves s' = Sim.totalMoves s ->
  Sim.agents s' = Sim.agents s ->
  (Restart true ∈ Sim.timeouts s' -> Restart true ∈ Sim.timeouts s) ->
  quiet s s'.
Proof.
  intros Hs Hk Hm Ha Ht. split; try done.
  - lia.
  - by rewrite Ha.
  - intros i _. by rewrite Ha.
  - intros _ i a a' H1 H2. rewrite Ha in H2. left. congruence.
  - unfold wf, agents_ok. rewrite Ha.
    replace (Sim.currentTopology s') with (Sim.currentTopology s); [done|].
    unfold settings in Hs. congruence.
Qed.

Lemma quiet_modify s i f :
  (forall a, Sim.agents s !! i = Some a ->
     id (f a) = id a /\ pos (f a) = pos a /\
     (covers (Sim.currentTopology s) frame -> agent_ok frame a -> agent_ok frame (f a))) ->
  quiet s (Sim.with_agents (modify i f (Sim.agents s)) s).
Proof.
  intros Hf.
  assert (id <$> modify i f (Sim.agents s) = id <$> Sim.agents s) as Hid.
  { unfold modify. apply list_eq. intros j. rewrite !list_lookup_fmap.
    destruct (decide (i = j)) as [<-|Hne].
    - rewrite list_lookup_alter_eq. destruct (Sim.agents s !! i) as [a|] eqn:Ha; [|done].
      simpl. f_equal. by apply Hf.
    - by rewrite list_lookup_alter_ne. }
  assert (pos <$> modify i f (Sim.agents s) = pos <$> Sim.agents s) as Hpos.
  { unfold modify. apply list_eq. intros j. rewrite !list_lookup_fmap.
    destruct (decide (i = j)) as [<-|Hne].
    - rewrite list_lookup_alter_eq. destruct (Sim.agents s !! i) as [a|] eqn:Ha; [|done].
      simpl. f_equal. by apply Hf.
    - by rewrite list_lookup_alter_ne. }
  split; simpl; try done.
  - lia.
  - intros j _. by rewrite <- !list_lookup_fmap, Hpos.
  - intros _ j a a' Ha Ha'. left.
    assert (pos <$> modify i f (Sim.agents s) !! j = pos <$> Sim.agents s !! j) as Hj
        by (by rewrite <- !list_lookup_fmap, Hpos).
    rewrite Ha, Ha' in Hj. simpl in Hj. congruence.
  - intros (Hcov & Hnd & Hnp & Hok). split; [|split; [|split]]; simpl.
    + done.
    + by rewrite Hid.
    + by rewrite Hpos.
    + unfold agents_ok in *. simpl. unfold modify.
      apply Forall_lookup. intros j a Hj.
      destruct (decide (i = j)) as [<-|Hne].
      * rewrite list_lookup_alter_eq in Hj.
        destruct (Sim.agents s !! i) as [a0|] eqn:Ha; [|done].
        simpl in Hj. injection Hj as <-. apply Hf; [done|done|].
        by eapply (Forall_lookup_1 _ _ _ _ Hok).
      * rewrite list_lookup_alter_ne in Hj by done.
        by eapply (Forall_lookup_1 _ _ _ _ Hok).
Qed.

End SimFacts.

Create HintDb departs.
Create HintDb ev.

Lemma toGoal_departs topo start (f : Pos -> Pos -> list Pos) tx ty :
  (forall goal, departs topo start (f start goal)) -> departs topo start (toGoal f start tx ty).
Proof. intros Hf. unfold toGoal. destruct tx, ty; auto; by left. Qed.

Lemma astar_departs g topo start goal :
  departs topo start (AStar.findPath (AStar.new g topo) start goal).
Proof.
  destruct (findPath_route g topo start goal) as [->|Hr]; [by left|].
  by eapply route_between_departs.
Qed.

Lemma bfs_departs g extra topo start goal :
  departs topo start (BFS.findPath (BFS.new g extra) start goal).
Proof.
  destruct (bfs_findPath_route g extra start goal) as [->|Hr]; [by left|].
  apply departs_mono. by eapply route_between_departs.
Qed.

Lemma find_first_Some {A B} (f : A -> option B) l b :
  Sim.find_first f l = Some b -> exists a, a ∈ l /\ f a = Some b.
Proof.
  induction l as [|a l IH]; simpl; [done|].
  destruct (f a) eqn:Hf.
  - intros [= <-]. exists a. split; [left|done].
  - intros H. destruct (IH H) as (a' & ? & ?). exists a'. split; [by right|done].
Qed.

Lemma foldl_invariant {A B} (P : A -> Prop) (f : A -> B -> A) l a :
  P a -> (forall a b, P a -> P (f a b)) -> P (foldl f a l).
Proof. revert a. induction l; simpl; auto. Qed.

Lemma some_throws_Ok {A} (f : A -> throws bool) l :
  some_throws f l = Ok true -> exists a, a ∈ l /\ f a = Ok true.
Proof.
  induction l as [|a l IH]; simpl; [done|].
  destruct (f a) as [[|]|] eqn:Hf; [|intros H|done].
  - intros _. exists a. split; [left|done].
  - destruct (IH H) as (a' & ? & ?). exists a'. split; [by right|done].
Qed.

Lemma find_first_throws_Some {A B} (f : A -> throws (option B)) l b :
  find_first_throws f l = Ok (Some b) -> exists a, a ∈ l /\ f a = Ok (Some b).
Proof.
  induction l as [|a l IH]; simpl; [done|].
  destruct (f a) as [[b'|]|] eqn:Hf; [|intros H|done].
  - intros [= <-]. exists a. split; [left|done].
  - destruct (IH H) as (a' & ? & ?). exists a'. split; [by right|done].
Qed.

Section Planning.
Context {num : Type} {N : JSNum num} {E : Type} {R : Random E} {FR : Frame}.
Implicit Types s : Sim.t (E := E).

Lemma createPathfinder_departs s g start goal :
  departs (Sim.currentTopology s) start (Sim.createPathfinder s g start goal).
Proof.
  unfold Sim.createPathfinder. destruct (Sim.currentAlgorithm s).
  - apply astar_departs.
  - apply bfs_departs.
  - apply minimax_departs.
  - apply expectimax_departs.
Qed.

Lemma createPathfinder_frame s g start goal :
  covers (Sim.currentTopology s) frame ->
  departs frame start (Sim.createPathfinder s g start goal).
Proof. intros Hc. eapply departs_covers; [exact Hc|apply createPathfinder_departs]. Qed.

Lemma findPathToTarget_departs s g start tx ty p :
  Sim.findPathToTarget s g start tx ty = Ok p ->
  departs (Sim.currentTopology s) start p.
Proof.
  unfold Sim.findPathToTarget. intros Hp.
  assert (forall T, match Sim.currentAlgorithm s with
                    | Astar | Bfs => Ok []
                    | MinimaxAlg =>
                        if Minimax.isWall (Minimax.new g (Sim.currentTopology s)) start
                        then Ok [] else TypeError
                    | ExpectimaxAlg =>
                        if Expectimax.isWall (Expectimax.new g (Sim.currentTopology s)) start
                        then Ok [] else TypeError
                    end = Ok p -> departs T start p) as Hnull.
  { intros T H. destruct (Sim.currentAlgorithm s); repeat case_match; try done;
      injection H as <-; by left. }
  destruct tx as [gx|], ty as [gy|]; eauto.
  injection Hp as <-. apply createPathfinder_departs.
Qed.

Lemma findPathToTarget_frame s g start tx ty p :
  Sim.findPathToTarget s g start tx ty = Ok p ->
  covers (Sim.currentTopology s) frame -> departs frame start p.
Proof. intros Hp Hc. eapply departs_covers; [exact Hc|by eapply findPathToTarget_departs]. Qed.

Lemma agent_ok_set_path topo p a :
  departs topo (pos a) p -> agent_ok topo a -> agent_ok topo (set_path p a).
Proof. intros Hd [_ Hv]. split; [by apply departs_path_ok|done]. Qed.

Lemma agent_ok_short topo p a :
  Sim.longer_than_1 p = false -> agent_ok topo a -> agent_ok topo (set_path p a).
Proof. intros Hd [_ Hv]. split; [by apply short_path_ok|done]. Qed.

Lemma agent_ok_flags topo a b :
  path b = path a -> pos b = pos a -> visibilityRange b = visibilityRange a ->
  agent_ok topo a -> agent_ok topo b.
Proof. intros Hp Hq Hv [? ?]. split; [by rewrite Hp, Hq|by rewrite Hv]. Qed.

Lemma agent_ok_wider topo a :
  agent_ok topo a -> agent_ok topo (set_visibilityRange (Z.add 2 <$> visibilityRange a) a).
Proof.
  intros [Hp Hv]. split; [done|]. simpl. destruct (visibilityRange a); simpl in *; lia.
Qed.

(** ** Accumulating form of the basic steps *)

Lemma ev_modify M k s0 s i f :
  evolves M k s0 s ->
  (forall a, Sim.agents s !! i = Some a ->
     id (f a) = id a /\ pos (f a) = pos a /\
     (covers (Sim.currentTopology s) frame -> agent_ok frame a -> agent_ok frame (f a))) ->
  evolves M k s0 (Sim.with_agents (modify i f (Sim.agents s)) s).
Proof. intros H Hf. eapply evolves_quiet; [exact H|]. by apply quiet_modify. Qed.

Lemma ev_fields M k s0 s s' :
  evolves M k s0 s ->
  settings s' = settings s -> kept s' = kept s -> Sim.totalMoves s' = Sim.totalMoves s ->
  Sim.agents s' = Sim.agents s ->
  (Restart true ∈ Sim.timeouts s' -> Restart true ∈ Sim.timeouts s) ->
  evolves M k s0 s'.
Proof. intros H ? ? ? ? ?. eapply evolves_quiet; [exact H|]. by apply quiet_fields. Qed.

Lemma ev_with_grid M k s0 s g : evolves M k s0 s -> evolves M k s0 (Sim.with_grid g s).
Proof. intros H. by eapply ev_fields. Qed.
Lemma ev_with_entropy M k s0 s e : evolves M k s0 s -> evolves M k s0 (Sim.with_entropy e s).
Proof. intros H. by eapply ev_fields. Qed.
Lemma ev_with_deadlockHandler M k s0 s h :
  evolves M k s0 s -> evolves M k s0 (Sim.with_deadlockHandler h s).
Proof. intros H. by eapply ev_fields. Qed.
Lemma ev_with_handlerAgents M k s0 s h :
  evolves M k s0 s -> evolves M k s0 (Sim.with_handlerAgents h s).
Proof. intros H. by eapply ev_fields. Qed.
Lemma ev_with_lastDeadlockSignature M k s0 s h :
  evolves M k s0 s -> evolves M k s0 (Sim.with_lastDeadlockSignature h s).
Proof. intros H. by eapply ev_fields. Qed.
Lemma ev_with_repeatedDeadlockCount M k s0 s h :
  evolves M k s0 s -> evolves M k s0 (Sim.with_repeatedDeadlockCount h s).
Proof. intros H. by eapply ev_fields. Qed.
Lemma ev_with_sequentialMovesRemaining M k s0 s h :
  evolves M k s0 s -> evolves M k s0 (Sim.with_sequentialMovesRemaining h s).
Proof. intros H. by eapply ev_fields. Qed.
Lemma ev_pauseSimulation M k s0 s : evolves M k s0 s -> evolves M k s0 (Sim.pauseSimulation s).
Proof. intros H. by eapply ev_fields. Qed.
Lemma ev_restore M k s0 s l :
  evolves M k s0 s ->
  evolves M k s0 (Sim.with_timeouts (Sim.timeouts s ++ [RestoreVisibility l]) s).
Proof.
  intros H. eapply ev_fields; [exact H|done..|]. simpl.
  intros [?|Hin%list_elem_of_singleton]%elem_of_app; done.
Qed.
Lemma ev_restart_false M k s0 s :
  evolves M k s0 s ->
  evolves M k s0 (Sim.with_timeouts (Sim.timeouts s ++ [Restart false]) s).
Proof.
  intros H. eapply ev_fields; [exact H|done..|]. simpl.
  intros [?|Hin%list_elem_of_singleton]%elem_of_app; done.
Qed.

End Planning.

#[export] Hint Resolve createPathfinder_departs toGoal_departs astar_departs
  createPathfinder_frame findPathToTarget_frame : departs.
#[export] Hint Resolve ev_with_grid ev_with_entropy ev_with_deadlockHandler ev_with_handlerAgents
  ev_with_lastDeadlockSignature ev_with_repeatedDeadlockCount
  ev_with_sequentialMovesRemaining ev_pauseSimulation ev_restore ev_restart_false : ev.

(** The agent a helper looked up is the one it writes. *)
Ltac same_agent :=
  repeat match goal with
  | H1 : ?l !! ?i = Some ?a, H2 : ?l !! ?i = Some ?b |- _ =>
      rewrite H1 in H2; injection H2 as <-
  end.

Ltac agent_step :=
  intros ? ?; same_agent;
  split; [reflexivity|split; [reflexivity|]];
  intros ?;
  first
    [ by (intros ?; eapply agent_ok_flags; [| | |eassumption]; reflexivity)
    | by (intros ?; apply agent_ok_short; [reflexivity|assumption])
    | by apply agent_ok_wider
    | by (intros ?; apply agent_ok_set_path; [eauto 6 with departs|
            first [assumption|eapply agent_ok_flags; [| | |eassumption]; reflexivity]])
    | by (intros ?; eapply agent_ok_flags; [| | |apply agent_ok_set_path;
            [eauto 6 with departs|eassumption]]; reflexivity) ].

Ltac ev_step :=
  match goal with
  | |- evolves _ _ _ (fst (_, _)) => cbn [fst]
  | |- evolves _ _ _ (fst (match ?x with _ => _ end)) => destruct x eqn:?
  | |- evolves _ _ _ (fst (if ?x then _ else _)) => destruct x eqn:?
  | |- evolves _ _ _ (match ?x with _ => _ end) => destruct x eqn:?
  | |- evolves _ _ _ (if ?x then _ else _) => destruct x eqn:?
  | |- evolves _ _ _ (Sim.with_agents (modify _ _ (Sim.agents ?s)) ?s) =>
      apply ev_modify; [|agent_step]
  | |- evolves _ _ _ _ => solve [eauto 8 with ev]
  | |- evolves _ _ _ _ => progress eauto 8 with ev
  end.
Ltac ev := repeat ev_step.

Section Helpers.
Context {num : Type} {N : JSNum num} {E : Type} {R : Random E} {FR : Frame}.
Implicit Types s : Sim.t (E := E).

Lemma findTemporaryTarget_ev M k s0 s i :
  evolves M k s0 s -> evolves M k s0 (Sim.findTemporaryTarget i s).1.
Proof. intros H. unfold Sim.findTemporaryTarget. ev. Qed.
Hint Resolve findTemporaryTarget_ev : ev.

Lemma findPathIgnoringAgents_ev M k s0 s i :
  evolves M k s0 s -> evolves M k s0 (Sim.findPathIgnoringAgents i s).1.
Proof. intros H. unfold Sim.findPathIgnoringAgents. ev. Qed.
Hint Resolve findPathIgnoringAgents_ev : ev.

Lemma calculatePath_ev M k s0 s i :
  evolves M k s0 s -> evolves M k s0 (Sim.calculatePath i s).
Proof. intros H. unfold Sim.calculatePath. ev. Qed.

End Helpers.
#[export] Hint Resolve findTemporaryTarget_ev findPathIgnoringAgents_ev calculatePath_ev : ev.

(** Case analysis on a helper that returned [Some]. *)
Ltac opt_step :=
  match goal with
  | H : Some _ = Some _ |- _ => injection H as <-
  | H : None = Some _ |- _ => discriminate H
  | H : Sim.find_first _ _ = Some _ |- _ =>
      apply find_first_Some in H as (? & _ & H); cbv beta in H
  | H : (_ ≫= _) = Some _ |- _ => apply bind_Some in H as (? & ? & H)
  | H : (match ?x with _ => _ end) = Some _ |- _ => destruct x eqn:?
  | H : (if ?x then _ else _) = Some _ |- _ => destruct x eqn:?
  | H : (let '(_, _) := ?x in _) = Some _ |- _ => destruct x eqn:?
  | H : TypeError = Ok _ |- _ => discriminate H
  | H : Ok _ = Ok _ |- _ =>
      first [discriminate H
            |injection H as H; try match type of H with _ = ?v => is_var v; subst v end]
  | H : find_first_throws _ _ = Ok (Some _) |- _ =>
      apply find_first_throws_Some in H as (? & _ & H); cbv beta in H
  | H : (match ?x with _ => _ end) = Ok _ |- _ => destruct x eqn:?
  | H : (if ?x then _ else _) = Ok _ |- _ => destruct x eqn:?
  end.
Ltac opt := repeat opt_step.

Section Reassignment.
Context {num : Type} {N : JSNum num} {E : Type} {R : Random E} {FR : Frame}.
Implicit Types s : Sim.t (E := E).

Lemma retarget_ev M k s0 s i agent target p :
  Sim.agents s !! i = Some agent ->
  departs (Sim.currentTopology s) (pos agent) p ->
  evolves M k s0 s -> evolves M k s0 (Sim.retarget i target p s).
Proof.
  intros Ha Hp H. unfold Sim.retarget. apply ev_modify; [done|].
  intros a Ha'. same_agent. split; [done|]. split; [done|]. intros Hc [_ Hv].
  split; [|done]. apply departs_path_ok. by eapply departs_covers.
Qed.

Lemma widenVisibility_ev M k s0 s l :
  evolves M k s0 s -> evolves M k s0 (Sim.widenVisibility l s).
Proof.
  intros H. unfold Sim.widenVisibility.
  set (f := fun ags i => modify i _ ags).
  apply (ev_restore M k s0 (Sim.with_agents (foldl f (Sim.agents s) l) s)).
  assert (forall ags, evolves M k s0 (Sim.with_agents ags s) ->
                      evolves M k s0 (Sim.with_agents (foldl f ags l) s)) as Hl.
  { induction l as [|i l IH]; intros ags Hags; [done|]. simpl. apply IH.
    change (Sim.with_agents (f ags i) s) with
      (Sim.with_agents (modify i (fun a => set_visibilityRange (Z.add 2 <$> visibilityRange a) a)
                          (Sim.agents (Sim.with_agents ags s))) (Sim.with_agents ags s)).
    ev. }
  apply Hl. by eapply ev_fields.
Qed.

Lemma reassignVisible_ev M k s0 s emptyTargets notAtT s' :
  Sim.reassignVisible emptyTargets notAtT s = Some s' ->
  evolves M k s0 s -> evolves M k s0 s'.
Proof.
  unfold Sim.reassignVisible. intros Hr H. opt.
  eapply retarget_ev; eauto with departs.
Qed.

Lemma recalculateOthers_ev M k s0 s agentId :
  evolves M k s0 s -> evolves M k s0 (Sim.recalculateOthers agentId s).
Proof.
  intros H. unfold Sim.recalculateOthers.
  apply foldl_invariant; [done|]. intros s1 j H1. ev.
Qed.

Lemma chainMove_ev M k s0 s emptyTargets blockers atT notAtT s' :
  Sim.chainMove emptyTargets blockers atT notAtT s = Ok (Some s') ->
  evolves M k s0 s -> evolves M k s0 s'.
Proof.
  unfold Sim.chainMove. intros Hr H. opt;
    (apply recalculateOthers_ev; eapply retarget_ev; eauto with departs).
Qed.

Lemma directMove_ev M k s0 s emptyTargets blockers s' :
  Sim.directMove emptyTargets blockers s = Some s' ->
  evolves M k s0 s -> evolves M k s0 s'.
Proof.
  unfold Sim.directMove. intros Hr H. opt.
  apply foldl_invariant; [|intros; ev].
  eapply retarget_ev; eauto with departs.
Qed.

Lemma reassignBlocked_ev M k s0 s emptyTargets notAtT s' :
  Sim.reassignBlocked emptyTargets notAtT s = Some s' ->
  evolves M k s0 s -> evolves M k s0 s'.
Proof.
  unfold Sim.reassignBlocked. intros Hr H. opt.
  eapply retarget_ev; eauto with departs.
Qed.

End Reassignment.

#[export] Hint Resolve widenVisibility_ev reassignVisible_ev recalculateOthers_ev
  chainMove_ev directMove_ev reassignBlocked_ev : ev.

Section Reassignment2.
Context {num : Type} {N : JSNum num} {E : Type} {R : Random E} {FR : Frame}.
Implicit Types s : Sim.t (E := E).

Lemma swapTargets_ev M k s0 s i j s' :
  Sim.swapTargets i j s = Ok (Some s') -> evolves M k s0 s -> evolves M k s0 s'.
Proof.
  unfold Sim.swapTargets. intros Hr H.
  destruct (Sim.agents s !! i) as [a1|] eqn:Ha1; [|done].
  destruct (Sim.agents s !! j) as [a2|] eqn:Ha2; [|done].
  set (g := Sim.settledAsWalls _ _ _) in Hr.
  destruct (Sim.findPathToTarget s g (pos a1) _ _) as [path1|] eqn:Hp1; [|done].
  destruct (Sim.findPathToTarget s g (pos a2) _ _) as [path2|] eqn:Hp2; [|done].
  destruct (_ && _); [|done]. injection Hr as <-.
  set (f1 := fun a => set_path _ (set_target (targetX a2) _ a)).
  set (f2 := fun a => set_path _ (set_target (targetX a1) _ a)).
  change (evolves M k s0
            (Sim.with_agents
               (modify j f2 (Sim.agents (Sim.with_agents (modify i f1 (Sim.agents s)) s)))
               (Sim.with_agents (modify i f1 (Sim.agents s)) s))).
  apply ev_modify.
  - apply ev_modify; [done|]. subst f1. agent_step.
  - intros a Ha. simpl in Ha. unfold modify in Ha.
    assert (pos a = pos a2) as Hpos.
    { destruct (decide (i = j)) as [->|Hne].
      - rewrite list_lookup_alter_eq in Ha.
        match goal with H1 : Sim.agents s !! j = Some a1 |- _ => rewrite H1 in Ha end.
        injection Ha as <-. assert (a1 = a2) as -> by congruence. reflexivity.
      - rewrite list_lookup_alter_ne in Ha by done. congruence. }
    split; [done|]. split; [done|]. intros Hc [_ Hv]. split; [|done].
    change (path_ok frame (pos a) (path (f2 a))).
    rewrite Hpos. apply departs_path_ok. subst f2. cbn [path set_path].
    eauto with departs.
Qed.

Lemma swapAssignments_ev M k s0 s atT notAtT s' :
  Sim.swapAssignments atT notAtT s = Ok (Some s') -> evolves M k s0 s -> evolves M k s0 s'.
Proof.
  unfold Sim.swapAssignments. intros Hr H. opt; eauto using swapTargets_ev.
Qed.
Hint Resolve swapAssignments_ev : ev.

Lemma tryTargetReassignment_ev M k s0 s :
  evolves M k s0 s -> evolves M k s0 (Sim.tryTargetReassignment s).1.
Proof.
  intros H. unfold Sim.tryTargetReassignment.
  set (s1 := match Sim.currentDecisionMode s with
             | Distributed => Sim.widenVisibility _ s
             | Centralized => s
             end).
  assert (evolves M k s0 s1) as H1 by (subst s1; ev).
  clearbody s1. cbv zeta. ev; opt; eauto with ev.
Qed.

Lemma findTwoPhasePathThroughAgents_ev M k s0 s i :
  evolves M k s0 s -> evolves M k s0 (Sim.findTwoPhasePathThroughAgents i s).1.
Proof.
  intros H. unfold Sim.findTwoPhasePathThroughAgents.
  destruct (Sim.agents s !! i) as [agent|] eqn:Ha; [|done].
  destruct (find_first_throws _ _) as [[p|]|] eqn:Hp; [|done..].
  opt. cbn [fst]. apply ev_modify; [done|]. agent_step.
Qed.
Hint Resolve findTwoPhasePathThroughAgents_ev : ev.

Lemma clearedPaths_ev M k s0 s l :
  evolves M k s0 s -> evolves M k s0 (Sim.clearedPaths l s).1.
Proof.
  intros H. unfold Sim.clearedPaths.
  apply (foldl_invariant (fun acc : Sim.t * throws bool => evolves M k s0 acc.1)); [done|].
  intros [s1 [b|]] i H1; [|done]. cbn [fst] in *.
  pose proof (findTwoPhasePathThroughAgents_ev M k s0 s1 i H1) as H2.
  destruct (Sim.findTwoPhasePathThroughAgents i s1) as [s2 [[|]|]]; cbn [fst] in H2;
    [done| |done].
  pose proof (findPathIgnoringAgents_ev M k s0 s2 i H2) as H3.
  by destruct (Sim.findPathIgnoringAgents i s2) as [s3 found].
Qed.

Lemma widenAll_ev M k s0 s : evolves M k s0 s -> evolves M k s0 (Sim.widenAll s).
Proof.
  intros H. unfold Sim.widenAll. apply foldl_invariant; [done|].
  intros s1 i H1. destruct (Sim.agents s1 !! i) as [agent|] eqn:Ha; [|done].
  destruct (atTarget agent); [done|].
  apply ev_restore, calculatePath_ev. ev.
Qed.

Lemma replanSequential_ev M k s0 s order :
  evolves M k s0 s -> evolves M k s0 (Sim.replanSequential order s).
Proof.
  intros H. unfold Sim.replanSequential. apply foldl_invariant; [done|].
  intros s1 i H1. ev.
Qed.

End Reassignment2.
#[export] Hint Resolve swapAssignments_ev tryTargetReassignment_ev
  findTwoPhasePathThroughAgents_ev clearedPaths_ev widenAll_ev replanSequential_ev : ev.

Lemma insert_sorted_perm {A} (leb : A -> A -> bool) v l : insert_sorted leb v l ≡ₚ v :: l.
Proof.
  induction l as [|w l IH]; simpl; [done|].
  destruct (leb v w); [done|]. rewrite IH. apply Permutation_swap.
Qed.

Lemma stable_sort_perm {A} (leb : A -> A -> bool) l : stable_sort leb l ≡ₚ l.
Proof.
  induction l as [|v l IH]; simpl; [done|].
  unfold stable_sort in IH. by rewrite insert_sorted_perm, IH.
Qed.

Lemma elem_of_stable_sort {A} (leb : A -> A -> bool) l v : v ∈ stable_sort leb l <-> v ∈ l.
Proof. by rewrite stable_sort_perm. Qed.

Lemma astar_default_departs g topo start goal :
  departs topo start (AStar.findPath (AStar.new_default g) start goal).
Proof. apply departs_mono, astar_departs. Qed.
#[export] Hint Resolve astar_default_departs : departs.

Lemma step_departs topo p q : adjacent topo p q -> departs topo p [p; q].
Proof. intros Ha. right. split; [done|]. constructor; [done|constructor]. Qed.

Section Handler.
Context {num : Type} {N : JSNum num} {E : Type} {R : Random E} {FR : Frame}.
Implicit Types s : Sim.t (E := E).

(** A function on the agent array that every state can absorb. *)
Definition lifts (F : list Agent -> list Agent) : Prop :=
  forall M k s0 s, evolves M k s0 s -> evolves M k s0 (Sim.with_agents (F (Sim.agents s)) s).

Lemma lifts_id : lifts (fun ags => ags).
Proof. intros M k s0 s H. by eapply ev_fields. Qed.

Lemma lifts_comp F1 F2 : lifts F1 -> lifts F2 -> lifts (fun ags => F2 (F1 ags)).
Proof.
  intros H1 H2 M k s0 s H.
  apply (H2 M k s0 (Sim.with_agents (F1 (Sim.agents s)) s)). by apply H1.
Qed.

Lemma lifts_foldl {A} (f : list Agent -> A -> list Agent) l :
  (forall a, lifts (fun ags => f ags a)) -> lifts (fun ags => foldl f ags l).
Proof.
  intros Hf. induction l as [|a l IH]; simpl; [apply lifts_id|].
  apply (lifts_comp (fun ags => f ags a) (fun ags => foldl f ags l)); auto.
Qed.

Lemma findAlternativePath_lifts g i :
  lifts (fun ags => (DeadlockHandler.findAlternativePath g ags i).1).
Proof.
  intros M k s0 s H. unfold DeadlockHandler.findAlternativePath.
  destruct (Sim.agents s !! i) as [agent|] eqn:Ha; [|by apply lifts_id].
  destruct (1 <? _); [|by apply lifts_id]. cbn [fst]. ev.
Qed.

Lemma retreatOptions_adjacent g ags agent (r : Pos * Z) :
  r ∈ DeadlockHandler.retreatOptions g ags agent -> adjacent VonNeumann (pos agent) r.1.
Proof.
  unfold DeadlockHandler.retreatOptions. intros Hr.
  apply list_elem_of_omap in Hr as (d & Hd & Hr).
  destruct (_ && _); [|done]. injection Hr as <-. by exists d.
Qed.

Lemma temporaryRetreat_lifts g i :
  lifts (fun ags => (DeadlockHandler.temporaryRetreat g ags i).1).
Proof.
  intros M k s0 s H. unfold DeadlockHandler.temporaryRetreat.
  destruct (Sim.agents s !! i) as [agent|] eqn:Ha; [|by apply lifts_id].
  destruct (stable_sort _ _) as [|retreat rest] eqn:Hs; [by apply lifts_id|].
  assert (adjacent VonNeumann (pos agent) retreat.1) as Hadj.
  { eapply retreatOptions_adjacent, elem_of_stable_sort. rewrite Hs. left. }
  cbn [fst]. apply ev_modify; [done|].
  intros a Ha'. same_agent. split; [done|]. split; [done|]. intros _ [_ Hv]. split; [|done].
  apply departs_path_ok, step_departs. by apply adjacent_mono.
Qed.

Lemma createClearedPathForAgent_lifts g i :
  lifts (fun ags => (DeadlockHandler.createClearedPathForAgent g ags i).1).
Proof.
  intros M k s0 s H. unfold DeadlockHandler.createClearedPathForAgent.
  destruct (Sim.agents s !! i) as [agent|] eqn:Ha; [|by apply lifts_id].
  destruct (1 <? _); [|by apply lifts_id]. cbn [fst]. ev.
Qed.

Lemma resolveOne_lifts g agentId :
  lifts (fun ags => DeadlockHandler.resolveOne g ags agentId).
Proof.
  intros M k s0 s H. unfold DeadlockHandler.resolveOne.
  destruct (find_by_id agentId (Sim.agents s)) as [i|]; [|by apply lifts_id].
  pose proof (findAlternativePath_lifts g i M k s0 s H) as H1. cbv beta in H1.
  destruct (DeadlockHandler.findAlternativePath g (Sim.agents s) i) as [ags1 found].
  cbn [fst] in H1. destruct found; [exact H1|].
  pose proof (temporaryRetreat_lifts g i M k s0 _ H1) as H2.
  cbv beta in H2. cbn [Sim.agents Sim.with_agents] in H2.
  destruct (DeadlockHandler.temporaryRetreat g ags1 i) as [ags2 retreated].
  cbn [fst] in H2. destruct retreated; [exact H2|].
  exact (createClearedPathForAgent_lifts g i M k s0 _ H2).
Qed.

Lemma resolveDeadlocks_ev M k s0 s h g ids :
  evolves M k s0 s ->
  evolves M k s0
    (Sim.with_agents (DeadlockHandler.resolveDeadlocks h g (Sim.agents s) ids).2
       (Sim.with_deadlockHandler (DeadlockHandler.resolveDeadlocks h g (Sim.agents s) ids).1 s)).
Proof.
  intros H. unfold DeadlockHandler.resolveDeadlocks.
  destruct ids as [|i ids]; cbn [fst snd].
  - apply (lifts_id M k s0 (Sim.with_deadlockHandler h s)). by apply ev_with_deadlockHandler.
  - apply (lifts_foldl _ _ (resolveOne_lifts g) M k s0 (Sim.with_deadlockHandler _ s)).
    by apply ev_with_deadlockHandler.
Qed.

End Handler.

Lemma NoDup_fmap_lookup {A B} (f : A -> B) (l : list A) :
  NoDup (f <$> l) <->
  forall i j a b, l !! i = Some a -> l !! j = Some b -> f a = f b -> i = j.
Proof.
  rewrite NoDup_alt. split.
  - intros Hnd i j a b Ha Hb Hab. apply (Hnd i j (f a)).
    + by rewrite list_lookup_fmap, Ha.
    + by rewrite list_lookup_fmap, Hb, Hab.
  - intros Hinj i j y Hi Hj. rewrite list_lookup_fmap in Hi, Hj.
    destruct (l !! i) as [a|] eqn:Ha; [|done].
    destruct (l !! j) as [b|] eqn:Hb; [|done].
    simpl in *. apply (Hinj i j a b); congruence.
Qed.

Lemma getNeighbors_near x y topo size n :
  n ∈ getNeighbors x y topo size -> adjacent topo (x, y) n.
Proof. apply getNeighbors_adjacent. Qed.

Section Movers.
Context {num : Type} {N : JSNum num} {E : Type} {R : Random E} {FR : Frame}.
Implicit Types s : Sim.t (E := E).

Lemma evolves_agents M s ags' :
  id <$> ags' = id <$> Sim.agents s ->
  (forall i, i ∉ M -> pos <$> ags' !! i = pos <$> Sim.agents s !! i) ->
  (wf s ->
   (forall i a a', Sim.agents s !! i = Some a -> ags' !! i = Some a' ->
                   near frame (pos a) (pos a')) /\
   NoDup (pos <$> ags') /\ Forall (agent_ok frame) ags') ->
  evolves M 0 s (Sim.with_agents ags' s).
Proof.
  intros Hid Hfar Hwf. split; simpl; try done.
  - lia.
  - intros Hs. apply (Hwf Hs).
  - intros Hs. destruct (Hwf Hs) as (_ & Hnd & Hok). destruct Hs as (Hcov & Hids & _ & _).
    split; [|split; [|split]]; simpl; [done|by rewrite Hid|done|done].
Qed.

(** One agent steps to a free cell. *)
Lemma evolves_relocate s i a f :
  Sim.agents s !! i = Some a ->
  id (f a) = id a ->
  (wf s ->
   near frame (pos a) (pos (f a)) /\
   (forall j b, j <> i -> Sim.agents s !! j = Some b -> pos b <> pos (f a)) /\
   agent_ok frame (f a)) ->
  evolves {[i]} 0 s (Sim.with_agents (modify i f (Sim.agents s)) s).
Proof.
  intros Ha Hid Hwf. unfold modify. apply evolves_agents.
  - apply list_eq. intros j. rewrite !list_lookup_fmap.
    destruct (decide (i = j)) as [<-|Hne].
    + rewrite list_lookup_alter_eq, Ha. simpl. by rewrite Hid.
    + by rewrite list_lookup_alter_ne.
  - intros j Hj. rewrite list_lookup_alter_ne; [done|set_solver].
  - intros Hs. destruct (Hwf Hs) as (Hnear & Hfree & Hok).
    destruct Hs as (Hcov & Hids & Hpos & Haok). split; [|split].
    + intros j b b' Hb Hb'. destruct (decide (i = j)) as [<-|Hne].
      * rewrite list_lookup_alter_eq, Ha in Hb'. simpl in Hb'.
        injection Hb' as <-. congruence.
      * rewrite list_lookup_alter_ne in Hb' by done. left. congruence.
    + apply NoDup_fmap_lookup. intros j1 j2 b1 b2 H1 H2 Heq.
      rewrite NoDup_fmap_lookup in Hpos.
      destruct (decide (i = j1)) as [<-|Hne1]; destruct (decide (i = j2)) as [<-|Hne2];
        try done.
      * rewrite list_lookup_alter_eq, Ha in H1. simpl in H1. injection H1 as <-.
        rewrite list_lookup_alter_ne in H2 by done.
        exfalso. eapply (Hfree j2 b2); eauto.
      * rewrite list_lookup_alter_eq, Ha in H2. simpl in H2. injection H2 as <-.
        rewrite list_lookup_alter_ne in H1 by done.
        exfalso. eapply (Hfree j1 b1); eauto.
      * rewrite list_lookup_alter_ne in H1, H2 by done. eauto.
    + apply Forall_lookup. intros j b Hb. destruct (decide (i = j)) as [<-|Hne].
      * rewrite list_lookup_alter_eq, Ha in Hb. simpl in Hb. by injection Hb as <-.
      * rewrite list_lookup_alter_ne in Hb by done.
        by eapply (Forall_lookup_1 _ _ _ _ Haok).
Qed.

(** What the occupancy test by id establishes. *)
Lemma occupiedByOther_false s i agent n :
  NoDup (id <$> Sim.agents s) -> Sim.agents s !! i = Some agent ->
  Sim.occupiedByOther (Sim.agents s) agent n = false ->
  forall j b, j <> i -> Sim.agents s !! j = Some b -> pos b <> n.
Proof.
  intros Hnd Ha Hocc j b Hne Hb Hpos.
  unfold Sim.occupiedByOther in Hocc.
  assert (existsb (fun a => bool_decide (id a ≠ id agent) && bool_decide (pos a = n))
                  (Sim.agents s) = true) as Hex; [|congruence].
  apply existsb_exists. exists b. split; [by eapply list_elem_of_In, list_elem_of_lookup_2|].
  apply andb_true_iff. split; apply bool_decide_eq_true; [|done].
  intros Hid. apply Hne. rewrite NoDup_fmap_lookup in Hnd. by eapply Hnd.
Qed.

Lemma with_agents_twice s ags ags' :
  Sim.with_agents ags' (Sim.with_agents ags s) = Sim.with_agents ags' s.
Proof. reflexivity. Qed.

Lemma moveTo_shape i agent n s f :
  Sim.with_agents (modify i f (Sim.agents (Sim.moveTo i agent n s))) (Sim.moveTo i agent n s)
  = Sim.with_grid (Sim.grid (Sim.moveTo i agent n s))
      (Sim.with_agents (modify i (fun a => f (set_pos n a)) (Sim.agents s)) s).
Proof.
  unfold Sim.moveTo, modify, Sim.with_agents, Sim.with_grid. cbn. f_equal.
  apply list_alter_alter_eq.
Qed.

End Movers.

Section Movers2.
Context {num : Type} {N : JSNum num} {E : Type} {R : Random E} {FR : Frame}.
Implicit Types s : Sim.t (E := E).

(** Some agents moved, none along its stored path. *)
Definition displaced s s' : Prop := exists M, evolves M 0 s s'.

Lemma displaced_refl s : displaced s s.
Proof. exists ∅. apply evolves_refl. Qed.

Lemma quiet_displaced s s' : quiet s s' -> displaced s s'.
Proof. by exists ∅. Qed.

Lemma displaced_quiet s1 s2 s3 : displaced s1 s2 -> quiet s2 s3 -> displaced s1 s3.
Proof. intros [M H] Hq. exists M. by eapply evolves_quiet. Qed.

Lemma quiet_then_displaced s1 s2 s3 : quiet s1 s2 -> displaced s2 s3 -> displaced s1 s3.
Proof. intros Hq [M H]. exists M. by eapply quiet_evolves. Qed.

Lemma freeFor_free s i agent n :
  Sim.agents s !! i = Some agent -> Sim.freeFor s agent n = true -> wf s ->
  forall j b, j <> i -> Sim.agents s !! j = Some b -> pos b <> n.
Proof.
  intros Ha Hfree (_ & Hids & _ & _). eapply occupiedByOther_false; [done..|].
  unfold Sim.freeFor in Hfree. apply andb_true_iff in Hfree as [_ Hocc].
  by apply negb_true_iff in Hocc.
Qed.

Lemma moveAgentTemporarilyForced_ev i s :
  evolves {[i]} 0 s (Sim.moveAgentTemporarilyForced i s).1.
Proof.
  assert (evolves {[i]} 0 s s) as Hrefl
      by (eapply evolves_weaken; [|apply evolves_refl]; set_solver).
  unfold Sim.moveAgentTemporarilyForced.
  destruct (Sim.agents s !! i) as [agent|] eqn:Ha; [|done].
  destruct (negb (atTarget agent)); [done|].
  destruct (stable_sort _ _) as [|tempPos rest] eqn:Hs; [done|].
  assert (tempPos ∈ tempPos :: rest) as Hin by left.
  rewrite <- Hs, elem_of_stable_sort in Hin.
  apply list_elem_of_In, in_map_iff in Hin as (n & <- & Hn).
  apply filter_In in Hn as [Hnb Hfree]. apply list_elem_of_In in Hnb.
  cbn [fst]. rewrite moveTo_shape. apply ev_with_grid.
  cbn [Sim.agents Sim.with_agents]. unfold modify at 1 2.
  rewrite list_alter_alter_eq, with_agents_twice.
  apply (evolves_relocate s i agent); [done|reflexivity|].
  apply getNeighbors_near in Hnb. destruct n as [nx ny].
  intros Hwf. pose proof Hwf as (Hcov & _ & _ & Hok).
  apply (adjacent_covers _ _ _ _ Hcov) in Hnb.
  split; [|split].
  - right. exact Hnb.
  - by eapply freeFor_free.
  - pose proof (Forall_lookup_1 _ _ _ _ Hok Ha) as [_ Hv].
    split; [|done]. apply departs_path_ok, step_departs, adjacent_sym. exact Hnb.
Qed.

Lemma tryRandomMoves_ev l : forall s, displaced s (Sim.tryRandomMoves l s).1.
Proof.
  induction l as [|i l IH]; intros s; [apply displaced_refl|].
  cbn [Sim.tryRandomMoves].
  destruct (Sim.agents s !! i) as [agent|] eqn:Ha; [|apply IH].
  destruct (shuffle _ _) as [neighbors e] eqn:Hsh.
  assert (quiet s (Sim.with_entropy e s)) as Hq by (apply ev_with_entropy, evolves_refl).
  destruct (find _ neighbors) as [n|] eqn:Hfind.
  - apply find_some in Hfind as [Hn Hfree].
    assert (n ∈ getNeighbors (x agent) (y agent) (Sim.currentTopology s) (Sim.gridSize s))
      as Hnb.
    { pose proof (shuffle_perm (Sim.entropy s)
                    (getNeighbors (x agent) (y agent) (Sim.currentTopology s) (Sim.gridSize s)))
        as Hperm.
      rewrite Hsh in Hperm. simpl in Hperm. rewrite <- Hperm. by apply list_elem_of_In. }
    cbn [fst]. exists {[i]}. apply calculatePath_ev.
    rewrite moveTo_shape. apply ev_with_grid.
    eapply quiet_evolves; [exact Hq|].
    apply (evolves_relocate (Sim.with_entropy e s) i agent); [done|reflexivity|].
    apply getNeighbors_near in Hnb. destruct n as [nx ny].
    intros Hwf. pose proof Hwf as (Hcov & _ & _ & Hok).
    apply (adjacent_covers _ _ _ _ Hcov) in Hnb.
    split; [|split].
    + right. exact Hnb.
    + by eapply (freeFor_free (Sim.with_entropy e s)).
    + pose proof (Forall_lookup_1 _ _ _ _ Hok Ha) as [_ Hv].
      split; [|done]. by apply short_path_ok.
  - eapply quiet_then_displaced; [exact Hq|apply IH].
Qed.

End Movers2.

Lemma pos_set_pos p a : pos (set_pos p a) = p.
Proof. by destruct p. Qed.

Lemma manhattan_sym p q : manhattan p q = manhattan q p.
Proof. unfold manhattan. lia. Qed.

Lemma elem_of_pairs {A} (l : list A) a b : (a, b) ∈ Sim.pairs l -> a ∈ l /\ b ∈ l.
Proof.
  induction l as [|c l IH]; simpl; [by intros ?%elem_of_nil|].
  intros [Hin|Hin]%elem_of_app.
  - apply list_elem_of_In, in_map_iff in Hin as (b' & [= <- <-] & Hb).
    split; [left|right; by apply list_elem_of_In].
  - destruct (IH Hin). split; by right.
Qed.

Lemma elem_of_indices P ags i :
  i ∈ Sim.indices P ags -> exists a, ags !! i = Some a /\ P a = true.
Proof.
  unfold Sim.indices. intros Hin.
  apply list_elem_of_omap in Hin as ([j a] & Hja & Hp).
  apply elem_of_lookup_imap in Hja as (j' & a' & [= -> ->] & Ha).
  simpl in Hp. destruct (P a') eqn:HP; [|done]. injection Hp as <-. eauto.
Qed.

Section Escalation.
Context {num : Type} {N : JSNum num} {E : Type} {R : Random E} {FR : Frame}.
Implicit Types s : Sim.t (E := E).

Lemma swapPositions_ev i j s s' :
  Sim.swapPositions i j s = Some s' ->
  (forall a, Sim.agents s !! i = Some a -> Sim.longer_than_1 (path a) = false) ->
  (forall a, Sim.agents s !! j = Some a -> Sim.longer_than_1 (path a) = false) ->
  evolves {[i; j]} 0 s s'.
Proof.
  unfold Sim.swapPositions. intros Hsw Hi Hj.
  apply bind_Some in Hsw as (a1 & Ha1 & Hsw). apply bind_Some in Hsw as (a2 & Ha2 & Hsw).
  case_bool_decide as Hm; [|done]. destruct (_ <? _); [|done]. injection Hsw as <-.
  assert (i <> j) as Hne.
  { intros ->. assert (a1 = a2) as -> by congruence.
    unfold manhattan in Hm. lia. }
  apply calculatePath_ev, calculatePath_ev, ev_with_grid.
  set (ags' := modify j _ _).
  assert (forall k, ags' !! k =
            if decide (k = j) then Some (set_pos (pos a1) a2)
            else if decide (k = i) then Some (set_pos (pos a2) a1)
            else Sim.agents s !! k) as Hlook.
  { intros k. unfold ags', modify. destruct (decide (k = j)) as [->|Hkj].
    - rewrite list_lookup_alter_eq, list_lookup_alter_ne, Ha2 by done. done.
    - rewrite list_lookup_alter_ne by done. destruct (decide (k = i)) as [->|Hki].
      + by rewrite list_lookup_alter_eq, Ha1.
      + by rewrite list_lookup_alter_ne. }
  apply evolves_agents.
  - apply list_eq. intros k. rewrite !list_lookup_fmap, Hlook.
    destruct (decide (k = j)) as [->|?]; [by rewrite Ha2|].
    destruct (decide (k = i)) as [->|?]; [by rewrite Ha1|]. done.
  - intros k Hk. rewrite Hlook.
    destruct (decide (k = j)) as [->|?]; [set_solver|].
    destruct (decide (k = i)) as [->|?]; [set_solver|]. done.
  - intros (Hcov & Hids & Hpos & Hok). split; [|split].
    + intros k a a' Ha Ha'. rewrite Hlook in Ha'.
      destruct (decide (k = j)) as [->|?].
      { injection Ha' as <-. rewrite pos_set_pos. right.
        assert (a = a2) as -> by congruence.
        apply manhattan_1_adjacent. by rewrite manhattan_sym. }
      destruct (decide (k = i)) as [->|?].
      { injection Ha' as <-. rewrite pos_set_pos. right.
        assert (a = a1) as -> by congruence. by apply manhattan_1_adjacent. }
      left. congruence.
    + rewrite NoDup_fmap_lookup in Hpos. apply NoDup_fmap_lookup.
      set (swap := fun k : nat => if decide (k = j) then i else if decide (k = i) then j else k).
      assert (forall k b, ags' !! k = Some b ->
                exists b0, Sim.agents s !! swap k = Some b0 /\ pos b = pos b0) as Hsrc.
      { intros k b Hb. rewrite Hlook in Hb. unfold swap.
        destruct (decide (k = j)) as [->|?].
        { injection Hb as <-. exists a1. by rewrite pos_set_pos. }
        destruct (decide (k = i)) as [->|?].
        { injection Hb as <-. exists a2. by rewrite pos_set_pos. }
        by exists b. }
      intros k1 k2 b1 b2 H1 H2 Heq.
      destruct (Hsrc k1 b1 H1) as (c1 & Hc1 & Hp1).
      destruct (Hsrc k2 b2 H2) as (c2 & Hc2 & Hp2).
      assert (swap k1 = swap k2) as Hsw by (eapply Hpos; [done..|congruence]).
      unfold swap in Hsw. repeat case_decide; congruence.
    + apply Forall_lookup. intros k b Hb. rewrite Hlook in Hb.
      destruct (decide (k = j)) as [->|?].
      { injection Hb as <-. pose proof (Forall_lookup_1 _ _ _ _ Hok Ha2) as [_ Hv].
        split; [|done]. apply short_path_ok. exact (Hj a2 Ha2). }
      destruct (decide (k = i)) as [->|?].
      { injection Hb as <-. pose proof (Forall_lookup_1 _ _ _ _ Hok Ha1) as [_ Hv].
        split; [|done]. apply short_path_ok. exact (Hi a1 Ha1). }
      by eapply (Forall_lookup_1 _ _ _ _ Hok).
Qed.

End Escalation.

Section Ladder.
Context {num : Type} {N : JSNum num} {E : Type} {R : Random E} {FR : Frame}.
Implicit Types s : Sim.t (E := E).

Lemma tryAgentSwapping_ev l s :
  (forall i a, i ∈ l -> Sim.agents s !! i = Some a -> Sim.longer_than_1 (path a) = false) ->
  displaced s (Sim.tryAgentSwapping l s).1.
Proof.
  intros Hshort. unfold Sim.tryAgentSwapping.
  destruct (Sim.find_first _ _) as [s'|] eqn:Hf; [|apply displaced_refl].
  apply find_first_Some in Hf as ([i j] & Hin & Hsw). cbn [fst snd] in *.
  apply elem_of_pairs in Hin as [Hi Hj].
  exists {[i; j]}. eapply swapPositions_ev; eauto.
Qed.

Lemma forced_displaced i s s' b :
  Sim.moveAgentTemporarilyForced i s = (s', b) -> displaced s s'.
Proof.
  intros Hm. exists {[i]}. pose proof (moveAgentTemporarilyForced_ev i s) as H.
  by rewrite Hm in H.
Qed.

Lemma forceFirst_ev s candidates : forall tried s' tried',
  Sim.forceFirst s tried candidates = (Some s', tried') -> displaced s s'.
Proof.
  induction candidates as [|i rest IH]; intros tried s' tried'; simpl; [done|].
  destruct (Sim.agents s !! i) as [a|]; [|apply IH].
  destruct (Sim.moveAgentTemporarilyForced i s) as [s1 [|]] eqn:Hm; [|apply IH].
  intros [= <- <-]. by eapply forced_displaced.
Qed.

Lemma unblockFirst_ev s atT blocked : forall tried s' tried',
  Sim.unblockFirst s atT tried blocked = (Some s', tried') -> displaced s s'.
Proof.
  induction blocked as [|j rest IH]; intros tried s' tried'; simpl; [done|].
  destruct (Sim.agents s !! j) as [b|]; [|apply IH].
  destruct (path b) as [|? [|nextStep ?]]; [apply IH..|].
  destruct (Sim.forceFirst _ _ _) as [[s1|] tried1] eqn:Hf; [|apply IH].
  intros [= <- <-]. by eapply forceFirst_ev.
Qed.

Lemma forceUntried_ev s candidates : forall tried s',
  Sim.forceUntried s tried candidates = Some s' -> displaced s s'.
Proof.
  induction candidates as [|i rest IH]; intros tried s'; simpl; [done|].
  destruct (Sim.agents s !! i) as [a|]; [|apply IH].
  case_bool_decide; [apply IH|].
  destruct (Sim.moveAgentTemporarilyForced i s) as [s1 [|]] eqn:Hm; [|apply IH].
  intros [= <-]. by eapply forced_displaced.
Qed.

Lemma replan_quiet l M k s0 s :
  evolves M k s0 s -> evolves M k s0 (foldl (fun s j => Sim.calculatePath j s) s l).
Proof. intros H. apply foldl_invariant; [done|]. intros; ev. Qed.

Lemma tryMoveBlockingAgents_ev s : displaced s (Sim.tryMoveBlockingAgents s).1.
Proof.
  unfold Sim.tryMoveBlockingAgents.
  destruct (Sim.unblockFirst _ _ _ _) as [[s1|] tried] eqn:Hu.
  - cbn [fst]. apply unblockFirst_ev in Hu as [M H]. exists M. by apply replan_quiet.
  - destruct (Sim.forceUntried _ _ _) as [s1|] eqn:Hf; [|apply displaced_refl].
    cbn [fst]. apply forceUntried_ev in Hf as [M H]. exists M. by apply replan_quiet.
Qed.

Lemma tryMoveBlockingAgents_failed s s' :
  Sim.tryMoveBlockingAgents s = (s', false) -> s' = s.
Proof.
  unfold Sim.tryMoveBlockingAgents.
  destruct (Sim.unblockFirst _ _ _ _) as [[s1|] tried]; [done|].
  destruct (Sim.forceUntried _ _ _); [done|]. by intros [= <-].
Qed.

Lemma forceNearGoal_ev l s s' : Sim.forceNearGoal l s = Some s' -> displaced s s'.
Proof.
  unfold Sim.forceNearGoal. intros Hf. opt.
  match goal with H : Sim.moveAgentTemporarilyForced _ _ = _ |- _ =>
    apply forced_displaced in H as [M H] end.
  exists M. by apply calculatePath_ev.
Qed.

Lemma stuck_short s i a :
  i ∈ Sim.indices Sim.stuck (Sim.agents s) -> Sim.agents s !! i = Some a ->
  Sim.longer_than_1 (path a) = false.
Proof.
  intros (b & Hb & Hst)%elem_of_indices Ha. assert (a = b) as -> by congruence.
  unfold Sim.stuck in Hst. apply andb_true_iff in Hst as [_ Hs].
  by apply negb_true_iff in Hs.
Qed.

Lemma last_resort s :
  quiet s (Sim.unless (Sim.tryTargetReassignment s)
                      (fun s1 => (Sim.pauseSimulation s1, Ok tt))).1.
Proof.
  pose proof (tryTargetReassignment_ev ∅ 0 s s (evolves_refl s)) as H.
  unfold Sim.unless.
  destruct (Sim.tryTargetReassignment s) as [s1 [[|]|]]; cbn [fst] in *; [done| |done].
  by apply ev_pauseSimulation.
Qed.

Lemma escalate_ev n s : displaced s (Sim.escalate n s).1.
Proof.
  unfold Sim.escalate.
  pose proof (tryTargetReassignment_ev ∅ 0 s s (evolves_refl s)) as H1.
  unfold Sim.unless at 1.
  destruct (Sim.tryTargetReassignment s) as [s1 [[|]|]]; cbn [fst] in H1;
    [by apply quiet_displaced| |by apply quiet_displaced].
  eapply quiet_then_displaced; [exact H1|]. clear H1 s. rename s1 into s.
  pose proof (tryMoveBlockingAgents_ev s) as H2.
  unfold Sim.unless at 1, Sim.returns at 1.
  destruct (Sim.tryMoveBlockingAgents s) as [s2 [|]] eqn:Hm; cbn [fst snd] in *; [done|].
  apply tryMoveBlockingAgents_failed in Hm as ->. clear H2.
  destruct n as [|n]; [apply quiet_displaced, last_resort|].
  destruct (Sim.forceNearGoal _ s) as [s'|] eqn:Hf; [by eapply forceNearGoal_ev|].
  set (stuckAgents := Sim.indices Sim.stuck (Sim.agents s)).
  assert (displaced s
            (if (2 <=? length stuckAgents)%nat then Sim.tryAgentSwapping stuckAgents s
             else (s, false)).1) as H3.
  { destruct (2 <=? length stuckAgents)%nat; [|apply displaced_refl].
    apply tryAgentSwapping_ev. intros i a. apply stuck_short. }
  unfold Sim.unless at 1, Sim.returns at 1.
  destruct (if (2 <=? length stuckAgents)%nat then _ else _) as [s3 swapped] eqn:Hsw.
  cbn [fst snd] in *. destruct swapped; [done|].
  assert (s3 = s) as ->.
  { destruct (2 <=? length stuckAgents)%nat; [|by injection Hsw as <-].
    unfold Sim.tryAgentSwapping in Hsw. destruct (Sim.find_first _ _); [done|].
    by injection Hsw as <-. }
  clear H3 Hsw.
  pose proof (clearedPaths_ev ∅ 0 s s stuckAgents (evolves_refl s)) as H4.
  unfold Sim.unless at 1.
  destruct (Sim.clearedPaths stuckAgents s) as [s4 [[|]|]]; cbn [fst] in H4;
    [by apply quiet_displaced| |by apply quiet_displaced].
  eapply quiet_then_displaced; [exact H4|].
  pose proof (tryRandomMoves_ev stuckAgents s4) as H5.
  unfold Sim.unless at 1, Sim.returns at 1.
  destruct (Sim.tryRandomMoves stuckAgents s4) as [s5 [|]]; cbn [fst snd] in *; [done|].
  eapply displaced_quiet; [exact H5|]. apply last_resort.
Qed.

End Ladder.

Section MainLoop.
Context {num : Type} {N : JSNum num} {E : Type} {R : Random E} {FR : Frame}.
Implicit Types s : Sim.t (E := E).

Lemma ev_refl s : evolves ∅ 0 s s.
Proof. apply evolves_refl. Qed.
Hint Resolve ev_refl : ev.

Lemma ev_bump M k s0 s :
  evolves M k s0 s -> evolves M (k + 1) s0 (Sim.with_totalMoves (Sim.totalMoves s + 1) s).
Proof.
  intros H. split; try apply H.
  simpl. rewrite (ev_moves _ _ _ _ H). lia.
Qed.

(** What the occupancy test of the movement loop establishes for a step
    along a well-formed path. *)
Lemma occupant_None s i a agent nextStep :
  wf s -> Sim.agents s !! i = Some a ->
  id agent = id a -> pos agent = pos a -> visibilityRange agent = visibilityRange a ->
  adjacent frame (pos a) nextStep ->
  Sim.occupant s agent nextStep = None ->
  forall j b, j <> i -> Sim.agents s !! j = Some b -> pos b <> nextStep.
Proof.
  intros (_ & Hids & _ & Hok) Ha Hid Hpos Hvis Hadj Hocc j b Hne Hb Hbn.
  assert (id b <> id agent) as Hidb.
  { rewrite Hid. intros Heq. apply Hne. rewrite NoDup_fmap_lookup in Hids. by eapply Hids. }
  pose proof (Forall_lookup_1 _ _ _ _ Hok Ha) as [_ Hv].
  unfold Sim.occupant in Hocc.
  destruct (Sim.currentDecisionMode s).
  - eapply find_none in Hocc; [|by eapply list_elem_of_In, list_elem_of_lookup_2].
    simpl in Hocc. rewrite bool_decide_eq_true_2 in Hocc by done.
    by rewrite bool_decide_eq_true_2 in Hocc.
  - eapply find_none in Hocc; [|by eapply list_elem_of_In, list_elem_of_lookup_2].
    simpl in Hocc. rewrite bool_decide_eq_false_2 in Hocc by done.
    rewrite bool_decide_eq_true_2 in Hocc by done.
    rewrite Hbn, Hpos, Hvis in Hocc.
    pose proof (manhattan_adjacent _ _ _ Hadj) as Hm.
    unfold Sim.within, vis_ok in *. destruct (visibilityRange a); [|done].
    apply Z.leb_gt in Hocc. lia.
Qed.

Lemma commitStep_ev s i a agent p0 nextStep rest :
  Sim.agents s !! i = Some a ->
  id agent = id a -> pos agent = pos a -> visibilityRange agent = visibilityRange a ->
  path a = p0 :: nextStep :: rest ->
  Sim.occupant s agent nextStep = None ->
  evolves {[i]} 1 s (Sim.commitStep i agent nextStep s).
Proof.
  intros Ha Hid Hpos Hvis Hpath Hocc. unfold Sim.commitStep.
  set (s1 := if Sim.sequentialMovementMode s then _ else s).
  assert (quiet s s1) as Hq1 by (unfold quiet; subst s1; ev).
  assert (Sim.agents s1 = Sim.agents s) as Hags by (subst s1; by destruct (Sim.sequentialMovementMode s)).
  assert (Sim.occupant s1 agent nextStep = None) as Hocc1
      by (subst s1; by destruct (Sim.sequentialMovementMode s)).
  assert (Sim.currentTopology s1 = Sim.currentTopology s) as Htopo
      by (subst s1; by destruct (Sim.sequentialMovementMode s)).
  rewrite <- Hags in Ha. clearbody s1. clear Hocc.
  cbv zeta.
  set (s4 := Sim.with_totalMoves _ _).
  assert (evolves {[i]} 1 s s4) as H4.
  { subst s4. rewrite moveTo_shape.
    change 1 with (0 + 1).
    match goal with |- evolves _ _ _ (Sim.with_totalMoves ?t ?x) =>
      change (Sim.with_totalMoves t x) with (Sim.with_totalMoves (Sim.totalMoves x + 1) x) end.
    apply ev_bump, ev_with_grid. eapply quiet_evolves; [exact Hq1|].
    apply evolves_relocate with (a := a); [done|done|].
    intros Hwf.
    pose proof Hwf as (_ & _ & _ & Hok).
    pose proof (Forall_lookup_1 _ _ _ _ Hok Ha) as [Hp Hv].
    rewrite Hpath in Hp. destruct (Hp eq_refl) as [Hhead Htrail].
    injection Hhead as ->. inversion Htrail as [| |? ? ? Hadj Htl]; subst.
    destruct nextStep as [nx ny]. cbn [pos set_pos set_path x y path fst snd].
    rewrite Hpath. cbn [tail].
    split; [by right|]. split.
    - eapply occupant_None; eauto.
    - split; [|done]. intros _. split; [done|exact Htl]. }
  clearbody s4.
  destruct (Sim.agents s4 !! i) as [moved|] eqn:Hmoved; [|done].
  set (s5 := if atTarget moved then _ else s4).
  assert (evolves {[i]} 1 s s5) as H5 by (subst s5; ev).
  clearbody s5. ev.
Qed.

(** The state of the movement loop: the agents with indices in [M] have
    been visited. *)
Definition loop_inv s0 (M : gset nat) (pr : Sim.progress) : Prop :=
  evolves M (Sim.agentsMovedCount pr) s0 (Sim.now pr) /\
  (Sim.agentsMoved pr = false -> quiet s0 (Sim.now pr) /\ Sim.agentsMovedCount pr = 0).

Lemma moveAgent_inv s0 M pr i :
  i ∉ M -> loop_inv s0 M pr -> loop_inv s0 (M ∪ {[i]}) (Sim.moveAgent pr i).
Proof.
  intros Hi [Hev Hq].
  assert (loop_inv s0 (M ∪ {[i]}) pr) as Hsame.
  { split; [|done]. eapply evolves_weaken; [|exact Hev]. set_solver. }
  assert (forall s', quiet (Sim.now pr) s' ->
            loop_inv s0 (M ∪ {[i]}) (Sim.continue_with s' pr)) as Hcont.
  { intros s' Hs'. split; simpl.
    - eapply evolves_quiet; [|exact Hs']. eapply evolves_weaken; [|exact Hev]. set_solver.
    - intros Hm. destruct (Hq Hm) as [Hq0 Hc]. split; [|done]. by eapply evolves_quiet. }
  unfold Sim.moveAgent. destruct (Sim.stopped pr); [done|].
  destruct (Sim.agents (Sim.now pr) !! i) as [agent|] eqn:Ha; [|done].
  destruct (atTarget agent).
  { apply Hcont. apply ev_modify; [apply evolves_refl|]. agent_step. }
  destruct (_ && _).
  { destruct Hsame as [? ?]. by split. }
  cbv zeta.
  set (s1 := if isRetreating agent && _ then _ else Sim.now pr).
  assert (quiet (Sim.now pr) s1) as Hq1.
  { subst s1. destruct (_ && _); [|apply evolves_refl].
    apply ev_modify; [apply evolves_refl|]. agent_step. }
  assert (exists a, Sim.agents s1 !! i = Some a /\ id agent = id a /\ pos agent = pos a /\
                    visibilityRange agent = visibilityRange a /\ path a = path agent)
    as (a & Ha1 & Hid & Hpos & Hvis & Hpath).
  { subst s1. destruct (_ && _); [|by exists agent].
    exists (set_isRetreating false agent). split; [|done].
    simpl. unfold modify. by rewrite list_lookup_alter_eq, Ha. }
  clearbody s1.
  destruct (path agent) as [|p0 [|nextStep rest]] eqn:Hp.
  1,2: destruct (targetX agent), (targetY agent); apply Hcont;
       first [by apply calculatePath_ev|done].
  destruct (Sim.occupant s1 agent nextStep) as [occ|] eqn:Hocc.
  { destruct (atTarget occ); [apply Hcont; by apply calculatePath_ev|].
    destruct (2 <? _); apply Hcont; [by apply calculatePath_ev|done]. }
  split; simpl; [|done].
  eapply evolves_trans; [set_solver|exact Hev|].
  eapply quiet_evolves; [exact Hq1|].
  eapply commitStep_ev; eauto.
Qed.

Lemma prioritizedAgents_NoDup s : NoDup (Sim.prioritizedAgents s).
Proof.
  unfold Sim.prioritizedAgents.
  change (map fst ?l) with (fst <$> l).
  rewrite stable_sort_perm, fmap_imap.
  rewrite (imap_ext _ (fun j _ => j)) by done.
  rewrite imap_seq_0, list_fmap_id. apply NoDup_seq.
Qed.

Lemma moveAgents_inv s0 order : forall M pr,
  NoDup order -> (forall i, i ∈ order -> i ∉ M) -> loop_inv s0 M pr ->
  exists M', loop_inv s0 M' (foldl Sim.moveAgent pr order).
Proof.
  induction order as [|i order IH]; intros M pr Hnd Hdisj Hinv; [by exists M|].
  simpl. apply NoDup_cons in Hnd as [Hi Hnd].
  apply (IH (M ∪ {[i]})); [done| |].
  - intros j Hj. apply not_elem_of_union. split; [apply Hdisj; by right|].
    intros ->%elem_of_singleton. done.
  - apply moveAgent_inv; [|done]. apply Hdisj. left.
Qed.

Lemma mainLoop_inv s : exists M, loop_inv s M (Sim.mainLoop s).
Proof.
  unfold Sim.mainLoop.
  set (s1 := match Sim.currentDecisionMode s, Sim.sequentialMovementMode s with
             | Distributed, true => _
             | _, _ => s
             end).
  assert (quiet s s1) as Hq.
  { subst s1. destruct (Sim.currentDecisionMode s); [apply evolves_refl|].
    destruct (Sim.sequentialMovementMode s); [|apply evolves_refl].
    apply replanSequential_ev, evolves_refl. }
  clearbody s1.
  apply (moveAgents_inv s (Sim.prioritizedAgents s) ∅).
  - apply prioritizedAgents_NoDup.
  - set_solver.
  - by split.
Qed.

End MainLoop.

Section Tick.
Context {num : Type} {N : JSNum num} {E : Type} {R : Random E} {FR : Frame}.
Implicit Types s : Sim.t (E := E).

(** What one tick guarantees about the agents. *)
Record tick_ok s s' : Prop := {
  tk_settings : settings s' = settings s;
  tk_ids : id <$> Sim.agents s' = id <$> Sim.agents s;
  tk_near : wf s -> forall i a a', Sim.agents s !! i = Some a -> Sim.agents s' !! i = Some a' ->
            near frame (pos a) (pos a');
  tk_wf : wf s -> wf s'
}.

Lemma evolves_tick M k s s' : evolves M k s s' -> tick_ok s s'.
Proof. intros H. split; apply H. Qed.

Lemma wf_fields s s' :
  Sim.agents s' = Sim.agents s -> settings s' = settings s -> wf s -> wf s'.
Proof.
  intros Ha Hs. unfold wf, agents_ok. rewrite Ha.
  replace (Sim.currentTopology s') with (Sim.currentTopology s); [done|].
  unfold settings in Hs. congruence.
Qed.

Lemma tick_post s s1 s2 :
  tick_ok s s1 -> Sim.agents s2 = Sim.agents s1 -> settings s2 = settings s1 -> tick_ok s s2.
Proof.
  intros H Ha Hs. split.
  - rewrite Hs. apply H.
  - rewrite Ha. apply H.
  - rewrite Ha. apply H.
  - intros Hwf. eapply wf_fields; [done..|]. by apply H.
Qed.

Lemma tick_pre s s1 s2 :
  Sim.agents s1 = Sim.agents s -> settings s1 = settings s -> tick_ok s1 s2 -> tick_ok s s2.
Proof.
  intros Ha Hs H. split.
  - rewrite <- Hs. apply H.
  - rewrite <- Ha. apply H.
  - intros Hwf. rewrite <- Ha. apply H. by eapply wf_fields.
  - intros Hwf. apply H. by eapply wf_fields.
Qed.

Lemma quiet_tick s s1 s2 : quiet s s1 -> tick_ok s1 s2 -> tick_ok s s2.
Proof.
  intros Hq H. split.
  - rewrite (tk_settings _ _ H). apply Hq.
  - rewrite (tk_ids _ _ H). apply Hq.
  - intros Hwf i a a2 Ha Ha2.
    destruct (lookup_lt_is_Some_2 (Sim.agents s1) i) as [a1 Ha1].
    { rewrite (evolves_length _ _ _ _ Hq). by eapply lookup_lt_Some. }
    pose proof (ev_far _ _ _ _ Hq i ltac:(set_solver)) as Hf.
    rewrite Ha, Ha1 in Hf. apply (inj Some) in Hf. rewrite <- Hf.
    eapply (tk_near _ _ H); [by apply Hq|done..].
  - intros Hwf. by apply H, Hq.
Qed.

(** ** The failed-resolution counter *)

(** The counter reached 5: it is back at 0 and the simulation is paused. *)
Definition restarted s s' : Prop :=
  5 <= Sim.failedDeadlockResolutionAttempts s + 1 /\
  Sim.failedDeadlockResolutionAttempts s' = 0 /\
  Sim.isSimulationRunning s' = false /\ Sim.simulationInterval s' = false.

(** How a tick treats the counter: unchanged when a path move was
    counted; unchanged, one more, or reset with the restart scheduled; a
    restart with sequential mode forced appears only with the reset. *)
Definition counted s s' : Prop :=
  (Sim.totalMoves s' <> Sim.totalMoves s ->
   Sim.failedDeadlockResolutionAttempts s' = Sim.failedDeadlockResolutionAttempts s) /\
  (Sim.failedDeadlockResolutionAttempts s' = Sim.failedDeadlockResolutionAttempts s \/
   Sim.failedDeadlockResolutionAttempts s' = Sim.failedDeadlockResolutionAttempts s + 1 \/
   (restarted s s' /\ Restart true ∈ Sim.timeouts s')) /\
  (Restart true ∈ Sim.timeouts s' -> Restart true ∈ Sim.timeouts s \/ restarted s s').

Lemma evolves_failed M k s s' :
  evolves M k s s' ->
  Sim.failedDeadlockResolutionAttempts s' = Sim.failedDeadlockResolutionAttempts s.
Proof. intros H. pose proof (ev_kept _ _ _ _ H) as Hk. unfold kept in Hk. congruence. Qed.

Lemma evolves_sequential M k s s' :
  evolves M k s s' -> Sim.sequentialMovementMode s' = Sim.sequentialMovementMode s.
Proof. intros H. pose proof (ev_kept _ _ _ _ H) as Hk. unfold kept in Hk. congruence. Qed.

Lemma evolves_mode M k s s' :
  evolves M k s s' -> Sim.currentDecisionMode s' = Sim.currentDecisionMode s.
Proof. intros H. pose proof (ev_settings _ _ _ _ H) as Hk. unfold settings in Hk. congruence. Qed.

Lemma evolves_counted M k s s' : evolves M k s s' -> counted s s'.
Proof.
  intros H. pose proof (evolves_failed _ _ _ _ H) as Hf.
  split; [done|]. split; [by left|]. intros Hr. left. by apply H.
Qed.

Lemma quiet_counted s s1 s2 : quiet s s1 -> counted s1 s2 -> counted s s2.
Proof.
  intros Hq (H1 & H2 & H3).
  pose proof (evolves_failed _ _ _ _ Hq) as Hf.
  pose proof (ev_moves _ _ _ _ Hq) as Hm. rewrite Z.add_0_r in Hm.
  unfold counted, restarted in *. rewrite <- Hf, <- Hm.
  split; [done|]. split; [done|].
  intros Hr. destruct (H3 Hr) as [?|?]; [left; by apply Hq|by right].
Qed.

Lemma counted_paused s s1 : counted s s1 -> counted s (Sim.pauseSimulation s1).
Proof. intros (H1 & H2 & H3). unfold counted, restarted in *. simpl. tauto. Qed.

(** The distributed sequential mode, in which the counter only grows. *)
Definition distributedSequential s : bool :=
  match Sim.currentDecisionMode s, Sim.sequentialMovementMode s with
  | Distributed, true => true
  | _, _ => false
  end.

(** The value of the counter after a no-movement branch. *)
Definition next_failed s : Z :=
  let f := Sim.failedDeadlockResolutionAttempts s + 1 in
  if distributedSequential s then f else if 5 <=? f then 0 else f.

(** What the no-movement branch leaves when the counter reaches 5. *)
Definition restartScheduled s s' : Prop :=
  Sim.failedDeadlockResolutionAttempts s' = 0 /\
  Sim.isSimulationRunning s' = false /\ Sim.simulationInterval s' = false /\
  Sim.timeouts s' = Sim.timeouts s ++ [Restart true] /\
  Sim.agents s' = Sim.agents s /\ Sim.totalMoves s' = Sim.totalMoves s.

(** The outcome of a tick whose movement loop ended in [s] without a
    move, some agent being off its target. *)
Definition failedTick s s' : Prop :=
  Sim.failedDeadlockResolutionAttempts s' = next_failed s /\
  Sim.totalMoves s' = Sim.totalMoves s /\
  (distributedSequential s = false -> 5 <= Sim.failedDeadlockResolutionAttempts s + 1 ->
   restartScheduled s s') /\
  (distributedSequential s = true \/ Sim.failedDeadlockResolutionAttempts s + 1 < 5 ->
   Restart true ∈ Sim.timeouts s' -> Restart true ∈ Sim.timeouts s).

Lemma failedTick_paused s s' :
  failedTick s s' ->
  (distributedSequential s = false -> 5 <= Sim.failedDeadlockResolutionAttempts s + 1 ->
   Sim.pauseSimulation s' = s') ->
  failedTick s (Sim.pauseSimulation s').
Proof.
  intros (H1 & H2 & H3 & H4) Hp. split; [done|]. split; [done|]. split; [|done].
  intros Hd H5. rewrite (Hp Hd H5). auto.
Qed.

Lemma noMovement_cases n s :
  Sim.noMovement n s =
  let s1 :=
    Sim.with_failedDeadlockResolutionAttempts
      (Sim.failedDeadlockResolutionAttempts s + 1) s in
  if distributedSequential s then (Sim.widenAll s1, Ok tt)
  else if 5 <=? Sim.failedDeadlockResolutionAttempts s + 1
       then (Sim.with_timeouts
               (Sim.timeouts s ++ [Restart true])
               (Sim.with_failedDeadlockResolutionAttempts 0 (Sim.pauseSimulation s1)),
             Ok tt)
       else Sim.escalate n s1.
Proof.
  unfold Sim.noMovement, distributedSequential. cbn.
  destruct (Sim.currentDecisionMode s), (Sim.sequentialMovementMode s); reflexivity.
Qed.

Lemma noMovement_spec n s :
  tick_ok s (Sim.noMovement n s).1 /\ counted s (Sim.noMovement n s).1 /\
  failedTick s (Sim.noMovement n s).1 /\
  (distributedSequential s = false -> 5 <= Sim.failedDeadlockResolutionAttempts s + 1 ->
   (Sim.noMovement n s).2 = Ok tt).
Proof.
  rewrite noMovement_cases. cbv zeta.
  set (s1 := Sim.with_failedDeadlockResolutionAttempts _ s).
  assert (forall M s', evolves M 0 s1 s' ->
            (distributedSequential s = true \/
             Sim.failedDeadlockResolutionAttempts s + 1 < 5) ->
            tick_ok s s' /\ counted s s' /\ failedTick s s') as Hev.
  { intros M s' H Hcase. pose proof (evolves_failed _ _ _ _ H) as Hf.
    pose proof (ev_moves _ _ _ _ H) as Hm. rewrite Z.add_0_r in Hm.
    split; [|split].
    - eapply tick_pre; [| |by eapply evolves_tick]; done.
    - split; [done|]. split; [right; by left|].
      intros Hr. left. by apply (ev_restart _ _ _ _ H).
    - split; [|split; [done|split]].
      + rewrite Hf. unfold next_failed. simpl.
        destruct (distributedSequential s); [done|].
        destruct Hcase as [?|Hlt]; [done|].
        destruct (5 <=? _) eqn:H5; [apply Z.leb_le in H5; lia|done].
      + intros Hd H5. destruct Hcase as [?|?]; [congruence|lia].
      + intros _ Hr. by apply (ev_restart _ _ _ _ H). }
  destruct (distributedSequential s) eqn:Hd.
  { cbn [fst snd]. destruct (Hev ∅ (Sim.widenAll s1)) as (? & ? & ?);
      [apply widenAll_ev, evolves_refl|by left|]. done. }
  destruct (5 <=? _) eqn:H5.
  - apply Z.leb_le in H5. cbn [fst snd]. split; [|split; [|split; [|done]]].
    + eapply tick_post; [apply (evolves_tick ∅ 0), evolves_refl|done..].
    + unfold counted, restarted. cbn.
      split; [done|]. split.
      * right. right. split; [done|]. apply elem_of_app. right. left.
      * intros _. by right.
    + split; [|split; [done|split]].
      * unfold next_failed. rewrite Hd.
        destruct (5 <=? _) eqn:H5'; [done|apply Z.leb_gt in H5'; lia].
      * intros _ _. by repeat split.
      * intros [?|?]; [congruence|lia].
  - apply Z.leb_gt in H5. destruct (escalate_ev n s1) as [M H].
    destruct (Hev M _ H) as (? & ? & ?); [by right|].
    split; [done|]. split; [done|]. split; [done|]. lia.
Qed.

Lemma afterLoop_spec s pr :
  (exists M, loop_inv s M pr) ->
  tick_ok s (Sim.afterLoop pr).1 /\ counted s (Sim.afterLoop pr).1.
Proof.
  intros [M [Hev Hq]]. unfold Sim.afterLoop.
  destruct (_ =? _)%nat.
  { apply ev_pauseSimulation in Hev. split; [by eapply evolves_tick|by eapply evolves_counted]. }
  destruct (Sim.agentsMoved pr).
  { split; [by eapply evolves_tick|by eapply evolves_counted]. }
  destruct (Hq eq_refl) as [Hq0 _].
  destruct (noMovement_spec (length (Sim.indices Sim.stuck (Sim.agents (Sim.now pr))))
              (Sim.now pr)) as (Ht & Hc & _).
  split; [by eapply quiet_tick|by eapply quiet_counted].
Qed.

Lemma moveAll_spec s0 s :
  quiet s0 s -> tick_ok s0 (Sim.moveAll s).1 /\ counted s0 (Sim.moveAll s).1.
Proof.
  intros Hq. destruct (afterLoop_spec s (Sim.mainLoop s) (mainLoop_inv s)) as [Ht Hc].
  split; [by eapply quiet_tick|by eapply quiet_counted].
Qed.

(** The handler resolves: on the agents of the simulation while it holds
    their array, on its own array otherwise. *)
Lemma resolve_ev M k s0 s ids : evolves M k s0 s -> evolves M k s0 (Sim.resolve ids s).
Proof.
  intros H. unfold Sim.resolve.
  pose proof (resolveDeadlocks_ev M k s0 s (Sim.deadlockHandler s) (Sim.handlerGridOf s)
                ids H) as Hr.
  destruct (DeadlockHandler.resolveDeadlocks _ _ (Sim.handlerAgentsOf s) _)
    as [h ags] eqn:Hres.
  unfold Sim.with_handlerAgentsOf. cbn [Sim.handlerAgents Sim.with_deadlockHandler].
  destruct (Sim.handlerAgents s) as [own|] eqn:Hown.
  - by apply ev_with_handlerAgents, ev_with_deadlockHandler.
  - unfold Sim.handlerAgentsOf in Hres. rewrite Hown in Hres. cbn in Hres.
    rewrite Hres in Hr. exact Hr.
Qed.

Lemma beforeLoop_quiet s : quiet s (Sim.beforeLoop s).1.
Proof.
  unfold Sim.beforeLoop.
  set (s1 := Sim.with_deadlockHandler _ s).
  assert (quiet s s1) as H1 by apply ev_with_deadlockHandler, evolves_refl.
  clearbody s1. cbv zeta.
  destruct (Sim.indices Sim.notAtTarget (Sim.agents s1)); [by apply ev_pauseSimulation|].
  destruct (match Sim.sequentialMovementMode s1, _ with
            | true, _ :: _ => _
            | _, _ => Ok (DeadlockHandler.detectDeadlocks _ _)
            end) as [ids|]; [|done].
  destruct ids as [|d ids'] eqn:Hids.
  { cbn [fst]. by apply ev_with_repeatedDeadlockCount, ev_with_lastDeadlockSignature. }
  rewrite <- Hids in *. clear Hids.
  destruct (_ && _); [|by apply resolve_ev].
  case_bool_decide.
  - destruct (3 <=? _); cbn [fst].
    + apply ev_restart_false, ev_with_repeatedDeadlockCount,
        ev_with_lastDeadlockSignature, ev_pauseSimulation.
      by apply ev_with_repeatedDeadlockCount.
    + apply resolve_ev. by apply ev_with_repeatedDeadlockCount.
  - cbn [fst]. apply resolve_ev.
    by apply ev_with_repeatedDeadlockCount, ev_with_lastDeadlockSignature.
Qed.

Lemma tryStep_spec s : tick_ok s (Sim.tryStep s).1 /\ counted s (Sim.tryStep s).1.
Proof.
  pose proof (beforeLoop_quiet s) as Hq. unfold Sim.tryStep.
  destruct (Sim.beforeLoop s) as [s1 [[|]|]]; cbn [fst] in *.
  - by apply moveAll_spec.
  - split; [by eapply evolves_tick|by eapply evolves_counted].
  - split; [by eapply evolves_tick|by eapply evolves_counted].
Qed.

Lemma simulationStep_spec s :
  tick_ok s (Sim.simulationStep s) /\ counted s (Sim.simulationStep s).
Proof.
  destruct (tryStep_spec s) as [Ht Hc]. unfold Sim.simulationStep.
  destruct (Sim.tryStep s) as [s1 [[]|]]; cbn [fst] in *; [done|].
  split; [by eapply tick_post|by apply counted_paused].
Qed.

(** A tick that returns, or raises, before its movement loop. *)
Lemma early_tick s : (Sim.beforeLoop s).2 <> Ok true -> quiet s (Sim.simulationStep s).
Proof.
  intros Hearly. pose proof (beforeLoop_quiet s) as Hq.
  unfold Sim.simulationStep, Sim.tryStep.
  destruct (Sim.beforeLoop s) as [s1 [[|]|]]; cbn [fst snd] in *; [done|done|].
  by apply ev_pauseSimulation.
Qed.

(** A tick that reaches its movement loop, moves no agent in it and
    finds some agent off its target afterwards. *)
Lemma failed_tick s :
  (Sim.beforeLoop s).2 = Ok true ->
  Sim.agentsMoved (Sim.mainLoop (Sim.beforeLoop s).1) = false ->
  length (Sim.indices atTarget (Sim.agents (Sim.now (Sim.mainLoop (Sim.beforeLoop s).1))))
    <> length (Sim.agents (Sim.now (Sim.mainLoop (Sim.beforeLoop s).1))) ->
  failedTick (Sim.now (Sim.mainLoop (Sim.beforeLoop s).1)) (Sim.simulationStep s) /\
  quiet s (Sim.now (Sim.mainLoop (Sim.beforeLoop s).1)).
Proof.
  intros Hreach Hmoved Hoff.
  pose proof (beforeLoop_quiet s) as Hq.
  unfold Sim.simulationStep, Sim.tryStep.
  destruct (Sim.beforeLoop s) as [s1 r]. cbn [fst snd] in *. subst r.
  destruct (mainLoop_inv s1) as [M [_ Hinv]].
  destruct (Hinv Hmoved) as [Hq1 _].
  unfold Sim.moveAll, Sim.afterLoop. rewrite Hmoved.
  apply Nat.eqb_neq in Hoff. rewrite Hoff.
  split; [|by eapply evolves_quiet].
  set (n := length (Sim.indices Sim.stuck _)).
  destruct (noMovement_spec n (Sim.now (Sim.mainLoop s1))) as (_ & _ & Hf & Hok).
  destruct (Sim.noMovement n (Sim.now (Sim.mainLoop s1))) as [s2 [[]|]];
    cbn [fst snd] in *; [done|].
  apply failedTick_paused; [done|]. intros Hd H5. by specialize (Hok Hd H5).
Qed.

End Tick.

(** * Re-planning *)

(** What re-planning leaves alone. *)
Definition replanned (a a' : Agent) : Prop :=
  id a' = id a /\ pos a' = pos a /\ targetX a' = targetX a /\ targetY a' = targetY a /\
  visibilityRange a' = visibilityRange a.

Definition replans (F : list Agent -> list Agent) : Prop :=
  forall l0 l, Forall2 replanned l0 l -> Forall2 replanned l0 (F l).

Lemma replans_modify i f :
  (forall a, replanned a (f a)) -> replans (modify i f).
Proof.
  intros Hf l0 l H. unfold modify. apply Forall2_alter_r; [done|].
  intros a b _ _ (H1 & H2 & H3 & H4 & H5). destruct (Hf b) as (G1 & G2 & G3 & G4 & G5).
  repeat split; congruence.
Qed.

Lemma replans_foldl {A} (f : list Agent -> A -> list Agent) l :
  (forall a, replans (fun ags => f ags a)) -> replans (fun ags => foldl f ags l).
Proof.
  intros Hf. induction l as [|a l IH]; intros l0 ags H; simpl; [done|].
  apply IH. by apply Hf.
Qed.

(** * assignTargets *)

Section Assign.
Context {num : Type} {N : JSNum num} {E : Type} {R : Random E}.
Implicit Types s : Sim.t (E := E).

(** Planning for one agent changes paths and retreat flags only. *)
Definition plans s s' : Prop :=
  Sim.targetPositions s' = Sim.targetPositions s /\
  Forall2 replanned (Sim.agents s) (Sim.agents s').

Lemma replanned_refl (l : list Agent) : Forall2 replanned l l.
Proof.
  apply Forall2_same_length_lookup_2; [done|]. intros i a b Ha Hb.
  rewrite Ha in Hb. injection Hb as <-. by repeat split.
Qed.

Lemma plans_refl s : plans s s.
Proof. split; [done|apply replanned_refl]. Qed.

Lemma plans_modify s i f :
  (forall a, replanned a (f a)) -> plans s (Sim.with_agents (modify i f (Sim.agents s)) s).
Proof.
  intros Hf. split; [done|]. cbn [Sim.agents Sim.with_agents].
  apply (replans_modify i f Hf). apply replanned_refl.
Qed.

Lemma findTemporaryTarget_plans i s : plans s (Sim.findTemporaryTarget i s).1.
Proof.
  unfold Sim.findTemporaryTarget. destruct (Sim.agents s !! i); [|apply plans_refl].
  destruct (stable_sort _ _); [apply plans_refl|].
  destruct (Sim.longer_than_1 _); [|apply plans_refl].
  cbn [fst]. by apply plans_modify.
Qed.

Lemma findPathIgnoringAgents_plans i s : plans s (Sim.findPathIgnoringAgents i s).1.
Proof.
  unfold Sim.findPathIgnoringAgents. destruct (Sim.agents s !! i); [|apply plans_refl].
  destruct (Sim.findPathToTarget _ _ _ _ _) as [p|]; [|apply plans_refl].
  destruct (Sim.longer_than_1 _); cbn [fst].
  - by apply plans_modify.
  - apply findTemporaryTarget_plans.
Qed.

Lemma calculatePath_plans i s : plans s (Sim.calculatePath i s).
Proof.
  unfold Sim.calculatePath. destruct (Sim.agents s !! i); [|apply plans_refl].
  destruct (atTarget _); [by apply plans_modify|].
  destruct (Sim.findPathToTarget _ _ _ _ _) as [[|p0 [|p1 rest]]|].
  - apply findPathIgnoringAgents_plans.
  - apply findPathIgnoringAgents_plans.
  - by apply plans_modify.
  - apply plans_refl.
Qed.

(** The target of the agent in slot [i] is the goal number [j]. *)
Definition aims (targets : list Pos) (ags : list Agent) (i j : nat) : Prop :=
  exists a t, ags !! i = Some a /\ targets !! j = Some t /\
              targetX a = Some t.1 /\ targetY a = Some t.2.

Lemma aims_replanned targets l l' i j :
  Forall2 replanned l l' -> aims targets l i j -> aims targets l' i j.
Proof.
  intros H (a & t & Ha & Ht & Hx & Hy).
  destruct (Forall2_lookup_l _ _ _ _ _ H Ha) as (a' & Ha' & _ & _ & Hx' & Hy' & _).
  exists a', t. repeat split; congruence.
Qed.

(** One round of the loop over the assignments. *)
Definition assignOne s (assignment : nat * nat) : Sim.t (E := E) :=
  match Sim.agents s !! assignment.1, Sim.targetPositions s !! assignment.2 with
  | Some _, Some target =>
      Sim.calculatePath assignment.1
        (Sim.with_agents
           (modify assignment.1 (set_target (Some target.1) (Some target.2))
                   (Sim.agents s)) s)
  | _, _ => s
  end.

Lemma assignOne_spec s i j :
  is_Some (Sim.agents s !! i) -> is_Some (Sim.targetPositions s !! j) ->
  Sim.targetPositions (assignOne s (i, j)) = Sim.targetPositions s /\
  length (Sim.agents (assignOne s (i, j))) = length (Sim.agents s) /\
  aims (Sim.targetPositions s) (Sim.agents (assignOne s (i, j))) i j /\
  forall i' j', i' <> i -> aims (Sim.targetPositions s) (Sim.agents s) i' j' ->
                aims (Sim.targetPositions s) (Sim.agents (assignOne s (i, j))) i' j'.
Proof.
  intros [a Ha] [t Ht]. unfold assignOne. cbn [fst snd]. rewrite Ha, Ht.
  set (s1 := Sim.with_agents _ s).
  destruct (calculatePath_plans i s1) as [Htargets Hre].
  assert (length (Sim.agents s1) = length (Sim.agents s)) as Hlen
      by (subst s1; cbn; unfold modify; apply length_alter).
  split; [by rewrite Htargets|]. split.
  { rewrite <- Hlen. symmetry. by eapply Forall2_length. }
  split.
  - apply (aims_replanned _ _ _ _ _ Hre). exists (set_target (Some t.1) (Some t.2) a), t.
    split; [|done]. subst s1. cbn. unfold modify. by rewrite list_lookup_alter_eq, Ha.
  - intros i' j' Hne Haims. apply (aims_replanned _ _ _ _ _ Hre).
    destruct Haims as (a' & t' & Ha' & Hrest). exists a', t'. split; [|done].
    subst s1. cbn. unfold modify. by rewrite list_lookup_alter_ne.
Qed.

Lemma assignAll_spec (r : list (nat * nat)) : forall s,
  NoDup r.*1 ->
  (forall i j, (i, j) ∈ r -> (i < length (Sim.agents s))%nat /\
                             (j < length (Sim.targetPositions s))%nat) ->
  Sim.targetPositions (foldl assignOne s r) = Sim.targetPositions s /\
  length (Sim.agents (foldl assignOne s r)) = length (Sim.agents s) /\
  forall i j, (i, j) ∈ r -> aims (Sim.targetPositions s) (Sim.agents (foldl assignOne s r)) i j.
Proof.
  induction r as [|[i j] r IH] using rev_ind; intros s Hnd Hrange.
  { split; [done|]. split; [done|]. intros i j Hin. by apply elem_of_nil in Hin. }
  rewrite fmap_app in Hnd. apply NoDup_app in Hnd as (Hnd & Hdisj & _).
  destruct (IH s Hnd) as (Ht & Hlen & Haims).
  { intros i' j' Hin. apply Hrange, elem_of_app. by left. }
  rewrite foldl_app. cbn [foldl].
  destruct (Hrange i j) as [Hi Hj]; [apply elem_of_app; right; left|].
  destruct (assignOne_spec (foldl assignOne s r) i j) as (Ht' & Hlen' & Hnew & Hold).
  { apply lookup_lt_is_Some. by rewrite Hlen. }
  { apply lookup_lt_is_Some. by rewrite Ht. }
  split; [congruence|]. split; [congruence|].
  intros i' j' [Hin|Hin]%elem_of_app.
  - rewrite <- Ht. apply Hold; [|rewrite Ht; by apply Haims].
    intros ->. apply (Hdisj i).
    + apply list_elem_of_fmap. by exists (i, j').
    + left.
  - apply list_elem_of_singleton in Hin. injection Hin as -> ->. by rewrite <- Ht.
Qed.

(** With at least as many goals as agents every agent gets a target,
    taken from a position of the goal list of its own. *)
Lemma assignTargets_goals s :
  (length (Sim.agents s) <= length (Sim.targetPositions s))%nat ->
  Sim.targetPositions (Sim.assignTargets s) = Sim.targetPositions s /\
  exists js : list nat,
    NoDup js /\
    Forall2 (fun a j => exists t, Sim.targetPositions s !! j = Some t /\
                                  targetX a = Some t.1 /\ targetY a = Some t.2)
            (Sim.agents (Sim.assignTargets s)) js.
Proof.
  intros Hle. unfold Sim.assignTargets.
  rewrite (proj2 (Nat.ltb_ge _ _) Hle).
  set (r := HungarianAlgorithm.findOptimalAssignment _ _ _).
  destruct (HungarianFacts.findOptimalAssignment_spec (map pos (Sim.agents s))
              (Sim.targetPositions s) (Sim.grid s)) as (Hrows & Hcols & Hrange).
  { by rewrite length_map. }
  fold r in Hrows, Hcols, Hrange. rewrite length_map in Hrows.
  change (foldl _ s r) with (foldl assignOne s r).
  destruct (assignAll_spec r s) as (Ht & Hlen & Haims).
  { rewrite Hrows. apply NoDup_seq. }
  { intros i j Hin. split.
    - assert (i ∈ r.*1) as Hi by (apply list_elem_of_fmap; by exists (i, j)).
      rewrite Hrows in Hi. apply elem_of_seq in Hi. lia.
    - apply Hrange. apply list_elem_of_fmap. by exists (i, j). }
  split; [done|]. exists r.*2. split; [done|].
  assert (length r = length (Sim.agents s)) as Hr.
  { rewrite <- (length_fmap fst), Hrows. apply length_seq. }
  apply Forall2_same_length_lookup_2; [by rewrite length_fmap, Hlen, Hr|].
  intros i a j Ha Hj. rewrite list_lookup_fmap in Hj.
  destruct (r !! i) as [[i' j']|] eqn:Hri; [|done]. simpl in Hj. injection Hj as ->.
  assert (i' = i) as ->.
  { assert (r.*1 !! i = Some i') as Hi by (by rewrite list_lookup_fmap, Hri).
    rewrite Hrows in Hi. apply lookup_seq in Hi. lia. }
  destruct (Haims i j) as (a' & t & Ha' & Htj & Hx & Hy); [by eapply list_elem_of_lookup_2|].
  rewrite Ha in Ha'. injection Ha' as <-. by exists t.
Qed.

End Assign.

(** * Scenarios *)

(** Running the model: exact rationals, no randomness. *)
Definition start (s : Sim.t (E := unit)) : Sim.t (E := unit) :=
  default s (Sim.startSimulation (num := option Q) s).
Definition tick (s : Sim.t (E := unit)) : Sim.t (E := unit) :=
  Sim.simulationStep (num := option Q) s.
Definition ticks (n : nat) (s : Sim.t (E := unit)) : Sim.t (E := unit) := Nat.iter n tick s.

(** Two agents on an empty 5x5 grid, two goals. *)
Definition two_agents : Sim.t (E := unit) :=
  initial 5 [] [mkAgent 0 (0, 0) None []; mkAgent 1 (1, 0) None []] [(4, 4); (3, 4)].

(** Three agents, two goals. *)
Definition too_few_goals : Sim.t (E := unit) :=
  initial 5 []
    [mkAgent 0 (0, 0) None []; mkAgent 1 (1, 0) None []; mkAgent 2 (2, 0) None []]
    [(4, 4); (3, 4)].

(** Agent 0 is walled in at (0,0); agent 1 starts on a goal. *)
Definition walled : Sim.t (E := unit) :=
  initial 5 [(1, 0); (0, 1)] [mkAgent 0 (0, 0) None []; mkAgent 1 (4, 4) None []]
    [(2, 0); (4, 4)].

(** One agent under Moore, its goal diagonally next to it. *)
Definition diagonal : Sim.t (E := unit) :=
  Editor.changeTopology Moore (initial 5 [] [mkAgent 0 (0, 0) None []] [(1, 1)]).

(** The topology box is set back to Von Neumann after the start. *)
Definition switched : Sim.t (E := unit) := Editor.changeTopology VonNeumann (start diagonal).

(** Three agents and two goals, planning with Minimax, one move per tick. *)
Definition sequential_minimax : Sim.t (E := unit) :=
  Editor.changeMovementMode true (Editor.changeAlgorithm MinimaxAlg too_few_goals).

(** An agent on its goal in a corner, walls on both sides. *)
Definition cornered : Sim.t (E := unit) :=
  initial 5 [(1, 0); (0, 1)] [mkAgent 0 (0, 0) (Some (0, 0)) [(0, 0)]] [(0, 0)].

Section Start.
Context {num : Type} {N : JSNum num} {E : Type} {R : Random E} {FR : Frame}.
Implicit Types s : Sim.t (E := E).

Lemma assignTargets_ev M k s0 s : evolves M k s0 s -> evolves M k s0 (Sim.assignTargets s).
Proof.
  intros H. unfold Sim.assignTargets. destruct (_ <? _)%nat; [done|].
  apply foldl_invariant; [done|]. intros s1 [i j] H1. cbn [fst snd].
  destruct (Sim.agents s1 !! i) as [a|] eqn:Ha; [|done].
  destruct (Sim.targetPositions s1 !! j) as [t|]; [|done].
  apply calculatePath_ev. ev.
Qed.

Lemma startSimulation_tick s s' : Sim.startSimulation s = Some s' -> tick_ok s s'.
Proof.
  unfold Sim.startSimulation. destruct (Sim.isSimulationRunning s); [done|].
  case_bool_decide; [done|]. case_bool_decide; [done|]. intros [= <-].
  set (s1 := Sim.with_isSimulationRunning true _).
  apply (tick_post s (Sim.assignTargets s1)); [|reflexivity|reflexivity].
  eapply (tick_pre s s1).
  - subst s1. by destruct (Sim.sequentialMovementMode _).
  - subst s1. by destruct (Sim.sequentialMovementMode _).
  - eapply evolves_tick. apply assignTargets_ev, evolves_refl.
Qed.

End Start.

Section StartFacts.
Context {num : Type} {N : JSNum num} {E : Type} {R : Random E}.
Implicit Types s : Sim.t (E := E).

(** What [startSimulation] tests and does. *)
Lemma startSimulation_spec s :
  match Sim.startSimulation s with
  | None =>
      Sim.isSimulationRunning s = true \/ Sim.agents s = [] \/ Sim.targetPositions s = []
  | Some s' =>
      Sim.isSimulationRunning s = false /\ Sim.agents s <> [] /\ Sim.targetPositions s <> [] /\
      Sim.isSimulationRunning s' = true /\ Sim.simulationInterval s' = true /\
      Sim.failedDeadlockResolutionAttempts s' = 0 /\
      id <$> Sim.agents s' = id <$> Sim.agents s /\
      pos <$> Sim.agents s' = pos <$> Sim.agents s /\
      Sim.targetPositions s' = Sim.targetPositions s /\
      ((length (Sim.agents s) <= length (Sim.targetPositions s))%nat ->
       exists js : list nat,
         NoDup js /\
         Forall2 (fun a j => exists t, Sim.targetPositions s !! j = Some t /\
                                       targetX a = Some t.1 /\ targetY a = Some t.2)
                 (Sim.agents s') js) /\
      ((length (Sim.targetPositions s) < length (Sim.agents s))%nat ->
       Sim.agents s' = Sim.agents s /\ Sim.grid s' = Sim.grid s)
  end.
Proof.
  unfold Sim.startSimulation. destruct (Sim.isSimulationRunning s) eqn:Hrun; [by left|].
  case_bool_decide as Ha; [by (right; left)|]. case_bool_decide as Ht; [by (right; right)|].
  set (s1 := Sim.with_isSimulationRunning true _).
  assert (Sim.agents s1 = Sim.agents s /\ Sim.grid s1 = Sim.grid s /\
          Sim.targetPositions s1 = Sim.targetPositions s /\
          Sim.isSimulationRunning s1 = true /\
          Sim.failedDeadlockResolutionAttempts s1 = 0) as (Hags & Hgrid & Htg & Hr1 & Hf1)
      by (subst s1; by destruct (Sim.sequentialMovementMode _)).
  clearbody s1.
  pose proof (assignTargets_ev (FR := Moore) ∅ 0 s1 s1 (evolves_refl s1)) as Hev.
  assert (Sim.isSimulationRunning (Sim.assignTargets s1) = true) as Hr2.
  { clear Hev. unfold Sim.assignTargets. destruct (_ <? _)%nat; [done|].
    apply (foldl_invariant (fun s => Sim.isSimulationRunning s = true)); [done|].
    intros s2 [i j] H2. cbn [fst snd].
    destruct (Sim.agents s2 !! i); [|done]. destruct (Sim.targetPositions s2 !! j); [|done].
    set (s3 := Sim.with_agents _ s2).
    assert (Sim.isSimulationRunning s3 = true) as H3 by done. clearbody s3.
    unfold Sim.calculatePath, Sim.findPathIgnoringAgents, Sim.findTemporaryTarget.
    repeat case_match; done. }
  assert (Sim.targetPositions (Sim.assignTargets s1) = Sim.targetPositions s) as Htg2.
  { pose proof (ev_settings _ _ _ _ Hev) as Hs. unfold settings in Hs. congruence. }
  repeat split; try done.
  - simpl. rewrite (evolves_failed _ _ _ _ Hev). done.
  - simpl. rewrite (ev_ids _ _ _ _ Hev). by rewrite Hags.
  - simpl. rewrite <- Hags. apply list_eq. intros i. rewrite !list_lookup_fmap.
    apply (ev_far _ _ _ _ Hev). set_solver.
  - intros Hle. simpl. rewrite <- Htg. apply assignTargets_goals. by rewrite Hags, Htg.
  - simpl. unfold Sim.assignTargets. rewrite Hags, Htg.
    apply Nat.ltb_lt in H. by rewrite H.
  - simpl. unfold Sim.assignTargets. rewrite Hags, Htg.
    apply Nat.ltb_lt in H. by rewrite H.
Qed.

Lemma startSimulation_sequential s s' :
  Sim.startSimulation s = Some s' ->
  Sim.sequentialMovementMode s' = Sim.sequentialMovementMode s.
Proof.
  unfold Sim.startSimulation. destruct (Sim.isSimulationRunning s); [done|].
  case_bool_decide; [done|]. case_bool_decide; [done|]. intros [= <-].
  set (s1 := Sim.with_isSimulationRunning true _).
  assert (Sim.sequentialMovementMode s1 = Sim.sequentialMovementMode s) as Hs1
      by (subst s1; cbn; by destruct (Sim.sequentialMovementMode s) eqn:Hs).
  clearbody s1. cbn.
  rewrite (evolves_sequential (FR := Moore) _ _ _ _
             (assignTargets_ev (FR := Moore) ∅ 0 s1 s1 (evolves_refl s1))).
  exact Hs1.
Qed.

(** The callback of the restart forces sequential mode and starts the
    simulation again. *)
Lemma fire_restart s :
  Sim.sequentialMovementMode (Sim.fire (Restart true) s) = true /\
  (Sim.isSimulationRunning s = false -> Sim.agents s <> [] -> Sim.targetPositions s <> [] ->
   Sim.isSimulationRunning (Sim.fire (Restart true) s) = true /\
   Sim.simulationInterval (Sim.fire (Restart true) s) = true /\
   Sim.failedDeadlockResolutionAttempts (Sim.fire (Restart true) s) = 0).
Proof.
  cbn [Sim.fire].
  set (s1 := Sim.with_sequentialMovesRemaining _ (Sim.with_sequentialMovementMode true s)).
  pose proof (startSimulation_spec s1) as Hspec.
  pose proof (startSimulation_sequential s1) as Hseq.
  destruct (Sim.startSimulation s1) as [s'|]; unfold default, from_option, Datatypes.id.
  - split; [by rewrite (Hseq s' eq_refl)|]. intros _ _ _.
    destruct Hspec as (_ & _ & _ & ? & ? & ? & _). done.
  - split; [done|]. intros Hrun Hags Htg. exfalso.
    destruct Hspec as [?|[?|?]]; subst s1; simpl in *; congruence.
Qed.

End StartFacts.

Lemma covers_VonNeumann F : covers VonNeumann F.
Proof. destruct F; [by left|by right]. Qed.

Lemma wf_two_agents {FR : Frame} : wf two_agents.
Proof.
  split; [apply covers_VonNeumann|]. split; [|split].
  - apply (bool_decide_unpack _). by vm_compute.
  - apply (bool_decide_unpack _). by vm_compute.
  - unfold agents_ok. cbn.
    repeat first [apply Forall_cons_2|apply Forall_nil_2];
      (split; [intros Hl; discriminate Hl|exact I]).
Qed.

Lemma wf_started {FR : Frame} : wf (start two_agents).
Proof.
  destruct (Sim.startSimulation (num := option Q) two_agents) as [s'|] eqn:Hs.
  - unfold start. rewrite Hs. simpl.
    apply (tk_wf _ _ (startSimulation_tick (num := option Q) _ _ Hs)), wf_two_agents.
  - unfold start. rewrite Hs. apply wf_two_agents.
Qed.

(** The fourth tick of [sequential_minimax] asks Minimax for a path to a
    [null] target: the exception ends the tick, no agent has moved, and the
    [catch] block pauses the simulation. *)
Lemma null_target_ends_the_tick :
  (Sim.tryStep (num := option Q) (ticks 3 (start sequential_minimax))).2 = TypeError /\
  Sim.isSimulationRunning (ticks 3 (start sequential_minimax)) = true /\
  Sim.isSimulationRunning (ticks 4 (start sequential_minimax)) = false /\
  Sim.totalMoves (ticks 4 (start sequential_minimax)) = 0 /\
  pos <$> Sim.agents (ticks 4 (start sequential_minimax)) = [(0, 0); (1, 0); (2, 0)].
Proof. repeat split; by vm_compute. Qed.

(** * The draft of the forced move *)

Lemma relocate_NoDup (ags : list Agent) i a (f : Agent -> Agent) :
  ags !! i = Some a -> NoDup (pos <$> ags) ->
  (forall j b, j <> i -> ags !! j = Some b -> pos b <> pos (f a)) ->
  NoDup (pos <$> alter f i ags).
Proof.
  intros Ha Hpos Hfree. rewrite NoDup_fmap_lookup in Hpos. apply NoDup_fmap_lookup.
  intros j1 j2 b1 b2 H1 H2 Heq.
  destruct (decide (i = j1)) as [<-|Hne1]; destruct (decide (i = j2)) as [<-|Hne2]; try done.
  - rewrite list_lookup_alter_eq, Ha in H1. simpl in H1. injection H1 as <-.
    rewrite list_lookup_alter_ne in H2 by done.
    exfalso. eapply (Hfree j2 b2); eauto.
  - rewrite list_lookup_alter_eq, Ha in H2. simpl in H2. injection H2 as <-.
    rewrite list_lookup_alter_ne in H1 by done.
    exfalso. eapply (Hfree j1 b1); eauto.
  - rewrite list_lookup_alter_ne in H1, H2 by done. eauto.
Qed.

Section DraftFacts.
Context {E : Type}.
Implicit Types s : Sim.t (E := E).

(** What the draft does when it moves the agent: the cell is free, at
    most 3 columns and 3 rows away, and only that agent is written. *)
Lemma draft_forced_spec i s s' :
  Draft.moveAgentTemporarilyForced i s = (s', true) ->
  exists a n (f : Agent -> Agent),
    Sim.agents s !! i = Some a /\ Sim.freeFor s a n = true /\
    chebyshev (pos a) n <= 3 /\ n <> pos a /\
    Sim.agents s' = alter f i (Sim.agents s) /\ id (f a) = id a /\ pos (f a) = n.
Proof.
  unfold Draft.moveAgentTemporarilyForced.
  destruct (Sim.agents s !! i) as [agent|] eqn:Ha; [|done].
  destruct (negb (atTarget agent)); [done|].
  destruct (stable_sort _ _) as [|tempPos rest] eqn:Hs; [done|].
  intros [= <-].
  assert (tempPos ∈ tempPos :: rest) as Hin by left.
  rewrite <- Hs, elem_of_stable_sort in Hin.
  unfold Draft.availablePositions in Hin.
  apply list_elem_of_omap in Hin as ([dx dy] & Hd & Hn).
  case_bool_decide as Hzero; [done|].
  destruct (Sim.freeFor s agent _) eqn:Hfree; [|done]. injection Hn as <-.
  apply list_elem_of_bind in Hd as (dy' & Hd & Hdy).
  apply list_elem_of_bind in Hd as (dx' & Hd & Hdx).
  apply list_elem_of_singleton in Hd. injection Hd as <- <-.
  apply elem_of_seqZ in Hdx, Hdy.
  exists agent, (pos_add (pos agent) (dx, dy)),
    (fun a => set_path [pos_add (pos agent) (dx, dy); pos agent]
                (set_pos (pos_add (pos agent) (dx, dy))
                   (set_return (pos agent) (targetCooldown agent) a))).
  split; [done|]. split; [done|]. split; [|split; [|split; [|split]]].
  - unfold chebyshev, pos_add. destruct agent. cbn. lia.
  - unfold pos_add. destruct agent. cbn. intros [= H1 H2].
    apply Hzero. f_equal; lia.
  - cbn. unfold modify. by rewrite !list_alter_alter_eq.
  - done.
  - cbn [pos set_path set_pos x y fst snd]. by destruct (pos_add _ _).
Qed.

Lemma draft_forced_failed i s s' :
  Draft.moveAgentTemporarilyForced i s = (s', false) -> s' = s.
Proof.
  unfold Draft.moveAgentTemporarilyForced.
  destruct (Sim.agents s !! i) as [agent|]; [|by intros [= <-]].
  destruct (negb (atTarget agent)); [by intros [= <-]|].
  destruct (stable_sort _ _); [by intros [= <-]|done].
Qed.

Lemma draft_forced_distinct i s :
  NoDup (id <$> Sim.agents s) -> NoDup (pos <$> Sim.agents s) ->
  NoDup (pos <$> Sim.agents (Draft.moveAgentTemporarilyForced i s).1).
Proof.
  intros Hids Hpos.
  destruct (Draft.moveAgentTemporarilyForced i s) as [s' [|]] eqn:Hm; cbn [fst].
  - apply draft_forced_spec in Hm as (a & n & f & Ha & Hfree & _ & _ & -> & _ & Hn).
    apply (relocate_NoDup _ i a); [done..|]. rewrite Hn.
    eapply occupiedByOther_false; [done..|].
    unfold Sim.freeFor in Hfree. apply andb_true_iff in Hfree as [_ Hocc].
    by apply negb_true_iff in Hocc.
  - by apply draft_forced_failed in Hm as ->.
Qed.

Lemma draft_forced_within i s :
  Forall2 (fun a a' => id a' = id a /\ chebyshev (pos a) (pos a') <= 3)
          (Sim.agents s) (Sim.agents (Draft.moveAgentTemporarilyForced i s).1).
Proof.
  assert (forall a : Agent, chebyshev (pos a) (pos a) <= 3) as Hsame.
  { intros a. unfold chebyshev. lia. }
  destruct (Draft.moveAgentTemporarilyForced i s) as [s' [|]] eqn:Hm; cbn [fst].
  - apply draft_forced_spec in Hm as (a & n & f & Ha & _ & Hnear & _ & -> & Hid & Hn).
    apply Forall2_same_length_lookup_2; [by rewrite length_alter|].
    intros j b b' Hb Hb'. destruct (decide (i = j)) as [<-|Hne].
    + rewrite list_lookup_alter_eq, Ha in Hb'. simpl in Hb'. injection Hb' as <-.
      assert (b = a) as -> by congruence. by rewrite Hn.
    + rewrite list_lookup_alter_ne in Hb' by done.
      assert (b' = b) as -> by congruence. auto.
  - apply draft_forced_failed in Hm as ->.
    apply Forall2_same_length_lookup_2; [done|].
    intros j b b' Hb Hb'. assert (b' = b) as -> by congruence. auto.
Qed.

End DraftFacts.

(** * The controls and the invariant *)

Section Controls.
Context {num : Type} {N : JSNum num} {E : Type} {R : Random E}.
Implicit Types s : Sim.t (E := E).

(** Read in the Moore frame, the invariant survives every change of a
    select box. *)
Lemma changeTopology_wf s value :
  wf (FR := Moore) s -> wf (FR := Moore) (Editor.changeTopology value s).
Proof. intros (_ & ? & ? & ?). split; [apply covers_Moore|done]. Qed.

Lemma changeAlgorithm_wf {FR : Frame} s value : wf s -> wf (Editor.changeAlgorithm value s).
Proof. done. Qed.

Lemma changeDecisionMode_wf {FR : Frame} s mode : wf s -> wf (Editor.changeDecisionMode mode s).
Proof. done. Qed.

Lemma changeMovementMode_wf {FR : Frame} s sequential :
  wf s -> wf (Editor.changeMovementMode sequential s).
Proof. unfold Editor.changeMovementMode. cbn. by destruct sequential. Qed.

End Controls.

(** * The claims *)

(** C1.  Take a state in which ids and positions are pairwise distinct,
    every stored path of more than one cell starts at its agent and
    proceeds by single steps of the frame, and every agent sees at least
    two cells far; the frame is the active topology or Moore, which admits
    the paths planned before a change of topology.  Then no two agents
    share a cell after [simulationStep] returns, whether it ends normally
    or in its [catch] block, the state it leaves satisfies the same
    conditions, and the draft [moveAgentTemporarilyForced] keeps the
    positions distinct as well. *)
Theorem no_overlap_after_step {num : Type} {N : JSNum num} {E : Type} {R : Random E}
    {FR : Frame} (s : Sim.t (E := E)) :
  wf s ->
  NoDup (pos <$> Sim.agents (Sim.simulationStep s)) /\ wf (Sim.simulationStep s) /\
  forall i, NoDup (pos <$> Sim.agents (Draft.moveAgentTemporarilyForced i s).1).
Proof.
  intros Hwf. destruct (simulationStep_spec s) as [Ht _].
  pose proof (tk_wf _ _ Ht Hwf) as Hwf'. split; [apply Hwf'|]. split; [exact Hwf'|].
  intros i. apply draft_forced_distinct; apply Hwf.
Qed.

Lemma no_overlap_after_step_witness :
  wf (FR := Moore) (start two_agents) /\
  NoDup (pos <$> Sim.agents (tick (start two_agents))).
Proof.
  split; [exact wf_started|].
  exact (proj1 (no_overlap_after_step (N := QNum) (R := NoRandom) (FR := Moore)
                  (start two_agents) wf_started)).
Defined.

Lemma not_near_diagonal : ~ near VonNeumann (0, 0) (1, 1).
Proof.
  intros [H|(d & Hd & H)]; [done|].
  simpl in Hd. set_unfold. destruct d as [dx dy]. unfold pos_add in H. simpl in H.
  naive_solver.
Qed.

(** C7 as stated fails.  The agent of [diagonal] plans under Moore; the
    topology is set to Von Neumann while the simulation runs, and the next
    tick follows the stored path by a diagonal step, which is no step of
    the active topology.  The draft [moveAgentTemporarilyForced] takes the
    agent of [cornered] two cells along its row, across a wall. *)
Lemma topology_switch_steps_diagonally :
  Sim.isSimulationRunning switched = true /\
  Sim.currentTopology switched = VonNeumann /\
  pos <$> Sim.agents switched = [(0, 0)] /\
  pos <$> Sim.agents (tick switched) = [(1, 1)] /\
  ~ near VonNeumann (0, 0) (1, 1) /\
  pos <$> Sim.agents cornered = [(0, 0)] /\
  pos <$> Sim.agents (Draft.moveAgentTemporarilyForced 0 cornered).1 = [(2, 0)].
Proof.
  split; [by vm_compute|]. split; [by vm_compute|]. split; [by vm_compute|].
  split; [by vm_compute|]. split; [exact not_near_diagonal|].
  split; by vm_compute.
Qed.

(** C7, amended.  Under the conditions of C1, [simulationStep] keeps every
    agent in its slot with its id, and leaves it where it was or one step
    of the frame away: one step of the active topology when the stored
    paths follow it, one step of Moore in any case.  One call of the draft
    [moveAgentTemporarilyForced] takes an agent at most 3 columns and 3 rows
    away. *)
Theorem one_step_per_tick {num : Type} {N : JSNum num} {E : Type} {R : Random E}
    {FR : Frame} (s : Sim.t (E := E)) :
  wf s ->
  Forall2 (fun a a' => id a' = id a /\ (pos a' = pos a \/ adjacent frame (pos a) (pos a')))
          (Sim.agents s) (Sim.agents (Sim.simulationStep s)) /\
  forall i,
    Forall2 (fun a a' => id a' = id a /\ chebyshev (pos a) (pos a') <= 3)
            (Sim.agents s) (Sim.agents (Draft.moveAgentTemporarilyForced i s).1).
Proof.
  intros Hwf. split; [|intros i; apply draft_forced_within].
  destruct (simulationStep_spec s) as [Ht _].
  pose proof (tk_ids _ _ Ht) as Hids.
  apply Forall2_same_length_lookup_2.
  - rewrite <- (length_fmap id (Sim.agents s)), <- Hids. by rewrite length_fmap.
  - intros i a a' Ha Ha'. split.
    + assert ((id <$> Sim.agents (Sim.simulationStep s)) !! i = (id <$> Sim.agents s) !! i)
        as Hi by (by rewrite Hids).
      rewrite !list_lookup_fmap, Ha, Ha' in Hi. by injection Hi.
    + destruct (tk_near _ _ Ht Hwf i a a' Ha Ha') as [->|?]; auto.
Qed.

Lemma one_step_per_tick_witness :
  wf (FR := VonNeumann) (start two_agents) /\
  Forall2 (fun a a' => id a' = id a /\
                       (pos a' = pos a \/ adjacent VonNeumann (pos a) (pos a')))
          (Sim.agents (start two_agents)) (Sim.agents (tick (start two_agents))).
Proof.
  split; [exact wf_started|].
  exact (proj1 (one_step_per_tick (N := QNum) (R := NoRandom) (FR := VonNeumann)
                  (start two_agents) wf_started)).
Defined.

(** C2 as stated fails: with three agents and two goals [startSimulation]
    starts the simulation, leaves every target [null], and the first tick
    runs. *)
Lemma start_with_too_few_goals :
  (length (Sim.targetPositions too_few_goals) < length (Sim.agents too_few_goals))%nat /\
  Sim.isSimulationRunning <$> Sim.startSimulation (num := option Q) too_few_goals = Some true /\
  Sim.simulationInterval <$> Sim.startSimulation (num := option Q) too_few_goals = Some true /\
  targetX <$> Sim.agents (start too_few_goals) = [None; None; None] /\
  Sim.failedDeadlockResolutionAttempts (start too_few_goals) = 0 /\
  Sim.failedDeadlockResolutionAttempts (tick (start too_few_goals)) = 1.
Proof. vm_compute. repeat split; first [reflexivity|lia]. Qed.

(** C2, amended.  [startSimulation] does nothing exactly when the
    simulation is running already or there is no agent or no goal.
    Otherwise it resets the failure counter, marks the simulation running,
    runs [assignTargets] and installs the tick timer, whatever the number
    of goals; the agents keep their ids and positions and the goals stay.
    With at least as many goals as agents, every agent then has a target:
    a goal of the list, taken from a position of the list that no other
    agent's target is taken from.  With fewer goals than agents the agents
    and the grid are left untouched. *)
Theorem start_never_rejects {num : Type} {N : JSNum num} {E : Type} {R : Random E} (s : Sim.t (E := E)) :
  match Sim.startSimulation s with
  | None =>
      Sim.isSimulationRunning s = true \/ Sim.agents s = [] \/ Sim.targetPositions s = []
  | Some s' =>
      Sim.isSimulationRunning s = false /\ Sim.agents s <> [] /\ Sim.targetPositions s <> [] /\
      Sim.isSimulationRunning s' = true /\ Sim.simulationInterval s' = true /\
      Sim.failedDeadlockResolutionAttempts s' = 0 /\
      id <$> Sim.agents s' = id <$> Sim.agents s /\
      pos <$> Sim.agents s' = pos <$> Sim.agents s /\
      Sim.targetPositions s' = Sim.targetPositions s /\
      ((length (Sim.agents s) <= length (Sim.targetPositions s))%nat ->
       exists js : list nat,
         NoDup js /\
         Forall2 (fun a j => exists t, Sim.targetPositions s !! j = Some t /\
                                       targetX a = Some t.1 /\ targetY a = Some t.2)
                 (Sim.agents s') js) /\
      ((length (Sim.targetPositions s) < length (Sim.agents s))%nat ->
       Sim.agents s' = Sim.agents s /\ Sim.grid s' = Sim.grid s)
  end.
Proof. apply startSimulation_spec. Qed.


(** A wall in the middle of a 3x3 grid. *)
Definition ring : Grid := [ [0; 0; 0]; [0; 1; 0]; [0; 0; 0] ].

Lemma adjacent_diff topo (p q : Pos) :
  (q.1 - p.1, q.2 - p.2) ∈ getDirections topo -> adjacent topo p q.
Proof.
  intros Hd. eexists. split; [exact Hd|].
  destruct p, q. unfold pos_add. simpl. f_equal; lia.
Qed.

Lemma ring_detour :
  route_between ring Moore (0, 0) (2, 2) [(0, 0); (1, 0); (2, 0); (2, 1); (2, 2)].
Proof.
  split; [|done].
  repeat (apply route_cons;
            [apply adjacent_diff, (bool_decide_unpack _); by vm_compute
            |split; by vm_compute|]).
  apply route_one.
Qed.


(** C4 as stated fails: with the start walled in, Minimax and Expectimax
    return the start alone although the goal is elsewhere. *)
Definition pocket : Grid := [ [0; 1; 0]; [1; 0; 0]; [0; 0; 0] ].

Lemma walled_in_start_alone :
  Minimax.findPath (Minimax.new pocket VonNeumann) (0, 0) (2, 2) = [(0, 0)] /\
  Expectimax.findPath (N := QNum) (Expectimax.new pocket VonNeumann) (0, 0) (2, 2) = [(0, 0)] /\
  (0, 0) <> ((2, 2) : Pos).
Proof. split; [|split]; [by vm_compute..|done]. Qed.

(** C4, amended.  A one-element result of A* or BFS means that start and
    goal coincide.  For Minimax and Expectimax with the start in another
    column than the goal, a one-element result is the start, returned
    because the move decision found no move. *)
Theorem one_element_result {num : Type} {N : JSNum num} (g : Grid) (topo : Topology) (start goal p : Pos) :
  (AStar.findPath (AStar.new g topo) start goal = [p] -> start = goal) /\
  (BFS.findPath (BFS.new g topo) start goal = [p] -> start = goal) /\
  (start.1 <> goal.1 -> Minimax.findPath (Minimax.new g topo) start goal = [p] ->
   p = start /\
   (Minimax.minimaxDecision (Minimax.new g topo) goal start 5
      {| Minimax.visited := ∅; Minimax.cameFrom := ∅ |}).1 = None) /\
  (start.1 <> goal.1 -> Expectimax.findPath (Expectimax.new g topo) start goal = [p] ->
   p = start /\
   (Expectimax.expectimaxDecision (Expectimax.new g topo) goal start 4
      {| Minimax.visited := ∅; Minimax.cameFrom := ∅ |}).1 = None).
Proof.
  split; [|split; [|split]].
  - intros Hp. destruct (findPath_route g topo start goal) as [Hnil|(_ & Hh & Hl)];
      rewrite Hp in *; [done|]. simpl in *. congruence.
  - intros Hp. destruct (bfs_findPath_route g topo start goal) as [Hnil|(_ & Hh & Hl)];
      rewrite Hp in *; [done|]. simpl in *. congruence.
  - apply minimax_single.
  - apply expectimax_single.
Qed.

(** ** Grid cells under [grid_set] *)

Lemma cell_grid_set_eq g p v :
  is_Some (cell g p.1 p.2) -> cell (grid_set g p v) p.1 p.2 = Some v.
Proof.
  unfold cell, grid_set, Grid in *. destruct p as [px py]. cbn [fst snd].
  destruct ((0 <=? px) && (0 <=? py)) eqn:Hb; [|by intros [? ?]].
  intros [c Hc]. rewrite list_lookup_alter_eq.
  destruct (g !! Z.to_nat py) as [row|]; [|done]. cbn in *.
  apply list_lookup_insert_eq. by eapply lookup_lt_Some.
Qed.

Lemma cell_grid_set_ne g p v (q : Pos) :
  p <> q -> cell (grid_set g p v) q.1 q.2 = cell g q.1 q.2.
Proof.
  unfold cell, grid_set, Grid in *. destruct p as [px py], q as [qx qy]. cbn [fst snd]. intros Hne.
  destruct ((0 <=? px) && (0 <=? py)) eqn:Hp; [|done].
  destruct ((0 <=? qx) && (0 <=? qy)) eqn:Hq; [|done].
  apply andb_true_iff in Hp as [?%Z.leb_le ?%Z.leb_le].
  apply andb_true_iff in Hq as [?%Z.leb_le ?%Z.leb_le].
  destruct (decide (Z.to_nat py = Z.to_nat qy)) as [Hy|Hy].
  - rewrite Hy, list_lookup_alter_eq. destruct (g !! Z.to_nat qy) as [row|]; [|done].
    cbn. apply list_lookup_insert_ne. intros Hx. apply Hne. f_equal; lia.
  - by rewrite list_lookup_alter_ne.
Qed.

Lemma cell_grid_set_is_Some g p v (q : Pos) :
  is_Some (cell (grid_set g p v) q.1 q.2) <-> is_Some (cell g q.1 q.2).
Proof.
  destruct (decide (p = q)) as [->|Hne].
  - split; intros Hs.
    + unfold cell, grid_set, Grid in *. destruct q as [qx qy]. cbn [fst snd] in *.
      destruct ((0 <=? qx) && (0 <=? qy)); [|done].
      rewrite list_lookup_alter_eq in Hs.
      destruct (g !! Z.to_nat qy) as [row|]; [|by destruct Hs]. cbn in *.
      apply lookup_lt_is_Some. apply lookup_lt_is_Some in Hs.
      by rewrite length_insert in Hs.
    + rewrite cell_grid_set_eq; [by eexists|done].
  - by rewrite cell_grid_set_ne.
Qed.

(** Once a wall, a cell stays one while [createModifiedGrid] runs. *)
Lemma createModifiedGrid_keeps agents : forall g (q : Pos),
  (is_Some (cell g q.1 q.2) ->
   is_Some (cell (DeadlockHandler.createModifiedGrid g agents) q.1 q.2)) /\
  (cell g q.1 q.2 = Some CELL_WALL ->
   cell (DeadlockHandler.createModifiedGrid g agents) q.1 q.2 = Some CELL_WALL).
Proof.
  unfold DeadlockHandler.createModifiedGrid.
  induction agents as [|a agents IH]; intros g q; [done|]. simpl.
  set (g' := if atTarget a then _ else _).
  assert ((is_Some (cell g q.1 q.2) -> is_Some (cell g' q.1 q.2)) /\
          (cell g q.1 q.2 = Some CELL_WALL -> cell g' q.1 q.2 = Some CELL_WALL)) as [H1 H2].
  { subst g'. split.
    - intros Hs. destruct (atTarget a); rewrite !cell_grid_set_is_Some; done.
    - intros Hw. assert (is_Some (cell g q.1 q.2)) as Hs by (by rewrite Hw).
      destruct (decide (pos a = q)) as [<-|Hne].
      + destruct (atTarget a); rewrite !cell_grid_set_eq; try done.
        by rewrite cell_grid_set_is_Some.
      + destruct (atTarget a); rewrite !cell_grid_set_ne; done. }
  destruct (IH g' q) as [H3 H4]. split; auto.
Qed.

(** C5.  The grid on which the first tactic re-plans holds a wall on the
    cell of every agent, the cells of the other agents included: they are
    impassable for A*, not penalised. *)
Theorem agents_become_walls (grid : Grid) (agents : list Agent) (a : Agent) :
  a ∈ agents -> is_Some (cell grid (x a) (y a)) ->
  cell (DeadlockHandler.createModifiedGrid grid agents) (x a) (y a) = Some CELL_WALL.
Proof.
  intros Hin Hs. revert grid Hs.
  induction agents as [|b agents IH]; intros grid Hs; [by apply elem_of_nil in Hin|].
  unfold DeadlockHandler.createModifiedGrid. simpl.
  fold (DeadlockHandler.createModifiedGrid
          (if atTarget b then grid_set (grid_set grid (pos b) 1) (pos b) 1
           else grid_set grid (pos b) 1) agents).
  apply elem_of_cons in Hin as [->|Hin].
  - apply (createModifiedGrid_keeps agents _ (pos b)).
    destruct (atTarget b); rewrite !(cell_grid_set_eq _ (pos b)); try done.
    by rewrite (cell_grid_set_is_Some _ _ _ (pos b)).
  - apply IH; [done|].
    destruct (atTarget b); rewrite !(cell_grid_set_is_Some _ _ _ (pos a)); done.
Qed.

(** A corridor: agent 0 at its left end wants to reach the right end,
    agent 1 stands next to it. *)
Definition corridor_grid : Grid :=
  [ [2; 2; 0; 0; 0]; [1; 1; 1; 1; 1]; [0; 0; 0; 0; 0]; [0; 0; 0; 0; 0]; [0; 0; 0; 0; 0] ].
Definition corridor_agents : list Agent :=
  [ mkAgent 0 (0, 0) (Some (4, 0)) [(0, 0); (1, 0); (2, 0); (3, 0); (4, 0)];
    mkAgent 1 (1, 0) (Some (0, 0)) [(1, 0); (0, 0)] ].

Lemma agents_become_walls_witness :
  mkAgent 1 (1, 0) (Some (0, 0)) [(1, 0); (0, 0)] ∈ corridor_agents /\
  is_Some (cell corridor_grid 1 0) /\
  cell (DeadlockHandler.createModifiedGrid corridor_grid corridor_agents) 1 0 = Some CELL_WALL.
Proof.
  assert (mkAgent 1 (1, 0) (Some (0, 0)) [(1, 0); (0, 0)] ∈ corridor_agents) as Hin
      by (right; left).
  assert (is_Some (cell corridor_grid 1 0)) as Hs by (by eexists).
  split; [exact Hin|]. split; [exact Hs|].
  exact (agents_become_walls corridor_grid corridor_agents _ Hin Hs).
Defined.

(** In the corridor the first tactic finds nothing, although A* on the
    grid itself passes the other agent's cell. *)
Lemma corridor_replan_fails :
  DeadlockHandler.findAlternativePath corridor_grid corridor_agents 0 = (corridor_agents, false) /\
  AStar.findPath (AStar.new_default corridor_grid) (0, 0) (4, 0)
  = [(0, 0); (1, 0); (2, 0); (3, 0); (4, 0)].
Proof. split; by vm_compute. Qed.

(** C6 as stated fails: in the walled scenario every second tick moves an
    agent, the counter is not reset by those ticks, and the restart is
    scheduled at the ninth tick, after failures at ticks 1, 3, 5, 7, 9. *)
Lemma failures_need_not_be_consecutive :
  (fun k => Sim.failedDeadlockResolutionAttempts (ticks k (start walled))) <$> seq 0 10
    = [0; 1; 1; 2; 2; 3; 3; 4; 4; 0] /\
  (fun k => Sim.totalMoves (ticks k (start walled))) <$> seq 0 10
    = [0; 0; 1; 1; 2; 2; 3; 3; 4; 4] /\
  Sim.timeouts (ticks 8 (start walled)) = [] /\
  Sim.timeouts (ticks 9 (start walled)) = [Restart true] /\
  Sim.isSimulationRunning (ticks 9 (start walled)) = false.
Proof. repeat split; by vm_compute. Qed.

(** C6, amended.  Across a tick ([counted]) the counter stays, grows by
    one, or returns to 0 when it reaches 5, and only then is the simulation
    paused and a restart with sequential mode forced scheduled; a tick that
    moves an agent along its path leaves the counter as it is.  The
    callback of that restart sets sequential mode and starts the simulation
    again.  A tick that returns or raises before its movement loop leaves
    the counter as it is.  A tick that reaches its movement loop, moves no
    agent in it and then finds some agent off its goal adds one to the
    counter; when the sum reaches 5, outside the distributed sequential
    mode, the tick sets the counter to 0, pauses the simulation and
    schedules the restart as its last timeout; otherwise no restart is
    scheduled. *)
Theorem failed_counter_behaviour {num : Type} {N : JSNum num} {E : Type} {R : Random E}
    (s : Sim.t (E := E)) :
  counted s (Sim.simulationStep s) /\
  (forall s2 : Sim.t (E := E),
     Sim.sequentialMovementMode (Sim.fire (Restart true) s2) = true /\
     (Sim.isSimulationRunning s2 = false -> Sim.agents s2 <> [] ->
      Sim.targetPositions s2 <> [] ->
      Sim.isSimulationRunning (Sim.fire (Restart true) s2) = true /\
      Sim.simulationInterval (Sim.fire (Restart true) s2) = true /\
      Sim.failedDeadlockResolutionAttempts (Sim.fire (Restart true) s2) = 0)) /\
  ((Sim.beforeLoop s).2 <> Ok true ->
   Sim.failedDeadlockResolutionAttempts (Sim.simulationStep s)
   = Sim.failedDeadlockResolutionAttempts s /\
   Sim.totalMoves (Sim.simulationStep s) = Sim.totalMoves s) /\
  ((Sim.beforeLoop s).2 = Ok true ->
   Sim.agentsMoved (Sim.mainLoop (Sim.beforeLoop s).1) = false ->
   length (Sim.indices atTarget (Sim.agents (Sim.now (Sim.mainLoop (Sim.beforeLoop s).1))))
     <> length (Sim.agents (Sim.now (Sim.mainLoop (Sim.beforeLoop s).1))) ->
   Sim.totalMoves (Sim.simulationStep s) = Sim.totalMoves s /\
   (distributedSequential s = false ->
    5 <= Sim.failedDeadlockResolutionAttempts s + 1 ->
    Sim.failedDeadlockResolutionAttempts (Sim.simulationStep s) = 0 /\
    Sim.isSimulationRunning (Sim.simulationStep s) = false /\
    Sim.simulationInterval (Sim.simulationStep s) = false /\
    last (Sim.timeouts (Sim.simulationStep s)) = Some (Restart true)) /\
   (distributedSequential s = true \/ Sim.failedDeadlockResolutionAttempts s + 1 < 5 ->
    Sim.failedDeadlockResolutionAttempts (Sim.simulationStep s)
    = Sim.failedDeadlockResolutionAttempts s + 1 /\
    (Restart true ∈ Sim.timeouts (Sim.simulationStep s) -> Restart true ∈ Sim.timeouts s))).
Proof.
  split; [apply (simulationStep_spec (FR := Moore))|]. split; [apply fire_restart|].
  split.
  { intros Hearly. pose proof (early_tick (FR := Moore) s Hearly) as Hq.
    split; [by eapply evolves_failed|].
    pose proof (ev_moves _ _ _ _ Hq) as Hm. lia. }
  intros Hreach Hmoved Hoff.
  destruct (failed_tick (FR := Moore) s Hreach Hmoved Hoff) as [(Hf & Hm & H5 & Hlt) Hq].
  set (s1 := Sim.now _) in *. clearbody s1.
  pose proof (evolves_failed _ _ _ _ Hq) as Hf1.
  pose proof (ev_moves _ _ _ _ Hq) as Hm1. rewrite Z.add_0_r in Hm1.
  assert (distributedSequential s1 = distributedSequential s) as Hd.
  { unfold distributedSequential.
    by rewrite (evolves_mode _ _ _ _ Hq), (evolves_sequential _ _ _ _ Hq). }
  rewrite Hd, Hf1 in *. split; [congruence|]. split.
  - intros Hds Hfive. destruct (H5 Hds Hfive) as (? & ? & ? & Ht & _).
    split; [done|]. split; [done|]. split; [done|]. rewrite Ht. apply last_snoc.
  - intros Hcase. split.
    + rewrite Hf. unfold next_failed. rewrite Hd, Hf1.
      destruct Hcase as [->|Hlt']; [done|].
      destruct (distributedSequential s); [done|].
      destruct (5 <=? _) eqn:Hle; [apply Z.leb_le in Hle; lia|done].
    + intros Hr. by apply (ev_restart _ _ _ _ Hq), Hlt.
Qed.

(** The ninth tick of the walled scenario: the counter stands at 4, the
    loop moves no agent, and the tick schedules the restart. *)
Lemma failed_counter_behaviour_witness :
  (Sim.beforeLoop (num := option Q) (ticks 8 (start walled))).2 = Ok true /\
  Sim.agentsMoved
    (Sim.mainLoop (num := option Q)
       (Sim.beforeLoop (num := option Q) (ticks 8 (start walled))).1) = false /\
  distributedSequential (ticks 8 (start walled)) = false /\
  5 <= Sim.failedDeadlockResolutionAttempts (ticks 8 (start walled)) + 1 /\
  Sim.failedDeadlockResolutionAttempts
    (Sim.simulationStep (num := option Q) (ticks 8 (start walled))) = 0 /\
  Sim.isSimulationRunning
    (Sim.simulationStep (num := option Q) (ticks 8 (start walled))) = false /\
  Sim.simulationInterval
    (Sim.simulationStep (num := option Q) (ticks 8 (start walled))) = false /\
  last (Sim.timeouts (Sim.simulationStep (num := option Q) (ticks 8 (start walled))))
  = Some (Restart true).
Proof.
  assert ((Sim.beforeLoop (num := option Q) (ticks 8 (start walled))).2 = Ok true) as H1
      by (vm_compute; reflexivity).
  assert (Sim.agentsMoved
            (Sim.mainLoop (num := option Q)
               (Sim.beforeLoop (num := option Q) (ticks 8 (start walled))).1) = false) as H2
      by (vm_compute; reflexivity).
  assert (length (Sim.indices atTarget
                    (Sim.agents (Sim.now (Sim.mainLoop (num := option Q)
                       (Sim.beforeLoop (num := option Q) (ticks 8 (start walled))).1))))
          <> length (Sim.agents (Sim.now (Sim.mainLoop (num := option Q)
                       (Sim.beforeLoop (num := option Q) (ticks 8 (start walled))).1)))) as H3
      by (vm_compute; lia).
  assert (distributedSequential (ticks 8 (start walled)) = false) as H4
      by (vm_compute; reflexivity).
  assert (5 <= Sim.failedDeadlockResolutionAttempts (ticks 8 (start walled)) + 1) as H5
      by (vm_compute; discriminate).
  split; [exact H1|]. split; [exact H2|]. split; [exact H4|]. split; [exact H5|].
  exact (proj1 (proj2 (proj2 (proj2 (proj2 (failed_counter_behaviour (N := QNum)
                                              (R := NoRandom) (ticks 8 (start walled)))))
                         H1 H2 H3)) H4 H5).
Defined.

(** C8.  With at least as many goals as agents, the pairs returned list
    every agent index exactly once, in order, each with a goal index of its
    own that is within range. *)
Theorem assignment_is_one_to_one (agents targets : list Pos) (grid : Grid) :
  (length agents <= length targets)%nat ->
  (HungarianAlgorithm.findOptimalAssignment agents targets grid).*1 = seq 0 (length agents) /\
  NoDup (HungarianAlgorithm.findOptimalAssignment agents targets grid).*2 /\
  forall j, j ∈ (HungarianAlgorithm.findOptimalAssignment agents targets grid).*2 ->
            (j < length targets)%nat.
Proof. apply HungarianFacts.findOptimalAssignment_spec. Qed.

Definition two_starts : list Pos := [(0, 0); (1, 0)].
Definition three_goals : list Pos := [(4, 4); (3, 4); (0, 4)].

Lemma assignment_is_one_to_one_witness :
  (length two_starts <= length three_goals)%nat /\
  (HungarianAlgorithm.findOptimalAssignment two_starts three_goals (empty_grid 5)).*1
  = seq 0 (length two_starts).
Proof.
  assert (length two_starts <= length three_goals)%nat as Hle by (simpl; lia).
  split; [exact Hle|].
  exact (proj1 (assignment_is_one_to_one two_starts three_goals (empty_grid 5) Hle)).
Defined.

(** ** The deadlock counter *)

Lemma foldl_track_count h ags :
  DeadlockHandler.deadlockCount (foldl DeadlockHandler.track h ags)
  = DeadlockHandler.deadlockCount h.
Proof. revert h; induction ags as [|a ags IH]; intros h; simpl; [done|]. by rewrite IH. Qed.

(** The operations of the handler. *)
Inductive handler_op :=
| OpUpdatePositionTracking
| OpDetectDeadlocks
| OpResolveDeadlocks (ids : list Z)
| OpGetDeadlockCount.

(** A handler with the grid and the agent array it refers to. *)
Definition handler_world := (DeadlockHandler.t * Grid * list Agent)%type.

Definition apply_op (w : handler_world) (o : handler_op) : handler_world :=
  let '(h, g, ags) := w in
  match o with
  | OpUpdatePositionTracking => (DeadlockHandler.updatePositionTracking h ags, g, ags)
  | OpDetectDeadlocks => w
  | OpResolveDeadlocks ids =>
      let '(h', ags') := DeadlockHandler.resolveDeadlocks h g ags ids in (h', g, ags')
  | OpGetDeadlockCount => w
  end.

Definition count_of (w : handler_world) : Z := DeadlockHandler.getDeadlockCount w.1.1.

Lemma apply_op_mono w o : count_of w <= count_of (apply_op w o).
Proof.
  destruct w as [[h g] ags]. destruct o; simpl; unfold count_of; simpl; try lia.
  - unfold DeadlockHandler.getDeadlockCount, DeadlockHandler.updatePositionTracking.
    rewrite foldl_track_count. lia.
  - unfold DeadlockHandler.resolveDeadlocks.
    destruct ids; simpl; unfold DeadlockHandler.getDeadlockCount; simpl; lia.
Qed.

(** C9.  No sequence of handler operations lowers the counter; a
    [resolveDeadlocks] call with a non-empty list adds exactly one, however
    many ids the list holds; a call with the empty list changes nothing. *)
Theorem deadlock_counter_monotone :
  (forall ops w, count_of w <= count_of (foldl apply_op w ops)) /\
  (forall h g ags i ids,
      DeadlockHandler.getDeadlockCount (DeadlockHandler.resolveDeadlocks h g ags (i :: ids)).1
      = DeadlockHandler.getDeadlockCount h + 1) /\
  (forall h g ags, DeadlockHandler.resolveDeadlocks h g ags [] = (h, ags)).
Proof.
  split; [|split].
  - intros ops. induction ops as [|o ops IH]; intros w; simpl; [lia|].
    etransitivity; [apply (apply_op_mono w o)|apply IH].
  - reflexivity.
  - reflexivity.
Qed.

(** C10.  BFS built with the Moore argument searches with the four
    orthogonal directions and returns the path BFS built with the
    Von Neumann argument returns; so does the planner [createPathfinder]
    builds for BFS, whatever the current topology. *)
Theorem bfs_ignores_topology {num : Type} {N : JSNum num} {E : Type} {R : Random E}
    (g : Grid) (start goal : Pos) :
  BFS.findPath (BFS.new g Moore) start goal = BFS.findPath (BFS.new g VonNeumann) start goal /\
  BFS.directions (BFS.new g Moore) = getDirections VonNeumann /\
  (forall s : Sim.t (E := E),
     Sim.currentAlgorithm s = Bfs ->
     Sim.createPathfinder s g start goal = BFS.findPath (BFS.new g VonNeumann) start goal).
Proof.
  split; [reflexivity|]. split; [reflexivity|].
  intros s Hb. unfold Sim.createPathfinder. rewrite Hb. by destruct (Sim.currentTopology s).
Qed.

(** * Further properties of the planners *)

(** ** topology.js *)

Lemma elem_of_getNeighbors (px py : Z) (topo : Topology) (size : Z) (n : Pos) :
  n ∈ getNeighbors px py topo size <->
  adjacent topo (px, py) n /\ 0 <= n.1 < size /\ 0 <= n.2 < size.
Proof.
  unfold getNeighbors. rewrite list_elem_of_filter. split.
  - intros [Hb Hn]. apply list_elem_of_In, in_map_iff in Hn as (d & <- & Hd).
    split; [exists d; split; [by apply list_elem_of_In|done]|]. simpl in *. lia.
  - intros [(d & Hd & ->) Hb]. split; [simpl in *; lia|].
    apply list_elem_of_In, in_map_iff. exists d. split; [done|by apply list_elem_of_In].
Qed.

(** X1: on the square grid the neighbour relation is symmetric: a cell of
    the grid is a neighbour of each of its neighbours. *)
Theorem getNeighbors_symmetric (p q : Pos) (topo : Topology) (size : Z) :
  0 <= p.1 < size -> 0 <= p.2 < size ->
  q ∈ getNeighbors p.1 p.2 topo size -> p ∈ getNeighbors q.1 q.2 topo size.
Proof.
  intros Hx Hy Hq. apply elem_of_getNeighbors in Hq as [Hadj _].
  apply elem_of_getNeighbors. split; [|done].
  destruct p, q. by apply adjacent_sym.
Qed.

Lemma getNeighbors_symmetric_witness :
  0 <= ((1, 1) : Pos).1 < 3 /\ 0 <= ((1, 1) : Pos).2 < 3 /\
  ((2, 2) : Pos) ∈ getNeighbors 1 1 Moore 3 /\ ((1, 1) : Pos) ∈ getNeighbors 2 2 Moore 3.
Proof.
  assert (0 <= ((1, 1) : Pos).1 < 3) as H1 by (simpl; lia).
  assert (0 <= ((1, 1) : Pos).2 < 3) as H2 by (simpl; lia).
  assert (((2, 2) : Pos) ∈ getNeighbors 1 1 Moore 3) as H3
      by (apply (bool_decide_unpack _); by vm_compute).
  split; [exact H1|]. split; [exact H2|]. split; [exact H3|].
  exact (getNeighbors_symmetric (1, 1) (2, 2) Moore 3 H1 H2 H3).
Defined.

(** ** astar.js *)

(** X2: A* answers the reachability question: the result is empty exactly
    when no route over free cells leads from start to goal, and otherwise it
    is such a route. *)
Theorem astar_empty_iff_unreachable (g : Grid) (topo : Topology) (start goal : Pos) :
  (AStar.findPath (AStar.new g topo) start goal = [] <->
   ~ exists p, route_between g topo start goal p) /\
  (AStar.findPath (AStar.new g topo) start goal <> [] ->
   route_between g topo start goal (AStar.findPath (AStar.new g topo) start goal)).
Proof.
  split; [split|].
  - intros Hnil (p & Hp). destruct (findPath_optimal g topo start goal p Hp) as [(Hr & Hh & _) _].
    rewrite Hnil in Hh. done.
  - intros Hno. destruct (findPath_route g topo start goal) as [?|Hr]; [done|].
    destruct Hno. eauto.
  - intros Hne. by destruct (findPath_route g topo start goal).
Qed.

(** X3: the heuristic never overestimates: along every route to the goal
    it is at most the cost of the rest of the route. *)
Theorem heuristic_admissible (g : Grid) (topo : Topology) (goal : Pos) (p : list Pos) (q : Pos) :
  route g topo (q :: p) -> last (q :: p) = Some goal ->
  AStar.heuristic (AStar.new g topo) q goal <= route_cost (q :: p).
Proof.
  revert q. induction p as [|r p IH]; intros q Hr Hl.
  - simpl in Hl. injection Hl as ->. simpl.
    unfold AStar.heuristic, manhattan, chebyshev. destruct topo; simpl; lia.
  - inversion Hr as [|? ? ? (d & Hd & ->) Hp Hr']; subst.
    rewrite last_cons_cons in Hl. specialize (IH _ Hr' Hl).
    pose proof (heuristic_consistent g topo goal q d Hd) as Hc.
    change (route_cost (q :: pos_add q d :: p))
      with (AStar.moveCost ((pos_add q d).1 - q.1, (pos_add q d).2 - q.2)
            + route_cost (pos_add q d :: p)).
    rewrite step_diff. lia.
Qed.

Lemma heuristic_admissible_witness :
  route ring Moore [(0, 0); (1, 0); (2, 0); (2, 1); (2, 2)] /\
  last [(0, 0); (1, 0); (2, 0); (2, 1); ((2, 2) : Pos)] = Some (2, 2) /\
  AStar.heuristic (AStar.new ring Moore) (0, 0) (2, 2) <= 4000.
Proof.
  split; [exact (proj1 ring_detour)|]. split; [reflexivity|].
  exact (heuristic_admissible ring Moore (2, 2) _ (0, 0) (proj1 ring_detour) eq_refl).
Defined.

(** ** minimax.js, expectimax.js *)

Lemma minimax_nonempty (g : Grid) (topo : Topology) (start goal : Pos) :
  Minimax.isWall (Minimax.new g topo) start = false ->
  Minimax.isWall (Minimax.new g topo) goal = false ->
  Minimax.findPath (Minimax.new g topo) start goal <> [].
Proof.
  intros Hs Hg. unfold Minimax.findPath. rewrite Hs, Hg. cbn [orb].
  destruct (_ && _); [done|].
  destruct (Minimax.minimaxDecision _ _ _ _ _) as [[b|] st]; [|done].
  cbn [Minimax.grid Minimax.topology Minimax.new].
  intros Hnil.
  pose proof (follow_spec_len goal (Minimax.cameFrom st) 1000 start [start]) as Hl.
  unfold Minimax.complete in Hnil.
  destruct (last _) as [l|] eqn:Hlast.
  - case_bool_decide; [rewrite Hnil in Hl; cbn [length] in Hl; lia|].
    destruct (1 <? _).
    + apply app_eq_nil in Hnil as [Hnil _]. rewrite Hnil in Hl. cbn [length] in Hl. lia.
    + rewrite Hnil in Hl. cbn [length] in Hl. lia.
  - rewrite Hnil in Hl. cbn [length] in Hl. lia.
Qed.

Lemma expectimax_nonempty {num : Type} {N : JSNum num} (g : Grid) (topo : Topology)
    (start goal : Pos) :
  Expectimax.isWall (Expectimax.new g topo) start = false ->
  Expectimax.isWall (Expectimax.new g topo) goal = false ->
  Expectimax.findPath (Expectimax.new g topo) start goal <> [].
Proof.
  intros Hs Hg. unfold Expectimax.findPath. rewrite Hs, Hg. cbn [orb].
  destruct (_ && _); [done|].
  destruct (Expectimax.expectimaxDecision _ _ _ _ _) as [[b|] st]; [|done].
  cbn [Expectimax.grid Expectimax.topology Expectimax.new].
  intros Hnil.
  pose proof (follow_spec_len goal (Minimax.cameFrom st) 1000 start [start]) as Hl.
  unfold Minimax.complete in Hnil.
  destruct (last _) as [l|] eqn:Hlast.
  - case_bool_decide; [rewrite Hnil in Hl; cbn [length] in Hl; lia|].
    destruct (1 <? _).
    + apply app_eq_nil in Hnil as [Hnil _]. rewrite Hnil in Hl. cbn [length] in Hl. lia.
    + rewrite Hnil in Hl. cbn [length] in Hl. lia.
  - rewrite Hnil in Hl. cbn [length] in Hl. lia.
Qed.

(** X4: Minimax and Expectimax return the empty path exactly when start or
    goal is a wall or outside the grid; any other result begins at the start
    and proceeds by single steps of the topology. *)
Theorem search_result_shape {num : Type} {N : JSNum num} (g : Grid) (topo : Topology)
    (start goal : Pos) :
  (Minimax.findPath (Minimax.new g topo) start goal = [] <->
   Minimax.isWall (Minimax.new g topo) start = true \/
   Minimax.isWall (Minimax.new g topo) goal = true) /\
  (Minimax.findPath (Minimax.new g topo) start goal <> [] ->
   head (Minimax.findPath (Minimax.new g topo) start goal) = Some start /\
   trail topo (Minimax.findPath (Minimax.new g topo) start goal)) /\
  (Expectimax.findPath (Expectimax.new g topo) start goal = [] <->
   Expectimax.isWall (Expectimax.new g topo) start = true \/
   Expectimax.isWall (Expectimax.new g topo) goal = true) /\
  (Expectimax.findPath (Expectimax.new g topo) start goal <> [] ->
   head (Expectimax.findPath (Expectimax.new g topo) start goal) = Some start /\
   trail topo (Expectimax.findPath (Expectimax.new g topo) start goal)).
Proof.
  split; [|split; [|split]].
  - split.
    + intros Hnil.
      destruct (Minimax.isWall (Minimax.new g topo) start) eqn:Hs; [by left|].
      destruct (Minimax.isWall (Minimax.new g topo) goal) eqn:Hg; [by right|].
      destruct (minimax_nonempty g topo start goal Hs Hg Hnil).
    + intros Hw. unfold Minimax.findPath.
      destruct Hw as [-> | ->]; [reflexivity|]. rewrite orb_true_r. reflexivity.
  - intros Hne. destruct (minimax_departs g topo start goal) as [?|?]; [contradiction|assumption].
  - split.
    + intros Hnil.
      destruct (Expectimax.isWall (Expectimax.new g topo) start) eqn:Hs; [by left|].
      destruct (Expectimax.isWall (Expectimax.new g topo) goal) eqn:Hg; [by right|].
      destruct (expectimax_nonempty g topo start goal Hs Hg Hnil).
    + intros Hw. unfold Expectimax.findPath.
      destruct Hw as [-> | ->]; [reflexivity|]. rewrite orb_true_r. reflexivity.
  - intros Hne. destruct (expectimax_departs g topo start goal) as [?|?]; [contradiction|assumption].
Qed.

(** ** bfs.js: fewest steps *)

Section BFSShortest.
Variables (g : Grid) (extra : Topology) (start goal : Pos).
Local Abbreviation b := (BFS.new g extra).
Local Abbreviation dirs := (getDirections VonNeumann).

(** [reach n k]: [k] orthogonal steps over free cells lead from [start]
    to [n]. *)
Inductive reach : Pos -> nat -> Prop :=
| reach_start : reach start 0
| reach_step q k d :
    reach q k -> d ∈ dirs -> passable g (pos_add q d) -> reach (pos_add q d) (S k).

Lemma reach_route l : forall q k,
  reach q k -> route g VonNeumann (q :: l) ->
  exists n, last (q :: l) = Some n /\ reach n (k + length l).
Proof.
  induction l as [|r l IH]; intros q k Hq Hr.
  - exists q. split; [done|]. by rewrite Nat.add_0_r.
  - inversion Hr as [|? ? ? (d & Hd & ->) Hp Hr']; subst.
    destruct (IH (pos_add q d) (S k)) as (n & Hl & Hn); [by constructor|done|].
    exists n. split; [by rewrite last_cons_cons|].
    simpl. by replace (k + S (length l))%nat with (S k + length l)%nat by lia.
Qed.

(** The state between two rounds, with the distances and the set of
    cells already taken from the queue. *)
Record level (st : BFS.state) (dist : Pos -> nat) (closed : gset Pos) : Prop := {
  lv_start : start ∈ BFS.visited st /\ dist start = O;
  lv_cover : forall n, n ∈ BFS.visited st <-> n ∈ closed \/ n ∈ BFS.queue st;
  lv_reach : forall n, n ∈ BFS.visited st -> reach n (dist n);
  lv_parent : forall n p, BFS.parent st !! n = Some p ->
                adjacent VonNeumann p n /\ passable g n /\ p ∈ BFS.visited st /\
                n ∈ BFS.visited st /\ dist n = S (dist p);
  lv_orphan : forall n, n ∈ BFS.visited st -> BFS.parent st !! n = None -> n = start;
  lv_closed : forall u d, u ∈ closed -> d ∈ dirs -> passable g (pos_add u d) ->
                pos_add u d ∈ BFS.visited st /\ (dist (pos_add u d) <= S (dist u))%nat;
  lv_sorted : forall i j qi qj, BFS.queue st !! i = Some qi -> BFS.queue st !! j = Some qj ->
                (i <= j)%nat -> (dist qi <= dist qj)%nat;
  lv_span : forall q n, q ∈ BFS.queue st -> n ∈ BFS.visited st -> (dist n <= S (dist q))%nat;
  lv_low : forall c q, c ∈ closed -> q ∈ BFS.queue st -> (dist c <= dist q)%nat;
  lv_notgoal : goal ∉ closed;
  lv_inside : forall n, n ∈ BFS.visited st -> n ∈ (list_to_set (start :: cells g) : gset Pos)
}.

(** The state while the neighbours of [u] are looked at; [seen] holds the
    directions done. *)
Record sweep (u : Pos) (seen : list Pos) (st : BFS.state) (dist : Pos -> nat)
    (closed : gset Pos) : Prop := {
  sw_start : start ∈ BFS.visited st /\ dist start = O;
  sw_cover : forall n, n ∈ BFS.visited st <-> n = u \/ n ∈ closed \/ n ∈ BFS.queue st;
  sw_reach : forall n, n ∈ BFS.visited st -> reach n (dist n);
  sw_parent : forall n p, BFS.parent st !! n = Some p ->
                adjacent VonNeumann p n /\ passable g n /\ p ∈ BFS.visited st /\
                n ∈ BFS.visited st /\ dist n = S (dist p);
  sw_orphan : forall n, n ∈ BFS.visited st -> BFS.parent st !! n = None -> n = start;
  sw_closed : forall c d, c ∈ closed -> d ∈ dirs -> passable g (pos_add c d) ->
                pos_add c d ∈ BFS.visited st /\ (dist (pos_add c d) <= S (dist c))%nat;
  sw_seen : forall d, d ∈ seen -> passable g (pos_add u d) ->
                pos_add u d ∈ BFS.visited st /\ (dist (pos_add u d) <= S (dist u))%nat;
  sw_sorted : forall i j qi qj, BFS.queue st !! i = Some qi -> BFS.queue st !! j = Some qj ->
                (i <= j)%nat -> (dist qi <= dist qj)%nat;
  sw_queue : forall q, q ∈ BFS.queue st -> (dist u <= dist q <= S (dist u))%nat;
  sw_vis : forall n, n ∈ BFS.visited st -> (dist n <= S (dist u))%nat;
  sw_low : forall c, c ∈ closed -> (dist c <= dist u)%nat;
  sw_notgoal : goal ∉ closed;
  sw_inside : forall n, n ∈ BFS.visited st -> n ∈ (list_to_set (start :: cells g) : gset Pos)
}.

Lemma level_init :
  level {| BFS.queue := [start]; BFS.visited := {[start]}; BFS.parent := ∅ |}
        (fun _ => O) ∅.
Proof.
  split; cbn [BFS.queue BFS.visited BFS.parent].
  - split; [by apply elem_of_singleton|done].
  - intros n. rewrite elem_of_singleton, list_elem_of_singleton. set_solver.
  - intros n ->%elem_of_singleton. constructor.
  - intros n p Hn. rewrite lookup_empty in Hn. done.
  - intros n ->%elem_of_singleton _. done.
  - intros u d Hu. by apply elem_of_empty in Hu.
  - intros i j qi qj _ _ _. done.
  - intros q n _ _. lia.
  - intros c q Hc. by apply elem_of_empty in Hc.
  - apply not_elem_of_empty.
  - intros n ->%elem_of_singleton. apply elem_of_list_to_set. left.
Qed.

Lemma sweep_start st dist closed u rest :
  level st dist closed -> BFS.queue st = u :: rest -> u <> goal ->
  sweep u [] (dequeued st rest) dist closed.
Proof.
  intros L Hq Hne. destruct L. split; simpl; try done.
  - intros n. rewrite lv_cover0, Hq, elem_of_cons. tauto.
  - intros d Hd. by apply elem_of_nil in Hd.
  - intros i j qi qj Hi Hj Hij. apply (lv_sorted0 (S i) (S j)); [by rewrite Hq..|lia].
  - intros q Hin. split.
    + apply list_elem_of_lookup in Hin as [j Hj].
      apply (lv_sorted0 O (S j)); [by rewrite Hq|by rewrite Hq|lia].
    + apply lv_span0; [rewrite Hq; left|]. apply lv_cover0. right. rewrite Hq. by right.
  - intros n Hn. apply lv_span0; [rewrite Hq; left|done].
  - intros c Hc. apply lv_low0; [done|]. rewrite Hq. left.
Qed.

Lemma sweep_visit u seen st dist closed d :
  sweep u seen st dist closed -> d ∈ dirs ->
  exists dist',
    sweep u (d :: seen) (BFS.visit g u st d) dist' closed /\
    (size ((list_to_set (start :: cells g) : gset Pos) ∖ BFS.visited (BFS.visit g u st d)) * 2
     + length (BFS.queue (BFS.visit g u st d))
     <= size ((list_to_set (start :: cells g) : gset Pos) ∖ BFS.visited st) * 2
        + length (BFS.queue st))%nat.
Proof.
  intros Hsw Hd. unfold BFS.visit.
  assert (u ∈ BFS.visited st) as Hu by (apply (sw_cover _ _ _ _ _ Hsw); by left).
  destruct (in_bounds g (pos_add u d)) eqn:Hb; cbn [negb].
  2:{ exists dist. split; [|lia]. destruct Hsw. split; try done.
      intros d' [->|Hd']%elem_of_cons Hp; [destruct Hp; congruence|by apply sw_seen0]. }
  case_bool_decide as Hv; cbn [orb].
  { exists dist. split; [|lia]. destruct Hsw. split; try done.
    intros d' [->|Hd']%elem_of_cons Hp; [|by apply sw_seen0].
    split; [done|by apply sw_vis0]. }
  destruct (is_wall_cell g (pos_add u d)) eqn:Hw; cbn [orb].
  { exists dist. split; [|lia]. destruct Hsw. split; try done.
    intros d' [->|Hd']%elem_of_cons Hp; [destruct Hp; congruence|by apply sw_seen0]. }
  set (v := pos_add u d) in *.
  set (dist' := fun n => if decide (n = v) then S (dist u) else dist n).
  assert (forall n, n ∈ BFS.visited st -> dist' n = dist n) as Hsame.
  { intros n Hn. unfold dist'. destruct (decide (n = v)) as [->|]; done. }
  assert (dist' v = S (dist u)) as Hdv by (unfold dist'; by rewrite decide_True).
  assert (dist' u = dist u) as Hdu by (by apply Hsame).
  exists dist'. split.
  - destruct Hsw. split; cbn [BFS.queue BFS.visited BFS.parent].
    + destruct sw_start0 as [Hs Hz]. split; [set_solver|]. by rewrite Hsame.
    + intros n. rewrite elem_of_union, elem_of_singleton, elem_of_app,
        list_elem_of_singleton, sw_cover0. tauto.
    + intros n [->%elem_of_singleton|Hn]%elem_of_union.
      * rewrite Hdv. constructor; [|done|done]. by apply sw_reach0.
      * rewrite Hsame by done. by apply sw_reach0.
    + intros n p [[<- <-]|[Hne Hn]]%lookup_insert_Some.
      * split; [by exists d|]. split; [done|].
        split; [set_solver|]. split; [set_solver|]. by rewrite Hdv, Hdu.
      * destruct (sw_parent0 n p Hn) as (? & ? & ? & ? & ?).
        split; [done|]. split; [done|]. split; [set_solver|]. split; [set_solver|].
        by rewrite !Hsame.
    + intros n Hn [Hnone Hne]%lookup_insert_None. apply sw_orphan0; [|done]. set_solver.
    + intros c d' Hc Hd' Hp. destruct (sw_closed0 c d' Hc Hd' Hp) as [Hin Hle].
      split; [set_solver|]. rewrite !Hsame; [done| |done].
      apply sw_cover0. right. by left.
    + intros d' [->|Hd']%elem_of_cons Hp.
      * split; [set_solver|]. fold v. rewrite Hdv, Hdu. lia.
      * destruct (sw_seen0 d' Hd' Hp) as [Hin Hle]. split; [set_solver|].
        rewrite Hsame, Hdu; done.
    + intros i j qi qj Hi Hj Hij.
      assert (forall k q, (BFS.queue st ++ [v]) !! k = Some q ->
                (BFS.queue st !! k = Some q /\ q ∈ BFS.visited st) \/
                (k = length (BFS.queue st) /\ q = v)) as Hcase.
      { intros k q Hk. apply lookup_app_Some in Hk as [Hk|[Hk1 Hk2]].
        - left. split; [done|]. apply sw_cover0. right. right.
          by eapply list_elem_of_lookup_2.
        - right. destruct (k - length (BFS.queue st))%nat eqn:Hkk; [|done].
          simpl in Hk2. injection Hk2 as <-. split; [lia|done]. }
      destruct (Hcase i qi Hi) as [[Hi' Hvi]|[-> ->]];
        destruct (Hcase j qj Hj) as [[Hj' Hvj]|[-> ->]].
      * rewrite !Hsame by done. by eapply sw_sorted0.
      * rewrite Hdv, Hsame by done.
        apply sw_queue0. by eapply list_elem_of_lookup_2.
      * apply lookup_lt_Some in Hj'. lia.
      * done.
    + intros q [Hq| ->%list_elem_of_singleton]%elem_of_app.
      * rewrite Hdu, Hsame; [by apply sw_queue0|].
        apply sw_cover0. right. by right.
      * rewrite Hdv, Hdu. lia.
    + intros n [->%elem_of_singleton|Hn]%elem_of_union.
      * rewrite Hdv, Hdu. lia.
      * rewrite Hsame, Hdu by done. by apply sw_vis0.
    + intros c Hc. rewrite Hdu, Hsame; [by apply sw_low0|].
      apply sw_cover0. right. by left.
    + done.
    + intros n [->%elem_of_singleton|Hn]%elem_of_union; [|by apply sw_inside0].
      apply elem_of_list_to_set. right. by apply in_bounds_cells.
  - cbn [BFS.queue BFS.visited BFS.parent]. rewrite length_app. cbn [length].
    assert (v ∈ (list_to_set (start :: cells g) : gset Pos)) as Hvin.
    { apply elem_of_list_to_set. right. by apply in_bounds_cells. }
    assert ((list_to_set (start :: cells g) : gset Pos) ∖ ({[v]} ∪ BFS.visited st)
            ⊂ (list_to_set (start :: cells g) : gset Pos) ∖ BFS.visited st) as Hsub.
    { split; [set_solver|]. intros Hsub. specialize (Hsub v). set_solver. }
    apply subset_size in Hsub. lia.
Qed.

Lemma sweep_all u ds : forall seen st dist closed,
  sweep u seen st dist closed -> (forall d, d ∈ ds -> d ∈ dirs) ->
  exists dist',
    sweep u (rev ds ++ seen) (foldl (BFS.visit g u) st ds) dist' closed /\
    (size ((list_to_set (start :: cells g) : gset Pos) ∖
             BFS.visited (foldl (BFS.visit g u) st ds)) * 2
     + length (BFS.queue (foldl (BFS.visit g u) st ds))
     <= size ((list_to_set (start :: cells g) : gset Pos) ∖ BFS.visited st) * 2
        + length (BFS.queue st))%nat.
Proof.
  induction ds as [|d ds IH]; intros seen st dist closed Hsw Hds; cbn [foldl rev].
  - exists dist. split; [done|lia].
  - destruct (sweep_visit u seen st dist closed d Hsw) as (dist1 & Hsw1 & Hm1);
      [apply Hds; left|].
    destruct (IH (d :: seen) _ dist1 closed Hsw1) as (dist2 & Hsw2 & Hm2);
      [intros; apply Hds; by right|].
    exists dist2. split; [|lia]. rewrite <- app_assoc. exact Hsw2.
Qed.

Lemma sweep_end u st dist closed :
  u <> goal -> sweep u (rev dirs ++ []) st dist closed -> level st dist ({[u]} ∪ closed).
Proof.
  intros Hne Hsw. destruct Hsw. split; try done.
  - intros n. rewrite sw_cover0, elem_of_union, elem_of_singleton. tauto.
  - intros c d [->%elem_of_singleton|Hc]%elem_of_union Hd Hp; [|by apply sw_closed0].
    apply sw_seen0; [|done]. rewrite app_nil_r.
    apply list_elem_of_In. apply -> in_rev. by apply list_elem_of_In.
  - intros q n Hq Hn. pose proof (sw_queue0 q Hq). pose proof (sw_vis0 n Hn). lia.
  - intros c q [->%elem_of_singleton|Hc]%elem_of_union Hq.
    + by apply sw_queue0.
    + pose proof (sw_queue0 q Hq). pose proof (sw_low0 c Hc). lia.
  - intros [?%elem_of_singleton|?]%elem_of_union; done.
Qed.

(** One round from a level leads to a level and lowers the measure. *)
Lemma level_round st dist closed u rest :
  level st dist closed -> BFS.queue st = u :: rest -> u <> goal ->
  exists dist' closed',
    level (foldl (BFS.visit g u) (dequeued st rest) dirs) dist' closed' /\
    (size ((list_to_set (start :: cells g) : gset Pos) ∖
             BFS.visited (foldl (BFS.visit g u) (dequeued st rest) dirs)) * 2
     + length (BFS.queue (foldl (BFS.visit g u) (dequeued st rest) dirs))
     < size ((list_to_set (start :: cells g) : gset Pos) ∖ BFS.visited st) * 2
       + length (BFS.queue st))%nat.
Proof.
  intros L Hq Hne.
  destruct (sweep_all u dirs [] (dequeued st rest) dist closed) as (dist' & Hsw & Hm);
    [by eapply sweep_start|done|].
  exists dist', ({[u]} ∪ closed). split; [by apply sweep_end|].
  cbn [dequeued BFS.queue BFS.visited] in Hm. rewrite Hq. cbn [length]. lia.
Qed.

(** Every cell within reach is visited, or the queue's head is no
    farther than the cell. *)
Lemma level_reaches st dist closed :
  level st dist closed ->
  forall n k, reach n k ->
    (n ∈ BFS.visited st /\ (dist n <= k)%nat) \/
    (exists u, head (BFS.queue st) = Some u /\ (dist u <= k)%nat).
Proof.
  intros L n k Hr. induction Hr as [|q k d Hq IH Hd Hp].
  - left. destruct (lv_start _ _ _ L) as [? ->]. by split.
  - destruct IH as [[Hv Hle]|(u & Hu & Hle)]; [|right; exists u; split; [done|lia]].
    apply (lv_cover _ _ _ L) in Hv as [Hc|Hin].
    + left. destruct (lv_closed _ _ _ L q d Hc Hd Hp) as [? ?]. split; [done|lia].
    + right. destruct (BFS.queue st) as [|u rest] eqn:Hqu; [by apply elem_of_nil in Hin|].
      exists u. split; [done|].
      apply list_elem_of_lookup in Hin as [j Hj].
      assert (dist u <= dist q)%nat; [|lia].
      apply (lv_sorted _ _ _ L O j); [by rewrite Hqu|by rewrite Hqu|lia].
Qed.

Lemma bfs_reconstruct st dist closed :
  level st dist closed -> head (BFS.queue st) = Some goal ->
  exists r, reconstructPath (BFS.parent st) goal = Some r /\
            route_between g VonNeumann start goal r /\ length r = S (dist goal).
Proof.
  intros L Hh.
  assert (goal ∈ BFS.visited st) as Hgv.
  { apply (lv_cover _ _ _ L). right. destruct (BFS.queue st); [done|].
    injection Hh as ->. left. }
  unfold reconstructPath.
  destruct (reconstruct_total (BFS.parent st) (fun n => Z.of_nat (dist n)))
    with (fuel := size (BFS.parent st)) (cur := goal) (path := [goal])
         (K := dom (BFS.parent st)) as [r Hr].
  { intros n p Hn. destruct (lv_parent _ _ _ L n p Hn) as (_ & _ & _ & _ & ->). lia. }
  { intros n Hn _. by apply elem_of_dom. }
  { by rewrite size_dom. }
  exists r. split; [done|].
  destruct (reconstruct_links (BFS.parent st)
              (fun p n => adjacent VonNeumann p n /\ passable g n /\ dist n = S (dist p) /\
                          p ∈ BFS.visited st)
              (fun l => route g VonNeumann l /\
                        exists h, head l = Some h /\ (length l + dist h = S (dist goal))%nat))
    with (4 := Hr) as ((Hroute & h & Hhd & Hlen) & Hl & first & tl & -> & Hnone & Hfirst).
  - intros n p Hn. destruct (lv_parent _ _ _ L n p Hn) as (? & ? & ? & ? & ?). done.
  - intros p n l (? & ? & Hd & _) (Hro & h & Hhd & Hlen). split; [by constructor|].
    exists p. split; [done|]. simpl in *. injection Hhd as <-. lia.
  - split; [constructor|]. exists goal. split; [done|]. simpl. lia.
  - assert (first = start) as ->.
    { apply (lv_orphan _ _ _ L); [|done].
      destruct Hfirst as [->|(n & _ & _ & _ & ?)]; done. }
    split; [split; [done|split; [done|exact Hl]]|].
    simpl in Hhd. injection Hhd as <-.
    destruct (lv_start _ _ _ L) as [_ Hz]. rewrite Hz in Hlen. lia.
Qed.

Lemma bfs_loop_spec fuel : forall st dist closed,
  level st dist closed ->
  (size ((list_to_set (start :: cells g) : gset Pos) ∖ BFS.visited st) * 2
   + length (BFS.queue st) < fuel)%nat ->
  exists r, BFS.loop fuel b goal st = Some r /\
    ((r = [] /\ forall k, ~ reach goal k) \/
     (route_between g VonNeumann start goal r /\
      forall k, reach goal k -> (length r <= S k)%nat)).
Proof.
  induction fuel as [|fuel IH]; intros st dist closed L Hm; [lia|].
  rewrite bfs_loop_S. destruct (BFS.queue st) as [|u rest] eqn:Hq.
  - exists []. split; [done|]. left. split; [done|]. intros k Hk.
    destruct (level_reaches st dist closed L goal k Hk) as [[Hv _]|(u & Hu & _)].
    + apply (lv_cover _ _ _ L) in Hv as [Hc|Hin].
      * by apply (lv_notgoal _ _ _ L).
      * rewrite Hq in Hin. by apply elem_of_nil in Hin.
    + by rewrite Hq in Hu.
  - case_bool_decide as Hgoal.
    + subst u. destruct (bfs_reconstruct st dist closed L) as (r & Hr & Hroute & Hlen);
        [by rewrite Hq|].
      exists r. split; [done|]. right. split; [done|]. intros k Hk. rewrite Hlen.
      destruct (level_reaches st dist closed L goal k Hk) as [[_ Hle]|(u & Hu & Hle)]; [lia|].
      rewrite Hq in Hu. injection Hu as <-. lia.
    + destruct (level_round st dist closed u rest L Hq Hgoal) as (dist' & closed' & L' & Hm').
      apply (IH _ dist' closed' L'). rewrite Hq in Hm'. simpl in *. lia.
Qed.

Lemma bfs_run_spec :
  exists r, BFS.run b start goal = Some r /\
    ((r = [] /\ forall k, ~ reach goal k) \/
     (route_between g VonNeumann start goal r /\
      forall k, reach goal k -> (length r <= S k)%nat)).
Proof.
  unfold BFS.run. eapply bfs_loop_spec; [apply level_init|].
  cbn [BFS.queue BFS.visited BFS.grid BFS.new length]. unfold BFS.fuel.
  assert (size ((list_to_set (start :: cells g) : gset Pos) ∖ {[start]})
          < size (list_to_set (start :: cells g) : gset Pos))%nat as H1.
  { apply subset_size. split; [set_solver|]. intros Hsub. specialize (Hsub start).
    assert (start ∈ (list_to_set (start :: cells g) : gset Pos)) as Hs
        by (apply elem_of_list_to_set; left).
    set_solver. }
  pose proof (size_list_to_set_le (start :: cells g)) as H2.
  simpl length in H2. rewrite length_cells in H2. lia.
Qed.

End BFSShortest.

Lemma bfs_findPath_shortest (g : Grid) (extra : Topology) (start goal : Pos) (p : list Pos) :
  route_between g VonNeumann start goal p ->
  route_between g VonNeumann start goal (BFS.findPath (BFS.new g extra) start goal) /\
  (length (BFS.findPath (BFS.new g extra) start goal) <= length p)%nat.
Proof.
  intros (Hr & Hh & Hl). destruct p as [|q p]; [done|]. simpl in Hh. injection Hh as ->.
  destruct (reach_route g start p start O (reach_start g start) Hr) as (n & Hn & Hreach).
  rewrite Hl in Hn. injection Hn as <-.
  unfold BFS.findPath.
  destruct (bfs_run_spec g extra start goal) as (r & -> & [[_ Hno]|[Hroute Hmin]]); simpl.
  - by destruct (Hno _ Hreach).
  - split; [done|]. apply Hmin in Hreach. simpl. lia.
Qed.

(** X5: whenever some route of orthogonal steps over free cells leads from
    start to goal, breadth-first search returns such a route, and no such
    route has fewer cells. *)
Theorem bfs_returns_shortest_route (g : Grid) (extra : Topology) (start goal : Pos)
    (p : list Pos) :
  route_between g VonNeumann start goal p ->
  route_between g VonNeumann start goal (BFS.findPath (BFS.new g extra) start goal) /\
  (length (BFS.findPath (BFS.new g extra) start goal) <= length p)%nat.
Proof. apply bfs_findPath_shortest. Qed.

(** X6: the result of breadth-first search is empty exactly when no route
    of orthogonal steps over free cells leads from start to goal. *)
Theorem bfs_empty_iff_unreachable (g : Grid) (extra : Topology) (start goal : Pos) :
  BFS.findPath (BFS.new g extra) start goal = [] <->
  ~ exists p, route_between g VonNeumann start goal p.
Proof.
  split.
  - intros Hnil (p & Hp).
    destruct (bfs_findPath_shortest g extra start goal p Hp) as [(_ & Hh & _) _].
    by rewrite Hnil in Hh.
  - intros Hno. destruct (bfs_findPath_route g extra start goal) as [?|Hr]; [done|].
    destruct Hno. eauto.
Qed.

Lemma ring_orthogonal :
  route_between ring VonNeumann (0, 0) (2, 2) [(0, 0); (1, 0); (2, 0); (2, 1); (2, 2)].
Proof.
  split; [|done].
  repeat (apply route_cons;
            [apply adjacent_diff, (bool_decide_unpack _); by vm_compute
            |split; by vm_compute|]).
  apply route_one.
Qed.

Lemma bfs_returns_shortest_route_witness :
  route_between ring VonNeumann (0, 0) (2, 2) [(0, 0); (1, 0); (2, 0); (2, 1); (2, 2)] /\
  (length (BFS.findPath (BFS.new ring Moore) (0, 0)%Z (2, 2)%Z) <= 5)%nat.
Proof.
  split; [exact ring_orthogonal|].
  exact (proj2 (bfs_returns_shortest_route ring Moore (0, 0) (2, 2) _ ring_orthogonal)).
Defined.

(** ** astar.js and bfs.js together *)

Lemma orthogonal_route_cost g l :
  route g VonNeumann l -> route_cost l = 1000 * (Z.of_nat (length l) - 1).
Proof.
  induction 1 as [p|p q l (d & Hd & ->) Hq Hr IH]; [done|].
  change (route_cost (p :: pos_add p d :: l))
    with (AStar.moveCost ((pos_add p d).1 - p.1, (pos_add p d).2 - p.2)
          + route_cost (pos_add p d :: l)).
  rewrite step_diff, IH.
  assert (AStar.moveCost d = 1000) as ->.
  { apply list_elem_of_In in Hd. simpl in Hd.
    destruct Hd as [<-|[<-|[<-|[<-|[]]]]]; reflexivity. }
  cbn [length]. lia.
Qed.

(** X7: with orthogonal moves A* and breadth-first search agree on the
    length of the path: whenever a route exists, both return a route with
    the same, least, number of cells. *)
Theorem astar_bfs_same_length (g : Grid) (extra : Topology) (start goal : Pos) (p : list Pos) :
  route_between g VonNeumann start goal p ->
  length (AStar.findPath (AStar.new g VonNeumann) start goal)
  = length (BFS.findPath (BFS.new g extra) start goal) /\
  (length (AStar.findPath (AStar.new g VonNeumann) start goal) <= length p)%nat.
Proof.
  intros Hp.
  destruct (findPath_optimal g VonNeumann start goal p Hp) as [Ha Hmin].
  destruct (bfs_findPath_shortest g extra start goal p Hp) as [Hb Hshort].
  destruct (findPath_optimal g VonNeumann start goal _ Hb) as [_ Hab].
  destruct (bfs_findPath_shortest g extra start goal _ Ha) as [_ Hba].
  rewrite (orthogonal_route_cost g _ (proj1 Ha)) in Hab.
  rewrite (orthogonal_route_cost g _ (proj1 Hb)) in Hab.
  lia.
Qed.

Lemma astar_bfs_same_length_witness :
  route_between ring VonNeumann (0, 0) (2, 2) [(0, 0); (1, 0); (2, 0); (2, 1); (2, 2)] /\
  length (AStar.findPath (AStar.new ring VonNeumann) (0, 0) (2, 2))
  = length (BFS.findPath (BFS.new ring Moore) (0, 0) (2, 2)).
Proof.
  split; [exact ring_orthogonal|].
  exact (proj1 (astar_bfs_same_length ring Moore (0, 0) (2, 2) _ ring_orthogonal)).
Defined.

(** * Further properties of a tick *)

Section TickFacts.
Context {num : Type} {N : JSNum num} {E : Type} {R : Random E} {FR : Frame}.
Implicit Types s : Sim.t (E := E).
Implicit Types pr : Sim.progress (E := E).

(** The shape of [simulationStep]: planning only, or planning followed by
    the movement loop and its checks; and the pause of the [catch]
    block after either. *)
Lemma simulationStep_cases (P : Sim.t (E := E) -> Prop) s :
  (forall s', quiet s s' -> P s') ->
  (forall s1, quiet s s1 -> P (Sim.moveAll s1).1) ->
  (forall s', P s' -> P (Sim.pauseSimulation s')) ->
  P (Sim.simulationStep s).
Proof.
  intros Hquiet Hmove Hpause.
  pose proof (beforeLoop_quiet s) as Hq.
  unfold Sim.simulationStep, Sim.tryStep.
  destruct (Sim.beforeLoop s) as [s1 [[|]|]]; cbn [fst] in Hq.
  - specialize (Hmove s1 Hq). destruct (Sim.moveAll s1) as [s2 [[]|]]; auto.
  - auto.
  - auto.
Qed.

Lemma moveAgent_count pr i :
  (Sim.agentsMovedCount (Sim.moveAgent pr i) = Sim.agentsMovedCount pr \/
   (Sim.agentsMovedCount (Sim.moveAgent pr i) = Sim.agentsMovedCount pr + 1 /\
    (Sim.sequentialMovementMode (Sim.now pr) = true -> Sim.agentsMovedCount pr <= 0))).
Proof.
  unfold Sim.moveAgent. destruct (Sim.stopped pr); [by left|].
  destruct (Sim.agents (Sim.now pr) !! i) as [agent|]; [|by left].
  destruct (atTarget agent); [by left|].
  destruct (Sim.sequentialMovementMode (Sim.now pr)) eqn:Hseq; cbn [andb].
  - destruct (0 <? Sim.agentsMovedCount pr) eqn:Hc; [by left|]. apply Z.ltb_ge in Hc.
    cbv zeta. repeat case_match; try (by left); right; done.
  - cbv zeta. repeat case_match; try (by left); right; done.
Qed.

Lemma moveAgents_count s0 order : forall M pr0 pr,
  NoDup order -> (forall i, i ∈ order -> i ∉ M) -> loop_inv s0 M pr ->
  Sim.agentsMovedCount pr0 <= Sim.agentsMovedCount pr ->
  (Sim.sequentialMovementMode s0 = true ->
   Sim.agentsMovedCount pr <= Z.max 1 (Sim.agentsMovedCount pr0)) ->
  Sim.agentsMovedCount pr <= Sim.agentsMovedCount (foldl Sim.moveAgent pr order)
    <= Sim.agentsMovedCount pr + Z.of_nat (length order) /\
  (Sim.sequentialMovementMode s0 = true ->
   Sim.agentsMovedCount (foldl Sim.moveAgent pr order)
   <= Z.max 1 (Sim.agentsMovedCount pr0)).
Proof.
  induction order as [|i order IH]; intros M pr0 pr Hnd Hdisj Hinv Hle Hseq.
  { simpl. split; [lia|done]. }
  cbn [foldl]. apply NoDup_cons in Hnd as [Hi Hnd].
  assert (loop_inv s0 (M ∪ {[i]}) (Sim.moveAgent pr i)) as Hinv'.
  { apply moveAgent_inv; [|done]. apply Hdisj. left. }
  assert (Sim.sequentialMovementMode (Sim.now pr) = Sim.sequentialMovementMode s0) as Hmode.
  { destruct Hinv as [Hev _]. pose proof (ev_kept _ _ _ _ Hev) as Hk.
    unfold kept in Hk. congruence. }
  destruct (IH (M ∪ {[i]}) pr0 (Sim.moveAgent pr i)) as [Hb Hs]; [done| |done| | |].
  - intros j Hj. apply not_elem_of_union. split; [apply Hdisj; by right|].
    intros ->%elem_of_singleton. done.
  - destruct (moveAgent_count pr i) as [->|[-> _]]; lia.
  - intros Hs0. specialize (Hseq Hs0).
    destruct (moveAgent_count pr i) as [->|[-> Hz]]; [done|].
    rewrite Hmode in Hz. specialize (Hz Hs0). lia.
  - split; [|done]. cbn [length].
    destruct (moveAgent_count pr i) as [Heq|[Heq _]]; rewrite Heq in Hb; lia.
Qed.

Lemma mainLoop_count s :
  0 <= Sim.agentsMovedCount (Sim.mainLoop s) <= Z.of_nat (length (Sim.agents s)) /\
  (Sim.sequentialMovementMode s = true -> Sim.agentsMovedCount (Sim.mainLoop s) <= 1).
Proof.
  unfold Sim.mainLoop.
  set (s1 := match Sim.currentDecisionMode s, Sim.sequentialMovementMode s with
             | Distributed, true => _
             | _, _ => s
             end).
  assert (quiet s s1) as Hq.
  { subst s1. destruct (Sim.currentDecisionMode s); [apply evolves_refl|].
    destruct (Sim.sequentialMovementMode s); [|apply evolves_refl].
    apply replanSequential_ev, evolves_refl. }
  clearbody s1.
  set (pr := {| Sim.now := s1; Sim.agentsMoved := false; Sim.agentsMovedCount := 0;
                Sim.stopped := false |}).
  destruct (moveAgents_count s (Sim.prioritizedAgents s) ∅ pr pr) as [Hb Hs].
  - apply prioritizedAgents_NoDup.
  - set_solver.
  - split; [exact Hq|]. intros _. split; [exact Hq|done].
  - lia.
  - simpl. lia.
  - assert (length (Sim.prioritizedAgents s) = length (Sim.agents s)) as Hlen.
    { unfold Sim.prioritizedAgents. rewrite length_map.
      rewrite (Permutation_length (stable_sort_perm _ _)). by rewrite length_imap. }
    rewrite Hlen in Hb. simpl in Hb, Hs. split; [lia|]. intros H. specialize (Hs H). lia.
Qed.

Lemma moveAll_moves s :
  Sim.totalMoves s <= Sim.totalMoves (Sim.moveAll s).1
    <= Sim.totalMoves s + Z.of_nat (length (Sim.agents s)) /\
  (Sim.sequentialMovementMode s = true ->
   Sim.totalMoves (Sim.moveAll s).1 <= Sim.totalMoves s + 1).
Proof.
  destruct (mainLoop_inv s) as [M [Hev _]].
  pose proof (ev_moves _ _ _ _ Hev) as Hm.
  destruct (mainLoop_count s) as [Hc Hs].
  assert (Sim.totalMoves (Sim.moveAll s).1 = Sim.totalMoves (Sim.now (Sim.mainLoop s))) as ->.
  { unfold Sim.moveAll, Sim.afterLoop. destruct (_ =? _)%nat; [done|].
    destruct (Sim.agentsMoved _); [done|].
    destruct (noMovement_spec (length (Sim.indices Sim.stuck
                                         (Sim.agents (Sim.now (Sim.mainLoop s)))))
                (Sim.now (Sim.mainLoop s))) as (_ & _ & (_ & Hm' & _) & _).
    exact Hm'. }
  rewrite Hm. split; [lia|]. intros H. specialize (Hs H). lia.
Qed.

End TickFacts.

(** X8: a tick never changes the set-up, whether it ends normally or in
    its [catch] block: goals, grid size, decision mode, algorithm, topology
    and speed stay as they are, no agent is added or removed, and every
    agent keeps its id and its place in the array. *)
Theorem tick_keeps_configuration {num : Type} {N : JSNum num} {E : Type} {R : Random E}
    (s : Sim.t (E := E)) :
  Sim.targetPositions (Sim.simulationStep s) = Sim.targetPositions s /\
  Sim.gridSize (Sim.simulationStep s) = Sim.gridSize s /\
  Sim.currentDecisionMode (Sim.simulationStep s) = Sim.currentDecisionMode s /\
  Sim.currentAlgorithm (Sim.simulationStep s) = Sim.currentAlgorithm s /\
  Sim.currentTopology (Sim.simulationStep s) = Sim.currentTopology s /\
  Sim.simulationSpeed (Sim.simulationStep s) = Sim.simulationSpeed s /\
  length (Sim.agents (Sim.simulationStep s)) = length (Sim.agents s) /\
  id <$> Sim.agents (Sim.simulationStep s) = id <$> Sim.agents s.
Proof.
  destruct (simulationStep_spec (FR := Moore) s) as [Ht _].
  pose proof (tk_settings _ _ Ht) as Hs. pose proof (tk_ids _ _ Ht) as Hids.
  unfold settings in Hs. injection Hs as -> -> -> -> -> ->.
  repeat split; try done.
  rewrite <- (length_fmap id (Sim.agents (Sim.simulationStep s))), Hids. apply length_fmap.
Qed.

(** X9: the move counter never decreases; a tick adds at most one per
    agent, and at most one altogether in sequential mode; a tick that ends
    in its [catch] block keeps the moves counted before the exception. *)
Theorem tick_moves_bound {num : Type} {N : JSNum num} {E : Type} {R : Random E}
    (s : Sim.t (E := E)) :
  Sim.totalMoves s <= Sim.totalMoves (Sim.simulationStep s)
    <= Sim.totalMoves s + Z.of_nat (length (Sim.agents s)) /\
  (Sim.sequentialMovementMode s = true ->
   Sim.totalMoves (Sim.simulationStep s) <= Sim.totalMoves s + 1).
Proof.
  apply (simulationStep_cases (FR := Moore)
           (fun s' => Sim.totalMoves s <= Sim.totalMoves s'
                        <= Sim.totalMoves s + Z.of_nat (length (Sim.agents s)) /\
                      (Sim.sequentialMovementMode s = true ->
                       Sim.totalMoves s' <= Sim.totalMoves s + 1))).
  - intros s' Hq. pose proof (ev_moves _ _ _ _ Hq) as Hm. split; [lia|]. intros _. lia.
  - intros s1 Hq. pose proof (ev_moves _ _ _ _ Hq) as Hm.
    pose proof (evolves_length _ _ _ _ Hq) as Hlen.
    assert (Sim.sequentialMovementMode s1 = Sim.sequentialMovementMode s) as Hmode.
    { pose proof (ev_kept _ _ _ _ Hq) as Hk. unfold kept in Hk. congruence. }
    destruct (moveAll_moves (FR := Moore) s1) as [Hb Hs].
    rewrite Hlen, Hm in Hb. rewrite Hmode, Hm in Hs.
    split; [lia|]. intros H. specialize (Hs H). lia.
  - intros s' Hs'. exact Hs'.
Qed.

(** ** The order of the movement loop *)

Lemma insert_sorted_ranked {A} (leb : A -> A -> bool) (R : A -> A -> Prop) (v : A) (l : list A) :
  (forall a b c, R a b -> R b c -> R a c) ->
  (forall a b, leb a b = true -> R a b) ->
  (forall a b, leb a b = false -> R b a) ->
  StronglySorted R l -> StronglySorted R (insert_sorted leb v l).
Proof.
  intros Htrans Ht Hf. induction 1 as [|w l Hl IH Hw]; simpl.
  { constructor; [constructor|constructor]. }
  destruct (leb v w) eqn:Hvw.
  - constructor; [by constructor|]. constructor; [by apply Ht|].
    eapply Forall_impl; [exact Hw|]. intros c Hc. eapply Htrans; [by apply Ht|done].
  - constructor; [done|].
    apply Forall_forall. intros c Hc.
    rewrite insert_sorted_perm in Hc.
    apply elem_of_cons in Hc as [->|Hc]; [by apply Hf|].
    by eapply Forall_forall in Hw.
Qed.

Lemma stable_sort_ranked {A} (leb : A -> A -> bool) (R : A -> A -> Prop) (l : list A) :
  (forall a b c, R a b -> R b c -> R a c) ->
  (forall a b, leb a b = true -> R a b) ->
  (forall a b, leb a b = false -> R b a) ->
  StronglySorted R (stable_sort leb l).
Proof.
  intros Htrans Ht Hf. induction l as [|v l IH]; simpl; [constructor|].
  by apply insert_sorted_ranked.
Qed.

Lemma StronglySorted_lookup {A} (R : relation A) (l : list A) (i j : nat) (x y : A) :
  StronglySorted R l -> (i < j)%nat -> l !! i = Some x -> l !! j = Some y -> R x y.
Proof.
  intros Hs Hij Hi Hj. rewrite <- (take_drop j l) in Hs.
  apply (StronglySorted_app_1_elem_of _ _ _ x y Hs).
  - apply list_elem_of_lookup. exists i. by rewrite lookup_take_lt.
  - apply list_elem_of_lookup. exists 0%nat. rewrite lookup_drop. by rewrite Nat.add_0_r.
Qed.

(** The order established by the comparator of the priority sort. *)
Definition ranked (a b : Agent) : Prop :=
  (atTarget a = true -> atTarget b = true) /\
  (atTarget a = atTarget b ->
   distTo (pos a) (targetX a) (targetY a) <= distTo (pos b) (targetX b) (targetY b)).

Lemma ranked_trans a b c : ranked a b -> ranked b c -> ranked a c.
Proof.
  unfold ranked. intros [H1 H2] [H3 H4].
  destruct (atTarget a), (atTarget b), (atTarget c); split; intros; try done;
    try (etransitivity; [apply H2|apply H4]; done);
    first [by specialize (H1 eq_refl)|by specialize (H3 eq_refl)].
Qed.

Lemma priorityLeb_true a b : Sim.priorityLeb a b = true -> ranked a b.
Proof.
  unfold Sim.priorityLeb, ranked.
  destruct (atTarget a), (atTarget b); simpl; intros H; split; try done;
    intros _; by apply Z.leb_le.
Qed.

Lemma priorityLeb_false a b : Sim.priorityLeb a b = false -> ranked b a.
Proof.
  unfold Sim.priorityLeb, ranked.
  destruct (atTarget a), (atTarget b); simpl; intros H; split; try done;
    intros _; apply Z.leb_gt in H; lia.
Qed.

(** X10: the order in which the movement loop takes the agents holds every
    index of the agent array exactly once, the agents that are off their
    goal before those that are on it, and within each of the two groups an
    agent nearer to its target before one farther from it.  (The loop need
    not reach the end of that order: in sequential mode it stops after the
    first move.) *)
Theorem prioritizedAgents_order {num : Type} {N : JSNum num} {E : Type} {R : Random E}
    (s : Sim.t (E := E)) :
  Sim.prioritizedAgents s ≡ₚ seq 0 (length (Sim.agents s)) /\
  forall i j a b,
    (i < j)%nat ->
    Sim.prioritizedAgents s !! i ≫= (Sim.agents s !!.) = Some a ->
    Sim.prioritizedAgents s !! j ≫= (Sim.agents s !!.) = Some b ->
    (atTarget a = true -> atTarget b = true) /\
    (atTarget a = atTarget b ->
     distTo (pos a) (targetX a) (targetY a) <= distTo (pos b) (targetX b) (targetY b)).
Proof.
  split.
  - unfold Sim.prioritizedAgents.
    change (map fst ?l) with (fst <$> l).
    rewrite stable_sort_perm, fmap_imap.
    rewrite (imap_ext _ (fun j _ => j)) by done.
    by rewrite imap_seq_0, list_fmap_id.
  - unfold Sim.prioritizedAgents.
    set (l := stable_sort _ _).
    assert (StronglySorted (fun a b : nat * Agent => ranked a.2 b.2) l) as Hsorted.
    { apply stable_sort_ranked.
      - intros [? a] [? b] [? c]. apply ranked_trans.
      - intros [? a] [? b]. apply priorityLeb_true.
      - intros [? a] [? b]. apply priorityLeb_false. }
    assert (forall k p, l !! k = Some p -> Sim.agents s !! p.1 = Some p.2) as Hl.
    { intros k p Hk. apply list_elem_of_lookup_2 in Hk.
      subst l. apply elem_of_stable_sort in Hk.
      apply elem_of_lookup_imap in Hk as (i' & a' & -> & Ha'). done. }
    intros i j a b Hij Hi Hj.
    change (map fst l) with (fst <$> l) in Hi, Hj.
    rewrite list_lookup_fmap in Hi, Hj.
    destruct (l !! i) as [pi|] eqn:Hpi; [|done].
    destruct (l !! j) as [pj|] eqn:Hpj; [|done].
    simpl in Hi, Hj. rewrite (Hl _ _ Hpi) in Hi. rewrite (Hl _ _ Hpj) in Hj.
    injection Hi as <-. injection Hj as <-.
    exact (StronglySorted_lookup _ l i j pi pj Hsorted Hij Hpi Hpj).
Qed.

(** * Further properties of the deadlock handler *)

(** ** The maps *)

Lemma jsmap_get_cons {V} (k k' : Z) (v' : V) m :
  jsmap_get k ((k', v') :: m) = if bool_decide (k' = k) then Some v' else jsmap_get k m.
Proof.
  unfold jsmap_get. simpl. case_bool_decide.
  - by rewrite decide_True.
  - rewrite decide_False by done. by destruct (list_find _ m) as [[? ?]|].
Qed.

Lemma jsmap_get_set_eq {V} (k : Z) (v : V) m : jsmap_get k (jsmap_set k v m) = Some v.
Proof.
  induction m as [|[k' v'] m IH]; simpl.
  - rewrite jsmap_get_cons. by rewrite bool_decide_eq_true_2.
  - case_bool_decide.
    + rewrite jsmap_get_cons. by rewrite bool_decide_eq_true_2.
    + rewrite jsmap_get_cons. by rewrite bool_decide_eq_false_2.
Qed.

Lemma jsmap_get_set_ne {V} (k k0 : Z) (v : V) m :
  k <> k0 -> jsmap_get k0 (jsmap_set k v m) = jsmap_get k0 m.
Proof.
  intros Hne. induction m as [|[k' v'] m IH]; simpl.
  - rewrite jsmap_get_cons. by rewrite bool_decide_eq_false_2.
  - case_bool_decide as Hk.
    + subst k'. rewrite !jsmap_get_cons. by rewrite !bool_decide_eq_false_2.
    + rewrite !jsmap_get_cons. by rewrite IH.
Qed.

Lemma jsmap_get_elem {V} (k : Z) (v : V) m : jsmap_get k m = Some v -> (k, v) ∈ m.
Proof.
  induction m as [|[k' v'] m IH]; [done|]. rewrite jsmap_get_cons.
  case_bool_decide as Hk.
  - intros [= ->]. subst. left.
  - intros H. right. by apply IH.
Qed.

(** ** updatePositionTracking *)

Lemma track_previous h a k :
  jsmap_get k (DeadlockHandler.previousPositions (DeadlockHandler.track h a))
  = if bool_decide (id a = k) then Some (pos a)
    else jsmap_get k (DeadlockHandler.previousPositions h).
Proof.
  unfold DeadlockHandler.track. cbn [DeadlockHandler.previousPositions].
  case_bool_decide as Hk.
  - subst k. apply jsmap_get_set_eq.
  - by apply jsmap_get_set_ne.
Qed.

Lemma track_waiting h a k :
  jsmap_get k (DeadlockHandler.waitingTime (DeadlockHandler.track h a))
  = if bool_decide (id a = k)
    then Some (if bool_decide (jsmap_get (id a) (DeadlockHandler.previousPositions h)
                               = Some (pos a))
               then default 0 (jsmap_get (id a) (DeadlockHandler.waitingTime h)) + 1
               else 0)
    else jsmap_get k (DeadlockHandler.waitingTime h).
Proof.
  unfold DeadlockHandler.track. cbn [DeadlockHandler.waitingTime].
  destruct (decide (id a = k)) as [<-|Hk].
  - rewrite (bool_decide_eq_true_2 (id a = id a)) by done.
    case_bool_decide; apply jsmap_get_set_eq.
  - rewrite (bool_decide_eq_false_2 (id a = k)) by done.
    case_bool_decide; by apply jsmap_get_set_ne.
Qed.

Lemma tracking_elsewhere agents : forall h k,
  k ∉ id <$> agents ->
  jsmap_get k (DeadlockHandler.previousPositions (foldl DeadlockHandler.track h agents))
  = jsmap_get k (DeadlockHandler.previousPositions h) /\
  jsmap_get k (DeadlockHandler.waitingTime (foldl DeadlockHandler.track h agents))
  = jsmap_get k (DeadlockHandler.waitingTime h).
Proof.
  induction agents as [|a agents IH]; intros h k Hk; [done|].
  rewrite fmap_cons, not_elem_of_cons in Hk. destruct Hk as [Hne Hk].
  simpl. destruct (IH (DeadlockHandler.track h a) k Hk) as [-> ->].
  rewrite track_previous, track_waiting. by rewrite !bool_decide_eq_false_2.
Qed.

(** X11: position tracking counts the ticks an agent has stood still: after
    it, the handler remembers the agent's cell, and the agent's waiting
    time is one more than before when the cell is the one remembered from
    the last call, and 0 otherwise.  Entries of other ids are untouched. *)
Theorem tracking_counts_standstill (h : DeadlockHandler.t) (agents : list Agent) (a : Agent) :
  NoDup (id <$> agents) -> a ∈ agents ->
  jsmap_get (id a) (DeadlockHandler.previousPositions
                      (DeadlockHandler.updatePositionTracking h agents)) = Some (pos a) /\
  jsmap_get (id a) (DeadlockHandler.waitingTime
                      (DeadlockHandler.updatePositionTracking h agents))
  = Some (if bool_decide (jsmap_get (id a) (DeadlockHandler.previousPositions h) = Some (pos a))
          then default 0 (jsmap_get (id a) (DeadlockHandler.waitingTime h)) + 1
          else 0) /\
  forall k, k ∉ id <$> agents ->
    jsmap_get k (DeadlockHandler.waitingTime
                   (DeadlockHandler.updatePositionTracking h agents))
    = jsmap_get k (DeadlockHandler.waitingTime h).
Proof.
  intros Hnd Ha. unfold DeadlockHandler.updatePositionTracking.
  split; [|split]; [| |intros k Hk; by apply tracking_elsewhere].
  - apply list_elem_of_split in Ha as (l1 & l2 & ->).
    rewrite fmap_app, fmap_cons in Hnd.
    apply NoDup_app in Hnd as (_ & H1 & H2). apply NoDup_cons in H2 as [H2 _].
    rewrite foldl_app. cbn [foldl].
    destruct (tracking_elsewhere l2 (DeadlockHandler.track (foldl DeadlockHandler.track h l1) a)
                (id a) H2) as [-> _].
    rewrite track_previous. by rewrite bool_decide_eq_true_2.
  - apply list_elem_of_split in Ha as (l1 & l2 & ->).
    rewrite fmap_app, fmap_cons in Hnd.
    apply NoDup_app in Hnd as (_ & H1 & H2). apply NoDup_cons in H2 as [H2 _].
    assert (id a ∉ id <$> l1) as H1'.
    { intros Hin. apply (H1 _ Hin). left. }
    rewrite foldl_app. cbn [foldl].
    destruct (tracking_elsewhere l2 (DeadlockHandler.track (foldl DeadlockHandler.track h l1) a)
                (id a) H2) as [_ ->].
    rewrite track_waiting. rewrite bool_decide_eq_true_2 by done.
    by destruct (tracking_elsewhere l1 h (id a) H1') as [-> ->].
Qed.

Definition standing_pair : list Agent :=
  [ mkAgent 0 (0, 0) (Some (2, 0)) []; mkAgent 1 (1, 0) (Some (0, 0)) [] ].

Lemma tracking_counts_standstill_witness :
  NoDup (id <$> standing_pair) /\ mkAgent 1 (1, 0) (Some (0, 0)) [] ∈ standing_pair /\
  jsmap_get 1 (DeadlockHandler.previousPositions
                 (DeadlockHandler.updatePositionTracking DeadlockHandler.new standing_pair))
  = Some (1, 0).
Proof.
  assert (NoDup (id <$> standing_pair)) as Hnd by (apply (bool_decide_unpack _); by vm_compute).
  assert (mkAgent 1 (1, 0) (Some (0, 0)) [] ∈ standing_pair) as Hin by (right; left).
  split; [exact Hnd|]. split; [exact Hin|].
  exact (proj1 (tracking_counts_standstill DeadlockHandler.new standing_pair _ Hnd Hin)).
Defined.

(** ** detectDeadlocks *)

Lemma push_new_spec dl i x : x ∈ DeadlockHandler.push_new dl i <-> x ∈ dl \/ x = i.
Proof.
  unfold DeadlockHandler.push_new. case_bool_decide as Hi.
  - split; [by left|]. intros [?| ->]; done.
  - rewrite elem_of_app, list_elem_of_singleton. done.
Qed.

Lemma foldl_push_new_spec vs : forall dl x,
  x ∈ foldl DeadlockHandler.push_new dl vs <-> x ∈ dl \/ x ∈ vs.
Proof.
  induction vs as [|v vs IH]; intros dl x; simpl.
  - rewrite elem_of_nil. tauto.
  - rewrite IH, push_new_spec, elem_of_cons. tauto.
Qed.

Lemma walk_keeps rounds m : forall current visited dl x,
  x ∈ dl -> x ∈ DeadlockHandler.walk rounds m current visited dl.
Proof.
  induction rounds as [|r IH]; intros current visited dl x Hx; simpl; [done|].
  destruct (jsmap_get current m); [|done].
  case_bool_decide; [|by apply IH]. apply foldl_push_new_spec. by left.
Qed.

Lemma walks_keep (m l : list (Z * Z)) : forall dl x,
  x ∈ dl ->
  x ∈ foldl (fun dl kv => DeadlockHandler.walk (S (length m)) m kv.2 [kv.1] dl) dl l.
Proof.
  induction l as [|kv l IH]; intros dl x Hx; [done|].
  cbn [foldl]. apply IH. by apply walk_keeps.
Qed.

Lemma walks_reach (m l : list (Z * Z)) (ka kb : Z) dl :
  (ka, kb) ∈ l ->
  (forall dl', ka ∈ DeadlockHandler.walk (S (length m)) m kb [ka] dl' /\
               kb ∈ DeadlockHandler.walk (S (length m)) m kb [ka] dl') ->
  ka ∈ foldl (fun dl kv => DeadlockHandler.walk (S (length m)) m kv.2 [kv.1] dl) dl l /\
  kb ∈ foldl (fun dl kv => DeadlockHandler.walk (S (length m)) m kv.2 [kv.1] dl) dl l.
Proof.
  intros Hin Hwalk. apply list_elem_of_split in Hin as (l1 & l2 & ->).
  rewrite foldl_app. cbn [foldl fst snd].
  destruct (Hwalk (foldl (fun dl kv => DeadlockHandler.walk (S (length m)) m kv.2 [kv.1] dl)
                         dl l1)) as [H1 H2].
  split; by apply walks_keep.
Qed.

(** X12: every agent whose waiting time has reached the threshold is
    reported by [detectDeadlocks]. *)
Theorem timed_out_agents_reported (h : DeadlockHandler.t) (agents : list Agent) (i w : Z) :
  jsmap_get i (DeadlockHandler.waitingTime h) = Some w ->
  DeadlockHandler.waitingThreshold h <= w ->
  i ∈ DeadlockHandler.detectDeadlocks h agents.
Proof.
  intros Hget Hw. unfold DeadlockHandler.detectDeadlocks, DeadlockHandler.detectCircularDeadlocks.
  apply walks_keep.
  apply list_elem_of_In, in_map_iff. exists (i, w). split; [done|].
  apply list_elem_of_In, list_elem_of_filter. split; [done|]. by apply jsmap_get_elem.
Qed.

Lemma timed_out_agents_reported_witness :
  jsmap_get 1 [(0, 0); (1, 3)] = Some 3 /\
  1 ∈ DeadlockHandler.detectDeadlocks
        {| DeadlockHandler.deadlockCount := 0; DeadlockHandler.waitingTime := [(0, 0); (1, 3)];
           DeadlockHandler.previousPositions := []; DeadlockHandler.waitingThreshold := 3 |}
        standing_pair.
Proof.
  split; [reflexivity|].
  apply (timed_out_agents_reported
           {| DeadlockHandler.deadlockCount := 0; DeadlockHandler.waitingTime := [(0, 0); (1, 3)];
              DeadlockHandler.previousPositions := []; DeadlockHandler.waitingThreshold := 3 |}
           standing_pair 1 3); [reflexivity|simpl; lia].
Defined.

(** The wait-for map. *)
Lemma waits_inner (k : Z) (next : Pos) (ka : Z) (others : list Agent) : forall m,
  let m' := foldl (fun m other =>
                     if bool_decide (ka ≠ id other) && bool_decide (pos other = next)
                     then jsmap_set ka (id other) m else m) m others in
  (k <> ka -> jsmap_get k m' = jsmap_get k m) /\
  (forall v, (forall o, o ∈ others -> ka ≠ id o -> pos o = next -> id o = v) ->
             (exists o, o ∈ others /\ ka ≠ id o /\ pos o = next) ->
             jsmap_get ka m' = Some v).
Proof.
  induction others as [|o others IH] using rev_ind; intros m m'.
  { split; [done|]. intros v _ (o & Ho & _). by apply elem_of_nil in Ho. }
  subst m'. rewrite foldl_app. cbn [foldl].
  set (m1 := foldl _ m others). destruct (IH m) as [IH1 IH2]. fold m1 in IH1, IH2.
  split.
  - intros Hk. destruct (_ && _); [|by apply IH1]. rewrite jsmap_get_set_ne by done. by apply IH1.
  - intros v Hall (o' & Ho' & Hid & Hpos).
    destruct (bool_decide (ka ≠ id o) && bool_decide (pos o = next)) eqn:Hc.
    + apply andb_true_iff in Hc as [Hc1%bool_decide_eq_true Hc2%bool_decide_eq_true].
      rewrite <- (Hall o); [apply jsmap_get_set_eq| |done|done].
      apply elem_of_app. right. left.
    + apply IH2.
      * intros o2 Ho2. apply Hall. apply elem_of_app. by left.
      * apply elem_of_app in Ho' as [Ho'|Ho']; [by exists o'|].
        apply list_elem_of_singleton in Ho' as ->.
        rewrite bool_decide_eq_true_2 in Hc by done.
        rewrite bool_decide_eq_true_2 in Hc by done. done.
Qed.

Lemma waitsFor_elsewhere agents m a k :
  k <> id a -> jsmap_get k (DeadlockHandler.waitsFor agents m a) = jsmap_get k m.
Proof.
  intros Hk. unfold DeadlockHandler.waitsFor.
  destruct (path a) as [|p0 [|next rest]]; [done..|].
  by apply (waits_inner k next (id a) agents m).
Qed.

Lemma waitsFor_all_elsewhere agents l : forall m k,
  k ∉ id <$> l -> jsmap_get k (foldl (DeadlockHandler.waitsFor agents) m l) = jsmap_get k m.
Proof.
  induction l as [|a l IH]; intros m k Hk; [done|].
  rewrite fmap_cons, not_elem_of_cons in Hk. destruct Hk as [Hne Hk].
  cbn [foldl]. rewrite IH by done. by apply waitsFor_elsewhere.
Qed.

Lemma NoDup_fmap_elem {A B} (f : A -> B) (l : list A) (a b : A) :
  NoDup (f <$> l) -> a ∈ l -> b ∈ l -> f a = f b -> a = b.
Proof.
  intros Hnd Ha Hb Hf.
  apply list_elem_of_lookup in Ha as [i Hi]. apply list_elem_of_lookup in Hb as [j Hj].
  assert (i = j) as ->.
  { apply (NoDup_lookup _ i j (f a) Hnd); rewrite list_lookup_fmap.
    - by rewrite Hi.
    - rewrite Hj. simpl. by rewrite Hf. }
  congruence.
Qed.

Lemma waits_for_blocker (agents : list Agent) (a b : Agent) :
  NoDup (id <$> agents) -> NoDup (pos <$> agents) ->
  a ∈ agents -> b ∈ agents -> id a <> id b ->
  path a !! 1%nat = Some (pos b) ->
  jsmap_get (id a) (foldl (DeadlockHandler.waitsFor agents) [] agents) = Some (id b).
Proof.
  intros Hids Hpos Ha Hb Hne Hpath.
  pose proof Ha as Hsplit. apply list_elem_of_split in Hsplit as (l1 & l2 & Hl).
  rewrite Hl at 2. rewrite foldl_app. cbn [foldl].
  rewrite Hl, fmap_app, fmap_cons in Hids.
  apply NoDup_app in Hids as (_ & _ & H2). apply NoDup_cons in H2 as [H2 _].
  rewrite waitsFor_all_elsewhere by done.
  unfold DeadlockHandler.waitsFor.
  destruct (path a) as [|p0 [|next rest]]; [done..|]. simpl in Hpath. injection Hpath as ->.
  apply (waits_inner (id a) (pos b) (id a) agents).
  - intros o Ho _ Hp. f_equal. by apply (NoDup_fmap_elem pos agents).
  - by exists b.
Qed.

(** X13: two agents that each want to step onto the other's cell are both
    reported by [detectDeadlocks], whatever their waiting times. *)
Theorem head_on_pair_reported (h : DeadlockHandler.t) (agents : list Agent) (a b : Agent) :
  NoDup (id <$> agents) -> NoDup (pos <$> agents) ->
  a ∈ agents -> b ∈ agents -> id a <> id b ->
  path a !! 1%nat = Some (pos b) -> path b !! 1%nat = Some (pos a) ->
  id a ∈ DeadlockHandler.detectDeadlocks h agents /\
  id b ∈ DeadlockHandler.detectDeadlocks h agents.
Proof.
  intros Hids Hpos Ha Hb Hne Hpa Hpb.
  unfold DeadlockHandler.detectDeadlocks, DeadlockHandler.detectCircularDeadlocks.
  set (m := foldl (DeadlockHandler.waitsFor agents) [] agents).
  set (dl0 := map fst _).
  assert (jsmap_get (id a) m = Some (id b)) as Hab by (by apply waits_for_blocker).
  assert (jsmap_get (id b) m = Some (id a)) as Hba by (by apply waits_for_blocker).
  pose proof (jsmap_get_elem _ _ _ Hab) as Hin.
  assert (exists r, length m = S r) as [r Hr].
  { destruct m; [by apply elem_of_nil in Hin|]. by eexists. }
  apply (walks_reach m m (id a) (id b) dl0 Hin).
  intros dl1. rewrite Hr. cbn [DeadlockHandler.walk]. rewrite Hba.
  rewrite bool_decide_eq_false_2.
  2: { intros Hin'%list_elem_of_singleton. by apply Hne. }
  rewrite Hab. rewrite bool_decide_eq_true_2 by (apply elem_of_app; left; left).
  split; apply foldl_push_new_spec; right.
  - left.
  - right. left.
Qed.

Definition facing_pair : list Agent :=
  [ mkAgent 0 (0, 0) (Some (2, 0)) [(0, 0); (1, 0); (2, 0)];
    mkAgent 1 (1, 0) (Some (0, 0)) [(1, 0); (0, 0)] ].

Lemma head_on_pair_reported_witness :
  NoDup (id <$> facing_pair) /\ NoDup (pos <$> facing_pair) /\
  0 ∈ DeadlockHandler.detectDeadlocks DeadlockHandler.new facing_pair.
Proof.
  assert (NoDup (id <$> facing_pair)) as Hids by (apply (bool_decide_unpack _); by vm_compute).
  assert (NoDup (pos <$> facing_pair)) as Hpos by (apply (bool_decide_unpack _); by vm_compute).
  split; [exact Hids|]. split; [exact Hpos|].
  refine (proj1 (head_on_pair_reported DeadlockHandler.new facing_pair
                   (mkAgent 0 (0, 0) (Some (2, 0)) [(0, 0); (1, 0); (2, 0)])
                   (mkAgent 1 (1, 0) (Some (0, 0)) [(1, 0); (0, 0)])
                   Hids Hpos _ _ _ eq_refl eq_refl)).
  - left.
  - right; left.
  - simpl. lia.
Defined.

(** ** resolveDeadlocks *)

Lemma findAlternativePath_replans g i :
  replans (fun ags => (DeadlockHandler.findAlternativePath g ags i).1).
Proof.
  intros l0 l H. unfold DeadlockHandler.findAlternativePath.
  destruct (l !! i); [|done]. destruct (1 <? _); [|done].
  cbn [fst]. by apply replans_modify.
Qed.

Lemma temporaryRetreat_replans g i :
  replans (fun ags => (DeadlockHandler.temporaryRetreat g ags i).1).
Proof.
  intros l0 l H. unfold DeadlockHandler.temporaryRetreat.
  destruct (l !! i); [|done]. destruct (stable_sort _ _); [done|].
  cbn [fst]. by apply replans_modify.
Qed.

Lemma createClearedPathForAgent_replans g i :
  replans (fun ags => (DeadlockHandler.createClearedPathForAgent g ags i).1).
Proof.
  intros l0 l H. unfold DeadlockHandler.createClearedPathForAgent.
  destruct (l !! i); [|done]. destruct (1 <? _); [|done].
  cbn [fst]. by apply replans_modify.
Qed.

Lemma resolveOne_replans g agentId :
  replans (fun ags => DeadlockHandler.resolveOne g ags agentId).
Proof.
  intros l0 l H. unfold DeadlockHandler.resolveOne.
  destruct (find_by_id agentId l) as [i|]; [|done].
  pose proof (findAlternativePath_replans g i l0 l H) as H1. cbv beta in H1.
  destruct (DeadlockHandler.findAlternativePath g l i) as [ags1 found].
  cbn [fst] in H1. destruct found; [exact H1|].
  pose proof (temporaryRetreat_replans g i l0 ags1 H1) as H2. cbv beta in H2.
  destruct (DeadlockHandler.temporaryRetreat g ags1 i) as [ags2 retreated].
  cbn [fst] in H2. destruct retreated; [exact H2|].
  exact (createClearedPathForAgent_replans g i l0 ags2 H2).
Qed.

(** X14: resolving deadlocks only re-plans: every agent keeps its id, its
    cell, its target and its visibility range, no agent is added or
    removed, and the handler's waiting times and remembered cells are left
    as they are. *)
Theorem resolveDeadlocks_only_replans (h : DeadlockHandler.t) (g : Grid)
    (agents : list Agent) (ids : list Z) :
  Forall2 (fun a a' => id a' = id a /\ pos a' = pos a /\ targetX a' = targetX a /\
                       targetY a' = targetY a /\ visibilityRange a' = visibilityRange a)
          agents (DeadlockHandler.resolveDeadlocks h g agents ids).2 /\
  DeadlockHandler.waitingTime (DeadlockHandler.resolveDeadlocks h g agents ids).1
  = DeadlockHandler.waitingTime h /\
  DeadlockHandler.previousPositions (DeadlockHandler.resolveDeadlocks h g agents ids).1
  = DeadlockHandler.previousPositions h.
Proof.
  assert (Forall2 replanned agents agents) as Hrefl.
  { apply Forall2_same_length_lookup_2; [done|]. intros i a b Ha Hb.
    rewrite Ha in Hb. injection Hb as <-. by repeat split. }
  unfold DeadlockHandler.resolveDeadlocks. destruct ids as [|i ids]; [done|].
  cbn [fst snd]. split; [|done].
  apply (replans_foldl _ _ (resolveOne_replans g) agents agents Hrefl).
Qed.

(** ** temporaryRetreat *)

(** An orthogonal neighbour of the agent's cell that is a free cell of the
    grid and holds no agent with another id. *)
Definition retreat_cell (g : Grid) (agents : list Agent) (a : Agent) (n : Pos) : Prop :=
  adjacent VonNeumann (pos a) n /\ passable g n /\
  forall b, b ∈ agents -> id b <> id a -> pos b <> n.

Lemma elem_of_retreatOptions g agents a (r : Pos * Z) :
  r ∈ DeadlockHandler.retreatOptions g agents a <->
  retreat_cell g agents a r.1 /\ r.2 = distTo r.1 (targetX a) (targetY a).
Proof.
  unfold DeadlockHandler.retreatOptions. rewrite list_elem_of_omap. split.
  - intros (d & Hd & Hr).
    destruct (in_bounds g _ && _ && _) eqn:Hc; [|done]. injection Hr as <-. cbn [fst snd].
    apply andb_true_iff in Hc as [Hc Hfree]. apply andb_true_iff in Hc as [Hin Hwall].
    apply negb_true_iff in Hwall, Hfree.
    split; [|done]. split; [by exists d|]. split; [done|].
    intros b Hb Hid Hpos.
    assert (existsb (fun a0 => bool_decide (id a0 ≠ id a) && bool_decide (pos a0 = pos_add (pos a) d))
                    agents = true) as Hex; [|congruence].
    apply existsb_exists. exists b. split; [by apply list_elem_of_In|].
    by rewrite !bool_decide_eq_true_2.
  - intros [((d & Hd & Hn) & [Hin Hwall] & Hfree) Hdist]. exists d. split; [done|].
    rewrite <- Hn, Hin, Hwall. cbn [negb andb].
    destruct (existsb _ agents) eqn:Hex.
    + apply existsb_exists in Hex as (b & Hb%list_elem_of_In & Hc).
      apply andb_true_iff in Hc as [Hc1%bool_decide_eq_true Hc2%bool_decide_eq_true].
      destruct (Hfree b Hb Hc1 Hc2).
    + cbn [negb]. destruct r as [n dist]. cbn [fst snd] in *. by subst.
Qed.

(** X15: the retreat step goes to an orthogonal neighbour that is a free
    cell of the grid with no other agent on it, one nearest to the agent's
    target among such cells, and marks the agent as retreating; it fails,
    changing nothing, exactly when there is no such cell. *)
Theorem temporaryRetreat_spec (g : Grid) (agents : list Agent) (i : nat) (a : Agent) :
  agents !! i = Some a ->
  match DeadlockHandler.temporaryRetreat g agents i with
  | (ags', true) =>
      exists r, retreat_cell g agents a r /\
        (forall n, retreat_cell g agents a n ->
                   distTo r (targetX a) (targetY a) <= distTo n (targetX a) (targetY a)) /\
        ags' = <[i := set_isRetreating true (set_path [pos a; r] a)]> agents
  | (ags', false) => ags' = agents /\ forall n, ~ retreat_cell g agents a n
  end.
Proof.
  intros Ha. unfold DeadlockHandler.temporaryRetreat. rewrite Ha.
  set (opts := DeadlockHandler.retreatOptions g agents a).
  pose proof (stable_sort_ranked (fun a b : Pos * Z => a.2 <=? b.2)
                (fun a b : Pos * Z => a.2 <= b.2) opts) as Hsorted.
  destruct (stable_sort _ opts) as [|retreat rest] eqn:Hs.
  - split; [done|]. intros n Hn.
    assert ((n, distTo n (targetX a) (targetY a)) ∈ opts) as Hin
        by (by apply elem_of_retreatOptions).
    apply (elem_of_stable_sort (fun a b : Pos * Z => a.2 <=? b.2)) in Hin.
    rewrite Hs in Hin. by apply elem_of_nil in Hin.
  - assert (retreat ∈ opts) as Hin.
    { apply (elem_of_stable_sort (fun a b : Pos * Z => a.2 <=? b.2)). rewrite Hs. left. }
    apply elem_of_retreatOptions in Hin as [Hcell Hdist].
    exists retreat.1. split; [done|]. split.
    + intros n Hn.
      assert ((n, distTo n (targetX a) (targetY a)) ∈ retreat :: rest) as Hn'.
      { rewrite <- Hs. apply elem_of_stable_sort. by apply elem_of_retreatOptions. }
      rewrite <- Hdist.
      apply elem_of_cons in Hn' as [<-|Hn']; [simpl; lia|].
      assert (StronglySorted (fun a b : Pos * Z => a.2 <= b.2) (retreat :: rest)) as Hss.
      { apply Hsorted.
        - intros ? ? ?. lia.
        - intros ? ? ?%Z.leb_le. done.
        - intros ? ? ?%Z.leb_gt. lia. }
      apply StronglySorted_inv in Hss as [_ Hall].
      by apply (proj1 (Forall_forall _ _) Hall) in Hn'.
    + unfold modify. rewrite list_insert_alter.
      apply list_eq. intros j. destruct (decide (j = i)) as [->|Hne].
      * rewrite !list_lookup_alter_eq, Ha. done.
      * by rewrite !list_lookup_alter_ne.
Qed.

Lemma temporaryRetreat_spec_witness :
  facing_pair !! 1%nat = Some (mkAgent 1 (1, 0) (Some (0, 0)) [(1, 0); (0, 0)]) /\
  (DeadlockHandler.temporaryRetreat (empty_grid 3) facing_pair 1).2 = true.
Proof.
  split; [reflexivity|].
  pose proof (temporaryRetreat_spec (empty_grid 3) facing_pair 1 _ eq_refl) as H.
  destruct (DeadlockHandler.temporaryRetreat (empty_grid 3) facing_pair 1) as [ags' [|]].
  - reflexivity.
  - destruct H as [_ H]. exfalso. apply (H (1, 1)). split; [|split].
    + apply adjacent_diff, (bool_decide_unpack _). by vm_compute.
    + split; by vm_compute.
    + intros b Hb _ Hpos. apply list_elem_of_In in Hb. simpl in Hb.
      destruct Hb as [<-|[<-|[]]]; discriminate Hpos.
Defined.

(** ** findAlternativePath *)

Lemma length_grid_set g p v : length (grid_set g p v) = length g.
Proof. unfold grid_set. destruct (_ && _); [|done]. unfold Grid in *. apply length_alter. Qed.

Lemma cols_grid_set g p v : cols (grid_set g p v) = cols g.
Proof.
  unfold cols, grid_set. destruct (_ && _); [|done]. unfold Grid in *.
  destruct (decide (Z.to_nat p.2 = 0%nat)) as [->|Hne].
  - rewrite list_lookup_alter_eq. destruct (g !! 0%nat); [|done]. simpl. by rewrite length_insert.
  - by rewrite list_lookup_alter_ne.
Qed.

Lemma in_bounds_grid_set g p v q : in_bounds (grid_set g p v) q = in_bounds g q.
Proof. unfold in_bounds, rows. by rewrite cols_grid_set, length_grid_set. Qed.

Lemma in_bounds_createModifiedGrid agents : forall g q,
  in_bounds (DeadlockHandler.createModifiedGrid g agents) q = in_bounds g q.
Proof.
  unfold DeadlockHandler.createModifiedGrid.
  induction agents as [|a agents IH]; intros g q; [done|]. simpl. rewrite IH.
  destruct (atTarget a); by rewrite !in_bounds_grid_set.
Qed.

Lemma createModifiedGrid_walls agents : forall g (a : Agent),
  a ∈ agents -> is_Some (cell g (x a) (y a)) ->
  cell (DeadlockHandler.createModifiedGrid g agents) (x a) (y a) = Some CELL_WALL.
Proof.
  induction agents as [|b agents IH]; intros g a Hin Hs; [by apply elem_of_nil in Hin|].
  unfold DeadlockHandler.createModifiedGrid. simpl.
  fold (DeadlockHandler.createModifiedGrid
          (if atTarget b then grid_set (grid_set g (pos b) 1) (pos b) 1
           else grid_set g (pos b) 1) agents).
  apply elem_of_cons in Hin as [->|Hin].
  - apply (createModifiedGrid_keeps agents _ (pos b)).
    destruct (atTarget b); rewrite !(cell_grid_set_eq _ (pos b)); try done.
    by rewrite (cell_grid_set_is_Some _ _ _ (pos b)).
  - apply IH; [done|].
    destruct (atTarget b); rewrite !(cell_grid_set_is_Some _ _ _ (pos a)); done.
Qed.

Lemma route_tail_passable g topo l q : route g topo l -> q ∈ tail l -> passable g q.
Proof.
  induction 1 as [p|p q' l Hadj Hq Hr IH]; simpl; [by intros ?%elem_of_nil|].
  intros [->|Hin]%elem_of_cons; [done|]. by apply IH.
Qed.

(** X16: with every agent on a cell of the grid, a path found by the first
    resolution tactic leads from the agent's cell to its target by
    orthogonal steps, and every cell after the first is a free cell of the
    grid on which no agent stands. *)
Theorem alternative_path_avoids_agents (g : Grid) (agents ags' : list Agent) (i : nat) :
  Forall (fun b => is_Some (cell g (x b) (y b))) agents ->
  DeadlockHandler.findAlternativePath g agents i = (ags', true) ->
  exists a l tx ty,
    agents !! i = Some a /\ ags' = <[i := set_path l a]> agents /\
    targetX a = Some tx /\ targetY a = Some ty /\
    head l = Some (pos a) /\ last l = Some (tx, ty) /\ trail VonNeumann l /\
    forall q, q ∈ tail l -> passable g q /\ forall b, b ∈ agents -> pos b <> q.
Proof.
  intros Hcells. unfold DeadlockHandler.findAlternativePath.
  destruct (agents !! i) as [a|] eqn:Ha; [|done].
  set (mg := DeadlockHandler.createModifiedGrid g agents).
  destruct (1 <? _) eqn:Hlen; [|done]. intros [= <-].
  unfold toGoal in *.
  destruct (targetX a) as [tx|] eqn:Htx; [|done].
  destruct (targetY a) as [ty|] eqn:Hty; [|done].
  set (l := AStar.findPath (AStar.new_default mg) (pos a) (tx, ty)) in *.
  exists a, l, tx, ty.
  destruct (findPath_route mg VonNeumann (pos a) (tx, ty)) as [Hnil|(Hroute & Hhead & Hlast)].
  { fold (AStar.new_default mg) in Hnil. fold l in Hnil. by rewrite Hnil in Hlen. }
  fold (AStar.new_default mg) in Hroute, Hhead, Hlast. fold l in Hroute, Hhead, Hlast.
  split; [done|]. split.
  { unfold modify. rewrite list_insert_alter.
    apply list_eq. intros j. destruct (decide (j = i)) as [->|Hne].
    - rewrite !list_lookup_alter_eq, Ha. done.
    - by rewrite !list_lookup_alter_ne. }
  repeat (split; [done|]). split; [by eapply route_trail|].
  intros q Hq. destruct (route_tail_passable _ _ _ _ Hroute Hq) as [Hin Hwall].
  subst mg. rewrite in_bounds_createModifiedGrid in Hin.
  unfold is_wall_cell in Hwall. apply bool_decide_eq_false in Hwall.
  split; [split; [done|]|].
  - unfold is_wall_cell. apply bool_decide_eq_false. intros Hw. apply Hwall.
    by apply (createModifiedGrid_keeps agents g q).
  - intros b Hb <-. apply Hwall.
    apply (createModifiedGrid_walls agents g b Hb).
    by apply (proj1 (Forall_forall _ _) Hcells).
Qed.

Definition passing_pair : list Agent :=
  [ mkAgent 0 (0, 0) (Some (2, 0)) []; mkAgent 1 (1, 0) (Some (1, 0)) [] ].

Lemma alternative_path_avoids_agents_witness :
  Forall (fun b => is_Some (cell (empty_grid 3) (x b) (y b))) passing_pair /\
  (DeadlockHandler.findAlternativePath (empty_grid 3) passing_pair 0).2 = true /\
  exists a l, passing_pair !! 0%nat = Some a /\
    (DeadlockHandler.findAlternativePath (empty_grid 3) passing_pair 0).1
    = <[0%nat := set_path l a]> passing_pair.
Proof.
  assert (Forall (fun b => is_Some (cell (empty_grid 3) (x b) (y b))) passing_pair) as Hcells.
  { repeat (apply Forall_cons_2; [by eexists|]). apply Forall_nil_2. }
  assert (DeadlockHandler.findAlternativePath (empty_grid 3) passing_pair 0
          = ((DeadlockHandler.findAlternativePath (empty_grid 3) passing_pair 0).1, true)) as Heq
      by (by vm_compute).
  split; [exact Hcells|]. split; [by vm_compute|].
  destruct (alternative_path_avoids_agents (empty_grid 3) passing_pair _ 0 Hcells Heq)
    as (a & l & tx & ty & Ha & Hags & _).
  exists a, l. split; [exact Ha|exact Hags].
Defined.

(** X17: with at least as many goals as agents, [assignTargets] gives
    every agent a target: a goal of the list, taken from a position in the
    list that no other agent's target is taken from.  Goals, ids and cells
    stay as they are. *)
Theorem every_agent_gets_its_own_goal {num : Type} {N : JSNum num} {E : Type} {R : Random E}
    (s : Sim.t (E := E)) :
  (length (Sim.agents s) <= length (Sim.targetPositions s))%nat ->
  Sim.targetPositions (Sim.assignTargets s) = Sim.targetPositions s /\
  exists js : list nat,
    NoDup js /\
    Forall2 (fun a j => exists t, Sim.targetPositions s !! j = Some t /\
                                  targetX a = Some t.1 /\ targetY a = Some t.2)
            (Sim.agents (Sim.assignTargets s)) js.
Proof. apply assignTargets_goals. Qed.

Lemma every_agent_gets_its_own_goal_witness :
  (length (Sim.agents two_agents) <= length (Sim.targetPositions two_agents))%nat /\
  Sim.targetPositions (Sim.assignTargets (num := option Q) two_agents)
  = Sim.targetPositions two_agents.
Proof.
  assert (length (Sim.agents two_agents) <= length (Sim.targetPositions two_agents))%nat as Hle
      by (simpl; lia).
  split; [exact Hle|].
  exact (proj1 (every_agent_gets_its_own_goal (N := QNum) (R := NoRandom) two_agents Hle)).
Defined.
